(** * go-fluent-sql: the query compilation engine

    A shallow embedding of the MySQL grammar ([dialect/mysql.go]), the
    identifier and operator validators ([internal/validation]) and the
    query builder ([Builder]), followed by the properties the
    specification states about them.

    Go strings are byte sequences: they are modelled by [string], whose
    characters are the 256 values of [ascii]. *)

From Stdlib Require Import ZArith Ascii String Decimal DecimalString.
From stdpp Require Import gmap strings list sorting.

Local Open Scope char_scope.
Local Open Scope stdpp_scope.

(** ** Errors

    Go's [error] interface, as the sum of the concrete error types the
    packages construct. Sentinel errors are compared by value. *)

Inductive error : Type :=
| IdentifierError (Identifier Reason : string)   (* validation.IdentifierError *)
| OperatorError (Operator Reason : string)       (* validation.OperatorError *)
| DialectError (Message : string)                (* dialect.DialectError *)
| PlainError (msg : string).                     (* errors.New, fmt.Errorf *)

#[global] Instance error_eq_dec : EqDecision error.
Proof. solve_decision. Defined.

(** The [Error()] method of each error type. *)
Definition Error (e : error) : string :=
  match e with
  | IdentifierError id reason =>
      if decide (id = "") then "fluentsql: invalid identifier: " +:+ reason
      else "fluentsql: invalid identifier '" +:+ id +:+ "': " +:+ reason
  | OperatorError op reason =>
      "fluentsql: invalid operator '" +:+ op +:+ "': " +:+ reason
  | DialectError msg => "dialect: " +:+ msg
  | PlainError msg => msg
  end.

(** ** The parts of Go's standard library the grammar calls *)

Module strings.

(** [strings.HasPrefix(s, prefix)] *)
Fixpoint HasPrefix (s prefix : string) : bool :=
  match prefix, s with
  | EmptyString, _ => true
  | String a p, String b r => if Ascii.eqb a b then HasPrefix r p else false
  | String _ _, EmptyString => false
  end.

(** [strings.Contains(s, substr)] *)
Fixpoint Contains (s substr : string) : bool :=
  HasPrefix s substr
  || match s with
     | EmptyString => false
     | String _ r => Contains r substr
     end.

(** [strings.IndexByte(s, c) >= 0] *)
Fixpoint ContainsByte (s : string) (c : ascii) : bool :=
  match s with
  | EmptyString => false
  | String b r => Ascii.eqb b c || ContainsByte r c
  end.

(** [strings.ContainsAny(s, chars)], for [chars] made of ASCII bytes (the
    grammar passes the constant [" ()"]). *)
Fixpoint ContainsAny (s chars : string) : bool :=
  match s with
  | EmptyString => false
  | String c r => ContainsByte chars c || ContainsAny r chars
  end.

(** [strings.Count(s, string(c))] for a one-byte substring. *)
Fixpoint Count (s : string) (c : ascii) : nat :=
  match s with
  | EmptyString => 0
  | String b r => (if Ascii.eqb b c then 1 else 0) + Count r c
  end.

(** [strings.Split(s, string(sep))] for a one-byte separator (the grammar
    splits on ["."]): the pieces between the separators, [[""]] for the
    empty string. *)
Fixpoint Split (s : string) (sep : ascii) : list string :=
  match s with
  | EmptyString => [""]
  | String c r =>
      if Ascii.eqb c sep then "" :: Split r sep
      else match Split r sep with
           | x :: xs => String c x :: xs
           | [] => [String c ""]
           end
  end.

(** [strings.Join(elems, sep)] *)
Fixpoint Join (elems : list string) (sep : string) : string :=
  match elems with
  | [] => ""
  | x :: rest =>
      match rest with
      | [] => x
      | _ :: _ => x +:+ sep +:+ Join rest sep
      end
  end.

Definition is_lower (c : ascii) : bool := ("a" <=? c) && (c <=? "z").
Definition is_upper (c : ascii) : bool := ("A" <=? c) && (c <=? "Z").
Definition is_digit (c : ascii) : bool := ("0" <=? c) && (c <=? "9").

(** 'a'..'z' to 'A'..'Z' : subtract 32. *)
Definition to_upper (c : ascii) : ascii :=
  if is_lower c then ascii_of_N (N_of_ascii c - 32) else c.

(** [strings.ToUpper(s)] on the ASCII range: every byte 'a'..'z' is
    replaced by its capital, every other byte is kept. (Go also maps the
    letters beyond ASCII; none of them is or becomes an ASCII
    punctuation byte.) *)
Fixpoint ToUpper (s : string) : string :=
  match s with
  | EmptyString => ""
  | String c r => String (to_upper c) (ToUpper r)
  end.

(** White space as [strings.TrimSpace] sees it in the ASCII range:
    '\t', '\n', '\v', '\f', '\r', ' '. *)
Definition is_space (c : ascii) : bool :=
  match N_of_ascii c with
  | 9 | 10 | 11 | 12 | 13 | 32 => true
  | _ => false
  end%N.

Fixpoint TrimLeft (s : string) : string :=
  match s with
  | EmptyString => ""
  | String c r => if is_space c then TrimLeft r else s
  end.

Fixpoint TrimRight (s : string) : string :=
  match s with
  | EmptyString => ""
  | String c r =>
      match TrimRight r with
      | EmptyString => if is_space c then "" else String c ""
      | String _ _ as t => String c t
      end
  end.

(** [strings.TrimSpace(s)] *)
Definition TrimSpace (s : string) : string := TrimRight (TrimLeft s).

End strings.

Module sort.
(** [sort.Strings(keys)]: the keys in increasing byte-wise lexicographic
    order. *)
Definition Strings (keys : list string) : list string :=
  merge_sort String.le keys.
End sort.

Module fmt.
(** [fmt.Sprintf("%d", n)] *)
Definition Sprint_d (n : Z) : string := NilZero.string_of_int (Z.to_int n).
End fmt.

(** ** internal/validation *)

Module validation.
Import strings.

Definition is_letter (c : ascii) : bool := is_lower c || is_upper c.

(** The class [[a-zA-Z_]] *)
Definition ident_start (c : ascii) : bool := is_letter c || Ascii.eqb c "_".

(** The class [[a-zA-Z0-9_]] *)
Definition ident_char (c : ascii) : bool :=
  is_letter c || is_digit c || Ascii.eqb c "_".

(** [[a-zA-Z0-9_]*] at the head of [s]: what is left after it. What follows
    the star in [identifierRegex] is a dot or the end of the text, neither
    of them in the class, so the star takes every byte of the class. *)
Fixpoint skip_ident_chars (s : string) : string :=
  match s with
  | EmptyString => ""
  | String c r => if ident_char c then skip_ident_chars r else s
  end.

(** [[a-zA-Z_][a-zA-Z0-9_]*] at the head of [s]: what is left after it. *)
Definition skip_ident (s : string) : option string :=
  match s with
  | EmptyString => None
  | String c r => if ident_start c then Some (skip_ident_chars r) else None
  end.

(** [identifierRegex.MatchString(s)] for
    ^ I ( \. I )? $   where I is  [a-zA-Z_] [a-zA-Z0-9_]*  .
    In Go's regexp $ is the end of the text only. *)
Definition identifierRegex_MatchString (s : string) : bool :=
  match skip_ident s with
  | None => false
  | Some EmptyString => true
  | Some (String c r) =>
      Ascii.eqb c "."
      && match skip_ident r with
         | Some EmptyString => true
         | _ => false
         end
  end.

(** [aliasRegex] is, with the flag (?i),
    ^ ( I ) \s+ (?: as \s+ )? ( I ) $   where I is  [a-zA-Z_] [a-zA-Z0-9_]*  .
    Under [(?i)] Go folds case over Unicode: besides both ASCII cases the
    letter classes accept U+017F (bytes C5 BF, folds with s) and U+212A
    (bytes E2 84 AA, folds with k), and the literal [s] accepts U+017F. *)

(** [[a-zA-Z0-9_]*] under [(?i)] at the head of [s]: the bytes taken and
    what is left. A rune is one byte of the class, or the two bytes of
    U+017F, or the three bytes of U+212A. *)
Fixpoint span_ident_chars_i (s : string) : string * string :=
  match s with
  | EmptyString => ("", "")
  | String c r =>
      if ident_char c then
        let '(m, t) := span_ident_chars_i r in (String c m, t)
      else
        match r with
        | EmptyString => ("", s)
        | String c2 r2 =>
            if Ascii.eqb c "197" && Ascii.eqb c2 "191" then
              let '(m, t) := span_ident_chars_i r2 in
              (String c (String c2 m), t)
            else
              match r2 with
              | EmptyString => ("", s)
              | String c3 r3 =>
                  if Ascii.eqb c "226" && Ascii.eqb c2 "132"
                     && Ascii.eqb c3 "170" then
                    let '(m, t) := span_ident_chars_i r3 in
                    (String c (String c2 (String c3 m)), t)
                  else ("", s)
              end
        end
  end.

(** [[a-zA-Z_][a-zA-Z0-9_]*] under [(?i)] at the head of [s]. *)
Definition span_ident_i (s : string) : option (string * string) :=
  match s with
  | EmptyString => None
  | String c r =>
      if ident_start c then
        let '(m, t) := span_ident_chars_i r in Some (String c m, t)
      else
        match r with
        | EmptyString => None
        | String c2 r2 =>
            if Ascii.eqb c "197" && Ascii.eqb c2 "191" then
              let '(m, t) := span_ident_chars_i r2 in
              Some (String c (String c2 m), t)
            else
              match r2 with
              | EmptyString => None
              | String c3 r3 =>
                  if Ascii.eqb c "226" && Ascii.eqb c2 "132"
                     && Ascii.eqb c3 "170" then
                    let '(m, t) := span_ident_chars_i r3 in
                    Some (String c (String c2 (String c3 m)), t)
                  else None
              end
        end
  end.

(** [\s] is [[\t\n\f\r ]]. *)
Definition regex_space (c : ascii) : bool :=
  match N_of_ascii c with
  | 9 | 10 | 12 | 13 | 32 => true
  | _ => false
  end%N.

Fixpoint skip_regex_spaces (s : string) : string :=
  match s with
  | EmptyString => ""
  | String c r => if regex_space c then skip_regex_spaces r else s
  end.

(** [\s+] at the head of [s]: what is left after it. *)
Definition skip_spaces1 (s : string) : option string :=
  match s with
  | EmptyString => None
  | String c r => if regex_space c then Some (skip_regex_spaces r) else None
  end.

(** The literal [as] under [(?i)] at the head of [s]: [a] or [A], then
    [s], [S] or U+017F. *)
Definition skip_as_i (s : string) : option string :=
  match s with
  | String a (String b r) =>
      if Ascii.eqb a "a" || Ascii.eqb a "A" then
        if Ascii.eqb b "s" || Ascii.eqb b "S" then Some r
        else
          match r with
          | String b2 r' =>
              if Ascii.eqb b "197" && Ascii.eqb b2 "191" then Some r'
              else None
          | EmptyString => None
          end
      else None
  | _ => None
  end.

(** The second group, anchored at the end of the text. *)
Definition ident_i_to_end (s : string) : option string :=
  match span_ident_i s with
  | Some (m, EmptyString) => Some m
  | _ => None
  end.

(** [aliasRegex.FindStringSubmatch(table)]: groups 1 and 2 of the match,
    [None] for Go's nil. The optional [as\s+] is tried first; when the
    rest then fails the match is retried without it. *)
Definition aliasRegex_FindStringSubmatch (table : string)
  : option (string * string) :=
  match span_ident_i table with
  | None => None
  | Some (name, t1) =>
      match skip_spaces1 t1 with
      | None => None
      | Some t2 =>
          let with_as :=
            match skip_as_i t2 with
            | None => None
            | Some t3 =>
                match skip_spaces1 t3 with
                | None => None
                | Some t4 => ident_i_to_end t4
                end
            end in
          match with_as with
          | Some alias => Some (name, alias)
          | None =>
              match ident_i_to_end t2 with
              | Some alias => Some (name, alias)
              | None => None
              end
          end
      end
  end.

(** [ValidateIdentifier(id)]: [None] is Go's nil error. *)
Definition ValidateIdentifier (id : string) : option error :=
  if decide (id = "") then
    Some (IdentifierError id "identifier cannot be empty")
  else if decide (128 < String.length id) then
    Some (IdentifierError id
            "identifier exceeds maximum length of 128 characters")
  else if negb (identifierRegex_MatchString id) then
    Some (IdentifierError id
            "identifier contains invalid characters; only letters, numbers, underscores, and dots are allowed")
  else None.

(** [ValidateTableWithAlias(table)] returns [(name, alias, err)]. *)
Definition ValidateTableWithAlias (table : string)
  : string * string * option error :=
  if decide (table = "") then
    ("", "", Some (IdentifierError table "table name cannot be empty"))
  else
    match aliasRegex_FindStringSubmatch table with
    | Some (name, alias) =>
        match ValidateIdentifier name with
        | Some err => ("", "", Some err)
        | None =>
            match ValidateIdentifier alias with
            | Some err =>
                ("", "", Some (IdentifierError alias
                                 ("invalid alias: " +:+ Error err)))
            | None => (name, alias, None)
            end
        end
    | None =>
        match ValidateIdentifier table with
        | Some err => ("", "", Some err)
        | None => (table, "", None)
        end
    end.

(** [allowedOperators], a [map[string]bool]. *)
Definition allowedOperators : gmap string bool :=
  list_to_map
    [("=", true); ("!=", true); ("<>", true); ("<", true); (">", true);
     ("<=", true); (">=", true);
     ("LIKE", true); ("NOT LIKE", true);
     ("IS", true); ("IS NOT", true);
     ("IN", true); ("NOT IN", true);
     ("BETWEEN", true); ("NOT BETWEEN", true);
     ("<=>", true)].

(** Reading a [map[string]bool] at a key: false when the key is absent. *)
Definition map_bool_get (m : gmap string bool) (k : string) : bool :=
  default false (m !! k).

(** [ValidateOperator(op)] *)
Definition ValidateOperator (op : string) : option error :=
  let normalized := ToUpper (TrimSpace op) in
  if negb (map_bool_get allowedOperators normalized) then
    Some (OperatorError op "operator not in allowed list")
  else None.

(** [ValidateColumn(column)] *)
Definition ValidateColumn (column : string) : option error :=
  ValidateIdentifier column.

(** [SplitTableColumn(ref)] returns [(table, column, err)]. The switch is on
    the number of pieces of [strings.Split(ref, ".")]. *)
Definition SplitTableColumn (ref : string) : string * string * option error :=
  match Split ref "." with
  | [part] =>
      match ValidateIdentifier part with
      | Some err => ("", "", Some err)
      | None => ("", part, None)
      end
  | [part0; part1] =>
      match ValidateIdentifier part0 with
      | Some err => ("", "", Some err)
      | None =>
          match ValidateIdentifier part1 with
          | Some err => ("", "", Some err)
          | None => (part0, part1, None)
          end
      end
  | _ =>
      ("", "",
       Some (IdentifierError ref
               "column reference can have at most one dot (table.column)"))
  end.







End validation.

(** ** Bound values

    Go's [any], for the values a caller binds to a placeholder. *)

Inductive any : Type :=
| AnyNil
| AnyString (s : string)
| AnyInt (n : Z)
| AnyBool (b : bool).

#[global] Instance any_eq_dec : EqDecision any.
Proof. solve_decision. Defined.

#[global] Instance any_inhabited : Inhabited any := populate AnyNil.

(** ** Returning an error

    Every error return of the grammar has the shape [return "", nil, err]
    (or [return "", err]): the zero value of each other result. [fail] is
    that return at each result type, and [let? x := c in k] is

      x, err := c; if err != nil { return "", nil, err }; k *)

Class Fail (R : Type) := fail : error → R.

#[global] Instance fail_string : Fail (string * option error) :=
  fun err => ("", Some err).
#[global] Instance fail_strings : Fail (list string * option error) :=
  fun err => ([], Some err).
(** [(string, []any, error)] of the unexported helpers: their slice is only
    ever passed to [append(args, clauseArgs...)], which reads nil and empty
    alike, so it is a list. *)
#[global] Instance fail_clause : Fail (string * list any * option error) :=
  fun err => ("", [], Some err).
(** [(string, []any, error)] of the exported methods: [None] is the nil
    slice. *)
#[global] Instance fail_result : Fail (string * option (list any) * option error) :=
  fun err => ("", None, Some err).

#[global] Instance fail_columns : Fail (list string * list any * option error) :=
  fun err => ([], [], Some err).

Notation "'let?' p ':=' c 'in' k" :=
  (match c with
   | (_, Some err) => fail err
   | (p, None) => k
   end)
  (at level 10, p pattern, c at level 100, k at level 200,
   only parsing).

(** ** dialect *)

Module dialect.
Import strings.

(** *** dialect.go: the clause model *)

(** [type WhereType int] *)
Definition WhereType := Z.
Definition WhereTypeBasic : WhereType := 0%Z.
Definition WhereTypeIn : WhereType := 1%Z.
Definition WhereTypeNotIn : WhereType := 2%Z.
Definition WhereTypeBetween : WhereType := 3%Z.
Definition WhereTypeNotBetween : WhereType := 4%Z.
Definition WhereTypeNull : WhereType := 5%Z.
Definition WhereTypeNotNull : WhereType := 6%Z.
Definition WhereTypeRaw : WhereType := 7%Z.
Definition WhereTypeNested : WhereType := 8%Z.
Definition WhereTypeDate : WhereType := 9%Z.
Definition WhereTypeYear : WhereType := 10%Z.
Definition WhereTypeMonth : WhereType := 11%Z.
Definition WhereTypeDay : WhereType := 12%Z.

(** [type WhereBoolean int] *)
Definition WhereBoolean := Z.
Definition WhereBooleanAnd : WhereBoolean := 0%Z.
Definition WhereBooleanOr : WhereBoolean := 1%Z.

(** [func (b WhereBoolean) String() string] *)
Definition WhereBoolean_String (b : WhereBoolean) : string :=
  if decide (b = WhereBooleanOr) then "OR" else "AND".

#[warnings="-register-all"]
Inductive WhereClause : Type := mkWhereClause {
  Type_ : WhereType;
  Boolean : WhereBoolean;
  Column : string;
  Operator : string;
  Value : any;
  Values : list any;
  Nested : list WhereClause;
  Raw : string;
  Bindings : list any
}.

(** [type OrderDirection string] *)
Definition OrderDirection := string.
Definition OrderAsc : OrderDirection := "ASC".
Definition OrderDesc : OrderDirection := "DESC".

(** [func (d OrderDirection) IsValid() bool] *)
Definition OrderDirection_IsValid (d : OrderDirection) : bool :=
  String.eqb d OrderAsc || String.eqb d OrderDesc.

Record OrderClause : Type := mkOrderClause {
  OrderColumn : string;        (* Column *)
  Direction : OrderDirection;
  OrderRaw : string            (* Raw *)
}.

(** [type JoinType string] *)
Definition JoinType := string.
Definition JoinInner : JoinType := "INNER".
Definition JoinLeft : JoinType := "LEFT".
Definition JoinRight : JoinType := "RIGHT".
Definition JoinCross : JoinType := "CROSS".

Record JoinClause : Type := mkJoinClause {
  JoinType_ : JoinType;        (* Type *)
  Table : string;
  Alias : string;
  First : string;
  JoinOperator : string;       (* Operator *)
  Second : string
}.

(** The [QueryBuilder] interface: what its eleven getters return. *)
Record QueryBuilder : Type := mkQueryBuilder {
  GetTable : string;
  GetTableAlias : string;
  GetColumns : list string;
  IsDistinct : bool;
  GetWheres : list WhereClause;
  GetOrders : list OrderClause;
  GetJoins : list JoinClause;
  GetGroupBy : list string;
  GetHaving : list WhereClause;
  GetLimit : option Z;
  GetOffset : option Z
}.

Definition ErrNoTable : error := DialectError "no table specified".
Definition ErrNoColumns : error := DialectError "no columns specified".
Definition ErrEmptyBatch : error := DialectError "cannot insert empty batch".
Definition ErrInconsistentBatch : error :=
  DialectError "inconsistent columns in batch".
Definition ErrEmptyWhereIn : error :=
  DialectError "empty slice passed to WhereIn".
Definition ErrInvalidBetween : error :=
  DialectError "BETWEEN requires exactly 2 values".

(** [func (t WhereType) String() string], as [%v] prints it: indexing
    [names] below zero panics, and [fmt] prints the recovered panic. *)
Definition WhereType_names : list string :=
  ["Basic"; "In"; "NotIn"; "Between"; "NotBetween";
   "Null"; "NotNull"; "Raw"; "Nested";
   "Date"; "Year"; "Month"; "Day"].

Definition WhereType_Sprint_v (t : WhereType) : string :=
  if decide (t < Z.of_nat (length WhereType_names))%Z then
    if decide (0 ≤ t)%Z then default "" (WhereType_names !! Z.to_nat t)
    else "%!v(PANIC=String method: runtime error: index out of range ["
         +:+ fmt.Sprint_d t +:+ "])"
  else "Unknown".

(** *** mysql.go: the MySQL grammar *)

(** The slice a method returns at its end: never nil, it was made by
    [make([]any, 0)] and appended to. *)
Definition result : Type := string * option (list any) * option error.
Definition clauseResult : Type := string * list any * option error.

(** A loop [for i, x := range xs { y, err := f(x); if err != nil { return
    "", nil, err }; out[i] = y }]. *)
Fixpoint forEach {A : Type} (f : A → string * option error) (xs : list A)
  : list string * option error :=
  match xs with
  | [] => ([], None)
  | x :: rest =>
      let? y := f x in
      let? ys := forEach f rest in
      (y :: ys, None)
  end.

Definition Wrap (identifier : string) : string * option error :=
  if decide (identifier = "*") then ("*", None)
  else
    match validation.ValidateIdentifier identifier with
    | Some err => ("", Some err)
    | None =>
        if Contains identifier "." then
          let parts := Split identifier "." in
          let wrapped := (λ part, "`" +:+ part +:+ "`") <$> parts in
          (Join wrapped ".", None)
        else ("`" +:+ identifier +:+ "`", None)
    end.

Definition WrapTable (table : string) : string * option error :=
  let? (name, alias) := validation.ValidateTableWithAlias table in
  let wrapped := "`" +:+ name +:+ "`" in
  let wrapped :=
    if decide (alias ≠ "") then wrapped +:+ " AS `" +:+ alias +:+ "`"
    else wrapped in
  (wrapped, None).

Definition WrapValue (value : string) : string * option error := Wrap value.

Definition Placeholder (index : nat) : string := "?".

(** **** The predicate compiler *)

Definition compileWhereBasic (where_ : WhereClause) : clauseResult :=
  let? column := Wrap (Column where_) in
  match validation.ValidateOperator (Operator where_) with
  | Some err => ("", [], Some err)
  | None =>
      (column +:+ " " +:+ ToUpper (Operator where_) +:+ " ?",
       [Value where_], None)
  end.

Definition compileWhereIn (where_ : WhereClause) (not : bool) : clauseResult :=
  if decide (length (Values where_) = 0) then ("", [], Some ErrEmptyWhereIn)
  else
    let? column := Wrap (Column where_) in
    let placeholders := (λ _, "?") <$> Values where_ in
    let op := if not then "NOT IN" else "IN" in
    (column +:+ " " +:+ op +:+ " (" +:+ Join placeholders ", " +:+ ")",
     Values where_, None).

Definition compileWhereBetween (where_ : WhereClause) (not : bool)
  : clauseResult :=
  if decide (length (Values where_) ≠ 2) then ("", [], Some ErrInvalidBetween)
  else
    let? column := Wrap (Column where_) in
    let op := if not then "NOT BETWEEN" else "BETWEEN" in
    (column +:+ " " +:+ op +:+ " ? AND ?", Values where_, None).

Definition compileWhereNull (where_ : WhereClause) (not : bool)
  : clauseResult :=
  let? column := Wrap (Column where_) in
  let op := if not then "IS NOT NULL" else "IS NULL" in
  (column +:+ " " +:+ op, [], None).

Definition compileWhereDate (where_ : WhereClause) (fn : string)
  : clauseResult :=
  let? column := Wrap (Column where_) in
  (fn +:+ "(" +:+ column +:+ ") = ?", [Value where_], None).

(** [compileWheres], [compileWhere] and [compileWhereNested] call each
    other. The first and the last are written over the function they call
    and closed below, once [compileWhere] is defined by recursion on the
    clause. *)

(** The loop of [compileWheres], from index [i] on. *)
Definition compileWheres_loop (compileWhere : WhereClause → clauseResult)
  : nat → list WhereClause → string → list any → clauseResult :=
  fix loop (i : nat) (wheres : list WhereClause)
      (sql : string) (args : list any) {struct wheres} : clauseResult :=
    match wheres with
    | [] => (sql, args, None)
    | where_ :: rest =>
        let sql :=
          if decide (0 < i)
          then sql +:+ " " +:+ WhereBoolean_String (Boolean where_) +:+ " "
          else sql in
        let? (clauseSQL, clauseArgs) := compileWhere where_ in
        loop (S i) rest (sql +:+ clauseSQL) (args ++ clauseArgs)
    end.

Definition compileWheres_with (compileWhere : WhereClause → clauseResult)
    (wheres : list WhereClause) : clauseResult :=
  if decide (length wheres = 0) then ("", [], None)
  else compileWheres_loop compileWhere 0 wheres "" [].

Definition compileWhereNested_with
    (compileWheres : list WhereClause → clauseResult)
    (where_ : WhereClause) : clauseResult :=
  if decide (length (Nested where_) = 0) then ("", [], None)
  else
    let? (nestedSQL, args) := compileWheres (Nested where_) in
    ("(" +:+ nestedSQL +:+ ")", args, None).

Fixpoint compileWhere (where_ : WhereClause) : clauseResult :=
  match Type_ where_ with
  | 0 => compileWhereBasic where_
  | 1 => compileWhereIn where_ false
  | 2 => compileWhereIn where_ true
  | 3 => compileWhereBetween where_ false
  | 4 => compileWhereBetween where_ true
  | 5 => compileWhereNull where_ false
  | 6 => compileWhereNull where_ true
  | 7 => (Raw where_, Bindings where_, None)
  | 8 => compileWhereNested_with (compileWheres_with compileWhere) where_
  | 9 => compileWhereDate where_ "DATE"
  | 10 => compileWhereDate where_ "YEAR"
  | 11 => compileWhereDate where_ "MONTH"
  | 12 => compileWhereDate where_ "DAY"
  | _ =>
      ("", [],
       Some (PlainError ("unknown where type: "
                         +:+ WhereType_Sprint_v (Type_ where_))))
  end%Z.

Definition compileWheres : list WhereClause → clauseResult :=
  compileWheres_with compileWhere.

Definition compileWhereNested : WhereClause → clauseResult :=
  compileWhereNested_with compileWheres.

Definition compileJoin (join : JoinClause) : string * option error :=
  let? table := WrapTable (Table join) in
  if decide (JoinType_ join = JoinCross) then ("CROSS JOIN " +:+ table, None)
  else
    let? first := Wrap (First join) in
    let? second := Wrap (Second join) in
    match validation.ValidateOperator (JoinOperator join) with
    | Some err => ("", Some err)
    | None =>
        (JoinType_ join +:+ " JOIN " +:+ table +:+ " ON " +:+ first +:+ " "
         +:+ JoinOperator join +:+ " " +:+ second, None)
    end.

(** **** The statements *)

(** The block every statement but INSERT repeats:
    [if len(wheres) > 0 { whereSQL, whereArgs, err := g.compileWheres(wheres);
    ...; sql.WriteString(keyword); sql.WriteString(whereSQL);
    args = append(args, whereArgs...) }], with [" WHERE "] or [" HAVING "]
    for [keyword]. *)
Definition wheresBlock (keyword : string) (wheres : list WhereClause)
    (sql : string) (args : list any) : string * list any * option error :=
  if decide (0 < length wheres) then
    let? (whereSQL, whereArgs) := compileWheres wheres in
    (sql +:+ keyword +:+ whereSQL, args ++ whereArgs, None)
  else (sql, args, None).

(** The body of the loop over the columns of a SELECT. *)
Definition selectColumn (col : string) : string * option error :=
  if ContainsAny col " ()" then (col, None) else Wrap col.

(** The loop over the joins of a SELECT. *)
Fixpoint joinsLoop (joins : list JoinClause) (sql : string)
  : string * option error :=
  match joins with
  | [] => (sql, None)
  | join :: rest =>
      let? joinSQL := compileJoin join in
      joinsLoop rest (sql +:+ " " +:+ joinSQL)
  end.

(** The body of the loop over the orders of a SELECT. *)
Definition orderPart (order : OrderClause) : string * option error :=
  if decide (OrderRaw order ≠ "") then (OrderRaw order, None)
  else
    let? wrapped := Wrap (OrderColumn order) in
    (wrapped +:+ " " +:+ Direction order, None).

(** The column list of a SELECT. *)
Definition columnsBlock (columns : list string) (sql : string)
  : string * option error :=
  if decide (length columns = 0) then (sql +:+ "*", None)
  else
    let? wrappedCols := forEach selectColumn columns in
    (sql +:+ Join wrappedCols ", ", None).

(** [if len(groupBy) > 0 { ... }] *)
Definition groupByBlock (groupBy : list string) (sql : string)
  : string * option error :=
  if decide (0 < length groupBy) then
    let sql := sql +:+ " GROUP BY " in
    let? wrappedGroups := forEach Wrap groupBy in
    (sql +:+ Join wrappedGroups ", ", None)
  else (sql, None).

(** [if len(orders) > 0 { ... }] *)
Definition ordersBlock (orders : list OrderClause) (sql : string)
  : string * option error :=
  if decide (0 < length orders) then
    let sql := sql +:+ " ORDER BY " in
    let? orderParts := forEach orderPart orders in
    (sql +:+ Join orderParts ", ", None)
  else (sql, None).

(** [if p != nil { sql.WriteString(fmt.Sprintf(keyword + "%d", *p)) }], with
    [" LIMIT "] or [" OFFSET "] for [keyword]. *)
Definition limitBlock (keyword : string) (p : option Z) (sql : string)
  : string :=
  match p with
  | Some n => sql +:+ keyword +:+ fmt.Sprint_d n
  | None => sql
  end.

Definition CompileSelect (b : QueryBuilder) : result :=
  if decide (GetTable b = "") then fail ErrNoTable
  else
    let args : list any := [] in
    let sql := "SELECT " in
    let sql := if IsDistinct b then sql +:+ "DISTINCT " else sql in
    let? sql := columnsBlock (GetColumns b) sql in
    let? table := WrapTable (GetTable b) in
    let sql := sql +:+ " FROM " +:+ table in
    let? sql := joinsLoop (GetJoins b) sql in
    let? (sql, args) := wheresBlock " WHERE " (GetWheres b) sql args in
    let? sql := groupByBlock (GetGroupBy b) sql in
    let? (sql, args) := wheresBlock " HAVING " (GetHaving b) sql args in
    let? sql := ordersBlock (GetOrders b) sql in
    let sql := limitBlock " LIMIT " (GetLimit b) sql in
    let sql := limitBlock " OFFSET " (GetOffset b) sql in
    (sql, Some args, None).

(** [data[key]]: the zero value, nil, when the key is absent. *)
Definition map_get (data : gmap string any) (key : string) : any :=
  default AnyNil (data !! key).

(** The keys of a map. A loop [for k := range data] visits them in an order
    Go does not fix: the statements that range over a map take the
    sequence of visited keys, [ranged], as an argument; it is some
    permutation of [map_keys data]. *)
Definition map_keys (data : gmap string any) : list string :=
  (map_to_list data).*1.

(** The loop over the keys of an INSERT: wraps each and collects
    [data[key]]. *)
Fixpoint insertColumns (data : gmap string any) (keys : list string)
    (args : list any) : list string * list any * option error :=
  match keys with
  | [] => ([], args, None)
  | key :: rest =>
      let? wrapped := Wrap key in
      let? (wrappedCols, args) :=
        insertColumns data rest (args ++ [map_get data key]) in
      (wrapped :: wrappedCols, args, None)
  end.

Definition CompileInsert (ranged : list string)
    (b : QueryBuilder) (data : gmap string any) : result :=
  if decide (GetTable b = "") then fail ErrNoTable
  else if decide (size data = 0) then fail ErrNoColumns
  else
    let keys := sort.Strings ranged in
    let? table := WrapTable (GetTable b) in
    let sql := "INSERT INTO " +:+ table in
    let sql := sql +:+ " (" in
    let? (wrappedCols, args) := insertColumns data keys [] in
    let sql := sql +:+ Join wrappedCols ", " +:+ ")" in
    let sql := sql +:+ " VALUES (" in
    let placeholders := imap (λ i _, Placeholder i) keys in
    let sql := sql +:+ Join placeholders ", " +:+ ")" in
    (sql, Some args, None).

(** One row of a batch: a placeholder and an argument for each key. *)
Fixpoint batchRow (row : gmap string any) (keys : list string)
    (args : list any) : list string * list any * option error :=
  match keys with
  | [] => ([], args, None)
  | key :: rest =>
      match row !! key with
      | None => fail ErrInconsistentBatch
      | Some val =>
          let placeholder := Placeholder (length args) in
          let? (placeholders, args) := batchRow row rest (args ++ [val]) in
          (placeholder :: placeholders, args, None)
      end
  end.

(** The loop over the rows of a batch. *)
Fixpoint batchRows (data : list (gmap string any)) (keys : list string)
    (args : list any) : list string * list any * option error :=
  match data with
  | [] => ([], args, None)
  | row :: rest =>
      if decide (size row ≠ length keys) then fail ErrInconsistentBatch
      else
        let? (placeholders, args) := batchRow row keys args in
        let rowPlaceholder := "(" +:+ Join placeholders ", " +:+ ")" in
        let? (rowPlaceholders, args) := batchRows rest keys args in
        (rowPlaceholder :: rowPlaceholders, args, None)
  end.

(** [ranged] are the keys of the first row as the range loop visits
    them. *)
Definition CompileInsertBatch (ranged : list string)
    (b : QueryBuilder) (data : list (gmap string any)) : result :=
  if decide (GetTable b = "") then fail ErrNoTable
  else
    match data with
    | [] => fail ErrEmptyBatch
    | firstRow :: _ =>
        if decide (size firstRow = 0) then fail ErrNoColumns
        else
          let keys := sort.Strings ranged in
          let? table := WrapTable (GetTable b) in
          let sql := "INSERT INTO " +:+ table in
          let sql := sql +:+ " (" in
          let? wrappedCols := forEach Wrap keys in
          let sql := sql +:+ Join wrappedCols ", " +:+ ") VALUES " in
          let? (rowPlaceholders, args) := batchRows data keys [] in
          let sql := sql +:+ Join rowPlaceholders ", " in
          (sql, Some args, None)
    end.

(** The loop over the keys of an UPDATE. *)
Fixpoint updateSet (data : gmap string any) (i : nat) (keys : list string)
    (args : list any) : list string * list any * option error :=
  match keys with
  | [] => ([], args, None)
  | key :: rest =>
      let? wrapped := Wrap key in
      let setPart := wrapped +:+ " = " +:+ Placeholder i in
      let? (setParts, args) :=
        updateSet data (S i) rest (args ++ [map_get data key]) in
      (setPart :: setParts, args, None)
  end.

Definition CompileUpdate (ranged : list string)
    (b : QueryBuilder) (data : gmap string any) : result :=
  if decide (GetTable b = "") then fail ErrNoTable
  else if decide (size data = 0) then fail ErrNoColumns
  else
    let keys := sort.Strings ranged in
    let? table := WrapTable (GetTable b) in
    let sql := "UPDATE " +:+ table in
    let sql := sql +:+ " SET " in
    let? (setParts, args) := updateSet data 0 keys [] in
    let sql := sql +:+ Join setParts ", " in
    let? (sql, args) := wheresBlock " WHERE " (GetWheres b) sql args in
    (sql, Some args, None).

Definition CompileDelete (b : QueryBuilder) : result :=
  if decide (GetTable b = "") then fail ErrNoTable
  else
    let? table := WrapTable (GetTable b) in
    let sql := "DELETE FROM " +:+ table in
    let? (sql, args) := wheresBlock " WHERE " (GetWheres b) sql [] in
    (sql, Some args, None).

Definition CompileExists (b : QueryBuilder) : result :=
  if decide (GetTable b = "") then fail ErrNoTable
  else
    let? table := WrapTable (GetTable b) in
    let sql := "SELECT EXISTS(SELECT 1 FROM " +:+ table in
    let? (sql, args) := wheresBlock " WHERE " (GetWheres b) sql [] in
    let sql := sql +:+ " LIMIT 1)" in
    (sql, Some args, None).

(** The COUNT expression. *)
Definition countExpr (column : string) : string * option error :=
  let countExpr := "COUNT(*)" in
  if decide (column ≠ "") then
    let? wrapped := Wrap column in
    ("COUNT(" +:+ wrapped +:+ ")", None)
  else (countExpr, None).

Definition CompileCount (b : QueryBuilder) (column : string) : result :=
  if decide (GetTable b = "") then fail ErrNoTable
  else
    let? countExpr := countExpr column in
    let? table := WrapTable (GetTable b) in
    let sql := "SELECT " +:+ countExpr +:+ " FROM " +:+ table in
    let? (sql, args) := wheresBlock " WHERE " (GetWheres b) sql [] in
    (sql, Some args, None).

Definition CompileAggregate (b : QueryBuilder) (fn column : string) : result :=
  if decide (GetTable b = "") then fail ErrNoTable
  else if decide (column = "") then fail ErrNoColumns
  else
    let? wrapped := Wrap column in
    let? table := WrapTable (GetTable b) in
    let sql :=
      "SELECT " +:+ ToUpper fn +:+ "(" +:+ wrapped +:+ ") FROM " +:+ table in
    let? (sql, args) := wheresBlock " WHERE " (GetWheres b) sql [] in
    (sql, Some args, None).

Definition CompileTruncate (b : QueryBuilder) : string * option error :=
  if decide (GetTable b = "") then fail ErrNoTable
  else
    let? table := WrapTable (GetTable b) in
    ("TRUNCATE TABLE " +:+ table, None).

(** The body of the loop over the columns an upsert updates. *)
Definition upsertPart (col : string) : string * option error :=
  let? wrapped := Wrap col in
  (wrapped +:+ " = VALUES(" +:+ wrapped +:+ ")", None).

(** [ranged] is the visit of [data] inside [CompileInsert], [ranged'] the
    visit that fills [updateColumns] when none is given. *)
Definition CompileUpsert (ranged ranged' : list string) (b : QueryBuilder)
    (data : gmap string any) (updateColumns : list string) : result :=
  let? (insertSQL, args) := CompileInsert ranged b data in
  let sql := insertSQL +:+ " ON DUPLICATE KEY UPDATE " in
  let updateColumns :=
    if decide (length updateColumns = 0) then sort.Strings ranged'
    else updateColumns in
  let? updateParts := forEach upsertPart updateColumns in
  let sql := sql +:+ Join updateParts ", " in
  (sql, args, None).

(** **** A call of a compile method

    The compile methods of the grammar with their arguments, and the
    triple each returns ([CompileTruncate] returns no arguments). *)

Inductive Statement : Type :=
| StmtSelect (b : QueryBuilder)
| StmtInsert (ranged : list string) (b : QueryBuilder)
    (data : gmap string any)
| StmtInsertBatch (ranged : list string) (b : QueryBuilder)
    (data : list (gmap string any))
| StmtUpdate (ranged : list string) (b : QueryBuilder)
    (data : gmap string any)
| StmtDelete (b : QueryBuilder)
| StmtExists (b : QueryBuilder)
| StmtCount (b : QueryBuilder) (column : string)
| StmtAggregate (b : QueryBuilder) (fn column : string)
| StmtUpsert (ranged ranged' : list string) (b : QueryBuilder)
    (data : gmap string any) (updateColumns : list string)
| StmtTruncate (b : QueryBuilder).

Definition compile (stmt : Statement) : result :=
  match stmt with
  | StmtSelect b => CompileSelect b
  | StmtInsert ranged b data => CompileInsert ranged b data
  | StmtInsertBatch ranged b data => CompileInsertBatch ranged b data
  | StmtUpdate ranged b data => CompileUpdate ranged b data
  | StmtDelete b => CompileDelete b
  | StmtExists b => CompileExists b
  | StmtCount b column => CompileCount b column
  | StmtAggregate b fn column => CompileAggregate b fn column
  | StmtUpsert ranged ranged' b data updateColumns =>
      CompileUpsert ranged ranged' b data updateColumns
  | StmtTruncate b =>
      let '(sql, err) := CompileTruncate b in (sql, None, err)
  end.

(** **** The [Grammar] interface and its MySQL implementation *)

Record Grammar : Type := mkGrammar {
  Name : string;
  g_Wrap : string → string * option error;
  g_WrapTable : string → string * option error;
  g_WrapValue : string → string * option error;
  g_Placeholder : nat → string;
  g_CompileSelect : QueryBuilder → result;
  g_CompileInsert : QueryBuilder → gmap string any → result;
  g_CompileInsertBatch : QueryBuilder → list (gmap string any) → result;
  g_CompileUpdate : QueryBuilder → gmap string any → result;
  g_CompileDelete : QueryBuilder → result;
  g_CompileExists : QueryBuilder → result;
  g_CompileCount : QueryBuilder → string → result;
  g_CompileAggregate : QueryBuilder → string → string → result;
  g_CompileTruncate : QueryBuilder → string * option error;
  g_CompileUpsert :
    QueryBuilder → gmap string any → list string → result;
  SupportsReturning : bool;
  DateFormat : string
}.

(** [MySQL()]. [range m] is the order in which this run of the program
    visits the keys of the map [m]. *)
Definition MySQL (range : gmap string any → list string) : Grammar := {|
  Name := "mysql";
  g_Wrap := Wrap;
  g_WrapTable := WrapTable;
  g_WrapValue := WrapValue;
  g_Placeholder := Placeholder;
  g_CompileSelect := CompileSelect;
  g_CompileInsert b data := CompileInsert (range data) b data;
  g_CompileInsertBatch b data :=
    CompileInsertBatch (range (default ∅ (head data))) b data;
  g_CompileUpdate b data := CompileUpdate (range data) b data;
  g_CompileDelete := CompileDelete;
  g_CompileExists := CompileExists;
  g_CompileCount := CompileCount;
  g_CompileAggregate := CompileAggregate;
  g_CompileTruncate := CompileTruncate;
  g_CompileUpsert b data updateColumns :=
    CompileUpsert (range data) (range data) b data updateColumns;
  SupportsReturning := false;
  DateFormat := "2006-01-02 15:04:05"
|}.

End dialect.

(** ** fluentsql: the builder

    A [*Builder] owns slices, and a slice is a view of an array that other
    slices may view too. What [Clone] copies and what it shares is a matter
    of which arrays two builders reach, so the builder is modelled over a
    store of arrays. *)

Module fluentsql.
Import dialect.

Definition ErrNoExecutor : error :=
  PlainError "fluentsql: no database executor".

Definition loc := positive.

(** A slice: the array it views (none for the nil slice) and its length.
    Every slice of a builder starts at index 0 of its array. *)
Record slice : Type := mkSlice {
  array : option loc;
  len : nat
}.

Definition nil_slice : slice := mkSlice None 0.

(** A [dialect.WhereClause] as it lies in memory: [Values], [Nested] and
    [Bindings] are slices. *)
Record WhereClauseM : Type := mkWhereClauseM {
  mType : WhereType;
  mBoolean : WhereBoolean;
  mColumn : string;
  mOperator : string;
  mValue : any;
  mValues : slice;
  mNested : slice;
  mRaw : string;
  mBindings : slice
}.

(** An element of an array. *)
Inductive elem : Type :=
| EString (s : string)
| EAny (a : any)
| EWhere (w : WhereClauseM)
| EOrder (o : OrderClause)
| EJoin (j : JoinClause).

(** What a location holds: an array, or the [int] a [*int] points to. *)
Inductive cell : Type :=
| Array (xs : list elem)
| Int (n : Z).

Abbreviation Heap := (gmap loc cell).

(** The [Builder] struct. The executor and the scanner are references to
    objects outside the core; the grammar is an interface value. *)
Record Builder : Type := mkBuilder {
  executor : option loc;
  grammar : option Grammar;
  scanner : option loc;
  table : string;
  tableAlias : string;
  columns : slice;
  distinct : bool;
  wheres : slice;
  orders : slice;
  joins : slice;
  groupBy : slice;
  having : slice;
  limit : option loc;
  offset : option loc;
  err : option error
}.

(** *** Slices over the store *)

(** The elements a slice views. *)
Definition elems (h : Heap) (s : slice) : list elem :=
  match array s with
  | Some l =>
      match h !! l with
      | Some (Array xs) => take (len s) xs
      | _ => []
      end
  | None => []
  end.

(** [make([]T, n)], [zero] being the zero value of [T]. *)
Definition make (h : Heap) (zero : elem) (n : nat) : Heap * slice :=
  let l := fresh (dom h) in
  (<[l := Array (replicate n zero)]> h, mkSlice (Some l) n).

(** [copy(dst, src)]: the first [min(len(dst), len(src))] elements. *)
Definition copy (h : Heap) (dst src : slice) : Heap :=
  match array dst with
  | Some l =>
      match h !! l with
      | Some (Array xs) =>
          let n := min (len dst) (len src) in
          <[l := Array (take n (elems h src) ++ drop n xs)]> h
      | _ => h
      end
  | None => h
  end.

(** [s[i] = x]; [None] is the index-out-of-range panic. *)
Definition store (h : Heap) (s : slice) (i : nat) (x : elem) : option Heap :=
  if decide (i < len s) then
    match array s with
    | Some l =>
        match h !! l with
        | Some (Array xs) => Some (<[l := Array (<[i := x]> xs)]> h)
        | _ => None
        end
    | None => None
    end
  else None.

(** [s[i]] *)
Definition index (h : Heap) (s : slice) (i : nat) : option elem :=
  elems h s !! i.

(** *** What the getters hand to the grammar *)

Definition read_strings (h : Heap) (s : slice) : list string :=
  omap (λ e, match e with EString x => Some x | _ => None end) (elems h s).

Definition read_anys (h : Heap) (s : slice) : list any :=
  omap (λ e, match e with EAny x => Some x | _ => None end) (elems h s).

Definition read_orders (h : Heap) (s : slice) : list OrderClause :=
  omap (λ e, match e with EOrder x => Some x | _ => None end) (elems h s).

Definition read_joins (h : Heap) (s : slice) : list JoinClause :=
  omap (λ e, match e with EJoin x => Some x | _ => None end) (elems h s).

(** The clauses a slice views, with the clauses nested in them, down to
    [depth] levels of nesting. *)
Fixpoint read_wheres (depth : nat) (h : Heap) (s : slice) : list WhereClause :=
  match depth with
  | 0 => []
  | S depth =>
      omap (λ e,
        match e with
        | EWhere w =>
            Some {| Type_ := mType w;
                    Boolean := mBoolean w;
                    Column := mColumn w;
                    Operator := mOperator w;
                    Value := mValue w;
                    Values := read_anys h (mValues w);
                    Nested := read_wheres depth h (mNested w);
                    Raw := mRaw w;
                    Bindings := read_anys h (mBindings w) |}
        | _ => None
        end) (elems h s)
  end.

(** [*p] for a [*int], nil giving no value. *)
Definition read_int (h : Heap) (p : option loc) : option Z :=
  match p with
  | Some l =>
      match h !! l with
      | Some (Int n) => Some n
      | _ => None
      end
  | None => None
  end.

(** The builder as a [dialect.QueryBuilder]: the results of [GetTable],
    [GetColumns], [GetWheres], ... in the store [h]. A chain of nested
    clauses is no longer than the store has arrays. *)
Definition asQueryBuilder (h : Heap) (b : Builder) : QueryBuilder := {|
  GetTable := table b;
  GetTableAlias := tableAlias b;
  GetColumns := read_strings h (columns b);
  IsDistinct := distinct b;
  GetWheres := read_wheres (S (size h)) h (wheres b);
  GetOrders := read_orders h (orders b);
  GetJoins := read_joins h (joins b);
  GetGroupBy := read_strings h (groupBy b);
  GetHaving := read_wheres (S (size h)) h (having b);
  GetLimit := read_int h (limit b);
  GetOffset := read_int h (offset b)
|}.

(** *** Compilation entry points

    Each returns its result together with the calls it made to the
    grammar. *)

Inductive grammarCall : Type :=
| CallCompileSelect (b : QueryBuilder)
| CallCompileInsert (b : QueryBuilder) (data : gmap string any)
| CallCompileUpdate (b : QueryBuilder) (data : gmap string any)
| CallCompileDelete (b : QueryBuilder).

Definition ToSelectSQL (h : Heap) (b : Builder) : result * list grammarCall :=
  match err b with
  | Some e => (("", None, Some e), [])
  | None =>
      match grammar b with
      | None => (("", None, Some ErrNoExecutor), [])
      | Some g =>
          let qb := asQueryBuilder h b in
          (g_CompileSelect g qb, [CallCompileSelect qb])
      end
  end.

Definition ToSQL (h : Heap) (b : Builder) : result * list grammarCall :=
  ToSelectSQL h b.

Definition ToInsertSQL (h : Heap) (b : Builder) (data : gmap string any)
  : result * list grammarCall :=
  match err b with
  | Some e => (("", None, Some e), [])
  | None =>
      match grammar b with
      | None => (("", None, Some ErrNoExecutor), [])
      | Some g =>
          let qb := asQueryBuilder h b in
          (g_CompileInsert g qb data, [CallCompileInsert qb data])
      end
  end.

Definition ToUpdateSQL (h : Heap) (b : Builder) (data : gmap string any)
  : result * list grammarCall :=
  match err b with
  | Some e => (("", None, Some e), [])
  | None =>
      match grammar b with
      | None => (("", None, Some ErrNoExecutor), [])
      | Some g =>
          let qb := asQueryBuilder h b in
          (g_CompileUpdate g qb data, [CallCompileUpdate qb data])
      end
  end.

Definition ToDeleteSQL (h : Heap) (b : Builder) : result * list grammarCall :=
  match err b with
  | Some e => (("", None, Some e), [])
  | None =>
      match grammar b with
      | None => (("", None, Some ErrNoExecutor), [])
      | Some g =>
          let qb := asQueryBuilder h b in
          (g_CompileDelete g qb, [CallCompileDelete qb])
      end
  end.

Definition Err (b : Builder) : option error := err b.

(** *** Clone *)

(** The zero [WhereClause], [OrderClause] and [JoinClause]. *)
Definition zeroWhere : elem :=
  EWhere (mkWhereClauseM 0%Z 0%Z "" "" AnyNil nil_slice nil_slice "" nil_slice).
Definition zeroOrder : elem := EOrder (mkOrderClause "" "" "").
Definition zeroJoin : elem := EJoin (mkJoinClause "" "" "" "" "" "").

(** [dst = make([]T, len(src)); copy(dst, src)] *)
Definition makeCopy (h : Heap) (zero : elem) (src : slice) : Heap * slice :=
  let '(h, dst) := make h zero (len src) in
  (copy h dst src, dst).

Definition Clone (h : Heap) (b : Builder) : Heap * Builder :=
  let '(h, columns') := makeCopy h (EString "") (columns b) in
  let '(h, wheres') := makeCopy h zeroWhere (wheres b) in
  let '(h, orders') := makeCopy h zeroOrder (orders b) in
  let '(h, joins') := makeCopy h zeroJoin (joins b) in
  let '(h, groupBy') := makeCopy h (EString "") (groupBy b) in
  let '(h, having') := makeCopy h zeroWhere (having b) in
  (h, {| executor := executor b;
         grammar := grammar b;
         scanner := scanner b;
         table := table b;
         tableAlias := tableAlias b;
         columns := columns';
         distinct := distinct b;
         wheres := wheres';
         orders := orders';
         joins := joins';
         groupBy := groupBy';
         having := having';
         limit := limit b;
         offset := offset b;
         err := err b |}).

(** *** The fluent methods

    A method of [*Builder] takes the store and the builder and returns the
    store and the builder after the call. *)

(** The capacity of a slice: what is left of its array from its start, and
    every slice of a builder starts at index 0. *)
Definition cap (h : Heap) (s : slice) : nat :=
  match array s with
  | Some l =>
      match h !! l with
      | Some (Array xs) => length xs
      | _ => 0
      end
  | None => 0
  end.

(** A composite literal [[]T{x1, ..., xn}], and the slice of a variadic
    call [f(x1, ..., xn)]: a new array. *)
Definition literal (h : Heap) (xs : list elem) : Heap * slice :=
  let l := fresh (dom h) in
  (<[l := Array xs]> h, mkSlice (Some l) (length xs)).

(** [&n] for a parameter [n int]: a new variable. *)
Definition addressOf (h : Heap) (n : Z) : Heap * loc :=
  let l := fresh (dom h) in (<[l := Int n]> h, l).

(** Go's [int] on the 64-bit platforms: the result of an operation wraps
    around. *)
Definition int (z : Z) : Z :=
  ((z + 2 ^ 63) mod 2 ^ 64 - 2 ^ 63)%Z.

Section methods.

(** [append] with too little capacity moves the elements to a new array
    "sufficiently large": Go does not fix its capacity, [grow] is the choice
    of this run of the program, given the old capacity and the length
    needed. *)
Variable grow : nat → nat → nat.

(** [append(s, xs...)], [zero] being the zero value of the element type. *)
Definition append (zero : elem) (h : Heap) (s : slice) (xs : list elem)
  : Heap * slice :=
  let n := len s + length xs in
  if decide (n ≤ cap h s) then
    match array s with
    | Some l =>
        match h !! l with
        | Some (Array arr) =>
            (<[l := Array (take (len s) arr ++ xs ++ drop n arr)]> h,
             mkSlice (Some l) n)
        | _ => (h, s)
        end
    | None => (h, s)
    end
  else
    let l := fresh (dom h) in
    let capacity := max n (grow (cap h s) n) in
    (<[l := Array (elems h s ++ xs ++ replicate (capacity - n) zero)]> h,
     mkSlice (Some l) n).

Definition with_table (b : Builder) (name alias : string) : Builder :=
  mkBuilder (executor b) (grammar b) (scanner b) name alias (columns b)
    (distinct b) (wheres b) (orders b) (joins b) (groupBy b) (having b)
    (limit b) (offset b) (err b).

Definition with_distinct (b : Builder) (d : bool) : Builder :=
  mkBuilder (executor b) (grammar b) (scanner b) (table b) (tableAlias b)
    (columns b) d (wheres b) (orders b) (joins b) (groupBy b) (having b)
    (limit b) (offset b) (err b).

Definition with_columns (b : Builder) (s : slice) : Builder :=
  mkBuilder (executor b) (grammar b) (scanner b) (table b) (tableAlias b)
    s (distinct b) (wheres b) (orders b) (joins b) (groupBy b) (having b)
    (limit b) (offset b) (err b).

Definition with_wheres (b : Builder) (s : slice) : Builder :=
  mkBuilder (executor b) (grammar b) (scanner b) (table b) (tableAlias b)
    (columns b) (distinct b) s (orders b) (joins b) (groupBy b) (having b)
    (limit b) (offset b) (err b).

Definition with_orders (b : Builder) (s : slice) : Builder :=
  mkBuilder (executor b) (grammar b) (scanner b) (table b) (tableAlias b)
    (columns b) (distinct b) (wheres b) s (joins b) (groupBy b) (having b)
    (limit b) (offset b) (err b).

Definition with_joins (b : Builder) (s : slice) : Builder :=
  mkBuilder (executor b) (grammar b) (scanner b) (table b) (tableAlias b)
    (columns b) (distinct b) (wheres b) (orders b) s (groupBy b) (having b)
    (limit b) (offset b) (err b).

Definition with_groupBy (b : Builder) (s : slice) : Builder :=
  mkBuilder (executor b) (grammar b) (scanner b) (table b) (tableAlias b)
    (columns b) (distinct b) (wheres b) (orders b) (joins b) s (having b)
    (limit b) (offset b) (err b).

Definition with_having (b : Builder) (s : slice) : Builder :=
  mkBuilder (executor b) (grammar b) (scanner b) (table b) (tableAlias b)
    (columns b) (distinct b) (wheres b) (orders b) (joins b) (groupBy b) s
    (limit b) (offset b) (err b).

Definition with_limit (b : Builder) (p : option loc) : Builder :=
  mkBuilder (executor b) (grammar b) (scanner b) (table b) (tableAlias b)
    (columns b) (distinct b) (wheres b) (orders b) (joins b) (groupBy b)
    (having b) p (offset b) (err b).

Definition with_offset (b : Builder) (p : option loc) : Builder :=
  mkBuilder (executor b) (grammar b) (scanner b) (table b) (tableAlias b)
    (columns b) (distinct b) (wheres b) (orders b) (joins b) (groupBy b)
    (having b) (limit b) p (err b).

(** [NewBuilder(executor, grammar, scanner)] *)
Definition NewBuilder (h : Heap) (executor : option loc)
    (grammar : option Grammar) (scanner : option loc) : Heap * Builder :=
  let '(h, columns) := make h (EString "") 0 in
  let '(h, wheres) := make h zeroWhere 0 in
  let '(h, orders) := make h zeroOrder 0 in
  let '(h, joins) := make h zeroJoin 0 in
  let '(h, groupBy) := make h (EString "") 0 in
  let '(h, having) := make h zeroWhere 0 in
  (h, mkBuilder executor grammar scanner "" "" columns false wheres orders
        joins groupBy having None None None).

Definition Table (h : Heap) (b : Builder) (name : string) : Heap * Builder :=
  (h, with_table b name (tableAlias b)).

Definition TableAs (h : Heap) (b : Builder) (name alias : string)
  : Heap * Builder :=
  (h, with_table b name alias).

Definition From (h : Heap) (b : Builder) (name : string) : Heap * Builder :=
  Table h b name.

(** [Select(columns ...string)]: the strings of the variadic slice are
    appended. *)
Definition Select (h : Heap) (b : Builder) (columns_ : list string)
  : Heap * Builder :=
  let '(h, s) := append (EString "") h (columns b) (EString <$> columns_) in
  (h, with_columns b s).

Definition SelectRaw (h : Heap) (b : Builder) (expr : string)
  : Heap * Builder :=
  let '(h, s) := append (EString "") h (columns b) [EString expr] in
  (h, with_columns b s).

Definition Distinct (h : Heap) (b : Builder) : Heap * Builder :=
  (h, with_distinct b true).

(** [b.wheres = append(b.wheres, w)] *)
Definition appendWhere (h : Heap) (b : Builder) (w : WhereClauseM)
  : Heap * Builder :=
  let '(h, s) := append zeroWhere h (wheres b) [EWhere w] in
  (h, with_wheres b s).

(** [b.having = append(b.having, w)] *)
Definition appendHaving (h : Heap) (b : Builder) (w : WhereClauseM)
  : Heap * Builder :=
  let '(h, s) := append zeroWhere h (having b) [EWhere w] in
  (h, with_having b s).

Definition Where (h : Heap) (b : Builder) (column operator : string)
    (value : any) : Heap * Builder :=
  appendWhere h b
    (mkWhereClauseM WhereTypeBasic WhereBooleanAnd column operator value
       nil_slice nil_slice "" nil_slice).

Definition OrWhere (h : Heap) (b : Builder) (column operator : string)
    (value : any) : Heap * Builder :=
  appendWhere h b
    (mkWhereClauseM WhereTypeBasic WhereBooleanOr column operator value
       nil_slice nil_slice "" nil_slice).

(** [values] is the slice of the caller: the clause keeps it, array and
    all. *)
Definition WhereIn (h : Heap) (b : Builder) (column : string)
    (values : slice) : Heap * Builder :=
  appendWhere h b
    (mkWhereClauseM WhereTypeIn WhereBooleanAnd column "" AnyNil values
       nil_slice "" nil_slice).

Definition WhereNotIn (h : Heap) (b : Builder) (column : string)
    (values : slice) : Heap * Builder :=
  appendWhere h b
    (mkWhereClauseM WhereTypeNotIn WhereBooleanAnd column "" AnyNil values
       nil_slice "" nil_slice).

Definition OrWhereIn (h : Heap) (b : Builder) (column : string)
    (values : slice) : Heap * Builder :=
  appendWhere h b
    (mkWhereClauseM WhereTypeIn WhereBooleanOr column "" AnyNil values
       nil_slice "" nil_slice).

Definition OrWhereNotIn (h : Heap) (b : Builder) (column : string)
    (values : slice) : Heap * Builder :=
  appendWhere h b
    (mkWhereClauseM WhereTypeNotIn WhereBooleanOr column "" AnyNil values
       nil_slice "" nil_slice).

Definition WhereBetween (h : Heap) (b : Builder) (column : string)
    (min max : any) : Heap * Builder :=
  let '(h, values) := literal h [EAny min; EAny max] in
  appendWhere h b
    (mkWhereClauseM WhereTypeBetween WhereBooleanAnd column "" AnyNil values
       nil_slice "" nil_slice).

Definition WhereNotBetween (h : Heap) (b : Builder) (column : string)
    (min max : any) : Heap * Builder :=
  let '(h, values) := literal h [EAny min; EAny max] in
  appendWhere h b
    (mkWhereClauseM WhereTypeNotBetween WhereBooleanAnd column "" AnyNil
       values nil_slice "" nil_slice).

Definition WhereNull (h : Heap) (b : Builder) (column : string)
  : Heap * Builder :=
  appendWhere h b
    (mkWhereClauseM WhereTypeNull WhereBooleanAnd column "" AnyNil nil_slice
       nil_slice "" nil_slice).

Definition WhereNotNull (h : Heap) (b : Builder) (column : string)
  : Heap * Builder :=
  appendWhere h b
    (mkWhereClauseM WhereTypeNotNull WhereBooleanAnd column "" AnyNil
       nil_slice nil_slice "" nil_slice).

Definition OrWhereNull (h : Heap) (b : Builder) (column : string)
  : Heap * Builder :=
  appendWhere h b
    (mkWhereClauseM WhereTypeNull WhereBooleanOr column "" AnyNil nil_slice
       nil_slice "" nil_slice).

Definition OrWhereNotNull (h : Heap) (b : Builder) (column : string)
  : Heap * Builder :=
  appendWhere h b
    (mkWhereClauseM WhereTypeNotNull WhereBooleanOr column "" AnyNil
       nil_slice nil_slice "" nil_slice).

Definition WhereLike (h : Heap) (b : Builder) (column pattern : string)
  : Heap * Builder :=
  appendWhere h b
    (mkWhereClauseM WhereTypeBasic WhereBooleanAnd column "LIKE"
       (AnyString pattern) nil_slice nil_slice "" nil_slice).

Definition WhereNotLike (h : Heap) (b : Builder) (column pattern : string)
  : Heap * Builder :=
  appendWhere h b
    (mkWhereClauseM WhereTypeBasic WhereBooleanAnd column "NOT LIKE"
       (AnyString pattern) nil_slice nil_slice "" nil_slice).

(** [bindings] is the slice of the variadic parameter: the clause keeps
    it. *)
Definition WhereRaw (h : Heap) (b : Builder) (sqlExpr : string)
    (bindings : slice) : Heap * Builder :=
  appendWhere h b
    (mkWhereClauseM WhereTypeRaw WhereBooleanAnd "" "" AnyNil nil_slice
       nil_slice sqlExpr bindings).

Definition OrWhereRaw (h : Heap) (b : Builder) (sqlExpr : string)
    (bindings : slice) : Heap * Builder :=
  appendWhere h b
    (mkWhereClauseM WhereTypeRaw WhereBooleanOr "" "" AnyNil nil_slice
       nil_slice sqlExpr bindings).

(** [fn] is the callback: what it does to the store and to the builder it
    is given. *)
Definition WhereNested (h : Heap) (b : Builder)
    (fn : Heap → Builder → Heap * Builder) : Heap * Builder :=
  let '(h, nested) := NewBuilder h (executor b) (grammar b) (scanner b) in
  let '(h, nested) := fn h nested in
  appendWhere h b
    (mkWhereClauseM WhereTypeNested WhereBooleanAnd "" "" AnyNil nil_slice
       (wheres nested) "" nil_slice).

Definition OrWhereNested (h : Heap) (b : Builder)
    (fn : Heap → Builder → Heap * Builder) : Heap * Builder :=
  let '(h, nested) := NewBuilder h (executor b) (grammar b) (scanner b) in
  let '(h, nested) := fn h nested in
  appendWhere h b
    (mkWhereClauseM WhereTypeNested WhereBooleanOr "" "" AnyNil nil_slice
       (wheres nested) "" nil_slice).

Definition WhereDate (h : Heap) (b : Builder) (column value : string)
  : Heap * Builder :=
  appendWhere h b
    (mkWhereClauseM WhereTypeDate WhereBooleanAnd column "" (AnyString value)
       nil_slice nil_slice "" nil_slice).

Definition WhereYear (h : Heap) (b : Builder) (column : string) (value : Z)
  : Heap * Builder :=
  appendWhere h b
    (mkWhereClauseM WhereTypeYear WhereBooleanAnd column "" (AnyInt value)
       nil_slice nil_slice "" nil_slice).

Definition WhereMonth (h : Heap) (b : Builder) (column : string) (value : Z)
  : Heap * Builder :=
  appendWhere h b
    (mkWhereClauseM WhereTypeMonth WhereBooleanAnd column "" (AnyInt value)
       nil_slice nil_slice "" nil_slice).

Definition WhereDay (h : Heap) (b : Builder) (column : string) (value : Z)
  : Heap * Builder :=
  appendWhere h b
    (mkWhereClauseM WhereTypeDay WhereBooleanAnd column "" (AnyInt value)
       nil_slice nil_slice "" nil_slice).

(** [b.joins = append(b.joins, j)] *)
Definition appendJoin (h : Heap) (b : Builder) (j : JoinClause)
  : Heap * Builder :=
  let '(h, s) := append zeroJoin h (joins b) [EJoin j] in
  (h, with_joins b s).

Definition Join (h : Heap) (b : Builder) (table first operator second : string)
  : Heap * Builder :=
  appendJoin h b (mkJoinClause JoinInner table "" first operator second).

Definition LeftJoin (h : Heap) (b : Builder)
    (table first operator second : string) : Heap * Builder :=
  appendJoin h b (mkJoinClause JoinLeft table "" first operator second).

Definition RightJoin (h : Heap) (b : Builder)
    (table first operator second : string) : Heap * Builder :=
  appendJoin h b (mkJoinClause JoinRight table "" first operator second).

Definition CrossJoin (h : Heap) (b : Builder) (table : string)
  : Heap * Builder :=
  appendJoin h b (mkJoinClause JoinCross table "" "" "" "").

(** [b.orders = append(b.orders, o)] *)
Definition appendOrder (h : Heap) (b : Builder) (o : OrderClause)
  : Heap * Builder :=
  let '(h, s) := append zeroOrder h (orders b) [EOrder o] in
  (h, with_orders b s).

Definition OrderBy (h : Heap) (b : Builder) (column : string)
    (direction : OrderDirection) : Heap * Builder :=
  appendOrder h b (mkOrderClause column direction "").

Definition OrderByAsc (h : Heap) (b : Builder) (column : string)
  : Heap * Builder :=
  OrderBy h b column OrderAsc.

Definition OrderByDesc (h : Heap) (b : Builder) (column : string)
  : Heap * Builder :=
  OrderBy h b column OrderDesc.

Definition OrderByRaw (h : Heap) (b : Builder) (expr : string)
  : Heap * Builder :=
  appendOrder h b (mkOrderClause "" "" expr).

Definition Latest (h : Heap) (b : Builder) : Heap * Builder :=
  OrderByDesc h b "created_at".

Definition Oldest (h : Heap) (b : Builder) : Heap * Builder :=
  OrderByAsc h b "created_at".

Definition GroupBy (h : Heap) (b : Builder) (columns_ : list string)
  : Heap * Builder :=
  let '(h, s) := append (EString "") h (groupBy b) (EString <$> columns_) in
  (h, with_groupBy b s).

Definition Having (h : Heap) (b : Builder) (column operator : string)
    (value : any) : Heap * Builder :=
  appendHaving h b
    (mkWhereClauseM WhereTypeBasic WhereBooleanAnd column operator value
       nil_slice nil_slice "" nil_slice).

Definition HavingRaw (h : Heap) (b : Builder) (sqlExpr : string)
    (bindings : slice) : Heap * Builder :=
  appendHaving h b
    (mkWhereClauseM WhereTypeRaw WhereBooleanAnd "" "" AnyNil nil_slice
       nil_slice sqlExpr bindings).

Definition Limit (h : Heap) (b : Builder) (n : Z) : Heap * Builder :=
  let '(h, p) := addressOf h n in (h, with_limit b (Some p)).

Definition Offset (h : Heap) (b : Builder) (n : Z) : Heap * Builder :=
  let '(h, p) := addressOf h n in (h, with_offset b (Some p)).

Definition Take (h : Heap) (b : Builder) (n : Z) : Heap * Builder :=
  Limit h b n.

Definition Skip (h : Heap) (b : Builder) (n : Z) : Heap * Builder :=
  Offset h b n.

Definition ForPage (h : Heap) (b : Builder) (page perPage : Z)
  : Heap * Builder :=
  let page := if decide (page < 1)%Z then 1%Z else page in
  let offset_ := int (int (page - 1) * perPage) in
  let '(h, b) := Limit h b perPage in
  Offset h b offset_.

Definition Reset (h : Heap) (b : Builder) : Heap * Builder :=
  let '(h, columns) := make h (EString "") 0 in
  let '(h, wheres) := make h zeroWhere 0 in
  let '(h, orders) := make h zeroOrder 0 in
  let '(h, joins) := make h zeroJoin 0 in
  let '(h, groupBy) := make h (EString "") 0 in
  let '(h, having) := make h zeroWhere 0 in
  (h, mkBuilder (executor b) (grammar b) (scanner b) "" "" columns false
        wheres orders joins groupBy having None None None).

Definition When (h : Heap) (b : Builder) (condition : bool)
    (fn : Heap → Builder → Heap * Builder) : Heap * Builder :=
  if condition then fn h b else (h, b).

Definition Unless (h : Heap) (b : Builder) (condition : bool)
    (fn : Heap → Builder → Heap * Builder) : Heap * Builder :=
  When h b (negb condition) fn.

End methods.

(** *** The methods that run a statement

    The database, what it returns, the scanner and the destination of a
    scan are outside the core: a method of the executor or of the scanner,
    and [Scan] of a row, is a function of its arguments, the answer of this
    call; what a scan writes to its destination is not modelled. A method
    returns the store and the builder after the call, what it returns to its
    caller or the panic it ends in, and the calls it made outside the core,
    in the order it made them. *)

Section execution.

(** [context.Context], the [dest any] of a scan, [*sql.Rows], [*sql.Row],
    [sql.Result] and the errors from outside the core. *)
Variables Ctx Dest Rows Row SqlResult Foreign : Type.

(** [context.Background()] *)
Variable Background : Ctx.

(** [err == sql.ErrNoRows] *)
Variable is_ErrNoRows : Foreign → bool.

(** The [QueryExecutor] interface; [args ...any] is the list of the
    arguments. *)
Record QueryExecutor : Type := mkQueryExecutor {
  ExecContext : Ctx → string → list any → SqlResult * option Foreign;
  QueryContext : Ctx → string → list any → Rows * option Foreign;
  QueryRowContext : Ctx → string → list any → Row
}.

(** The [Scanner] interface. *)
Record Scanner : Type := mkScanner {
  ScanRow : Row → Dest → option Foreign;
  ScanRows : Rows → Dest → option Foreign
}.

(** The objects behind [b.executor] and [b.scanner]. *)
Variable executors : loc → QueryExecutor.
Variable scanners : loc → Scanner.

(** [row.Scan(&count)] with [var count int64], and [row.Scan(&exists)] with
    [var exists bool]: the variable after the call, and the error. *)
Variable Scan_int64 : Row → Z * option Foreign.
Variable Scan_bool : Row → bool * option Foreign.

(** An [error] that a method returns: one of the core, one from outside,
    or a [*QueryError] around one from outside. *)
Inductive failure : Type :=
| Core (e : error)
| Outside (e : Foreign)
| QueryError (Op Table SQL : string) (Err : Foreign).

Definition NewQueryError (op table sql : string) (err : Foreign) : failure :=
  QueryError op table sql err.

(** [*QueryResult] *)
Record QueryResult : Type := mkQueryResult {
  result_ : SqlResult
}.

Definition NewQueryResult (result : SqlResult) : QueryResult :=
  mkQueryResult result.

(** A call outside the core. *)
Inductive sent : Type :=
| SentExec (query : string) (args : list any)
| SentQuery (query : string) (args : list any)
| SentQueryRow (query : string) (args : list any)
| SentScanRows (rows : Rows) (dest : Dest)
| SentScanRow (row : Row) (dest : Dest)
| SentScan (row : Row)
| SentClose (rows : Rows).

(** What a call ends in: a return, or the panic of a call on a nil
    interface. *)
Inductive returned (T : Type) : Type :=
| Return (x : T)
| Panic.

#[global] Arguments Return {T} x.
#[global] Arguments Panic {T}.

(** [args...] of a slice that may be nil. *)
Definition variadic (args : option (list any)) : list any :=
  default [] args.

Definition GetContext (h : Heap) (b : Builder) (ctx : Ctx) (dest : Dest)
  : Heap * Builder * returned (option failure) * list sent :=
  match executor b with
  | None => (h, b, Return (Some (Core ErrNoExecutor)), [])
  | Some ex =>
      match (ToSelectSQL h b).1 with
      | (_, _, Some err) => (h, b, Return (Some (Core err)), [])
      | (sqlStr, args, None) =>
          match QueryContext (executors ex) ctx sqlStr (variadic args) with
          | (_, Some err) =>
              (h, b,
               Return (Some (NewQueryError "select" (table b) sqlStr err)),
               [SentQuery sqlStr (variadic args)])
          | (rows, None) =>
              match scanner b with
              | None =>
                  (h, b, Panic,
                   [SentQuery sqlStr (variadic args); SentClose rows])
              | Some sc =>
                  (h, b,
                   Return (Outside <$> ScanRows (scanners sc) rows dest),
                   [SentQuery sqlStr (variadic args);
                    SentScanRows rows dest; SentClose rows])
              end
          end
      end
  end.

Definition Get (h : Heap) (b : Builder) (dest : Dest)
  : Heap * Builder * returned (option failure) * list sent :=
  GetContext h b Background dest.

Definition FirstContext (h : Heap) (b : Builder) (ctx : Ctx) (dest : Dest)
  : Heap * Builder * returned (option failure) * list sent :=
  let '(h, b) := Limit h b 1 in
  match executor b with
  | None => (h, b, Return (Some (Core ErrNoExecutor)), [])
  | Some ex =>
      match (ToSelectSQL h b).1 with
      | (_, _, Some err) => (h, b, Return (Some (Core err)), [])
      | (sqlStr, args, None) =>
          let row :=
            QueryRowContext (executors ex) ctx sqlStr (variadic args) in
          match scanner b with
          | None => (h, b, Panic, [SentQueryRow sqlStr (variadic args)])
          | Some sc =>
              (h, b, Return (Outside <$> ScanRow (scanners sc) row dest),
               [SentQueryRow sqlStr (variadic args); SentScanRow row dest])
          end
      end
  end.

Definition First (h : Heap) (b : Builder) (dest : Dest)
  : Heap * Builder * returned (option failure) * list sent :=
  FirstContext h b Background dest.

(** The body that [InsertContext], [UpdateContext] and [DeleteContext]
    share, [compiled] being the result of [ToInsertSQL], [ToUpdateSQL] or
    [ToDeleteSQL] and [op] the name of the operation. *)
Definition exec (op : string) (compiled : result) (h : Heap) (b : Builder)
    (ctx : Ctx)
  : Heap * Builder * returned (option QueryResult * option failure)
    * list sent :=
  match executor b with
  | None => (h, b, Return (None, Some (Core ErrNoExecutor)), [])
  | Some ex =>
      match compiled with
      | (_, _, Some err) => (h, b, Return (None, Some (Core err)), [])
      | (sqlStr, args, None) =>
          match ExecContext (executors ex) ctx sqlStr (variadic args) with
          | (_, Some err) =>
              (h, b,
               Return (None, Some (NewQueryError op (table b) sqlStr err)),
               [SentExec sqlStr (variadic args)])
          | (result, None) =>
              (h, b, Return (Some (NewQueryResult result), None),
               [SentExec sqlStr (variadic args)])
          end
      end
  end.

Definition InsertContext (h : Heap) (b : Builder) (ctx : Ctx)
    (data : gmap string any)
  : Heap * Builder * returned (option QueryResult * option failure)
    * list sent :=
  exec "insert" (ToInsertSQL h b data).1 h b ctx.

Definition Insert (h : Heap) (b : Builder) (data : gmap string any)
  : Heap * Builder * returned (option QueryResult * option failure)
    * list sent :=
  InsertContext h b Background data.

Definition UpdateContext (h : Heap) (b : Builder) (ctx : Ctx)
    (data : gmap string any)
  : Heap * Builder * returned (option QueryResult * option failure)
    * list sent :=
  exec "update" (ToUpdateSQL h b data).1 h b ctx.

Definition Update (h : Heap) (b : Builder) (data : gmap string any)
  : Heap * Builder * returned (option QueryResult * option failure)
    * list sent :=
  UpdateContext h b Background data.

Definition DeleteContext (h : Heap) (b : Builder) (ctx : Ctx)
  : Heap * Builder * returned (option QueryResult * option failure)
    * list sent :=
  exec "delete" (ToDeleteSQL h b).1 h b ctx.

Definition Delete (h : Heap) (b : Builder)
  : Heap * Builder * returned (option QueryResult * option failure)
    * list sent :=
  DeleteContext h b Background.

(** [b.grammar.CompileCount(b, "")]: a call on the grammar, nil or not, and
    whatever [b.err] is. *)
Definition CountContext (h : Heap) (b : Builder) (ctx : Ctx)
  : Heap * Builder * returned (Z * option failure) * list sent :=
  match executor b with
  | None => (h, b, Return (0%Z, Some (Core ErrNoExecutor)), [])
  | Some ex =>
      match grammar b with
      | None => (h, b, Panic, [])
      | Some g =>
          match g_CompileCount g (asQueryBuilder h b) "" with
          | (_, _, Some err) => (h, b, Return (0%Z, Some (Core err)), [])
          | (sqlStr, args, None) =>
              let row :=
                QueryRowContext (executors ex) ctx sqlStr (variadic args) in
              let calls := [SentQueryRow sqlStr (variadic args); SentScan row]
              in
              match Scan_int64 row with
              | (_, Some err) =>
                  if is_ErrNoRows err then (h, b, Return (0%Z, None), calls)
                  else
                    (h, b,
                     Return (0%Z,
                             Some (NewQueryError "count" (table b) sqlStr
                                     err)),
                     calls)
              | (count, None) => (h, b, Return (count, None), calls)
              end
          end
      end
  end.

Definition Count (h : Heap) (b : Builder)
  : Heap * Builder * returned (Z * option failure) * list sent :=
  CountContext h b Background.

Definition ExistsContext (h : Heap) (b : Builder) (ctx : Ctx)
  : Heap * Builder * returned (bool * option failure) * list sent :=
  match executor b with
  | None => (h, b, Return (false, Some (Core ErrNoExecutor)), [])
  | Some ex =>
      match grammar b with
      | None => (h, b, Panic, [])
      | Some g =>
          match g_CompileExists g (asQueryBuilder h b) with
          | (_, _, Some err) => (h, b, Return (false, Some (Core err)), [])
          | (sqlStr, args, None) =>
              let row :=
                QueryRowContext (executors ex) ctx sqlStr (variadic args) in
              let calls := [SentQueryRow sqlStr (variadic args); SentScan row]
              in
              match Scan_bool row with
              | (_, Some err) =>
                  (h, b,
                   Return (false,
                           Some (NewQueryError "exists" (table b) sqlStr err)),
                   calls)
              | (exists_, None) => (h, b, Return (exists_, None), calls)
              end
          end
      end
  end.

Definition Exists (h : Heap) (b : Builder)
  : Heap * Builder * returned (bool * option failure) * list sent :=
  ExistsContext h b Background.

Definition DoesntExistContext (h : Heap) (b : Builder) (ctx : Ctx)
  : Heap * Builder * returned (bool * option failure) * list sent :=
  let '(h, b, r, calls) := ExistsContext h b ctx in
  match r with
  | Return (exists_, err) => (h, b, Return (negb exists_, err), calls)
  | Panic => (h, b, Panic, calls)
  end.

Definition DoesntExist (h : Heap) (b : Builder)
  : Heap * Builder * returned (bool * option failure) * list sent :=
  DoesntExistContext h b Background.

End execution.

Arguments Core {Foreign} e.
Arguments Outside {Foreign} e.
Arguments QueryError {Foreign} Op Table SQL Err.
Arguments SentExec {Dest Rows Row} query args.
Arguments SentQuery {Dest Rows Row} query args.
Arguments SentQueryRow {Dest Rows Row} query args.
Arguments SentScanRows {Dest Rows Row} rows dest.
Arguments SentScanRow {Dest Rows Row} row dest.
Arguments SentScan {Dest Rows Row} row.
Arguments SentClose {Dest Rows Row} rows.
Arguments mkQueryExecutor {Ctx Rows Row SqlResult Foreign} _ _ _.
Arguments mkScanner {Dest Rows Row Foreign} _ _.
Arguments mkQueryResult {SqlResult} _.
Arguments GetContext {Ctx Dest Rows Row SqlResult Foreign} _ _ h b ctx dest.
Arguments Get {Ctx Dest Rows Row SqlResult Foreign} _ _ _ h b dest.
Arguments FirstContext {Ctx Dest Rows Row SqlResult Foreign} _ _ h b ctx dest.
Arguments First {Ctx Dest Rows Row SqlResult Foreign} _ _ _ h b dest.
Arguments exec {Ctx Dest Rows Row SqlResult Foreign} _ op compiled h b ctx.
Arguments InsertContext {Ctx Dest Rows Row SqlResult Foreign} _ h b ctx data.
Arguments Insert {Ctx Dest Rows Row SqlResult Foreign} _ _ h b data.
Arguments UpdateContext {Ctx Dest Rows Row SqlResult Foreign} _ h b ctx data.
Arguments Update {Ctx Dest Rows Row SqlResult Foreign} _ _ h b data.
Arguments DeleteContext {Ctx Dest Rows Row SqlResult Foreign} _ h b ctx.
Arguments Delete {Ctx Dest Rows Row SqlResult Foreign} _ _ h b.
Arguments CountContext {Ctx Dest Rows Row SqlResult Foreign} _ _ _ h b ctx.
Arguments Count {Ctx Dest Rows Row SqlResult Foreign} _ _ _ _ h b.
Arguments ExistsContext {Ctx Dest Rows Row SqlResult Foreign} _ _ h b ctx.
Arguments Exists {Ctx Dest Rows Row SqlResult Foreign} _ _ _ h b.
Arguments DoesntExistContext {Ctx Dest Rows Row SqlResult Foreign} _ _ h b ctx.
Arguments DoesntExist {Ctx Dest Rows Row SqlResult Foreign} _ _ _ h b.

End fluentsql.

(** ** Vocabulary of the properties *)

Module spec.
Import strings dialect.

(** The kinds of clause the switch of [compileWhere] tells apart. *)
Inductive clause_kind : Type :=
| KBasic
| KIn (not : bool)
| KBetween (not : bool)
| KNull (not : bool)
| KRaw
| KNested
| KDate (fn : string)
| KUnknown.

Definition kind_of (t : WhereType) : clause_kind :=
  match t with
  | 0 => KBasic
  | 1 => KIn false
  | 2 => KIn true
  | 3 => KBetween false
  | 4 => KBetween true
  | 5 => KNull false
  | 6 => KNull true
  | 7 => KRaw
  | 8 => KNested
  | 9 => KDate "DATE"
  | 10 => KDate "YEAR"
  | 11 => KDate "MONTH"
  | 12 => KDate "DAY"
  | _ => KUnknown
  end%Z.

(** A clause that compiles to the empty text: a group without children, or
    a raw clause without text. *)
Definition is_empty_clause (w : WhereClause) : Prop :=
  (Type_ w = WhereTypeNested ∧ Nested w = [])
  ∨ (Type_ w = WhereTypeRaw ∧ Raw w = "").

(** The arguments such a clause contributes. *)
Definition empty_clause_args (w : WhereClause) : list any :=
  if decide (Type_ w = WhereTypeRaw) then Bindings w else [].

(** A row that passes the two checks of the loop over the rows of a batch:
    as many keys as the first row, and each of its keys. *)
Definition consistent (keys : list string) (row : gmap string any) : Prop :=
  size row = length keys ∧ Forall (λ key, is_Some (row !! key)) keys.

#[global] Instance consistent_dec keys row : Decision (consistent keys row).
Proof. unfold consistent. apply _. Defined.

(** The VALUES tuple of a row: a placeholder for each key. *)
Definition tuple (keys : list string) : string :=
  "(" +:+ Join ((λ _, "?") <$> keys) ", " +:+ ")".

(** *** Bytes *)

(** Every byte of [s] satisfies [p]. *)
Fixpoint all_bytes (p : ascii → bool) (s : string) : bool :=
  match s with
  | EmptyString => true
  | String c r => p c && all_bytes p r
  end.

(** The bytes of a valid identifier: letters, digits, underscore, dot. *)
Definition ident_byte (c : ascii) : bool :=
  validation.ident_char c || Ascii.eqb c ".".

(** The bytes of a valid table reference: those of an identifier, the white
    space between a name and its alias, and the two bytes of U+017F, which
    the pattern accepts for the s of AS. *)
Definition table_byte (c : ascii) : bool :=
  ident_byte c || validation.regex_space c
  || Ascii.eqb c "197" || Ascii.eqb c "191".

(** The bytes of a wrapped name. *)
Definition wrapped_byte (c : ascii) : bool :=
  ident_byte c || Ascii.eqb c "`" || Ascii.eqb c " " || Ascii.eqb c "*".

(** *** The names a statement wraps *)

Definition wraps (name : string) : Prop := (Wrap name).2 = None.




Definition builder_of (stmt : Statement) : QueryBuilder :=
  match stmt with
  | StmtSelect b | StmtInsert _ b _ | StmtInsertBatch _ b _
  | StmtUpdate _ b _ | StmtDelete b | StmtExists b | StmtCount b _
  | StmtAggregate b _ _ | StmtUpsert _ _ b _ _ | StmtTruncate b => b
  end.



(** *** Placeholders *)

(** [strings.Count(sql, "?")] *)
Definition placeholders (s : string) : nat := Count s "?".

(** A clause in which every raw clause, at any depth, binds as many values
    as its text holds placeholders. *)
Fixpoint raw_balanced (w : WhereClause) : bool :=
  match kind_of (Type_ w) with
  | KRaw => bool_decide (placeholders (Raw w) = length (Bindings w))
  | KNested => forallb raw_balanced (Nested w)
  | _ => true
  end.

(** A SELECT column that, when it is emitted as it is, holds no
    placeholder. *)
Definition column_clean (col : string) : bool :=
  if ContainsAny col " ()" then bool_decide (placeholders col = 0) else true.

(** An order whose raw text, or else whose direction, holds no
    placeholder. *)
Definition order_clean (o : OrderClause) : bool :=
  if decide (OrderRaw o ≠ "") then bool_decide (placeholders (OrderRaw o) = 0)
  else bool_decide (placeholders (Direction o) = 0).

(** A join whose type holds no placeholder. *)
Definition join_clean (j : JoinClause) : bool :=
  bool_decide (placeholders (JoinType_ j) = 0).

(** A statement whose caller-supplied texts that are emitted as they are
    hold no placeholder, and whose raw clauses are balanced. *)
Definition verbatim_balanced (stmt : Statement) : bool :=
  match stmt with
  | StmtSelect b =>
      forallb column_clean (GetColumns b)
      && forallb join_clean (GetJoins b)
      && forallb raw_balanced (GetWheres b)
      && forallb raw_balanced (GetHaving b)
      && forallb order_clean (GetOrders b)
  | StmtUpdate _ b _ | StmtDelete b | StmtExists b | StmtCount b _ =>
      forallb raw_balanced (GetWheres b)
  | StmtAggregate b fn _ =>
      bool_decide (placeholders fn = 0) && forallb raw_balanced (GetWheres b)
  | StmtInsert _ _ _ | StmtInsertBatch _ _ _ | StmtUpsert _ _ _ _ _
  | StmtTruncate _ => true
  end.

(** *** Builders that differ in what a statement does not read *)

(** The builder with another table alias and other join aliases. *)
Definition with_aliases (tableAlias : string)
    (joinAlias : JoinClause → string) (b : QueryBuilder) : QueryBuilder :=
  mkQueryBuilder (GetTable b) tableAlias (GetColumns b) (IsDistinct b)
    (GetWheres b) (GetOrders b)
    ((λ j, mkJoinClause (JoinType_ j) (Table j) (joinAlias j) (First j)
             (JoinOperator j) (Second j)) <$> GetJoins b)
    (GetGroupBy b) (GetHaving b) (GetLimit b) (GetOffset b).

(** The builder with other directions in its orders. *)
Definition with_directions (direction : OrderClause → OrderDirection)
    (b : QueryBuilder) : QueryBuilder :=
  mkQueryBuilder (GetTable b) (GetTableAlias b) (GetColumns b) (IsDistinct b)
    (GetWheres b)
    ((λ o, mkOrderClause (OrderColumn o) (direction o) (OrderRaw o))
       <$> GetOrders b)
    (GetJoins b) (GetGroupBy b) (GetHaving b) (GetLimit b) (GetOffset b).

(** The builder with its table and its WHERE list only. *)
Definition table_and_wheres (b : QueryBuilder) : QueryBuilder :=
  mkQueryBuilder (GetTable b) "" [] false (GetWheres b) [] [] [] [] None None.

(** A statement over another builder. *)
Definition map_builder (f : QueryBuilder → QueryBuilder) (stmt : Statement)
  : Statement :=
  match stmt with
  | StmtSelect b => StmtSelect (f b)
  | StmtInsert ranged b data => StmtInsert ranged (f b) data
  | StmtInsertBatch ranged b data => StmtInsertBatch ranged (f b) data
  | StmtUpdate ranged b data => StmtUpdate ranged (f b) data
  | StmtDelete b => StmtDelete (f b)
  | StmtExists b => StmtExists (f b)
  | StmtCount b column => StmtCount (f b) column
  | StmtAggregate b fn column => StmtAggregate (f b) fn column
  | StmtUpsert ranged ranged' b data updateColumns =>
      StmtUpsert ranged ranged' (f b) data updateColumns
  | StmtTruncate b => StmtTruncate (f b)
  end.

(** *** Well-formed predicates *)



(** *** The parts of a SELECT *)











(** *** Quoting *)

(** A name with its backquotes taken away. *)
Fixpoint unquote (s : string) : string :=
  match s with
  | EmptyString => ""
  | String c r => if Ascii.eqb c "`" then unquote r else String c (unquote r)
  end.

(** A name without a dot: a letter or an underscore, then letters, digits
    and underscores, 128 bytes at most. *)
Definition plain_ident (s : string) : bool :=
  match s with
  | EmptyString => false
  | String c r =>
      validation.ident_start c && all_bytes validation.ident_char r
      && bool_decide (String.length s ≤ 128)
  end.

(** A byte at which the names of the alias pattern stop: not of the class,
    and not the first byte of one of the two runes that fold into it. *)
Definition stops (c : ascii) : Prop :=
  validation.ident_char c = false ∧ Ascii.eqb c "197" = false
  ∧ Ascii.eqb c "226" = false.

(** A non-empty run of the white space of the alias pattern. *)
Definition blank (s : string) : bool :=
  match s with
  | EmptyString => false
  | String _ _ => all_bytes validation.regex_space s
  end.

(** *** Bound values *)

(** A clause with its bound values erased: [Value], the entries of [Values]
    and of [Bindings], at any depth. Two clauses differ only in their bound
    values when they erase to the same clause. *)
Fixpoint erase (w : WhereClause) : WhereClause :=
  mkWhereClause (Type_ w) (Boolean w) (Column w) (Operator w) AnyNil
    (map (λ _, AnyNil) (Values w)) (map erase (Nested w)) (Raw w)
    (map (λ _, AnyNil) (Bindings w)).

(** The values a clause binds, in the order of their placeholders. *)
Fixpoint bound_values (w : WhereClause) : list any :=
  match kind_of (Type_ w) with
  | KBasic | KDate _ => [Value w]
  | KIn _ | KBetween _ => Values w
  | KRaw => Bindings w
  | KNested => flat_map bound_values (Nested w)
  | KNull _ | KUnknown => []
  end.

(** Two results with the same text and the same error. *)
Definition same_text {T A B : Type}
    (r : T * A * option error) (r' : T * B * option error) : Prop :=
  r.1.1 = r'.1.1 ∧ r.2 = r'.2.

Definition erase_builder (b : QueryBuilder) : QueryBuilder :=
  mkQueryBuilder (GetTable b) (GetTableAlias b) (GetColumns b) (IsDistinct b)
    (map erase (GetWheres b)) (GetOrders b) (GetJoins b) (GetGroupBy b)
    (map erase (GetHaving b)) (GetLimit b) (GetOffset b).

Definition erase_data (data : gmap string any) : gmap string any :=
  (λ _, AnyNil) <$> data.

(** A statement with its bound values erased: those of its predicates and
    those of its data. *)
Definition erase_stmt (stmt : Statement) : Statement :=
  match stmt with
  | StmtSelect b => StmtSelect (erase_builder b)
  | StmtInsert ranged b data =>
      StmtInsert ranged (erase_builder b) (erase_data data)
  | StmtInsertBatch ranged b data =>
      StmtInsertBatch ranged (erase_builder b) (map erase_data data)
  | StmtUpdate ranged b data =>
      StmtUpdate ranged (erase_builder b) (erase_data data)
  | StmtDelete b => StmtDelete (erase_builder b)
  | StmtExists b => StmtExists (erase_builder b)
  | StmtCount b column => StmtCount (erase_builder b) column
  | StmtAggregate b fn column => StmtAggregate (erase_builder b) fn column
  | StmtUpsert ranged ranged' b data updateColumns =>
      StmtUpsert ranged ranged' (erase_builder b) (erase_data data)
        updateColumns
  | StmtTruncate b => StmtTruncate (erase_builder b)
  end.

(** The clauses that bind values: a comparison, a list, a range, a date
    part. *)
Definition binds_values (w : WhereClause) : bool :=
  match kind_of (Type_ w) with
  | KBasic | KIn _ | KBetween _ | KDate _ => true
  | _ => false
  end.

(** The arguments of a clause are the values it binds. *)
Definition clause_binds (w : WhereClause) : Prop :=
  ∀ sql args, compileWhere w = (sql, args, None) → args = bound_values w.

(** The text of a clause holds as many placeholders as the clause returns
    arguments. *)
Definition clause_counts (w : WhereClause) : Prop :=
  ∀ sql args, compileWhere w = (sql, args, None) →
    placeholders sql = length args.

(** *** The store of a builder *)

(** A slice of the store: the nil slice, or a view of an array of the store
    no longer than the array. *)
Definition valid (h : fluentsql.Heap) (s : fluentsql.slice) : Prop :=
  match fluentsql.array s with
  | Some l =>
      ∃ xs, h !! l = Some (fluentsql.Array xs) ∧ fluentsql.len s ≤ length xs
  | None => fluentsql.len s = 0
  end.

(** The list-valued fields of a builder. *)
Definition lists (b : fluentsql.Builder) : list fluentsql.slice :=
  [fluentsql.columns b; fluentsql.wheres b; fluentsql.orders b;
   fluentsql.joins b; fluentsql.groupBy b; fluentsql.having b].

(** A slice whose array the store [h] does not hold. *)
Definition fresh_in (h : fluentsql.Heap) (s : fluentsql.slice) : Prop :=
  ∃ l, fluentsql.array s = Some l ∧ h !! l = None.

(** *** Fluent chains *)

(** A call of a fluent method, with its arguments. A callback is the
    sequence of calls it makes on the builder it is given. *)
#[warnings="-register-all"]
Inductive call : Type :=
| CallTable (name : string)
| CallTableAs (name alias : string)
| CallFrom (name : string)
| CallSelect (columns : list string)
| CallSelectRaw (expr : string)
| CallDistinct
| CallWhere (column operator : string) (value : any)
| CallOrWhere (column operator : string) (value : any)
| CallWhereIn (column : string) (values : fluentsql.slice)
| CallWhereNotIn (column : string) (values : fluentsql.slice)
| CallOrWhereIn (column : string) (values : fluentsql.slice)
| CallOrWhereNotIn (column : string) (values : fluentsql.slice)
| CallWhereBetween (column : string) (min max : any)
| CallWhereNotBetween (column : string) (min max : any)
| CallWhereNull (column : string)
| CallWhereNotNull (column : string)
| CallOrWhereNull (column : string)
| CallOrWhereNotNull (column : string)
| CallWhereLike (column pattern : string)
| CallWhereNotLike (column pattern : string)
| CallWhereRaw (sqlExpr : string) (bindings : fluentsql.slice)
| CallOrWhereRaw (sqlExpr : string) (bindings : fluentsql.slice)
| CallWhereNested (fn : list call)
| CallOrWhereNested (fn : list call)
| CallWhereDate (column value : string)
| CallWhereYear (column : string) (value : Z)
| CallWhereMonth (column : string) (value : Z)
| CallWhereDay (column : string) (value : Z)
| CallJoin (table first operator second : string)
| CallLeftJoin (table first operator second : string)
| CallRightJoin (table first operator second : string)
| CallCrossJoin (table : string)
| CallOrderBy (column : string) (direction : OrderDirection)
| CallOrderByAsc (column : string)
| CallOrderByDesc (column : string)
| CallOrderByRaw (expr : string)
| CallLatest
| CallOldest
| CallGroupBy (columns : list string)
| CallHaving (column operator : string) (value : any)
| CallHavingRaw (sqlExpr : string) (bindings : fluentsql.slice)
| CallLimit (n : Z)
| CallOffset (n : Z)
| CallTake (n : Z)
| CallSkip (n : Z)
| CallForPage (page perPage : Z)
| CallReset
| CallWhen (condition : bool) (fn : list call)
| CallUnless (condition : bool) (fn : list call).

(** The calls of a chain, one after the other. *)
Definition run_with
    (run_call : call → fluentsql.Heap → fluentsql.Builder
                → fluentsql.Heap * fluentsql.Builder)
  : list call → fluentsql.Heap → fluentsql.Builder
    → fluentsql.Heap * fluentsql.Builder :=
  fix run (calls : list call) (h : fluentsql.Heap) (b : fluentsql.Builder)
      {struct calls} :=
    match calls with
    | [] => (h, b)
    | c :: rest => let '(h, b) := run_call c h b in run rest h b
    end.

Fixpoint run_call (grow : nat → nat → nat) (c : call)
    (h : fluentsql.Heap) (b : fluentsql.Builder) {struct c}
  : fluentsql.Heap * fluentsql.Builder :=
  match c with
  | CallTable name => fluentsql.Table h b name
  | CallTableAs name alias => fluentsql.TableAs h b name alias
  | CallFrom name => fluentsql.From h b name
  | CallSelect columns => fluentsql.Select grow h b columns
  | CallSelectRaw expr => fluentsql.SelectRaw grow h b expr
  | CallDistinct => fluentsql.Distinct h b
  | CallWhere column operator value =>
      fluentsql.Where grow h b column operator value
  | CallOrWhere column operator value =>
      fluentsql.OrWhere grow h b column operator value
  | CallWhereIn column values => fluentsql.WhereIn grow h b column values
  | CallWhereNotIn column values =>
      fluentsql.WhereNotIn grow h b column values
  | CallOrWhereIn column values => fluentsql.OrWhereIn grow h b column values
  | CallOrWhereNotIn column values =>
      fluentsql.OrWhereNotIn grow h b column values
  | CallWhereBetween column min max =>
      fluentsql.WhereBetween grow h b column min max
  | CallWhereNotBetween column min max =>
      fluentsql.WhereNotBetween grow h b column min max
  | CallWhereNull column => fluentsql.WhereNull grow h b column
  | CallWhereNotNull column => fluentsql.WhereNotNull grow h b column
  | CallOrWhereNull column => fluentsql.OrWhereNull grow h b column
  | CallOrWhereNotNull column => fluentsql.OrWhereNotNull grow h b column
  | CallWhereLike column pattern => fluentsql.WhereLike grow h b column pattern
  | CallWhereNotLike column pattern =>
      fluentsql.WhereNotLike grow h b column pattern
  | CallWhereRaw sqlExpr bindings =>
      fluentsql.WhereRaw grow h b sqlExpr bindings
  | CallOrWhereRaw sqlExpr bindings =>
      fluentsql.OrWhereRaw grow h b sqlExpr bindings
  | CallWhereNested fn =>
      fluentsql.WhereNested grow h b (run_with (run_call grow) fn)
  | CallOrWhereNested fn =>
      fluentsql.OrWhereNested grow h b (run_with (run_call grow) fn)
  | CallWhereDate column value => fluentsql.WhereDate grow h b column value
  | CallWhereYear column value => fluentsql.WhereYear grow h b column value
  | CallWhereMonth column value => fluentsql.WhereMonth grow h b column value
  | CallWhereDay column value => fluentsql.WhereDay grow h b column value
  | CallJoin table first operator second =>
      fluentsql.Join grow h b table first operator second
  | CallLeftJoin table first operator second =>
      fluentsql.LeftJoin grow h b table first operator second
  | CallRightJoin table first operator second =>
      fluentsql.RightJoin grow h b table first operator second
  | CallCrossJoin table => fluentsql.CrossJoin grow h b table
  | CallOrderBy column direction => fluentsql.OrderBy grow h b column direction
  | CallOrderByAsc column => fluentsql.OrderByAsc grow h b column
  | CallOrderByDesc column => fluentsql.OrderByDesc grow h b column
  | CallOrderByRaw expr => fluentsql.OrderByRaw grow h b expr
  | CallLatest => fluentsql.Latest grow h b
  | CallOldest => fluentsql.Oldest grow h b
  | CallGroupBy columns => fluentsql.GroupBy grow h b columns
  | CallHaving column operator value =>
      fluentsql.Having grow h b column operator value
  | CallHavingRaw sqlExpr bindings =>
      fluentsql.HavingRaw grow h b sqlExpr bindings
  | CallLimit n => fluentsql.Limit h b n
  | CallOffset n => fluentsql.Offset h b n
  | CallTake n => fluentsql.Take h b n
  | CallSkip n => fluentsql.Skip h b n
  | CallForPage page perPage => fluentsql.ForPage h b page perPage
  | CallReset => fluentsql.Reset h b
  | CallWhen condition fn =>
      fluentsql.When h b condition (run_with (run_call grow) fn)
  | CallUnless condition fn =>
      fluentsql.Unless h b condition (run_with (run_call grow) fn)
  end.

Definition run (grow : nat → nat → nat)
  : list call → fluentsql.Heap → fluentsql.Builder
    → fluentsql.Heap * fluentsql.Builder :=
  run_with (run_call grow).

(** The arrays of the six lists of a builder. *)
Definition top (b : fluentsql.Builder) : gset fluentsql.loc :=
  list_to_set (omap fluentsql.array (lists b)).

(** From the store [h] and the builder [b] to [h'] and [b']: the store
    keeps its locations, those that are not an array of [b] keep their
    content, and each array of [b'] is one of [b] or new. *)
Definition frames (h : fluentsql.Heap) (b : fluentsql.Builder)
    (h' : fluentsql.Heap) (b' : fluentsql.Builder) : Prop :=
  dom h ⊆ dom h'
  ∧ (∀ l, l ∈ dom h → l ∉ top b → h' !! l = h !! l)
  ∧ (∀ l, l ∈ top b' → l ∈ top b ∨ l ∉ dom h).

(** A well-formed builder: each of its lists is a slice of the store, and
    no two of them view the same array. *)
Definition well_formed (h : fluentsql.Heap) (b : fluentsql.Builder) : Prop :=
  Forall (valid h) (lists b) ∧ NoDup (omap fluentsql.array (lists b)).

(** A call that may run [Reset] on the builder it is made on: [Reset], or a
    [When] or an [Unless] whose callback makes such a call. *)
Fixpoint resets (c : call) : bool :=
  match c with
  | CallReset => true
  | CallWhen _ fn | CallUnless _ fn => existsb resets fn
  | _ => false
  end.

(** *** The record of a chain

    What a chain of calls on a builder asks for, as the grammar is to read
    it: the record of a chain is a [QueryBuilder]. A slice that a call is
    given is read in the store [h]. *)

Definition empty_query : QueryBuilder :=
  mkQueryBuilder "" "" [] false [] [] [] [] [] None None.

Definition set_table (name alias : string) (q : QueryBuilder) : QueryBuilder :=
  mkQueryBuilder name alias (GetColumns q) (IsDistinct q) (GetWheres q)
    (GetOrders q) (GetJoins q) (GetGroupBy q) (GetHaving q) (GetLimit q)
    (GetOffset q).

Definition set_distinct (q : QueryBuilder) : QueryBuilder :=
  mkQueryBuilder (GetTable q) (GetTableAlias q) (GetColumns q) true
    (GetWheres q) (GetOrders q) (GetJoins q) (GetGroupBy q) (GetHaving q)
    (GetLimit q) (GetOffset q).

Definition add_columns (columns : list string) (q : QueryBuilder)
  : QueryBuilder :=
  mkQueryBuilder (GetTable q) (GetTableAlias q) (GetColumns q ++ columns)
    (IsDistinct q) (GetWheres q) (GetOrders q) (GetJoins q) (GetGroupBy q)
    (GetHaving q) (GetLimit q) (GetOffset q).

Definition add_where (w : WhereClause) (q : QueryBuilder) : QueryBuilder :=
  mkQueryBuilder (GetTable q) (GetTableAlias q) (GetColumns q) (IsDistinct q)
    (GetWheres q ++ [w]) (GetOrders q) (GetJoins q) (GetGroupBy q)
    (GetHaving q) (GetLimit q) (GetOffset q).

Definition add_order (o : OrderClause) (q : QueryBuilder) : QueryBuilder :=
  mkQueryBuilder (GetTable q) (GetTableAlias q) (GetColumns q) (IsDistinct q)
    (GetWheres q) (GetOrders q ++ [o]) (GetJoins q) (GetGroupBy q)
    (GetHaving q) (GetLimit q) (GetOffset q).

Definition add_join (j : JoinClause) (q : QueryBuilder) : QueryBuilder :=
  mkQueryBuilder (GetTable q) (GetTableAlias q) (GetColumns q) (IsDistinct q)
    (GetWheres q) (GetOrders q) (GetJoins q ++ [j]) (GetGroupBy q)
    (GetHaving q) (GetLimit q) (GetOffset q).

Definition add_groupBy (columns : list string) (q : QueryBuilder)
  : QueryBuilder :=
  mkQueryBuilder (GetTable q) (GetTableAlias q) (GetColumns q) (IsDistinct q)
    (GetWheres q) (GetOrders q) (GetJoins q) (GetGroupBy q ++ columns)
    (GetHaving q) (GetLimit q) (GetOffset q).

Definition add_having (w : WhereClause) (q : QueryBuilder) : QueryBuilder :=
  mkQueryBuilder (GetTable q) (GetTableAlias q) (GetColumns q) (IsDistinct q)
    (GetWheres q) (GetOrders q) (GetJoins q) (GetGroupBy q)
    (GetHaving q ++ [w]) (GetLimit q) (GetOffset q).

Definition set_limit (n : Z) (q : QueryBuilder) : QueryBuilder :=
  mkQueryBuilder (GetTable q) (GetTableAlias q) (GetColumns q) (IsDistinct q)
    (GetWheres q) (GetOrders q) (GetJoins q) (GetGroupBy q) (GetHaving q)
    (Some n) (GetOffset q).

Definition set_offset (n : Z) (q : QueryBuilder) : QueryBuilder :=
  mkQueryBuilder (GetTable q) (GetTableAlias q) (GetColumns q) (IsDistinct q)
    (GetWheres q) (GetOrders q) (GetJoins q) (GetGroupBy q) (GetHaving q)
    (GetLimit q) (Some n).

(** A predicate without children. *)
Definition flat (type : WhereType) (boolean : WhereBoolean)
    (column operator : string) (value : any) (values : list any)
    (raw : string) (bindings : list any) : WhereClause :=
  mkWhereClause type boolean column operator value values [] raw bindings.

(** A group. *)
Definition group (boolean : WhereBoolean) (children : list WhereClause)
  : WhereClause :=
  mkWhereClause WhereTypeNested boolean "" "" AnyNil [] children "" [].

Definition record_with (record_call : call → QueryBuilder → QueryBuilder)
  : list call → QueryBuilder → QueryBuilder :=
  fix record (calls : list call) (q : QueryBuilder) {struct calls} :=
    match calls with
    | [] => q
    | c :: rest => record rest (record_call c q)
    end.

Fixpoint record_call (h : fluentsql.Heap) (c : call) (q : QueryBuilder)
    {struct c} : QueryBuilder :=
  let values := fluentsql.read_anys h in
  match c with
  | CallTable name => set_table name (GetTableAlias q) q
  | CallTableAs name alias => set_table name alias q
  | CallFrom name => set_table name (GetTableAlias q) q
  | CallSelect columns => add_columns columns q
  | CallSelectRaw expr => add_columns [expr] q
  | CallDistinct => set_distinct q
  | CallWhere column operator value =>
      add_where
        (flat WhereTypeBasic WhereBooleanAnd column operator value [] "" []) q
  | CallOrWhere column operator value =>
      add_where
        (flat WhereTypeBasic WhereBooleanOr column operator value [] "" []) q
  | CallWhereIn column vs =>
      add_where
        (flat WhereTypeIn WhereBooleanAnd column "" AnyNil (values vs) "" []) q
  | CallWhereNotIn column vs =>
      add_where
        (flat WhereTypeNotIn WhereBooleanAnd column "" AnyNil (values vs) ""
           []) q
  | CallOrWhereIn column vs =>
      add_where
        (flat WhereTypeIn WhereBooleanOr column "" AnyNil (values vs) "" []) q
  | CallOrWhereNotIn column vs =>
      add_where
        (flat WhereTypeNotIn WhereBooleanOr column "" AnyNil (values vs) ""
           []) q
  | CallWhereBetween column min max =>
      add_where
        (flat WhereTypeBetween WhereBooleanAnd column "" AnyNil [min; max] ""
           []) q
  | CallWhereNotBetween column min max =>
      add_where
        (flat WhereTypeNotBetween WhereBooleanAnd column "" AnyNil [min; max]
           "" []) q
  | CallWhereNull column =>
      add_where (flat WhereTypeNull WhereBooleanAnd column "" AnyNil [] "" [])
        q
  | CallWhereNotNull column =>
      add_where
        (flat WhereTypeNotNull WhereBooleanAnd column "" AnyNil [] "" []) q
  | CallOrWhereNull column =>
      add_where (flat WhereTypeNull WhereBooleanOr column "" AnyNil [] "" [])
        q
  | CallOrWhereNotNull column =>
      add_where
        (flat WhereTypeNotNull WhereBooleanOr column "" AnyNil [] "" []) q
  | CallWhereLike column pattern =>
      add_where
        (flat WhereTypeBasic WhereBooleanAnd column "LIKE" (AnyString pattern)
           [] "" []) q
  | CallWhereNotLike column pattern =>
      add_where
        (flat WhereTypeBasic WhereBooleanAnd column "NOT LIKE"
           (AnyString pattern) [] "" []) q
  | CallWhereRaw sqlExpr bindings =>
      add_where
        (flat WhereTypeRaw WhereBooleanAnd "" "" AnyNil [] sqlExpr
           (values bindings)) q
  | CallOrWhereRaw sqlExpr bindings =>
      add_where
        (flat WhereTypeRaw WhereBooleanOr "" "" AnyNil [] sqlExpr
           (values bindings)) q
  | CallWhereNested fn =>
      add_where
        (group WhereBooleanAnd
           (GetWheres (record_with (record_call h) fn empty_query))) q
  | CallOrWhereNested fn =>
      add_where
        (group WhereBooleanOr
           (GetWheres (record_with (record_call h) fn empty_query))) q
  | CallWhereDate column value =>
      add_where
        (flat WhereTypeDate WhereBooleanAnd column "" (AnyString value) [] ""
           []) q
  | CallWhereYear column value =>
      add_where
        (flat WhereTypeYear WhereBooleanAnd column "" (AnyInt value) [] "" [])
        q
  | CallWhereMonth column value =>
      add_where
        (flat WhereTypeMonth WhereBooleanAnd column "" (AnyInt value) [] ""
           []) q
  | CallWhereDay column value =>
      add_where
        (flat WhereTypeDay WhereBooleanAnd column "" (AnyInt value) [] "" [])
        q
  | CallJoin table first operator second =>
      add_join (mkJoinClause JoinInner table "" first operator second) q
  | CallLeftJoin table first operator second =>
      add_join (mkJoinClause JoinLeft table "" first operator second) q
  | CallRightJoin table first operator second =>
      add_join (mkJoinClause JoinRight table "" first operator second) q
  | CallCrossJoin table =>
      add_join (mkJoinClause JoinCross table "" "" "" "") q
  | CallOrderBy column direction =>
      add_order (mkOrderClause column direction "") q
  | CallOrderByAsc column => add_order (mkOrderClause column OrderAsc "") q
  | CallOrderByDesc column => add_order (mkOrderClause column OrderDesc "") q
  | CallOrderByRaw expr => add_order (mkOrderClause "" "" expr) q
  | CallLatest => add_order (mkOrderClause "created_at" OrderDesc "") q
  | CallOldest => add_order (mkOrderClause "created_at" OrderAsc "") q
  | CallGroupBy columns => add_groupBy columns q
  | CallHaving column operator value =>
      add_having
        (flat WhereTypeBasic WhereBooleanAnd column operator value [] "" []) q
  | CallHavingRaw sqlExpr bindings =>
      add_having
        (flat WhereTypeRaw WhereBooleanAnd "" "" AnyNil [] sqlExpr
           (values bindings)) q
  | CallLimit n | CallTake n => set_limit n q
  | CallOffset n | CallSkip n => set_offset n q
  | CallForPage page perPage =>
      let page := if decide (page < 1)%Z then 1%Z else page in
      set_offset (fluentsql.int (fluentsql.int (page - 1) * perPage))
        (set_limit perPage q)
  | CallReset => empty_query
  | CallWhen condition fn =>
      if condition then record_with (record_call h) fn q else q
  | CallUnless condition fn =>
      if condition then q else record_with (record_call h) fn q
  end.

Definition record (h : fluentsql.Heap)
  : list call → QueryBuilder → QueryBuilder :=
  record_with (record_call h).

(** The slices a call is given, those of the calls of its callback
    included. *)
Fixpoint slices (c : call) : list fluentsql.slice :=
  match c with
  | CallWhereIn _ s | CallWhereNotIn _ s | CallOrWhereIn _ s
  | CallOrWhereNotIn _ s | CallWhereRaw _ s | CallOrWhereRaw _ s
  | CallHavingRaw _ s => [s]
  | CallWhereNested fn | CallOrWhereNested fn | CallWhen _ fn
  | CallUnless _ fn => flat_map slices fn
  | _ => []
  end.

(** The clause an element of a predicate list stands for, the clauses
    nested in it read down to [depth] levels: the body of
    [fluentsql.read_wheres]. *)
Definition read_clause (depth : nat) (h : fluentsql.Heap)
    (e : fluentsql.elem) : option WhereClause :=
  match e with
  | fluentsql.EWhere w =>
      Some {| Type_ := fluentsql.mType w;
              Boolean := fluentsql.mBoolean w;
              Column := fluentsql.mColumn w;
              Operator := fluentsql.mOperator w;
              Value := fluentsql.mValue w;
              Values := fluentsql.read_anys h (fluentsql.mValues w);
              Nested := fluentsql.read_wheres depth h (fluentsql.mNested w);
              Raw := fluentsql.mRaw w;
              Bindings := fluentsql.read_anys h (fluentsql.mBindings w) |}
  | _ => None
  end.

(** The elements [es] stand for the clauses [ws] in every store that holds
    at the locations of [A] what [h] holds there, read down to [k] levels or
    more. *)
Definition settled (A : gset fluentsql.loc) (k : nat) (h : fluentsql.Heap)
    (es : list fluentsql.elem) (ws : list WhereClause) : Prop :=
  ∀ h' d,
    (∀ l, l ∈ A → h' !! l = h !! l) → k ≤ d →
    omap (read_clause d h') es = ws.

(** The six lists of a builder, as lists of elements, hold the lists of
    [q]. *)
Definition holds (A : gset fluentsql.loc) (k : nat) (h : fluentsql.Heap)
    (ls : list (list fluentsql.elem)) (q : QueryBuilder) : Prop :=
  match ls with
  | [columns; wheres; orders; joins; groupBy; having] =>
      omap (λ e, match e with fluentsql.EString x => Some x | _ => None end)
        columns = GetColumns q
      ∧ settled A k h wheres (GetWheres q)
      ∧ omap (λ e, match e with fluentsql.EOrder x => Some x | _ => None end)
          orders = GetOrders q
      ∧ omap (λ e, match e with fluentsql.EJoin x => Some x | _ => None end)
          joins = GetJoins q
      ∧ omap (λ e, match e with fluentsql.EString x => Some x | _ => None end)
          groupBy = GetGroupBy q
      ∧ settled A k h having (GetHaving q)
  | _ => False
  end.

(** The pointer [p] is nil or points into [A], to [z]. *)
Definition points (A : gset fluentsql.loc) (h : fluentsql.Heap)
    (p : option fluentsql.loc) (z : option Z) : Prop :=
  fluentsql.read_int h p = z ∧ ∀ l, p = Some l → l ∈ A.

(** The builder [b] in the store [h] stands for the record [q], and goes on
    doing so while the locations of [A] keep their content: [A] holds the
    store [h0] of the slices given to the calls and none of the arrays of
    the lists of [b]; [n] locations of [h] are left out of the count of the
    levels of nesting. *)
Definition represents (h0 : fluentsql.Heap) (A : gset fluentsql.loc)
    (n : nat) (h : fluentsql.Heap) (b : fluentsql.Builder)
    (q : QueryBuilder) : Prop :=
  well_formed h b
  ∧ (h0 ⊆ h ∧ dom h0 ⊆ A ∧ A ⊆ dom h ∧ ∀ l, l ∈ top b → l ∉ A)
  ∧ (fluentsql.table b = GetTable q
     ∧ fluentsql.tableAlias b = GetTableAlias q
     ∧ fluentsql.distinct b = IsDistinct q)
  ∧ (∃ k, n + k ≤ size h ∧ holds A k h (fluentsql.elems h <$> lists b) q)
  ∧ points A h (fluentsql.limit b) (GetLimit q)
  ∧ points A h (fluentsql.offset b) (GetOffset q).

(** *** What a method hands to the executor *)

(** A call on the executor: not one on the scanner, on a row or on the
    rows. *)
Definition to_executor {Dest Rows Row : Type}
    (c : fluentsql.sent Dest Rows Row) : bool :=
  match c with
  | fluentsql.SentExec _ _
  | fluentsql.SentQuery _ _
  | fluentsql.SentQueryRow _ _ => true
  | _ => false
  end.

(** The calls on the executor among [calls], in their order. *)
Definition handed {Dest Rows Row : Type}
    (calls : list (fluentsql.sent Dest Rows Row))
  : list (fluentsql.sent Dest Rows Row) :=
  List.filter to_executor calls.

(** One call of [method] with the text and the arguments of [compiled], and
    none when [compiled] is an error. *)
Definition dispatched {Dest Rows Row : Type}
    (method : string → list any → fluentsql.sent Dest Rows Row)
    (compiled : result) : list (fluentsql.sent Dest Rows Row) :=
  match compiled with
  | (sqlStr, args, None) => [method sqlStr (fluentsql.variadic args)]
  | (_, _, Some _) => []
  end.

End spec.

(** ** Sample inputs *)

Module sample.
Import dialect.

(** [column = value], joined by [boolean]. *)
Definition basic (boolean : WhereBoolean) (column : string) (value : any)
  : WhereClause :=
  mkWhereClause WhereTypeBasic boolean column "=" value [] [] "" [].

(** A parenthesized group. *)
Definition nested (boolean : WhereBoolean) (children : list WhereClause)
  : WhereClause :=
  mkWhereClause WhereTypeNested boolean "" "" AnyNil [] children "" [].

(** [WhereRaw(sqlExpr, bindings...)] *)
Definition raw (sqlExpr : string) (bindings : list any) : WhereClause :=
  mkWhereClause WhereTypeRaw WhereBooleanAnd "" "" AnyNil [] [] sqlExpr
    bindings.

(** A builder with a table and predicates only. *)
Definition query (table : string) (wheres : list WhereClause) : QueryBuilder :=
  mkQueryBuilder table "" [] false wheres [] [] [] [] None None.


(** A SELECT with a raw clause that binds the one value its text asks. *)
Definition balancedSelect : Statement :=
  StmtSelect (query "users"
                [basic WhereBooleanAnd "a" (AnyInt 1);
                 raw "age > ?" [AnyInt 18]]).

Definition A : WhereClause := basic WhereBooleanAnd "a" (AnyInt 1).
Definition B : WhereClause := basic WhereBooleanAnd "b" (AnyInt 2).
Definition C : WhereClause := basic WhereBooleanOr "c" (AnyInt 3).

Definition john : gmap string any :=
  <["name" := AnyString "John"]> (<["email" := AnyString "j@x.com"]> ∅).
Definition jane : gmap string any :=
  <["email" := AnyString "jane@x.com"]> (<["name" := AnyString "Jane"]> ∅).

(** Two SELECTs that differ in a bound value only. *)
Definition selectJohn : Statement :=
  StmtSelect (sample.query "users"
                [sample.basic WhereBooleanAnd "name" (AnyString "John")]).
Definition selectJane : Statement :=
  StmtSelect (sample.query "users"
                [sample.basic WhereBooleanAnd "name" (AnyString "Jane")]).

(** The state after
    [b := NewBuilder(nil, g, nil).Table("users").WhereIn("id", vals).
          WhereNested(func(q *Builder) { q.Where("a", "=", 1) })]
    with [vals := []any{1, 2, 3}]. *)
Definition vals : fluentsql.slice := fluentsql.mkSlice (Some 6%positive) 3.
Definition children : fluentsql.slice := fluentsql.mkSlice (Some 8%positive) 1.

Definition whereIn : fluentsql.WhereClauseM :=
  fluentsql.mkWhereClauseM WhereTypeIn WhereBooleanAnd "id" "" AnyNil vals
    fluentsql.nil_slice "" fluentsql.nil_slice.

Definition whereNested : fluentsql.WhereClauseM :=
  fluentsql.mkWhereClauseM WhereTypeNested WhereBooleanAnd "" "" AnyNil
    fluentsql.nil_slice children "" fluentsql.nil_slice.

Definition child (value : any) : fluentsql.WhereClauseM :=
  fluentsql.mkWhereClauseM WhereTypeBasic WhereBooleanAnd "a" "=" value
    fluentsql.nil_slice fluentsql.nil_slice "" fluentsql.nil_slice.

Definition heap : fluentsql.Heap :=
  list_to_map
    [(1%positive, fluentsql.Array []); (2%positive, fluentsql.Array []);
     (3%positive, fluentsql.Array []); (4%positive, fluentsql.Array []);
     (5%positive, fluentsql.Array []);
     (6%positive,
      fluentsql.Array
        [fluentsql.EAny (AnyInt 1); fluentsql.EAny (AnyInt 2);
         fluentsql.EAny (AnyInt 3)]);
     (7%positive,
      fluentsql.Array [fluentsql.EWhere whereIn; fluentsql.EWhere whereNested]);
     (8%positive, fluentsql.Array [fluentsql.EWhere (child (AnyInt 1))])].

Definition builder : fluentsql.Builder :=
  fluentsql.mkBuilder None (Some (MySQL map_keys)) None "users" ""
    (fluentsql.mkSlice (Some 1%positive) 0) false
    (fluentsql.mkSlice (Some 7%positive) 2)
    (fluentsql.mkSlice (Some 2%positive) 0)
    (fluentsql.mkSlice (Some 3%positive) 0)
    (fluentsql.mkSlice (Some 4%positive) 0)
    (fluentsql.mkSlice (Some 5%positive) 0)
    None None None.

(** [c := b.Clone()] *)
Definition cloned : fluentsql.Heap * fluentsql.Builder :=
  fluentsql.Clone heap builder.

(** The SQL of the clone in a store. *)
Definition clonedSQL (h : fluentsql.Heap) : result :=
  (fluentsql.ToSQL h cloned.2).1.

(** A choice of capacities for [append]: twice the old one, or what is
    needed. *)
Definition doubling (capacity needed : nat) : nat :=
  max needed (2 * capacity).

(** [b.Where("age", ">", 18).OrderByDesc("id").ForPage(2, 10)] *)
Definition chain : list spec.call :=
  [spec.CallWhere "age" ">" (AnyInt 18); spec.CallOrderByDesc "id";
   spec.CallForPage 2 10].

(** [b.Table("users").WhereIn("id", vals).
       WhereNested(func(q *Builder) { q.Where("a", "=", 1) })] *)
Definition session : list spec.call :=
  [spec.CallTable "users"; spec.CallWhereIn "id" vals;
   spec.CallWhereNested [spec.CallWhere "a" "=" (AnyInt 1)]].

(** [b := NewBuilder(nil, g, nil)] with the calls of [session];
    [c := b.Clone()]; the calls of [chain] on [c]; and then
    [b.WhereNull("deleted_at")]. *)
Definition built : fluentsql.Heap * fluentsql.Builder :=
  spec.run doubling session
    (fluentsql.NewBuilder heap None (Some (MySQL map_keys)) None).1
    (fluentsql.NewBuilder heap None (Some (MySQL map_keys)) None).2.
Definition forked : fluentsql.Heap * fluentsql.Builder :=
  fluentsql.Clone built.1 built.2.
Definition afterClone : fluentsql.Heap * fluentsql.Builder :=
  spec.run doubling chain forked.1 forked.2.
Definition afterBuilder : fluentsql.Heap * fluentsql.Builder :=
  spec.run doubling [spec.CallWhereNull "deleted_at"] afterClone.1 built.2.

(** A builder with its error set. *)
(** A database that answers every call without an error, a scanner that
    scans without an error, and a row whose [Scan] fails. *)
Definition database (_ : fluentsql.loc)
  : fluentsql.QueryExecutor unit unit unit unit unit :=
  fluentsql.mkQueryExecutor (λ _ _ _, (tt, None)) (λ _ _ _, (tt, None))
    (λ _ _ _, tt).

Definition scanning (_ : fluentsql.loc) : fluentsql.Scanner unit unit unit unit :=
  fluentsql.mkScanner (λ _ _, None) (λ _ _, None).

Definition failingScan (_ : unit) : bool * option unit := (true, Some tt).

(** [NewBuilder(db, grammar, scanner).Table("users")] *)
Definition connected : fluentsql.Heap * fluentsql.Builder :=
  let '(h, b) :=
    fluentsql.NewBuilder heap (Some 1%positive) (Some (MySQL map_keys))
      (Some 2%positive) in
  fluentsql.Table h b "users".

(** The calls of [session] on a builder with a database and a scanner, and
    then [First]. *)
Definition served : fluentsql.Heap * fluentsql.Builder :=
  let '(h, b) :=
    fluentsql.NewBuilder heap (Some 1%positive) (Some (MySQL map_keys))
      (Some 2%positive) in
  spec.run doubling session h b.

Definition afterFirst
  : fluentsql.Heap * fluentsql.Builder
    * fluentsql.returned (option (fluentsql.failure unit))
    * list (fluentsql.sent unit unit unit) :=
  fluentsql.FirstContext database scanning served.1 served.2 tt tt.

Definition failedBuilder : fluentsql.Builder :=
  fluentsql.mkBuilder None (Some (MySQL map_keys)) None "users" ""
    fluentsql.nil_slice false fluentsql.nil_slice fluentsql.nil_slice
    fluentsql.nil_slice fluentsql.nil_slice fluentsql.nil_slice
    None None (Some ErrNoTable).

End sample.

(** * Properties *)

Import strings validation dialect spec.

#[local] Arguments compileWhere : simpl never.
#[local] Arguments compileWheres : simpl never.
#[local] Arguments Wrap : simpl never.
#[local] Arguments WrapTable : simpl never.
#[local] Arguments kind_of : simpl never.

(** Reads the fields of a clause given by its constructor. *)
Ltac fields :=
  cbn [Type_ Boolean Column Operator Value Values Nested Raw Bindings
       fst snd] in *.

(** ** Strings *)

Lemma append_nil_l (s : string) : "" +:+ s = s.
Proof. reflexivity. Qed.

Lemma append_cons (c : ascii) (s t : string) :
  String c s +:+ t = String c (s +:+ t).
Proof. reflexivity. Qed.

Lemma append_nil_r (s : string) : s +:+ "" = s.
Proof. induction s as [|c s IH]; [done|]. by rewrite append_cons, IH. Qed.

Lemma append_assoc (s t u : string) : (s +:+ t) +:+ u = s +:+ t +:+ u.
Proof.
  induction s as [|c s IH]; [done|]. by rewrite !append_cons, IH.
Qed.

Lemma append_eq_nil (s t : string) : s +:+ t = "" → s = "" ∧ t = "".
Proof. destruct s; [done|]. by rewrite append_cons. Qed.

(** ** Sticky builder error (C7) *)

Section builder_error.
Import fluentsql.

(** C7. A builder whose accumulated error is set answers every
    compilation entry point with that error, the empty SQL string and a
    nil argument slice, and makes no call to the grammar. *)
Theorem sticky_error_short_circuits
    (h : gmap loc cell) (b : Builder) (data : gmap string any) (e : error) :
  Err b = Some e →
  ToSelectSQL h b = (("", None, Some e), [])
  ∧ ToInsertSQL h b data = (("", None, Some e), [])
  ∧ ToUpdateSQL h b data = (("", None, Some e), [])
  ∧ ToDeleteSQL h b = (("", None, Some e), []).
Proof.
  unfold Err, ToSelectSQL, ToInsertSQL, ToUpdateSQL, ToDeleteSQL.
  by intros ->.
Qed.

Lemma sticky_error_short_circuits_witness :
  Err sample.failedBuilder = Some ErrNoTable
  ∧ ToSelectSQL ∅ sample.failedBuilder = (("", None, Some ErrNoTable), [])
  ∧ ToInsertSQL ∅ sample.failedBuilder ∅ = (("", None, Some ErrNoTable), [])
  ∧ ToUpdateSQL ∅ sample.failedBuilder ∅ = (("", None, Some ErrNoTable), [])
  ∧ ToDeleteSQL ∅ sample.failedBuilder = (("", None, Some ErrNoTable), []).
Proof.
  split; [reflexivity|].
  apply (sticky_error_short_circuits ∅ sample.failedBuilder ∅ ErrNoTable).
  reflexivity.
Defined.

End builder_error.

(** ** All or nothing (C6) *)

(** Unfolds the error returns in [H]. *)
Ltac unfold_fail H :=
  cbv beta delta
    [fail fail_string fail_strings fail_clause fail_result fail_columns] in H.

(** Takes the condition or the call at the head of the method in [H] apart. *)
Ltac head_case H :=
  lazymatch type of H with
  | (match ?c with _ => _ end) = _ =>
      let E := fresh "E" in
      destruct c eqn:E; cbv beta iota zeta in H; unfold_fail H
  end.

(** Runs a method down to each of its returns. *)
Ltac each_return H :=
  unfold_fail H; try (by simplify_eq);
  repeat (head_case H; try (by simplify_eq)).

Section all_or_nothing.

Lemma compile_error_empty stmt sql args e :
  compile stmt = (sql, args, Some e) → sql = "" ∧ args = None.
Proof.
  destruct stmt; simpl; intros H.
  - unfold CompileSelect in H. each_return H.
  - unfold CompileInsert in H. each_return H.
  - unfold CompileInsertBatch in H. each_return H.
  - unfold CompileUpdate in H. each_return H.
  - unfold CompileDelete in H. each_return H.
  - unfold CompileExists in H. each_return H.
  - unfold CompileCount in H. each_return H.
  - unfold CompileAggregate in H. each_return H.
  - unfold CompileUpsert in H. each_return H.
  - destruct (CompileTruncate b) as [sql' [e'|]] eqn:E; simplify_eq.
    unfold CompileTruncate in E. each_return E.
Qed.

(** C6. Whatever the compile method and its input, a result that carries
    an error carries the empty SQL string (and a nil argument slice). *)
Theorem error_returns_no_sql
    (stmt : Statement) (sql : string) (args : option (list any)) (e : error) :
  compile stmt = (sql, args, Some e) → sql = "" ∧ args = None.
Proof. apply compile_error_empty. Qed.

Lemma error_returns_no_sql_witness :
  compile (StmtSelect (sample.query "users;DROP" []))
  = ("", None,
     Some (IdentifierError "users;DROP"
             "identifier contains invalid characters; only letters, numbers, underscores, and dots are allowed"))
  ∧ "" = "" ∧ (None : option (list any)) = None.
Proof.
  split; [vm_compute; reflexivity|].
  eapply (error_returns_no_sql (StmtSelect (sample.query "users;DROP" []))).
  vm_compute. reflexivity.
Defined.

End all_or_nothing.

(** ** The predicate compiler: connectors and nesting (C5, C10) *)

Section connectors.

Lemma compileWhere_unfold w :
  compileWhere w =
  match Type_ w with
  | 0 => compileWhereBasic w
  | 1 => compileWhereIn w false
  | 2 => compileWhereIn w true
  | 3 => compileWhereBetween w false
  | 4 => compileWhereBetween w true
  | 5 => compileWhereNull w false
  | 6 => compileWhereNull w true
  | 7 => (Raw w, Bindings w, None)
  | 8 => compileWhereNested w
  | 9 => compileWhereDate w "DATE"
  | 10 => compileWhereDate w "YEAR"
  | 11 => compileWhereDate w "MONTH"
  | 12 => compileWhereDate w "DAY"
  | _ =>
      ("", [],
       Some (PlainError ("unknown where type: "
                         +:+ WhereType_Sprint_v (Type_ w))))
  end%Z.
Proof. by destruct w. Qed.

(** The switch of [compileWhere], by kind of clause. *)
Lemma compileWhere_kind w :
  compileWhere w =
  match kind_of (Type_ w) with
  | KBasic => compileWhereBasic w
  | KIn not => compileWhereIn w not
  | KBetween not => compileWhereBetween w not
  | KNull not => compileWhereNull w not
  | KRaw => (Raw w, Bindings w, None)
  | KNested => compileWhereNested w
  | KDate fn => compileWhereDate w fn
  | KUnknown =>
      ("", [],
       Some (PlainError ("unknown where type: "
                         +:+ WhereType_Sprint_v (Type_ w))))
  end.
Proof.
  rewrite compileWhere_unfold. unfold kind_of.
  repeat match goal with
  | |- context [match ?p with _ => _ end] => is_var p; destruct p
  | |- context [match Type_ ?p with _ => _ end] => destruct (Type_ p)
  end; reflexivity.
Qed.

(** An error return of the predicate compiler carries no text. *)
Lemma compileWhere_error w sql args e :
  compileWhere w = (sql, args, Some e) → sql = "" ∧ args = [].
Proof.
  rewrite compileWhere_kind.
  destruct (kind_of (Type_ w)); intros H;
    unfold compileWhereBasic, compileWhereIn, compileWhereBetween,
      compileWhereNull, compileWhereDate, compileWhereNested,
      compileWhereNested_with in H;
    each_return H.
Qed.

(** The loop of [compileWheres] only appends to what it was given. *)
Lemma compileWheres_loop_acc ws : ∀ i sql args,
  compileWheres_loop compileWhere i ws sql args =
    match compileWheres_loop compileWhere i ws "" [] with
    | (_, Some e) => ("", [], Some e)
    | (s, a, None) => (sql +:+ s, args ++ a, None)
    end.
Proof.
  induction ws as [|w ws IH]; intros i sql args; simpl.
  - by rewrite append_nil_r, app_nil_r.
  - destruct (compileWhere w) as [[s a] [e|]]; [done|].
    rewrite IH. rewrite (IH _ (_ +:+ s) ([] ++ a)).
    destruct (compileWheres_loop compileWhere (S i) ws "" [])
      as [[s' a'] [e|]]; [done|].
    f_equal. f_equal.
    + destruct (decide (0 < i)); rewrite ?append_assoc; done.
    + simpl. by rewrite <- app_assoc.
Qed.

(** Running the loop over [pre ++ post] is running it over [pre], then
    over [post] from the index and the text reached. *)
Lemma compileWheres_loop_app pre post : ∀ i sql args,
  compileWheres_loop compileWhere i (pre ++ post) sql args =
    match compileWheres_loop compileWhere i pre sql args with
    | (_, Some e) => ("", [], Some e)
    | (s, a, None) =>
        compileWheres_loop compileWhere (i + length pre) post s a
    end.
Proof.
  induction pre as [|w pre IH]; intros i sql args; simpl.
  - by rewrite Nat.add_0_r.
  - destruct (compileWhere w) as [[s a] [e|]]; [done|].
    rewrite IH. by rewrite Nat.add_succ_r.
Qed.

Lemma compileWheres_nonempty w ws :
  compileWheres (w :: ws) = compileWheres_loop compileWhere 0 (w :: ws) "" [].
Proof. reflexivity. Qed.

Lemma compileWhere_Boolean_irrelevant t b b' c o v vs n r bs :
  compileWhere (mkWhereClause t b c o v vs n r bs)
  = compileWhere (mkWhereClause t b' c o v vs n r bs).
Proof. rewrite !compileWhere_kind. reflexivity. Qed.

(** C5. In a predicate list the connector of the first predicate is never
    emitted (changing it changes nothing); every later predicate is
    preceded by its own connector between spaces; a group compiles its
    children by the same rule and wraps them in parentheses; and
    [[A (AND); Nested [B (AND); C (OR)] (AND)]] compiles to
    [A AND (B OR C)]. *)
Theorem connectors_and_nesting :
  (∀ t b b' c o v vs n r bs ws,
     compileWheres (mkWhereClause t b c o v vs n r bs :: ws)
     = compileWheres (mkWhereClause t b' c o v vs n r bs :: ws))
  ∧ (∀ w, compileWheres [w] = compileWhere w)
  ∧ (∀ w0 ws w,
       compileWheres (w0 :: ws ++ [w]) =
         match compileWheres (w0 :: ws) with
         | (_, Some e) => ("", [], Some e)
         | (sql, args, None) =>
             match compileWhere w with
             | (_, Some e) => ("", [], Some e)
             | (clauseSQL, clauseArgs, None) =>
                 (sql +:+ " " +:+ WhereBoolean_String (Boolean w) +:+ " "
                  +:+ clauseSQL, args ++ clauseArgs, None)
             end
         end)
  ∧ (∀ b c o v vs w ws r bs,
       compileWhere
         (mkWhereClause WhereTypeNested b c o v vs (w :: ws) r bs) =
         match compileWheres (w :: ws) with
         | (_, Some e) => ("", [], Some e)
         | (nestedSQL, args, None) => ("(" +:+ nestedSQL +:+ ")", args, None)
         end)
  ∧ compileWheres
      [sample.A; sample.nested WhereBooleanAnd [sample.B; sample.C]]
    = ("`a` = ? AND (`b` = ? OR `c` = ?)",
       [AnyInt 1; AnyInt 2; AnyInt 3], None).
Proof.
  split_and!.
  - intros. rewrite !compileWheres_nonempty. simpl.
    by rewrite (compileWhere_Boolean_irrelevant t b b').
  - intros w. rewrite compileWheres_nonempty. simpl.
    destruct (compileWhere w) as [[s a] [e|]] eqn:E; [|done].
    by apply compileWhere_error in E as [-> ->].
  - intros w0 ws w.
    rewrite !compileWheres_nonempty, app_comm_cons, compileWheres_loop_app.
    destruct (compileWheres_loop compileWhere 0 (w0 :: ws) "" [])
      as [[sql args] [e|]]; [done|].
    simpl. destruct (compileWhere w) as [[s a] [e|]]; [done|].
    by rewrite !append_assoc.
  - intros. rewrite compileWhere_kind. reflexivity.
  - vm_compute. reflexivity.
Qed.

Lemma compileWhere_empty_clause w :
  is_empty_clause w → compileWhere w = ("", empty_clause_args w, None).
Proof.
  rewrite compileWhere_kind. unfold empty_clause_args.
  intros [[-> E]|[-> E]]; simpl.
  - unfold compileWhereNested, compileWhereNested_with. by rewrite E.
  - by rewrite E.
Qed.

(** C10. A group without children, or a raw clause without text, that
    stands after the first predicate of a list raises no error and
    contributes its connector followed by the empty text: when the
    predicates before it compile to [sql] and those after it continue
    with [sql'], the list compiles to [sql], the connector, nothing, and
    [sql']. *)
Theorem empty_clause_leaves_dangling_connector
    (pre post : list WhereClause) (w : WhereClause)
    (sql sql' : string) (args args' : list any) :
  pre ≠ [] →
  is_empty_clause w →
  compileWheres pre = (sql, args, None) →
  compileWheres_loop compileWhere (S (length pre)) post "" []
  = (sql', args', None) →
  compileWheres (pre ++ w :: post)
  = (sql +:+ " " +:+ WhereBoolean_String (Boolean w) +:+ " " +:+ ""
     +:+ sql',
     args ++ empty_clause_args w ++ args', None).
Proof.
  intros Hpre Hw Hc Hpost.
  destruct pre as [|w0 pre]; [done|].
  rewrite <- app_comm_cons. rewrite compileWheres_nonempty.
  rewrite app_comm_cons, compileWheres_loop_app.
  rewrite compileWheres_nonempty in Hc. rewrite Hc.
  simpl. rewrite (compileWhere_empty_clause w Hw).
  rewrite compileWheres_loop_acc.
  replace (S (length pre + 1)) with (S (S (length pre))) by lia.
  simpl in Hpost. rewrite Hpost.
  rewrite ?append_assoc. by rewrite <- app_assoc.
Qed.

Lemma empty_clause_leaves_dangling_connector_witness :
  compileWheres [sample.A; sample.nested WhereBooleanAnd []]
  = ("`a` = ? AND ", [AnyInt 1], None).
Proof.
  apply (empty_clause_leaves_dangling_connector
           [sample.A] [] (sample.nested WhereBooleanAnd [])
           "`a` = ?" "" [AnyInt 1] []).
  - discriminate.
  - left. split; reflexivity.
  - vm_compute. reflexivity.
  - reflexivity.
Defined.

End connectors.

(** ** Sorted keys: INSERT and batch INSERT (C3, C4) *)

Section sorted_keys.

(** Sorting forgets the order in which the keys were visited. *)
Lemma sort_Strings_perm (ks ks' : list string) :
  ks ≡ₚ ks' → sort.Strings ks = sort.Strings ks'.
Proof.
  intros Hp. unfold sort.Strings.
  apply (Sorted_unique String.le); try apply Sorted_merge_sort; try apply _.
  by rewrite !merge_sort_Permutation.
Qed.

Lemma sort_Strings_sorted (ks : list string) :
  Sorted String.le (sort.Strings ks).
Proof. apply Sorted_merge_sort; apply _. Qed.

Lemma sort_Strings_Permutation (ks : list string) : sort.Strings ks ≡ₚ ks.
Proof. apply merge_sort_Permutation. Qed.

Lemma elem_of_map_keys (data : gmap string any) (k : string) :
  k ∈ map_keys data ↔ is_Some (data !! k).
Proof.
  unfold map_keys. rewrite list_elem_of_fmap. split.
  - intros [[k' v] [-> Hin]]. apply elem_of_map_to_list in Hin. by exists v.
  - intros [v Hv]. exists (k, v). split; [done|]. by apply elem_of_map_to_list.
Qed.

Lemma length_map_keys (data : gmap string any) :
  length (map_keys data) = size data.
Proof. unfold map_keys. by rewrite length_fmap, length_map_to_list. Qed.

Lemma WrapTable_empty :
  WrapTable "" = ("", Some (IdentifierError "" "table name cannot be empty")).
Proof. reflexivity. Qed.

(** A loop that wraps names that are all valid. *)
Lemma forEach_Wrap_ok (keys : list string) :
  Forall (λ key, (Wrap key).2 = None) keys →
  forEach Wrap keys = ((λ key, (Wrap key).1) <$> keys, None).
Proof.
  induction 1 as [|k ks Hk _ IH]; [done|]. simpl.
  destruct (Wrap k) as [w [e|]]; [done|]. by rewrite IH.
Qed.

(** The loop over the keys of an INSERT, when every key is a valid column
    name. *)
Lemma insertColumns_ok (data : gmap string any) (keys : list string) :
  Forall (λ key, (Wrap key).2 = None) keys →
  ∀ args,
    insertColumns data keys args
    = ((λ key, (Wrap key).1) <$> keys, args ++ (map_get data <$> keys), None).
Proof.
  induction 1 as [|key keys Hk _ IH]; intros args; simpl.
  - by rewrite app_nil_r.
  - destruct (Wrap key) as [wrapped [e|]]; [done|].
    rewrite IH. by rewrite <- app_assoc.
Qed.

Lemma placeholders_const (keys : list string) :
  imap (λ i _, Placeholder i) keys = (λ _, "?") <$> keys.
Proof. apply (imap_const (λ _ : string, "?")). Qed.

Lemma CompileInsert_sorted
    (ranged : list string) (b : QueryBuilder)
    (data : gmap string any) (table : string) :
  ranged ≡ₚ map_keys data →
  data ≠ ∅ →
  WrapTable (GetTable b) = (table, None) →
  Forall (λ key, (Wrap key).2 = None) (map_keys data) →
  let keys := sort.Strings (map_keys data) in
  CompileInsert ranged b data
  = ("INSERT INTO " +:+ table +:+ " ("
     +:+ Join ((λ key, (Wrap key).1) <$> keys) ", " +:+ ")"
     +:+ " VALUES (" +:+ Join ((λ _, "?") <$> keys) ", " +:+ ")",
     Some (map_get data <$> keys), None).
Proof.
  intros Hr Hne Ht Hk keys.
  unfold CompileInsert.
  rewrite (sort_Strings_perm ranged (map_keys data) Hr). fold keys.
  destruct (decide (GetTable b = "")) as [Heq|_].
  { rewrite Heq, WrapTable_empty in Ht. done. }
  destruct (decide (size data = 0)) as [H0|_].
  { by apply map_size_empty_iff in H0. }
  rewrite Ht. cbv beta iota zeta.
  rewrite insertColumns_ok.
  2:{ eapply Forall_forall. intros k Hin. eapply Forall_forall in Hk; [done|].
      by rewrite <- (sort_Strings_Permutation (map_keys data)). }
  cbv beta iota zeta. rewrite placeholders_const.
  by rewrite !append_assoc.
Qed.

(** A loop that wraps names without error has met valid names only. *)
Lemma forEach_Wrap_valid (keys wrapped : list string) :
  forEach Wrap keys = (wrapped, None) →
  Forall (λ key, (Wrap key).2 = None) keys.
Proof.
  revert wrapped. induction keys as [|k ks IH]; intros wrapped; simpl.
  - intros _. apply Forall_nil_2.
  - destruct (Wrap k) as [w [e|]] eqn:Hk; [done|].
    destruct (forEach Wrap ks) as [ws [e|]]; [done|].
    intros _. apply Forall_cons. split; [by rewrite Hk|by eapply IH].
Qed.

Lemma insertColumns_valid (data : gmap string any) (keys : list string) :
  ∀ args cols args',
    insertColumns data keys args = (cols, args', None) →
    Forall (λ key, (Wrap key).2 = None) keys.
Proof.
  induction keys as [|k ks IH]; intros args cols args'; simpl.
  - intros _. apply Forall_nil_2.
  - destruct (Wrap k) as [w [e|]] eqn:Hk; [done|].
    destruct (insertColumns data ks _) as [[c a] [e|]] eqn:E; [done|].
    intros _. apply Forall_cons. split; [by rewrite Hk|by eapply IH].
Qed.

(** An INSERT that returns no error has wrapped its table and its keys. *)
Lemma CompileInsert_success
    (ranged : list string) (b : QueryBuilder) (data : gmap string any) :
  (CompileInsert ranged b data).2 = None →
  (WrapTable (GetTable b)).2 = None
  ∧ Forall (λ key, (Wrap key).2 = None) (sort.Strings ranged).
Proof.
  unfold CompileInsert.
  destruct (decide (GetTable b = "")); [done|].
  destruct (decide (size data = 0)); [done|].
  destruct (WrapTable (GetTable b)) as [t [e|]]; [done|].
  cbv beta iota zeta.
  destruct (insertColumns data _ _) as [[c a] [e|]] eqn:E; [done|].
  intros _. split; [done|]. by eapply insertColumns_valid.
Qed.

(** C3. For a non-empty data map, whatever the table and whatever the
    orders [ranged] and [ranged'] in which the keys were visited: a second
    call that visits the keys in another order returns the same triple; the
    call returns without error exactly when the table and every key are
    valid names; and when it does, the columns are the keys in increasing
    lexicographic order, each wrapped, with one placeholder and one
    argument, [data[key]], per column in that order. The users/John example
    of the specification follows. *)
Theorem insert_sorted_and_deterministic
    (ranged ranged' : list string) (b : QueryBuilder)
    (data : gmap string any) :
  ranged ≡ₚ map_keys data →
  ranged' ≡ₚ map_keys data →
  data ≠ ∅ →
  let keys := sort.Strings (map_keys data) in
  Sorted String.le keys
  ∧ keys ≡ₚ map_keys data
  ∧ CompileInsert ranged' b data = CompileInsert ranged b data
  ∧ ((CompileInsert ranged b data).2 = None
     ↔ (WrapTable (GetTable b)).2 = None
       ∧ Forall (λ key, (Wrap key).2 = None) (map_keys data))
  ∧ ((CompileInsert ranged b data).2 = None →
     CompileInsert ranged b data
     = ("INSERT INTO " +:+ (WrapTable (GetTable b)).1 +:+ " ("
        +:+ Join ((λ key, (Wrap key).1) <$> keys) ", " +:+ ")"
        +:+ " VALUES (" +:+ Join ((λ _, "?") <$> keys) ", " +:+ ")",
        Some (map_get data <$> keys), None))
  ∧ (∀ visited, visited ≡ₚ ["name"; "email"] →
       CompileInsert visited (sample.query "users" []) sample.john
       = ("INSERT INTO `users` (`email`, `name`) VALUES (?, ?)",
          Some [AnyString "j@x.com"; AnyString "John"], None)).
Proof.
  intros Hr Hr' Hne keys.
  assert (Hvalid :
    (CompileInsert ranged b data).2 = None →
    (WrapTable (GetTable b)).2 = None
    ∧ Forall (λ key, (Wrap key).2 = None) (map_keys data)).
  { intros [Ht Hk]%CompileInsert_success. split; [done|].
    rewrite (sort_Strings_perm ranged (map_keys data) Hr) in Hk.
    eapply Forall_forall. intros k Hin. eapply Forall_forall in Hk; [done|].
    by rewrite (sort_Strings_Permutation (map_keys data)). }
  split; [apply sort_Strings_sorted|].
  split; [apply sort_Strings_Permutation|].
  split.
  { unfold CompileInsert.
    by rewrite (sort_Strings_perm ranged' ranged) by (by rewrite Hr, Hr'). }
  split; [split; [done|]|split].
  - intros [Ht Hk].
    destruct (WrapTable (GetTable b)) as [table e] eqn:Hw.
    simpl in Ht. subst e.
    by rewrite (CompileInsert_sorted ranged b data table).
  - intros [Ht Hk]%Hvalid.
    destruct (WrapTable (GetTable b)) as [table e] eqn:Hw.
    simpl in Ht. subst e.
    by rewrite (CompileInsert_sorted ranged b data table).
  - intros visited Hv.
    rewrite (CompileInsert_sorted visited _ sample.john "`users`");
      [by vm_compute| |by apply (bool_decide_unpack _); vm_compute|done|
       by apply (bool_decide_unpack _); vm_compute].
    rewrite Hv. vm_compute. apply perm_swap.
Qed.

Lemma insert_sorted_and_deterministic_witness :
  CompileInsert ["email"; "name"] (sample.query "users" []) sample.john
  = CompileInsert ["name"; "email"] (sample.query "users" []) sample.john
  ∧ CompileInsert ["name"; "email"] (sample.query "users" []) sample.john
    = ("INSERT INTO `users` (`email`, `name`) VALUES (?, ?)",
       Some [AnyString "j@x.com"; AnyString "John"], None).
Proof.
  assert (["name"; "email"] ≡ₚ map_keys sample.john) as Hp.
  { vm_compute. apply perm_swap. }
  assert (sample.john ≠ ∅) as Hne
    by (by apply (bool_decide_unpack _); vm_compute).
  destruct (insert_sorted_and_deterministic
              ["name"; "email"] ["email"; "name"]
              (sample.query "users" []) sample.john
              Hp (reflexivity _) Hne)
    as (_ & _ & Hsame & _ & Hform & _).
  split; [exact Hsame|]. rewrite Hform; by vm_compute.
Defined.

(** *** Batches *)

Lemma batchRow_ok (row : gmap string any) (keys : list string) :
  Forall (λ key, is_Some (row !! key)) keys →
  ∀ args,
    batchRow row keys args
    = ((λ _, "?") <$> keys, args ++ (map_get row <$> keys), None).
Proof.
  induction 1 as [|key keys [v Hv] _ IH]; intros args; simpl.
  - by rewrite app_nil_r.
  - rewrite Hv, IH. unfold map_get at 2. rewrite Hv. simpl.
    by rewrite <- app_assoc.
Qed.

Lemma batchRow_missing (row : gmap string any) (keys : list string) :
  Exists (λ key, row !! key = None) keys →
  ∀ args, batchRow row keys args = ([], [], Some ErrInconsistentBatch).
Proof.
  induction keys as [|key keys IH]; intros Hex args.
  - by apply Exists_nil in Hex.
  - simpl. destruct (row !! key) as [v|] eqn:Hv; [|done].
    apply Exists_cons in Hex as [Hex|Hex]; [congruence|].
    by rewrite IH.
Qed.

Lemma batchRows_ok (keys : list string) (rows : list (gmap string any)) :
  Forall (consistent keys) rows →
  ∀ args,
    batchRows rows keys args
    = ((λ _, tuple keys) <$> rows,
       args ++ concat ((λ row, map_get row <$> keys) <$> rows), None).
Proof.
  induction 1 as [|row rows [Hsize Hkeys] _ IH]; intros args; simpl.
  - by rewrite app_nil_r.
  - destruct (decide (size row ≠ length keys)); [done|].
    rewrite batchRow_ok by done. cbv beta iota zeta.
    rewrite IH. by rewrite <- app_assoc.
Qed.

Lemma batchRows_inconsistent (keys : list string)
    (rows : list (gmap string any)) :
  Exists (λ row, ¬ consistent keys row) rows →
  ∀ args, batchRows rows keys args = ([], [], Some ErrInconsistentBatch).
Proof.
  induction rows as [|row rows IH]; intros Hex args.
  - by apply Exists_nil in Hex.
  - simpl. destruct (decide (size row ≠ length keys)) as [|Hsize]; [done|].
    apply dec_stable in Hsize.
    destruct (decide (Forall (λ key, is_Some (row !! key)) keys)) as [Hk|Hk].
    + rewrite batchRow_ok by done. cbv beta iota zeta.
      apply Exists_cons in Hex as [Hex|Hex]; [by destruct Hex|].
      by rewrite IH.
    + rewrite batchRow_missing; [done|].
      apply not_Forall_Exists in Hk; [|apply _].
      eapply Exists_impl; [done|]. intros k Hn. simpl in Hn.
      by apply eq_None_not_Some.
Qed.

(** The batch of a table that wraps and of a first row whose keys are
    valid column names. *)
Lemma CompileInsertBatch_valid
    (ranged : list string) (b : QueryBuilder)
    (firstRow : gmap string any) (rest : list (gmap string any))
    (table : string) :
  ranged ≡ₚ map_keys firstRow →
  firstRow ≠ ∅ →
  WrapTable (GetTable b) = (table, None) →
  Forall (λ key, (Wrap key).2 = None) (map_keys firstRow) →
  let keys := sort.Strings (map_keys firstRow) in
  let data := firstRow :: rest in
  (Exists (λ row, size row ≠ size firstRow
                  ∨ ∃ key, is_Some (firstRow !! key) ∧ row !! key = None)
          rest →
   CompileInsertBatch ranged b data = ("", None, Some ErrInconsistentBatch))
  ∧ (Forall (λ row, dom row = dom firstRow) rest →
     CompileInsertBatch ranged b data
     = ("INSERT INTO " +:+ table +:+ " ("
        +:+ Join ((λ key, (Wrap key).1) <$> keys) ", " +:+ ") VALUES "
        +:+ Join ((λ _, tuple keys) <$> data) ", ",
        Some (concat ((λ row, map_get row <$> keys) <$> data)), None)).
Proof.
  intros Hr Hne Ht Hk keys data.
  assert (Hkeys : ∀ k, k ∈ keys ↔ is_Some (firstRow !! k)).
  { intros k. unfold keys. rewrite sort_Strings_Permutation.
    apply elem_of_map_keys. }
  assert (Hlen : length keys = size firstRow).
  { unfold keys. by rewrite sort_Strings_Permutation, length_map_keys. }
  assert (Hfirst : consistent keys firstRow).
  { split; [done|]. apply Forall_forall. intros k. apply Hkeys. }
  assert (Hwrap : forEach Wrap keys = ((λ key, (Wrap key).1) <$> keys, None)).
  { apply forEach_Wrap_ok.
    apply Forall_forall. intros k Hin. eapply Forall_forall in Hk; [done|].
    apply elem_of_map_keys. by apply Hkeys. }
  assert (Hhead :
    CompileInsertBatch ranged b data
    = match batchRows data keys [] with
      | (_, Some e) => ("", None, Some e)
      | (rowPlaceholders, args, None) =>
          ("INSERT INTO " +:+ table +:+ " ("
           +:+ Join ((λ key, (Wrap key).1) <$> keys) ", " +:+ ") VALUES "
           +:+ Join rowPlaceholders ", ", Some args, None)
      end).
  { unfold CompileInsertBatch, data.
    rewrite (sort_Strings_perm ranged (map_keys firstRow) Hr). fold keys.
    destruct (decide (GetTable b = "")) as [Heq|_].
    { rewrite Heq, WrapTable_empty in Ht. done. }
    destruct (decide (size firstRow = 0)) as [H0|_].
    { by apply map_size_empty_iff in H0. }
    rewrite Ht. cbv beta iota zeta. rewrite Hwrap. cbv beta iota zeta.
    destruct (batchRows (firstRow :: rest) keys []) as [[rps args] [e|]];
      [done|].
    by rewrite !append_assoc. }
  split.
  - intros Hex. rewrite Hhead. unfold data.
    rewrite batchRows_inconsistent; [done|].
    apply Exists_cons_tl. eapply Exists_impl; [done|].
    intros row [Hsize|(k & Hin & Hnone)] [Hs Hf]; simpl in *.
    + congruence.
    + eapply Forall_forall in Hf; [|by apply Hkeys].
      rewrite Hnone in Hf. by destruct Hf.
  - intros Hall. rewrite Hhead. unfold data.
    rewrite batchRows_ok; [done|].
    constructor; [done|].
    eapply Forall_impl; [done|]. intros row Hdom; simpl in *. split.
    + by rewrite Hlen, <- !size_dom, Hdom.
    + apply Forall_forall. intros k Hin.
      apply elem_of_dom. rewrite Hdom. apply elem_of_dom. by apply Hkeys.
Qed.

(** A batch that returns no error has wrapped its table and its keys. *)
Lemma CompileInsertBatch_success
    (ranged : list string) (b : QueryBuilder)
    (data : list (gmap string any)) :
  (CompileInsertBatch ranged b data).2 = None →
  (WrapTable (GetTable b)).2 = None
  ∧ Forall (λ key, (Wrap key).2 = None) (sort.Strings ranged).
Proof.
  unfold CompileInsertBatch.
  destruct (decide (GetTable b = "")); [done|].
  destruct data as [|firstRow rest]; [done|].
  destruct (decide (size firstRow = 0)); [done|].
  destruct (WrapTable (GetTable b)) as [t [e|]]; [done|].
  cbv beta iota zeta.
  destruct (forEach Wrap _) as [ws [e|]] eqn:E; [done|].
  intros _. split; [done|]. by eapply forEach_Wrap_valid.
Qed.

(** C4. For a first row that is not empty, whatever the table: when some
    later row has another number of keys than the first, or lacks a key of
    the first, the batch fails, and it fails with [ErrInconsistentBatch]
    when the table and the keys are valid names (they are checked before the
    rows); when every later row has exactly the keys of the first, the batch
    returns without error exactly when the table and the keys are valid
    names, and then with one parenthesized tuple per row and the values of
    the rows, row after row, each row in sorted key order. *)
Theorem batch_rows_must_share_the_first_rows_keys
    (ranged : list string) (b : QueryBuilder)
    (firstRow : gmap string any) (rest : list (gmap string any)) :
  ranged ≡ₚ map_keys firstRow →
  firstRow ≠ ∅ →
  let keys := sort.Strings (map_keys firstRow) in
  let data := firstRow :: rest in
  let valid :=
    (WrapTable (GetTable b)).2 = None
    ∧ Forall (λ key, (Wrap key).2 = None) (map_keys firstRow) in
  (Exists (λ row, size row ≠ size firstRow
                  ∨ ∃ key, is_Some (firstRow !! key) ∧ row !! key = None)
          rest →
   (∃ e, CompileInsertBatch ranged b data = ("", None, Some e))
   ∧ (valid →
      CompileInsertBatch ranged b data
      = ("", None, Some ErrInconsistentBatch)))
  ∧ (Forall (λ row, dom row = dom firstRow) rest →
     ((CompileInsertBatch ranged b data).2 = None ↔ valid)
     ∧ ((CompileInsertBatch ranged b data).2 = None →
        CompileInsertBatch ranged b data
        = ("INSERT INTO " +:+ (WrapTable (GetTable b)).1 +:+ " ("
           +:+ Join ((λ key, (Wrap key).1) <$> keys) ", " +:+ ") VALUES "
           +:+ Join ((λ _, tuple keys) <$> data) ", ",
           Some (concat ((λ row, map_get row <$> keys) <$> data)), None))).
Proof.
  intros Hr Hne keys data valid.
  assert (Hvalid : (CompileInsertBatch ranged b data).2 = None → valid).
  { intros [Ht Hk]%CompileInsertBatch_success. split; [done|].
    rewrite (sort_Strings_perm ranged (map_keys firstRow) Hr) in Hk.
    eapply Forall_forall. intros k Hin. eapply Forall_forall in Hk; [done|].
    by rewrite (sort_Strings_Permutation (map_keys firstRow)). }
  assert (Hcases : valid →
    ∃ table, WrapTable (GetTable b) = (table, None)
             ∧ (WrapTable (GetTable b)).1 = table
             ∧ Forall (λ key, (Wrap key).2 = None) (map_keys firstRow)).
  { intros [Ht Hk]. destruct (WrapTable (GetTable b)) as [table e].
    simpl in Ht. subst e. by exists table. }
  split.
  - intros Hex.
    assert (valid →
            CompileInsertBatch ranged b data
            = ("", None, Some ErrInconsistentBatch)) as Hbad.
    { intros (table & Ht & _ & Hk)%Hcases.
      by apply (CompileInsertBatch_valid ranged b firstRow rest table). }
    split; [|done].
    destruct (CompileInsertBatch ranged b data) as [[sql args] [e|]] eqn:E.
    + exists e.
      by destruct (compile_error_empty (StmtInsertBatch ranged b data)
                     sql args e E) as [-> ->].
    + assert valid as Hv by by apply Hvalid.
      by specialize (Hbad Hv).
  - intros Hall.
    assert (valid →
            CompileInsertBatch ranged b data
            = ("INSERT INTO " +:+ (WrapTable (GetTable b)).1 +:+ " ("
               +:+ Join ((λ key, (Wrap key).1) <$> keys) ", " +:+ ") VALUES "
               +:+ Join ((λ _, tuple keys) <$> data) ", ",
               Some (concat ((λ row, map_get row <$> keys) <$> data)), None))
      as Hgood.
    { intros (table & Ht & -> & Hk)%Hcases.
      by apply (CompileInsertBatch_valid ranged b firstRow rest table). }
    split; [split; [done|]|].
    + intros Hv. by rewrite (Hgood Hv).
    + intros Hv%Hvalid. by apply Hgood.
Qed.

Lemma batch_rows_must_share_the_first_rows_keys_witness :
  CompileInsertBatch ["name"; "email"] (sample.query "users" [])
    [sample.john; sample.jane]
  = ("INSERT INTO `users` (`email`, `name`) VALUES (?, ?), (?, ?)",
     Some [AnyString "j@x.com"; AnyString "John";
           AnyString "jane@x.com"; AnyString "Jane"], None)
  ∧ CompileInsertBatch ["name"; "email"] (sample.query "users" [])
      [sample.john; delete "name" sample.jane]
    = ("", None, Some ErrInconsistentBatch).
Proof.
  assert (["name"; "email"] ≡ₚ map_keys sample.john) as Hp.
  { vm_compute. apply perm_swap. }
  assert (sample.john ≠ ∅) as Hne
    by (by apply (bool_decide_unpack _); vm_compute).
  assert (Forall (λ key, (Wrap key).2 = None) (map_keys sample.john)) as Hk
    by (by apply (bool_decide_unpack _); vm_compute).
  split.
  - destruct (batch_rows_must_share_the_first_rows_keys
                ["name"; "email"] (sample.query "users" [])
                sample.john [sample.jane] Hp Hne) as [_ H].
    destruct H as [Hiff Hform]; [repeat constructor|].
    rewrite Hform; [by vm_compute|]. apply Hiff. by split.
  - destruct (batch_rows_must_share_the_first_rows_keys
                ["name"; "email"] (sample.query "users" [])
                sample.john [delete "name" sample.jane] Hp Hne) as [H _].
    destruct H as [_ Hbad].
    + constructor. left. by apply (bool_decide_unpack _); vm_compute.
    + apply Hbad. by split.
Defined.

End sorted_keys.

(** ** Bytes of identifiers and of wrapped names *)

Section bytes.

Lemma all_bytes_app p s t :
  all_bytes p (s +:+ t) = all_bytes p s && all_bytes p t.
Proof.
  induction s as [|c s IH]; [done|].
  rewrite append_cons. simpl. by rewrite IH, andb_assoc.
Qed.

Lemma all_bytes_impl (p q : ascii → bool) s :
  (∀ c, p c = true → q c = true) → all_bytes p s = true → all_bytes q s = true.
Proof.
  intros Hpq. induction s as [|c s IH]; [done|]. simpl.
  intros [Hc Hs]%andb_prop. rewrite (Hpq c Hc). by apply IH.
Qed.


Lemma Count_app s t c : Count (s +:+ t) c = Count s c + Count t c.
Proof.
  induction s as [|b s IH]; [done|].
  rewrite append_cons. simpl. rewrite IH. lia.
Qed.

Lemma Count_all_bytes p s c :
  all_bytes p s = true → p c = false → Count s c = 0.
Proof.
  intros Hs Hc. induction s as [|b s IH]; [done|]. simpl in *.
  apply andb_prop in Hs as [Hb Hs]. rewrite IH by done.
  destruct (Ascii.eqb_spec b c) as [->|]; [congruence|done].
Qed.

(** *** The identifier pattern *)

Lemma skip_ident_chars_split s :
  ∃ pre, s = pre +:+ skip_ident_chars s ∧ all_bytes ident_char pre = true.
Proof.
  induction s as [|c s (pre & Hs & Hpre)]; [by exists ""|]. simpl.
  destruct (ident_char c) eqn:Hc.
  - exists (String c pre). rewrite append_cons, <- Hs. simpl. by rewrite Hc.
  - by exists "".
Qed.

Lemma ident_start_char c : ident_start c = true → ident_char c = true.
Proof.
  unfold ident_start, ident_char.
  intros [->| ->]%orb_prop; [done|]. by rewrite orb_true_r.
Qed.

Lemma skip_ident_split s r :
  skip_ident s = Some r →
  ∃ pre, s = pre +:+ r ∧ all_bytes ident_char pre = true.
Proof.
  destruct s as [|c s]; [done|]. simpl.
  destruct (ident_start c) eqn:Hc; [|done]. intros [= <-].
  destruct (skip_ident_chars_split s) as (pre & Hs & Hpre).
  exists (String c pre). rewrite append_cons, <- Hs. simpl.
  by rewrite (ident_start_char c Hc).
Qed.

Lemma ident_char_byte c : ident_char c = true → ident_byte c = true.
Proof. unfold ident_byte. by intros ->. Qed.

Lemma identifierRegex_bytes s :
  identifierRegex_MatchString s = true → all_bytes ident_byte s = true.
Proof.
  unfold identifierRegex_MatchString.
  destruct (skip_ident s) as [r|] eqn:Hs; [|done].
  apply skip_ident_split in Hs as (pre & -> & Hpre).
  apply (all_bytes_impl _ ident_byte) in Hpre; [|apply ident_char_byte].
  rewrite all_bytes_app, Hpre. simpl.
  destruct r as [|c r]; [done|].
  intros [Hc Hr]%andb_prop. apply Ascii.eqb_eq in Hc as ->.
  destruct (skip_ident r) as [[|]|] eqn:Hs; [|done..].
  apply skip_ident_split in Hs as (pre' & -> & Hpre').
  apply (all_bytes_impl _ ident_byte) in Hpre'; [|apply ident_char_byte].
  simpl. by rewrite append_nil_r.
Qed.

Lemma ValidateIdentifier_bytes s :
  ValidateIdentifier s = None → all_bytes ident_byte s = true.
Proof.
  unfold ValidateIdentifier. repeat case_decide; try done.
  destruct (identifierRegex_MatchString s) eqn:Hm; [|done].
  intros _. by apply identifierRegex_bytes.
Qed.


(** *** The alias pattern *)

Lemma span_ident_chars_i_split s : ∀ m t,
  span_ident_chars_i s = (m, t) → s = m +:+ t.
Proof.
  remember (String.length s) as n eqn:Hn.
  revert s Hn. induction n as [n IH] using lt_wf_ind. intros s Hn m t.
  destruct s as [|c r]; simpl; [by intros [= <- <-]|].
  destruct (ident_char c).
  { destruct (span_ident_chars_i r) as [m' t'] eqn:Hr. intros [= <- <-].
    rewrite append_cons. f_equal.
    eapply (IH (String.length r)); [|done..]. simpl in Hn. lia. }
  destruct r as [|c2 r2]; [by intros [= <- <-]|].
  destruct (Ascii.eqb c "197" && Ascii.eqb c2 "191").
  { destruct (span_ident_chars_i r2) as [m' t'] eqn:Hr. intros [= <- <-].
    rewrite !append_cons. do 2 f_equal.
    eapply (IH (String.length r2)); [|done..]. simpl in Hn. lia. }
  destruct r2 as [|c3 r3]; [by intros [= <- <-]|].
  destruct (Ascii.eqb c "226" && Ascii.eqb c2 "132" && Ascii.eqb c3 "170").
  { destruct (span_ident_chars_i r3) as [m' t'] eqn:Hr. intros [= <- <-].
    rewrite !append_cons. do 3 f_equal.
    eapply (IH (String.length r3)); [|done..]. simpl in Hn. lia. }
  by intros [= <- <-].
Qed.

Lemma span_ident_i_split s m t :
  span_ident_i s = Some (m, t) → s = m +:+ t.
Proof.
  destruct s as [|c r]; simpl; [done|].
  destruct (ident_start c).
  { destruct (span_ident_chars_i r) as [m' t'] eqn:Hr. intros [= <- <-].
    rewrite append_cons. f_equal. by apply span_ident_chars_i_split. }
  destruct r as [|c2 r2]; [done|].
  destruct (Ascii.eqb c "197" && Ascii.eqb c2 "191").
  { destruct (span_ident_chars_i r2) as [m' t'] eqn:Hr. intros [= <- <-].
    rewrite !append_cons. do 2 f_equal. by apply span_ident_chars_i_split. }
  destruct r2 as [|c3 r3]; [done|].
  destruct (Ascii.eqb c "226" && Ascii.eqb c2 "132" && Ascii.eqb c3 "170");
    [|done].
  destruct (span_ident_chars_i r3) as [m' t'] eqn:Hr. intros [= <- <-].
  rewrite !append_cons. do 3 f_equal. by apply span_ident_chars_i_split.
Qed.

Lemma ident_i_to_end_eq s m : ident_i_to_end s = Some m → s = m.
Proof.
  unfold ident_i_to_end.
  destruct (span_ident_i s) as [[m' [|]]|] eqn:Hs; [|done..].
  intros [= <-]. apply span_ident_i_split in Hs. by rewrite append_nil_r in Hs.
Qed.

Lemma regex_space_table_byte c : regex_space c = true → table_byte c = true.
Proof. unfold table_byte. intros ->. by rewrite orb_true_r. Qed.

Lemma skip_regex_spaces_split s :
  ∃ pre, s = pre +:+ skip_regex_spaces s ∧ all_bytes table_byte pre = true.
Proof.
  induction s as [|c s (pre & Hs & Hpre)]; [by exists ""|]. simpl.
  destruct (regex_space c) eqn:Hc.
  - exists (String c pre). rewrite append_cons, <- Hs. simpl.
    by rewrite (regex_space_table_byte c Hc).
  - by exists "".
Qed.

Lemma skip_spaces1_split s t :
  skip_spaces1 s = Some t →
  ∃ pre, s = pre +:+ t ∧ all_bytes table_byte pre = true.
Proof.
  destruct s as [|c s]; [done|]. simpl.
  destruct (regex_space c) eqn:Hc; [|done]. intros [= <-].
  destruct (skip_regex_spaces_split s) as (pre & Hs & Hpre).
  exists (String c pre). rewrite append_cons, <- Hs. simpl.
  by rewrite (regex_space_table_byte c Hc).
Qed.

Lemma skip_as_i_split s t :
  skip_as_i s = Some t →
  ∃ pre, s = pre +:+ t ∧ all_bytes table_byte pre = true.
Proof.
  destruct s as [|a [|b r]]; [done..|]. simpl.
  destruct (Ascii.eqb a "a" || Ascii.eqb a "A") eqn:Ha; [|done].
  assert (table_byte a = true) as Hta.
  { apply orb_prop in Ha as [->%Ascii.eqb_eq| ->%Ascii.eqb_eq]; reflexivity. }
  destruct (Ascii.eqb b "s" || Ascii.eqb b "S") eqn:Hb.
  { intros [= <-]. exists (String a (String b "")). split; [done|]. simpl.
    rewrite Hta.
    apply orb_prop in Hb as [->%Ascii.eqb_eq| ->%Ascii.eqb_eq]; reflexivity. }
  destruct r as [|b2 r']; [done|].
  destruct (Ascii.eqb b "197" && Ascii.eqb b2 "191") eqn:Hb2; [|done].
  intros [= <-]. exists (String a (String b (String b2 ""))). split; [done|].
  simpl. rewrite Hta.
  apply andb_prop in Hb2 as [->%Ascii.eqb_eq ->%Ascii.eqb_eq]. reflexivity.
Qed.

(** What the alias pattern matches is the name, a stretch of separator
    bytes, and the alias. *)
Lemma aliasRegex_split s name alias :
  aliasRegex_FindStringSubmatch s = Some (name, alias) →
  ∃ mid, s = name +:+ mid +:+ alias ∧ all_bytes table_byte mid = true.
Proof.
  unfold aliasRegex_FindStringSubmatch.
  destruct (span_ident_i s) as [[name' t1]|] eqn:H1; [|done].
  apply span_ident_i_split in H1 as ->.
  destruct (skip_spaces1 t1) as [t2|] eqn:H2; [|done].
  apply skip_spaces1_split in H2 as (sp & -> & Hsp).
  destruct (skip_as_i t2) as [t3|] eqn:H3.
  - apply skip_as_i_split in H3 as (as_ & -> & Has).
    destruct (skip_spaces1 t3) as [t4|] eqn:H4.
    + apply skip_spaces1_split in H4 as (sp' & -> & Hsp').
      destruct (ident_i_to_end t4) as [a|] eqn:H5.
      * apply ident_i_to_end_eq in H5 as ->. intros [= <- <-].
        exists (sp +:+ as_ +:+ sp'). rewrite !all_bytes_app, Hsp, Has, Hsp'.
        by rewrite !append_assoc.
      * destruct (ident_i_to_end (_ +:+ _)) as [a|] eqn:H6; simpl; [|done].
        apply ident_i_to_end_eq in H6 as <-. intros [= <- <-]. by exists sp.
    + destruct (ident_i_to_end (_ +:+ _)) as [a|] eqn:H6; simpl; [|done].
      apply ident_i_to_end_eq in H6 as <-. intros [= <- <-]. by exists sp.
  - destruct (ident_i_to_end t2) as [a|] eqn:H6; [|done].
    apply ident_i_to_end_eq in H6 as ->. intros [= <- <-]. by exists sp.
Qed.

Lemma ident_byte_table_byte c : ident_byte c = true → table_byte c = true.
Proof. unfold table_byte. by intros ->. Qed.

(** A table reference that validates. *)
Lemma ValidateTableWithAlias_ok s name alias :
  ValidateTableWithAlias s = (name, alias, None) →
  all_bytes table_byte s = true
  ∧ ValidateIdentifier name = None
  ∧ (alias = "" ∨ ValidateIdentifier alias = None).
Proof.
  unfold ValidateTableWithAlias. case_decide; [done|].
  destruct (aliasRegex_FindStringSubmatch s) as [[n a]|] eqn:Hm.
  - destruct (ValidateIdentifier n) eqn:Hn; [done|].
    destruct (ValidateIdentifier a) eqn:Ha; [done|]. intros [= <- <-].
    apply aliasRegex_split in Hm as (mid & -> & Hmid).
    split_and!; [|done|by right].
    rewrite !all_bytes_app, Hmid.
    rewrite (all_bytes_impl ident_byte table_byte n ident_byte_table_byte)
      by by apply ValidateIdentifier_bytes.
    by rewrite (all_bytes_impl ident_byte table_byte a ident_byte_table_byte)
      by by apply ValidateIdentifier_bytes.
  - destruct (ValidateIdentifier s) eqn:Hs; [done|]. intros [= <- <-].
    split_and!; [|done|by left].
    apply (all_bytes_impl ident_byte); [apply ident_byte_table_byte|].
    by apply ValidateIdentifier_bytes.
Qed.


(** *** Wrapped names *)

Lemma all_bytes_Split p s sep :
  all_bytes p s = true → Forall (λ part, all_bytes p part = true) (Split s sep).
Proof.
  induction s as [|c s IH]; simpl; [by repeat constructor|].
  intros [Hc Hs]%andb_prop. specialize (IH Hs).
  destruct (Ascii.eqb c sep); [by constructor|].
  destruct IH as [|x xs Hx Hxs]; repeat constructor; simpl; try done.
  - by rewrite Hc.
  - by rewrite Hc, Hx.
Qed.

Lemma all_bytes_Join p l sep :
  Forall (λ x, all_bytes p x = true) l → all_bytes p sep = true →
  all_bytes p (Join l sep) = true.
Proof.
  intros Hl Hsep. induction Hl as [|x l Hx Hl IH]; [done|]. simpl.
  destruct l; [done|]. by rewrite !all_bytes_app, Hx, Hsep, IH.
Qed.

Lemma ident_byte_wrapped_byte c : ident_byte c = true → wrapped_byte c = true.
Proof. unfold wrapped_byte. by intros ->. Qed.

Lemma all_bytes_quote s :
  all_bytes ident_byte s = true →
  all_bytes wrapped_byte ("`" +:+ s +:+ "`") = true.
Proof.
  intros Hs. rewrite !all_bytes_app.
  by rewrite (all_bytes_impl ident_byte wrapped_byte s ident_byte_wrapped_byte).
Qed.

(** A name that wraps is the star or a valid identifier, and what comes out
    holds identifier bytes, backquotes and the star only. *)
Lemma Wrap_ok s x :
  Wrap s = (x, None) →
  (s = "*" ∨ ValidateIdentifier s = None)
  ∧ all_bytes wrapped_byte x = true.
Proof.
  unfold Wrap. case_decide as Hstar; [intros [= <-]; by split; [left|]|].
  destruct (ValidateIdentifier s) eqn:Hv; [done|].
  pose proof (ValidateIdentifier_bytes s Hv) as Hb.
  destruct (Contains s "."); intros [= <-]; (split; [by right|]).
  - apply all_bytes_Join; [|done].
    apply Forall_fmap. eapply Forall_impl; [by apply all_bytes_Split|].
    intros part Hpart. by apply all_bytes_quote.
  - by apply all_bytes_quote.
Qed.


Lemma WrapTable_ok s x :
  WrapTable s = (x, None) →
  all_bytes table_byte s = true ∧ all_bytes wrapped_byte x = true.
Proof.
  unfold WrapTable.
  destruct (ValidateTableWithAlias s) as [[name alias] [e|]] eqn:Hv; [done|].
  apply ValidateTableWithAlias_ok in Hv as (Hs & Hn & Ha).
  intros [= <-]. split; [done|].
  apply ValidateIdentifier_bytes in Hn.
  case_decide as Halias.
  - destruct Ha as [->|Ha%ValidateIdentifier_bytes]; [done|].
    rewrite !all_bytes_app.
    rewrite (all_bytes_impl ident_byte wrapped_byte name ident_byte_wrapped_byte)
      by done.
    by rewrite (all_bytes_impl ident_byte wrapped_byte alias
                  ident_byte_wrapped_byte) by done.
  - by apply all_bytes_quote.
Qed.

Lemma WrapTable_error s x e : WrapTable s = (x, Some e) → x = "".
Proof.
  unfold WrapTable.
  destruct (ValidateTableWithAlias s) as [[name alias] [e'|]];
    [by intros [= <- _]|done].
Qed.

End bytes.

(** ** Injection through identifiers (C1) *)

Section injection.

(** Induction on a clause, with the property for the clauses nested in it. *)
Lemma WhereClause_nested_ind (P : WhereClause → Prop) :
  (∀ t b c o v vs n r bs,
     Forall P n → P (mkWhereClause t b c o v vs n r bs)) →
  ∀ w, P w.
Proof.
  intros Hstep. fix IH 1. intros [t b c o v vs n r bs].
  apply Hstep. induction n as [|w n IHn]; constructor; [apply IH|apply IHn].
Qed.

Lemma forEach_inv {A} (f : A → string * option error) xs ys :
  forEach f xs = (ys, None) →
  ys = (λ x, (f x).1) <$> xs ∧ Forall (λ x, (f x).2 = None) xs.
Proof.
  revert ys. induction xs as [|x xs IH]; intros ys; simpl.
  - by intros [= <-].
  - destruct (f x) as [y [e|]] eqn:Hx; [done|].
    destruct (forEach f xs) as [ys' [e|]]; [done|]. intros [= <-].
    destruct (IH ys' eq_refl) as [-> Hall]. split; [done|].
    constructor; [by rewrite Hx|done].
Qed.



























Lemma table_byte_ident_byte c : table_byte c = false → ident_byte c = false.
Proof. unfold table_byte. by destruct (ident_byte c). Qed.




End injection.

(** ** Placeholders and arguments (C2) *)

(** Evaluates the number of placeholders of the constant texts. *)
Ltac is_numeral n :=
  lazymatch n with
  | O => idtac
  | S ?m => is_numeral m
  end.

Ltac constants :=
  repeat match goal with
  | |- context [placeholders ?s] =>
      let v := eval vm_compute in (placeholders s) in
      is_numeral v; change (placeholders s) with v
  | H : context [placeholders ?s] |- _ =>
      let v := eval vm_compute in (placeholders s) in
      is_numeral v; change (placeholders s) with v in H
  end.

Section placeholder_count.

Lemma placeholders_app s t :
  placeholders (s +:+ t) = placeholders s + placeholders t.
Proof. apply Count_app. Qed.

Lemma placeholders_wrapped x :
  all_bytes wrapped_byte x = true → placeholders x = 0.
Proof. intros H. by eapply Count_all_bytes. Qed.

Lemma placeholders_Wrap s x : Wrap s = (x, None) → placeholders x = 0.
Proof. intros [_ H]%Wrap_ok. by apply placeholders_wrapped. Qed.

Lemma placeholders_WrapTable s x : WrapTable s = (x, None) → placeholders x = 0.
Proof. intros [_ H]%WrapTable_ok. by apply placeholders_wrapped. Qed.

(** A joined list whose entries hold [k] placeholders each. *)
Lemma placeholders_Join (k : nat) l sep :
  Forall (λ x, placeholders x = k) l → placeholders sep = 0 →
  placeholders (Join l sep) = k * length l.
Proof.
  intros Hl Hsep. induction Hl as [|x l Hx Hl IH]; [cbn; lia|].
  cbn [Join length]. destruct l as [|y l].
  - rewrite Hx. simpl. lia.
  - rewrite !placeholders_app, Hx, Hsep, IH. simpl. lia.
Qed.

Lemma placeholders_Join_clean l sep :
  Forall (λ x, placeholders x = 0) l → placeholders sep = 0 →
  placeholders (Join l sep) = 0.
Proof. intros Hl Hsep. by rewrite (placeholders_Join 0). Qed.

Lemma placeholders_Join_marks {A} (l : list A) :
  placeholders (Join ((λ _, "?") <$> l) ", ") = length l.
Proof.
  rewrite (placeholders_Join 1); [by rewrite length_fmap; lia| |done].
  apply Forall_fmap, Forall_true. done.
Qed.

Lemma placeholders_string_of_uint d :
  placeholders (NilEmpty.string_of_uint d) = 0.
Proof. induction d; simpl; done. Qed.

Lemma placeholders_Sprint_d n : placeholders (fmt.Sprint_d n) = 0.
Proof.
  unfold fmt.Sprint_d, NilZero.string_of_int, NilZero.string_of_uint.
  destruct (Z.to_int n) as [d|d]; destruct d;
    try apply placeholders_string_of_uint; try done;
    cbn [placeholders Count]; simpl;
    try apply placeholders_string_of_uint.
Qed.

Lemma to_upper_mark c : Ascii.eqb (to_upper c) "?" = Ascii.eqb c "?".
Proof. by destruct c as [[] [] [] [] [] [] [] []]. Qed.

Lemma placeholders_ToUpper s : placeholders (ToUpper s) = placeholders s.
Proof.
  unfold placeholders. induction s as [|c s IH]; [done|]. simpl.
  by rewrite to_upper_mark, IH.
Qed.

Lemma placeholders_TrimLeft s : placeholders (TrimLeft s) = placeholders s.
Proof.
  unfold placeholders. induction s as [|c s IH]; [done|]. simpl.
  destruct (is_space c) eqn:Hc; [|done]. rewrite IH.
  destruct (Ascii.eqb_spec c "?") as [->|]; done.
Qed.

Lemma placeholders_TrimRight s : placeholders (TrimRight s) = placeholders s.
Proof.
  unfold placeholders. induction s as [|c s IH]; [done|]. simpl.
  destruct (TrimRight s) as [|c' t] eqn:Ht.
  - rewrite <- IH. destruct (is_space c) eqn:Hc; simpl; [|lia].
    destruct (Ascii.eqb_spec c "?") as [->|]; done.
  - simpl in *. by rewrite IH.
Qed.

Lemma allowedOperators_clean op :
  map_bool_get allowedOperators op = true → placeholders op = 0.
Proof.
  unfold map_bool_get, allowedOperators.
  destruct (list_to_map _ !! op) as [b|] eqn:Hop; [|done]. simpl. intros ->.
  apply elem_of_list_to_map_2 in Hop.
  repeat (apply elem_of_cons in Hop as [[= ->]|Hop]; [done|]).
  by apply elem_of_nil in Hop.
Qed.

(** An operator of the allow-list holds no placeholder. *)
Lemma placeholders_operator op :
  ValidateOperator op = None → placeholders op = 0.
Proof.
  unfold ValidateOperator.
  destruct (map_bool_get _ _) eqn:Hop; [|done]. intros _.
  apply allowedOperators_clean in Hop. unfold TrimSpace in Hop.
  by rewrite placeholders_ToUpper, placeholders_TrimRight,
    placeholders_TrimLeft in Hop.
Qed.


(** *** Predicates *)

Lemma kind_of_date t fn : kind_of t = KDate fn → placeholders fn = 0.
Proof.
  unfold kind_of.
  repeat match goal with
  | |- context [match ?p with _ => _ end] => is_var p; destruct p
  end; by intros [= <-].
Qed.

Lemma placeholders_connector b : placeholders (WhereBoolean_String b) = 0.
Proof. unfold WhereBoolean_String. by case_decide. Qed.

Lemma compileWheres_loop_count ws :
  Forall clause_counts ws →
  ∀ i sql args sql' args',
    compileWheres_loop compileWhere i ws sql args = (sql', args', None) →
    placeholders sql' + length args = placeholders sql + length args'.
Proof.
  induction 1 as [|w ws Hw _ IH]; intros i sql args sql' args'; simpl.
  - by intros [= <- <-].
  - destruct (compileWhere w) as [[s a] [e|]] eqn:Ew; [done|].
    intros H%IH. pose proof (Hw s a Ew) as Hs.
    rewrite placeholders_app, length_app in H.
    case_decide; rewrite ?placeholders_app, ?placeholders_connector in H;
      constants; lia.
Qed.

Lemma compileWheres_count ws sql args :
  Forall clause_counts ws →
  compileWheres ws = (sql, args, None) →
  placeholders sql = length args.
Proof.
  intros Hws. destruct ws as [|w ws]; [by intros [= <- <-]|].
  rewrite compileWheres_nonempty.
  intros H%compileWheres_loop_count; [|done]. simpl in H. lia.
Qed.

Lemma compileWhere_count w : raw_balanced w = true → clause_counts w.
Proof.
  induction w as [t b c o v vs n r bs IH] using WhereClause_nested_ind.
  unfold clause_counts. cbn [raw_balanced]. fields. intros Hbal sql args.
  rewrite compileWhere_kind. fields.
  destruct (kind_of t) eqn:Hk.
  - unfold compileWhereBasic. fields.
    destruct (Wrap c) as [x [e|]] eqn:Hc; [done|].
    destruct (ValidateOperator o) eqn:Ho; [done|]. intros [= <- <-].
    rewrite !placeholders_app, placeholders_ToUpper.
    rewrite (placeholders_Wrap _ _ Hc), (placeholders_operator _ Ho).
    constants. simpl. lia.
  - unfold compileWhereIn. fields. case_decide; [done|].
    destruct (Wrap c) as [x [e|]] eqn:Hc; [done|]. intros [= <- <-].
    rewrite !placeholders_app, placeholders_Join_marks.
    rewrite (placeholders_Wrap _ _ Hc). destruct not; constants; lia.
  - unfold compileWhereBetween. fields.
    case_decide as Hlen; [done|].
    destruct (Wrap c) as [x [e|]] eqn:Hc; [done|]. intros [= <- <-].
    rewrite !placeholders_app, (placeholders_Wrap _ _ Hc), Hlen.
    destruct not; constants; lia.
  - unfold compileWhereNull. fields.
    destruct (Wrap c) as [x [e|]] eqn:Hc; [done|]. intros [= <- <-].
    rewrite !placeholders_app, (placeholders_Wrap _ _ Hc).
    destruct not; constants; simpl; lia.
  - intros [= <- <-]. by apply bool_decide_eq_true in Hbal.
  - unfold compileWhereNested, compileWhereNested_with. fields.
    case_decide; [by intros [= <- <-]|].
    destruct (compileWheres n) as [[s a] [e|]] eqn:Hn; [done|].
    intros [= <- <-]. rewrite !placeholders_app. constants.
    rewrite (compileWheres_count n s a); [lia| |done].
    apply Is_true_true, forallb_True in Hbal. clear -IH Hbal.
    induction IH as [|w n Hw _ IHn]; [constructor|].
    apply Forall_cons in Hbal as [Hb Hbal].
    constructor; [apply Hw; by apply Is_true_true|by apply IHn].
  - unfold compileWhereDate. fields.
    destruct (Wrap c) as [x [e|]] eqn:Hc; [done|]. intros [= <- <-].
    rewrite !placeholders_app, (placeholders_Wrap _ _ Hc).
    rewrite (kind_of_date _ _ Hk). constants. simpl. lia.
  - done.
Qed.

Lemma Forall_clause_counts ws :
  forallb raw_balanced ws = true → Forall clause_counts ws.
Proof.
  intros H%Is_true_true%forallb_True. eapply Forall_impl; [done|].
  intros w Hw. apply compileWhere_count. by apply Is_true_true.
Qed.

Lemma wheresBlock_count kw ws sql args sql' args' :
  forallb raw_balanced ws = true →
  placeholders kw = 0 →
  wheresBlock kw ws sql args = (sql', args', None) →
  placeholders sql' + length args = placeholders sql + length args'.
Proof.
  intros Hws Hkw. unfold wheresBlock. case_decide.
  - destruct (compileWheres ws) as [[s a] [e|]] eqn:Ec; [done|].
    intros [= <- <-]. apply compileWheres_count in Ec;
      [|by apply Forall_clause_counts].
    rewrite !placeholders_app, length_app, Hkw. lia.
  - by intros [= <- <-].
Qed.


(** *** The blocks of the statements *)

Lemma forEach_clean {A} (f : A → string * option error) xs ys :
  Forall (λ x, ∀ y, f x = (y, None) → placeholders y = 0) xs →
  forEach f xs = (ys, None) →
  Forall (λ y, placeholders y = 0) ys.
Proof.
  intros Hxs. revert ys. induction Hxs as [|x xs Hx _ IH]; intros ys; simpl.
  - intros [= <-]. constructor.
  - destruct (f x) as [y [e|]] eqn:Ex; [done|].
    destruct (forEach f xs) as [ys' [e|]]; [done|]. intros [= <-].
    constructor; [by apply Hx|by apply IH].
Qed.

Lemma forallb_Forall {A} (p : A → bool) xs :
  forallb p xs = true → Forall (λ x, p x = true) xs.
Proof.
  intros H%Is_true_true%forallb_True. eapply Forall_impl; [done|].
  intros x. apply Is_true_true.
Qed.

Lemma columnsBlock_count cols sql sql' :
  forallb column_clean cols = true →
  columnsBlock cols sql = (sql', None) →
  placeholders sql' = placeholders sql.
Proof.
  intros Hc%forallb_Forall. unfold columnsBlock. case_decide.
  { intros [= <-]. rewrite placeholders_app. constants. lia. }
  destruct (forEach selectColumn cols) as [ys [e|]] eqn:E; [done|].
  intros [= <-]. rewrite placeholders_app.
  rewrite placeholders_Join_clean; [lia| |done].
  eapply forEach_clean; [|done].
  eapply Forall_impl; [done|]. intros col Hcol y. simpl in Hcol.
  unfold selectColumn, column_clean in *.
  destruct (ContainsAny col " ()").
  - intros [= <-]. by apply bool_decide_eq_true in Hcol.
  - apply placeholders_Wrap.
Qed.

Lemma compileJoin_count j x :
  join_clean j = true → compileJoin j = (x, None) → placeholders x = 0.
Proof.
  intros Hj%bool_decide_eq_true. unfold compileJoin.
  destruct (WrapTable (Table j)) as [t [e|]] eqn:Et; [done|].
  apply placeholders_WrapTable in Et.
  case_decide.
  { intros [= <-]. rewrite placeholders_app, Et. by constants. }
  destruct (Wrap (First j)) as [f [e|]] eqn:Ef; [done|].
  destruct (Wrap (Second j)) as [g [e|]] eqn:Eg; [done|].
  destruct (ValidateOperator (JoinOperator j)) eqn:Eo; [done|].
  intros [= <-]. rewrite !placeholders_app.
  rewrite Hj, Et, (placeholders_Wrap _ _ Ef), (placeholders_Wrap _ _ Eg).
  rewrite (placeholders_operator _ Eo). by constants.
Qed.

Lemma joinsLoop_count js : ∀ sql sql',
  forallb join_clean js = true →
  joinsLoop js sql = (sql', None) →
  placeholders sql' = placeholders sql.
Proof.
  induction js as [|j js IH]; intros sql sql'; simpl.
  - by intros _ [= <-].
  - intros [Hj Hjs]%andb_prop.
    destruct (compileJoin j) as [x [e|]] eqn:Ej; [done|].
    intros ->%IH; [|done]. rewrite !placeholders_app.
    rewrite (compileJoin_count _ _ Hj Ej). by constants.
Qed.

Lemma groupByBlock_count groupBy sql sql' :
  groupByBlock groupBy sql = (sql', None) →
  placeholders sql' = placeholders sql.
Proof.
  unfold groupByBlock. case_decide; [|by intros [= <-]].
  destruct (forEach Wrap groupBy) as [ys [e|]] eqn:E; [done|].
  intros [= <-]. rewrite !placeholders_app.
  rewrite placeholders_Join_clean; [constants; lia| |done].
  eapply forEach_clean; [|done].
  apply Forall_forall. intros col _ y. apply placeholders_Wrap.
Qed.

Lemma ordersBlock_count orders sql sql' :
  forallb order_clean orders = true →
  ordersBlock orders sql = (sql', None) →
  placeholders sql' = placeholders sql.
Proof.
  intros Ho%forallb_Forall. unfold ordersBlock.
  case_decide; [|by intros [= <-]].
  destruct (forEach orderPart orders) as [ys [e|]] eqn:E; [done|].
  intros [= <-]. rewrite !placeholders_app.
  rewrite placeholders_Join_clean; [constants; lia| |done].
  eapply forEach_clean; [|done].
  eapply Forall_impl; [done|]. intros o Hclean y. simpl in Hclean.
  unfold orderPart, order_clean in *. case_decide.
  - intros [= <-]. by apply bool_decide_eq_true in Hclean.
  - destruct (Wrap (OrderColumn o)) as [x [e|]] eqn:Ex; [done|].
    intros [= <-]. apply bool_decide_eq_true in Hclean.
    rewrite !placeholders_app, (placeholders_Wrap _ _ Ex), Hclean.
    by constants.
Qed.

Lemma limitBlock_count kw p sql :
  placeholders kw = 0 →
  placeholders (limitBlock kw p sql) = placeholders sql.
Proof.
  intros Hkw. destruct p as [n|]; [|done]. simpl.
  rewrite !placeholders_app, Hkw, placeholders_Sprint_d. lia.
Qed.

Lemma countExpr_count column x :
  countExpr column = (x, None) → placeholders x = 0.
Proof.
  unfold countExpr. case_decide; [|by intros [= <-]].
  destruct (Wrap column) as [y [e|]] eqn:Ey; [done|]. intros [= <-].
  rewrite !placeholders_app, (placeholders_Wrap _ _ Ey). by constants.
Qed.

Lemma insertColumns_count data keys : ∀ args cols args',
  insertColumns data keys args = (cols, args', None) →
  Forall (λ col, placeholders col = 0) cols
  ∧ length args' = length args + length keys.
Proof.
  induction keys as [|k keys IH]; intros args cols args'; simpl.
  - intros [= <- <-]. split; [constructor|lia].
  - destruct (Wrap k) as [x [e|]] eqn:Ek; [done|].
    destruct (insertColumns data keys _) as [[c a] [e|]] eqn:Er; [done|].
    intros [= <- <-]. apply IH in Er as [Hc Ha]. split.
    + constructor; [by eapply placeholders_Wrap|done].
    + rewrite Ha, length_app. simpl. lia.
Qed.

Lemma updateSet_count data keys : ∀ i args parts args',
  updateSet data i keys args = (parts, args', None) →
  Forall (λ part, placeholders part = 1) parts
  ∧ length parts = length keys
  ∧ length args' = length args + length keys.
Proof.
  induction keys as [|k keys IH]; intros i args parts args'; simpl.
  - intros [= <- <-]. split_and!; [constructor|done|lia].
  - destruct (Wrap k) as [x [e|]] eqn:Ek; [done|].
    destruct (updateSet data _ keys _) as [[c a] [e|]] eqn:Er; [done|].
    intros [= <- <-]. apply IH in Er as (Hc & Hl & Ha). split_and!.
    + constructor; [|done].
      rewrite !placeholders_app, (placeholders_Wrap _ _ Ek). by constants.
    + simpl. by rewrite Hl.
    + rewrite Ha, length_app. simpl. lia.
Qed.

Lemma batchRow_count row keys : ∀ args phs args',
  batchRow row keys args = (phs, args', None) →
  phs = (λ _, "?") <$> keys ∧ length args' = length args + length keys.
Proof.
  induction keys as [|k keys IH]; intros args phs args'; simpl.
  - intros [= <- <-]. split; [done|lia].
  - destruct (row !! k) as [v|]; [|done].
    destruct (batchRow row keys _) as [[p a] [e|]] eqn:Er; [done|].
    intros [= <- <-]. apply IH in Er as [-> Ha]. split; [done|].
    rewrite Ha, length_app. simpl. lia.
Qed.

Lemma batchRows_count rows keys : ∀ args rps args',
  batchRows rows keys args = (rps, args', None) →
  Forall (λ rp, placeholders rp = length keys) rps
  ∧ length rps = length rows
  ∧ length args' = length args + length keys * length rows.
Proof.
  induction rows as [|row rows IH]; intros args rps args'; simpl.
  - intros [= <- <-]. split_and!; [constructor|done|lia].
  - case_decide; [done|].
    destruct (batchRow row keys args) as [[p a] [e|]] eqn:Er; [done|].
    destruct (batchRows rows keys a) as [[r a'] [e|]] eqn:Es; [done|].
    intros [= <- <-]. apply batchRow_count in Er as [-> Ha].
    apply IH in Es as (Hr & Hl & Ha'). split_and!.
    + constructor; [|done].
      rewrite !placeholders_app, placeholders_Join_marks. constants. lia.
    + simpl. by rewrite Hl.
    + rewrite Ha', Ha. lia.
Qed.

Lemma upsertParts_count cols parts :
  forEach upsertPart cols = (parts, None) →
  Forall (λ part, placeholders part = 0) parts.
Proof.
  apply forEach_clean. apply Forall_forall. intros col _ y.
  unfold upsertPart. destruct (Wrap col) as [x [e|]] eqn:Ex; [done|].
  intros [= <-]. rewrite !placeholders_app, (placeholders_Wrap _ _ Ex).
  by constants.
Qed.


(** Turns the calls a successful method made into facts on the number of
    placeholders of what they returned. *)
Ltac count_calls :=
  repeat match goal with
  | E : WrapTable _ = (_, None) |- _ => apply placeholders_WrapTable in E
  | E : Wrap _ = (_, None) |- _ => apply placeholders_Wrap in E
  | E : wheresBlock _ _ _ _ = (_, _, None) |- _ =>
      apply wheresBlock_count in E; [|assumption|reflexivity]
  | E : columnsBlock _ _ = (_, None) |- _ =>
      apply columnsBlock_count in E; [|assumption]
  | E : joinsLoop _ _ = (_, None) |- _ =>
      apply joinsLoop_count in E; [|assumption]
  | E : groupByBlock _ _ = (_, None) |- _ => apply groupByBlock_count in E
  | E : ordersBlock _ _ = (_, None) |- _ =>
      apply ordersBlock_count in E; [|assumption]
  | E : countExpr _ = (_, None) |- _ => apply countExpr_count in E
  | E : insertColumns _ _ _ = (_, _, None) |- _ =>
      apply insertColumns_count in E as [? ?]
  | E : updateSet _ _ _ _ = (_, _, None) |- _ =>
      apply updateSet_count in E as (? & ? & ?)
  | E : batchRows _ _ _ = (_, _, None) |- _ =>
      apply batchRows_count in E as (? & ? & ?)
  | E : forEach Wrap _ = (_, None) |- _ =>
      apply (forEach_clean Wrap) in E;
        [|apply Forall_forall; intros ? _ ?; apply placeholders_Wrap]
  | E : forEach upsertPart _ = (_, None) |- _ => apply upsertParts_count in E
  end.

Lemma CompileInsert_count ranged b data sql args :
  CompileInsert ranged b data = (sql, Some args, None) →
  placeholders sql = length args.
Proof.
  unfold CompileInsert. intros H. each_return H. simplify_eq. count_calls.
  rewrite !placeholders_app, placeholders_const, placeholders_Join_marks.
  rewrite placeholders_Join_clean by (assumption || reflexivity). constants. simpl in *. lia.
Qed.

(** C2, amended. For every statement whose raw clauses bind as many values
    as their text holds placeholders, and whose other texts emitted as they
    are (raw SELECT columns, raw orders, order directions, join types, the
    function of an aggregate) hold no placeholder: when a compile method
    returns without error, the SQL string holds as many placeholders as the
    argument list has entries. *)
Theorem placeholders_match_arguments
    (stmt : Statement) (sql : string) (args : list any) :
  verbatim_balanced stmt = true →
  compile stmt = (sql, Some args, None) →
  placeholders sql = length args.
Proof.
  destruct stmt; simpl; intros Hbal H;
    repeat (apply andb_prop in Hbal as [Hbal ?]).
  - unfold CompileSelect in H. each_return H. simplify_eq. count_calls.
    rewrite !limitBlock_count by done.
    repeat match goal with
    | E : context [placeholders (_ +:+ _)] |- _ =>
        rewrite !placeholders_app in E
    end.
    assert (placeholders (if IsDistinct b then "SELECT " +:+ "DISTINCT "
                          else "SELECT ") = 0) by (by destruct (IsDistinct b)).
    constants. simpl in *. lia.
  - by eapply CompileInsert_count.
  - unfold CompileInsertBatch in H. each_return H. simplify_eq. count_calls.
    rewrite !placeholders_app.
    rewrite placeholders_Join_clean by (assumption || reflexivity).
    rewrite (placeholders_Join (length (sort.Strings ranged)))
      by (assumption || reflexivity).
    constants. simpl in *. lia.
  - unfold CompileUpdate in H. each_return H. simplify_eq. count_calls.
    repeat match goal with
    | E : context [placeholders (_ +:+ _)] |- _ =>
        rewrite !placeholders_app in E
    end.
    rewrite (placeholders_Join 1) in * by (assumption || reflexivity).
    constants. simpl in *. lia.
  - unfold CompileDelete in H. each_return H. simplify_eq. count_calls.
    repeat match goal with
    | E : context [placeholders (_ +:+ _)] |- _ =>
        rewrite !placeholders_app in E
    end.
    constants. simpl in *. lia.
  - unfold CompileExists in H. each_return H. simplify_eq. count_calls.
    rewrite !placeholders_app.
    repeat match goal with
    | E : context [placeholders (_ +:+ _)] |- _ =>
        rewrite !placeholders_app in E
    end.
    constants. simpl in *. lia.
  - unfold CompileCount in H. each_return H. simplify_eq. count_calls.
    repeat match goal with
    | E : context [placeholders (_ +:+ _)] |- _ =>
        rewrite !placeholders_app in E
    end.
    constants. simpl in *. lia.
  - unfold CompileAggregate in H. each_return H. simplify_eq. count_calls.
    repeat match goal with
    | E : context [placeholders (_ +:+ _)] |- _ =>
        rewrite !placeholders_app in E
    end.
    rewrite placeholders_ToUpper in *.
    match goal with Hfn : bool_decide _ = true |- _ =>
      apply bool_decide_eq_true in Hfn end.
    constants. simpl in *. lia.
  - unfold CompileUpsert in H. each_return H. simplify_eq.
    match goal with E : CompileInsert _ _ _ = _ |- _ =>
      apply CompileInsert_count in E end.
    count_calls. rewrite !placeholders_app.
    rewrite placeholders_Join_clean by (assumption || reflexivity). constants. lia.
  - destruct (CompileTruncate b) as [sql' [e'|]] eqn:E; simplify_eq.
Qed.

(** C2 as stated fails on a raw clause: its text is emitted and its bindings
    are returned as they are, whatever their numbers. *)
Lemma raw_clause_unbalances_placeholders :
  compile (StmtSelect (sample.query "users" [sample.raw "age > ?" []]))
  = ("SELECT * FROM `users` WHERE age > ?", Some [], None)
  ∧ Count "SELECT * FROM `users` WHERE age > ?" "?" ≠ length (@nil any).
Proof. split; [by vm_compute|]. vm_compute. lia. Qed.

Lemma placeholders_match_arguments_witness :
  verbatim_balanced sample.balancedSelect = true
  ∧ compile sample.balancedSelect
    = ("SELECT * FROM `users` WHERE `a` = ? AND age > ?",
       Some [AnyInt 1; AnyInt 18], None)
  ∧ placeholders "SELECT * FROM `users` WHERE `a` = ? AND age > ?"
    = length [AnyInt 1; AnyInt 18].
Proof.
  split; [reflexivity|]. split; [by vm_compute|].
  apply (placeholders_match_arguments sample.balancedSelect);
    [reflexivity|by vm_compute].
Defined.

End placeholder_count.

(** ** Bound values stay out of the text (C9) *)

Lemma size_erase_data data : size (erase_data data) = size data.
Proof. apply map_size_fmap. Qed.

Lemma lookup_erase_data data k :
  erase_data data !! k = (λ _, AnyNil) <$> data !! k.
Proof. apply lookup_fmap. Qed.

Section value_isolation.

Lemma same_text_sym {T A B} (r : T * A * option error)
    (r' : T * B * option error) :
  same_text r r' → same_text r' r.
Proof. by intros [? ?]. Qed.

Lemma same_text_trans {T A B C} (r : T * A * option error)
    (r' : T * B * option error) (r'' : T * C * option error) :
  same_text r r' → same_text r' r'' → same_text r r''.
Proof. intros [? ?] [? ?]. split; congruence. Qed.

Lemma compileWheres_loop_erase ws :
  Forall (λ w, same_text (compileWhere w) (compileWhere (erase w))) ws →
  ∀ i sql args args',
    same_text (compileWheres_loop compileWhere i ws sql args)
              (compileWheres_loop compileWhere i (map erase ws) sql args').
Proof.
  induction 1 as [|w ws [Hs He] _ IH]; intros i sql args args'; simpl.
  - done.
  - destruct (compileWhere w) as [[s a] e], (compileWhere (erase w))
      as [[s' a'] e']. simpl in *. subst s' e'.
    destruct e; [done|].
    replace (Boolean (erase w)) with (Boolean w) by (by destruct w).
    apply IH.
Qed.

Lemma compileWheres_erase ws :
  Forall (λ w, same_text (compileWhere w) (compileWhere (erase w))) ws →
  same_text (compileWheres ws) (compileWheres (map erase ws)).
Proof.
  intros Hws. destruct ws as [|w ws]; [done|].
  change (map erase (w :: ws)) with (erase w :: map erase ws).
  rewrite !compileWheres_nonempty.
  by apply (compileWheres_loop_erase (w :: ws)).
Qed.

Lemma kind_of_erase w : kind_of (Type_ (erase w)) = kind_of (Type_ w).
Proof. by destruct w. Qed.

(** The text and the error of a clause are those of the erased clause. *)
Lemma compileWhere_erase w :
  same_text (compileWhere w) (compileWhere (erase w)).
Proof.
  induction w as [t b c o v vs n r bs IH] using WhereClause_nested_ind.
  rewrite !compileWhere_kind. cbn [erase]. fields.
  destruct (kind_of t) eqn:Hk.
  - unfold compileWhereBasic. fields.
    destruct (Wrap c) as [x [e|]]; [done|].
    by destruct (ValidateOperator o).
  - unfold compileWhereIn. fields. rewrite length_map.
    case_decide; [done|]. destruct (Wrap c) as [x [e|]]; [done|].
    split; [|done]. simpl. by rewrite <- !list_fmap_compose.
  - unfold compileWhereBetween. fields. rewrite length_map.
    case_decide; [done|]. by destruct (Wrap c) as [x [e|]].
  - unfold compileWhereNull. fields. by destruct (Wrap c) as [x [e|]].
  - done.
  - unfold compileWhereNested, compileWhereNested_with. fields.
    rewrite length_map. case_decide; [done|].
    pose proof (compileWheres_erase n IH) as [Hs He].
    destruct (compileWheres n) as [[s a] e], (compileWheres (map erase n))
      as [[s' a'] e']. simpl in *. subst s' e'. by destruct e.
  - unfold compileWhereDate. fields. by destruct (Wrap c) as [x [e|]].
  - done.
Qed.

Lemma compileWheres_text ws ws' :
  map erase ws = map erase ws' →
  same_text (compileWheres ws) (compileWheres ws').
Proof.
  intros Heq.
  eapply same_text_trans;
    [apply compileWheres_erase, Forall_forall; intros; apply compileWhere_erase|].
  rewrite Heq. apply same_text_sym.
  apply compileWheres_erase, Forall_forall; intros; apply compileWhere_erase.
Qed.

Lemma compileWheres_loop_args ws :
  Forall clause_binds ws →
  ∀ i sql args sql' args',
    compileWheres_loop compileWhere i ws sql args = (sql', args', None) →
    args' = args ++ flat_map bound_values ws.
Proof.
  induction 1 as [|w ws Hw _ IH]; intros i sql args sql' args'; simpl.
  - intros [= <- <-]. by rewrite app_nil_r.
  - destruct (compileWhere w) as [[s a] [e|]] eqn:Ew; [done|].
    intros ->%IH. rewrite (Hw s a Ew). by rewrite <- app_assoc.
Qed.

Lemma compileWhere_args w : clause_binds w.
Proof.
  induction w as [t b c o v vs n r bs IH] using WhereClause_nested_ind.
  intros sql args. rewrite compileWhere_kind. cbn [bound_values]. fields.
  destruct (kind_of t) eqn:Hk.
  - unfold compileWhereBasic. fields.
    destruct (Wrap c) as [x [e|]]; [done|].
    destruct (ValidateOperator o); [done|]. by intros [= <- <-].
  - unfold compileWhereIn. fields. case_decide; [done|].
    destruct (Wrap c) as [x [e|]]; [done|]. by intros [= <- <-].
  - unfold compileWhereBetween. fields. case_decide; [done|].
    destruct (Wrap c) as [x [e|]]; [done|]. by intros [= <- <-].
  - unfold compileWhereNull. fields.
    destruct (Wrap c) as [x [e|]]; [done|]. by intros [= <- <-].
  - by intros [= <- <-].
  - unfold compileWhereNested, compileWhereNested_with. fields.
    case_decide as Hlen; [intros [= <- <-]; by destruct n|].
    destruct (compileWheres n) as [[s a] [e|]] eqn:En; [done|].
    intros [= <- <-]. destruct n as [|w n]; [done|].
    rewrite compileWheres_nonempty in En.
    by apply compileWheres_loop_args in En.
  - unfold compileWhereDate. fields.
    destruct (Wrap c) as [x [e|]]; [done|]. by intros [= <- <-].
  - done.
Qed.

Lemma compileWheres_args ws sql args :
  compileWheres ws = (sql, args, None) → args = flat_map bound_values ws.
Proof.
  destruct ws as [|w ws]; [by intros [= <- <-]|].
  rewrite compileWheres_nonempty. intros H%compileWheres_loop_args; [done|].
  apply Forall_forall. intros. apply compileWhere_args.
Qed.


(** *** Statements *)

Lemma wheresBlock_erase kw ws sql args args' :
  same_text (wheresBlock kw ws sql args)
            (wheresBlock kw (map erase ws) sql args').
Proof.
  unfold wheresBlock. rewrite length_map. case_decide; [|done].
  destruct (compileWheres_erase ws) as [Hs He].
  { apply Forall_forall. intros. apply compileWhere_erase. }
  destruct (compileWheres ws) as [[s a] e], (compileWheres (map erase ws))
    as [[s' a'] e']. simpl in *. subst s' e'. by destruct e.
Qed.

Lemma insertColumns_erase data data' keys : ∀ args args',
  same_text (insertColumns data keys args) (insertColumns data' keys args').
Proof.
  induction keys as [|k keys IH]; intros args args'; simpl; [done|].
  destruct (Wrap k) as [x [e|]]; [done|].
  destruct (IH (args ++ [map_get data k]) (args' ++ [map_get data' k]))
    as [Hs He].
  destruct (insertColumns data keys _) as [[c a] e],
    (insertColumns data' keys _) as [[c' a'] e'].
  simpl in *. subst c' e'. by destruct e.
Qed.

Lemma updateSet_erase data data' keys : ∀ i args args',
  same_text (updateSet data i keys args) (updateSet data' i keys args').
Proof.
  induction keys as [|k keys IH]; intros i args args'; simpl; [done|].
  destruct (Wrap k) as [x [e|]]; [done|].
  destruct (IH (S i) (args ++ [map_get data k]) (args' ++ [map_get data' k]))
    as [Hs He].
  destruct (updateSet data _ keys _) as [[c a] e],
    (updateSet data' _ keys _) as [[c' a'] e'].
  simpl in *. subst c' e'. by destruct e.
Qed.

Lemma batchRow_erase row keys : ∀ args args',
  same_text (batchRow row keys args) (batchRow (erase_data row) keys args').
Proof.
  induction keys as [|k keys IH]; intros args args'; simpl; [done|].
  rewrite lookup_erase_data.
  destruct (row !! k) as [v|]; simpl; [|done].
  destruct (IH (args ++ [v]) (args' ++ [AnyNil])) as [Hs He].
  destruct (batchRow row keys _) as [[c a] e],
    (batchRow (erase_data row) keys _) as [[c' a'] e'].
  simpl in *. subst c' e'. by destruct e.
Qed.

Lemma batchRows_erase rows keys : ∀ args args',
  same_text (batchRows rows keys args)
            (batchRows (map erase_data rows) keys args').
Proof.
  induction rows as [|row rows IH]; intros args args'; simpl; [done|].
  rewrite size_erase_data. case_decide; [done|].
  destruct (batchRow_erase row keys args args') as [Hs He].
  destruct (batchRow row keys args) as [[c a] e],
    (batchRow (erase_data row) keys args') as [[c' a'] e'].
  simpl in *. subst c' e'. destruct e; [done|].
  destruct (IH a a') as [Hs He].
  destruct (batchRows rows keys a) as [[r b] e],
    (batchRows (map erase_data rows) keys a') as [[r' b'] e'].
  simpl in *. subst r' e'. by destruct e.
Qed.

(** Takes the same call apart on both sides. *)
Ltac both_sides :=
  repeat lazymatch goal with
  | |- same_text (match wheresBlock ?kw ?ws ?sql ?args with _ => _ end)
                 (match wheresBlock ?kw (map erase ?ws) ?sql ?args' with
                  | _ => _ end) =>
      let Hs := fresh "Hs" in
      let He := fresh "He" in
      destruct (wheresBlock_erase kw ws sql args args') as [Hs He];
      destruct (wheresBlock kw ws sql args) as [[? ?] [?|]],
        (wheresBlock kw (map erase ws) sql args') as [[? ?] ?];
      simpl in Hs, He; subst; [done|]
  | |- same_text (match ?c with _ => _ end) (match ?c with _ => _ end) =>
      destruct c; cbv beta iota zeta; try done
  end; try done.

Lemma CompileInsert_erase ranged b data :
  same_text (CompileInsert ranged b data)
            (CompileInsert ranged (erase_builder b) (erase_data data)).
Proof.
  unfold CompileInsert, erase_builder; cbn [GetTable].
  rewrite size_erase_data. both_sides.
  destruct (insertColumns_erase data (erase_data data)
              (sort.Strings ranged) [] []) as [Hs He].
  destruct (insertColumns data _ _) as [[c a] e],
    (insertColumns (erase_data data) _ _) as [[c' a'] e'].
  simpl in *. subst c' e'. by destruct e.
Qed.

(** The text and the error of a statement are those of the erased
    statement. *)
Lemma compile_erase stmt : same_text (compile stmt) (compile (erase_stmt stmt)).
Proof.
  destruct stmt; cbn [compile erase_stmt].
  - unfold CompileSelect, erase_builder;
      cbn [GetTable GetColumns IsDistinct GetWheres GetOrders GetJoins
           GetGroupBy GetHaving GetLimit GetOffset].
    both_sides.
  - apply CompileInsert_erase.
  - unfold CompileInsertBatch, erase_builder; cbn [GetTable].
    both_sides. destruct data as [|firstRow rest]; [done|]. cbn [map].
    rewrite size_erase_data. both_sides.
    destruct (batchRows_erase (firstRow :: rest) (sort.Strings ranged) [] [])
      as [Hs He]. cbn [map] in *.
    destruct (batchRows (firstRow :: rest) _ _) as [[c a] e],
      (batchRows (erase_data firstRow :: map erase_data rest) _ _)
      as [[c' a'] e'].
    simpl in *. subst c' e'. by destruct e.
  - unfold CompileUpdate, erase_builder; cbn [GetTable GetWheres].
    rewrite size_erase_data. both_sides.
    destruct (updateSet_erase data (erase_data data)
                (sort.Strings ranged) 0 [] []) as [Hs He].
    destruct (updateSet data _ _ _) as [[c a] e],
      (updateSet (erase_data data) _ _ _) as [[c' a'] e'].
    simpl in *. subst c' e'. destruct e; [done|]. both_sides.
  - unfold CompileDelete, erase_builder; cbn [GetTable GetWheres]. both_sides.
  - unfold CompileExists, erase_builder; cbn [GetTable GetWheres]. both_sides.
  - unfold CompileCount, erase_builder; cbn [GetTable GetWheres]. both_sides.
  - unfold CompileAggregate, erase_builder; cbn [GetTable GetWheres].
    both_sides.
  - unfold CompileUpsert.
    destruct (CompileInsert_erase ranged b data) as [Hs He].
    destruct (CompileInsert ranged b data) as [[c a] e],
      (CompileInsert ranged (erase_builder b) (erase_data data))
      as [[c' a'] e'].
    simpl in *. subst c' e'. destruct e; [done|]. both_sides.
  - unfold CompileTruncate, erase_builder; cbn [GetTable].
    destruct (decide (GetTable b = "")); [done|].
    by destruct (WrapTable (GetTable b)) as [x [e|]].
Qed.


Lemma binds_values_balanced w : binds_values w = true → raw_balanced w = true.
Proof.
  destruct w as [t b c o v vs n r bs]. unfold binds_values.
  cbn [raw_balanced]. fields. by destruct (kind_of t).
Qed.

(** C9, amended. The text and the error of a compiled statement do not
    depend on the bound values: two statements that differ only in the
    values their predicates and their data bind compile to the same SQL
    string and the same error, and so do two predicate lists. The arguments
    of a predicate list are the bound values of its predicates, in the order
    of the predicates; a comparison, a list, a range or a date predicate
    returns its bound values, and its text holds one placeholder for each of
    them. *)
Theorem bound_values_only_in_arguments :
  (∀ stmt stmt',
     erase_stmt stmt = erase_stmt stmt' →
     same_text (compile stmt) (compile stmt'))
  ∧ (∀ ws ws',
       map erase ws = map erase ws' →
       same_text (compileWheres ws) (compileWheres ws'))
  ∧ (∀ ws sql args,
       compileWheres ws = (sql, args, None) →
       args = flat_map bound_values ws)
  ∧ (∀ w sql args,
       binds_values w = true →
       compileWhere w = (sql, args, None) →
       args = bound_values w ∧ placeholders sql = length (bound_values w)).
Proof.
  split; [|split; [|split]].
  - intros stmt stmt' Heq.
    eapply same_text_trans; [apply compile_erase|].
    rewrite Heq. apply same_text_sym, compile_erase.
  - apply compileWheres_text.
  - apply compileWheres_args.
  - intros w sql args Hw H.
    pose proof (compileWhere_args w sql args H) as ->. split; [done|].
    by apply (compileWhere_count w (binds_values_balanced w Hw) sql).
Qed.

(** C9 as stated fails when the bound value is a text the statement holds
    anyway: the value [name] compared with the column [name] is a substring
    of the SQL string. *)
Lemma bound_value_occurs_in_text :
  compile (StmtSelect
             (sample.query "users"
                [sample.basic WhereBooleanAnd "name" (AnyString "name")]))
  = ("SELECT * FROM `users` WHERE `name` = ?", Some [AnyString "name"], None)
  ∧ Contains "SELECT * FROM `users` WHERE `name` = ?" "name" = true.
Proof. split; by vm_compute. Qed.

Lemma bound_values_only_in_arguments_witness :
  same_text (compile sample.selectJohn) (compile sample.selectJane)
  ∧ compile sample.selectJohn
    = ("SELECT * FROM `users` WHERE `name` = ?", Some [AnyString "John"], None)
  ∧ compile sample.selectJane
    = ("SELECT * FROM `users` WHERE `name` = ?", Some [AnyString "Jane"], None)
  ∧ [AnyInt 1] = bound_values sample.A
  ∧ placeholders "`a` = ?" = length (bound_values sample.A).
Proof.
  destruct bound_values_only_in_arguments as (Hstmt & _ & _ & Hw).
  split; [by apply Hstmt|]. split; [by vm_compute|]. split; [by vm_compute|].
  apply (Hw sample.A); [reflexivity|by vm_compute].
Defined.

End value_isolation.

(** ** Clone (C8) *)

Section clone.
Import fluentsql.

(** Closes a goal on the distinctness of the new arrays. *)
Ltac distinct :=
  repeat (apply NoDup_cons; split;
          [rewrite ?not_elem_of_cons; repeat split;
           (congruence || apply not_elem_of_nil)|]);
  apply NoDup_nil_2.

Lemma valid_weaken (h h' : Heap) s : h ⊆ h' → valid h s → valid h' s.
Proof.
  unfold valid. intros Hsub. destruct (array s) as [l|]; [|done].
  intros (xs & Hl & Hlen). exists xs. split; [|done].
  by eapply lookup_weaken.
Qed.

Lemma elems_weaken (h h' : Heap) s :
  h ⊆ h' → valid h s → elems h' s = elems h s.
Proof.
  unfold valid, elems. intros Hsub. destruct (array s) as [l|]; [|done].
  intros (xs & Hl & Hlen). by rewrite (lookup_weaken _ _ _ _ Hl Hsub), Hl.
Qed.

Lemma length_elems (h : Heap) s : valid h s → length (elems h s) = len s.
Proof.
  unfold valid, elems. destruct (array s) as [l|]; [|done].
  intros (xs & -> & Hlen). rewrite length_take. lia.
Qed.

(** [make] and [copy] leave the store as it is but for one new array, which
    holds the elements of the source. *)
Lemma makeCopy_spec (h : Heap) zero src :
  valid h src →
  ∃ l, h !! l = None
       ∧ makeCopy h zero src
         = (<[l := Array (elems h src)]> h, mkSlice (Some l) (len src)).
Proof.
  intros Hsrc. exists (fresh (dom h)).
  assert (h !! fresh (dom h) = None) as Hfresh.
  { apply not_elem_of_dom, is_fresh. }
  split; [done|]. unfold makeCopy, make, copy. cbn [array len].
  rewrite lookup_insert_eq, insert_insert_eq. do 3 f_equal.
  rewrite Nat.min_id, drop_replicate, Nat.sub_diag. cbn [replicate].
  rewrite app_nil_r.
  rewrite (elems_weaken h) by (by apply insert_subseteq || done).
  apply take_ge. by rewrite length_elems.
Qed.

Lemma elems_insert_fresh (h : Heap) l xs n :
  elems (<[l := Array xs]> h) (mkSlice (Some l) n) = take n xs.
Proof. unfold elems. cbn [array len]. by rewrite lookup_insert_eq. Qed.


(** What [Clone] returns: the store with six new arrays, which hold the
    elements of the six lists of [b], and a builder that views them. *)
Lemma Clone_spec (h : Heap) b :
  Forall (valid h) (lists b) →
  ∃ l1 l2 l3 l4 l5 l6,
    NoDup [l1; l2; l3; l4; l5; l6]
    ∧ Forall (λ l, h !! l = None) [l1; l2; l3; l4; l5; l6]
    ∧ Clone h b
      = (<[l6 := Array (elems h (having b))]>
           (<[l5 := Array (elems h (groupBy b))]>
              (<[l4 := Array (elems h (joins b))]>
                 (<[l3 := Array (elems h (orders b))]>
                    (<[l2 := Array (elems h (wheres b))]>
                       (<[l1 := Array (elems h (columns b))]> h))))),
         mkBuilder (executor b) (grammar b) (scanner b) (table b)
           (tableAlias b) (mkSlice (Some l1) (len (columns b))) (distinct b)
           (mkSlice (Some l2) (len (wheres b)))
           (mkSlice (Some l3) (len (orders b)))
           (mkSlice (Some l4) (len (joins b)))
           (mkSlice (Some l5) (len (groupBy b)))
           (mkSlice (Some l6) (len (having b)))
           (limit b) (offset b) (err b)).
Proof.
  unfold lists. rewrite !Forall_cons.
  intros (Hc & Hw & Ho & Hj & Hg & Hh & _). unfold Clone.
  destruct (makeCopy_spec h (EString "") (columns b) Hc) as (l1 & F1 & ->).
  set (h1 := <[l1 := _]> h).
  assert (h ⊆ h1) as S1 by by apply insert_subseteq.
  destruct (makeCopy_spec h1 zeroWhere (wheres b)) as (l2 & F2 & ->);
    [by eapply valid_weaken|].
  rewrite (elems_weaken h h1) by done.
  set (h2 := <[l2 := _]> h1).
  assert (h ⊆ h2) as S2 by (etrans; [done|by apply insert_subseteq]).
  destruct (makeCopy_spec h2 zeroOrder (orders b)) as (l3 & F3 & ->);
    [by eapply valid_weaken|].
  rewrite (elems_weaken h h2) by done.
  set (h3 := <[l3 := _]> h2).
  assert (h ⊆ h3) as S3 by (etrans; [done|by apply insert_subseteq]).
  destruct (makeCopy_spec h3 zeroJoin (joins b)) as (l4 & F4 & ->);
    [by eapply valid_weaken|].
  rewrite (elems_weaken h h3) by done.
  set (h4 := <[l4 := _]> h3).
  assert (h ⊆ h4) as S4 by (etrans; [done|by apply insert_subseteq]).
  destruct (makeCopy_spec h4 (EString "") (groupBy b)) as (l5 & F5 & ->);
    [by eapply valid_weaken|].
  rewrite (elems_weaken h h4) by done.
  set (h5 := <[l5 := _]> h4).
  assert (h ⊆ h5) as S5 by (etrans; [done|by apply insert_subseteq]).
  destruct (makeCopy_spec h5 zeroWhere (having b)) as (l6 & F6 & ->);
    [by eapply valid_weaken|].
  rewrite (elems_weaken h h5) by done.
  exists l1, l2, l3, l4, l5, l6.
  subst h1 h2 h3 h4 h5.
  repeat match goal with
  | H : <[_ := _]> _ !! _ = None |- _ =>
      apply lookup_insert_None in H as [H ?]
  end.
  split; [|split; [|done]].
  - distinct.
  - by repeat (apply Forall_cons; split; [done|]).
Qed.

(** What [Clone] does keep apart: the scalar fields and the references of
    the clone are those of [b]; the store changes by new arrays only; each
    list of the clone is a new array with the elements of the list of [b] it
    copies. *)
Lemma Clone_copies_the_top_level (h : Heap) b h' c :
  Forall (valid h) (lists b) →
  Clone h b = (h', c) →
  (table c = table b ∧ tableAlias c = tableAlias b ∧ distinct c = distinct b
   ∧ limit c = limit b ∧ offset c = offset b ∧ err c = err b)
  ∧ (executor c = executor b ∧ grammar c = grammar b ∧ scanner c = scanner b)
  ∧ h ⊆ h'
  ∧ Forall2 (λ s s', len s' = len s ∧ elems h' s' = elems h s)
      (lists b) (lists c)
  ∧ Forall (fresh_in h) (lists c)
  ∧ NoDup (array <$> lists c).
Proof.
  intros Hv H.
  destruct (Clone_spec h b Hv) as (l1 & l2 & l3 & l4 & l5 & l6 & Hnd & Hf & E).
  rewrite E in H. injection H as <- <-. clear E.
  repeat match goal with
  | H : NoDup (_ :: _) |- _ => apply NoDup_cons in H as [? H]
  end.
  repeat match goal with
  | H : _ ∉ _ :: _ |- _ => apply not_elem_of_cons in H as [? H]
  end.
  rewrite !Forall_cons in Hf. destruct Hf as (F1 & F2 & F3 & F4 & F5 & F6 & _).
  unfold lists in *. rewrite !Forall_cons in Hv.
  destruct Hv as (Hc & Hw & Ho & Hj & Hg & Hh & _).
  cbn [table tableAlias distinct limit offset err executor grammar scanner
       columns wheres orders joins groupBy having].
  split; [done|]. split; [done|]. split; [|split; [|split]].
  - by repeat (apply insert_subseteq_r; [done|]).
  - repeat (apply Forall2_cons; split;
            [split; [done|];
             unfold elems at 1; cbn [array len];
             rewrite ?lookup_insert_ne by congruence;
             rewrite lookup_insert_eq; apply take_ge;
             by rewrite length_elems|]).
    apply Forall2_nil_2.
  - repeat (apply Forall_cons; split; [by eexists|]). apply Forall_nil_2.
  - cbn [fmap list_fmap array]. distinct.
Qed.

(** A store into a slice changes what the slices of other arrays hold in
    nothing. *)
Lemma store_elems_ne (h h' : Heap) s i x s' :
  store h s i x = Some h' → array s' ≠ array s → elems h' s' = elems h s'.
Proof.
  unfold store. case_decide; [|done].
  destruct (array s) as [l|] eqn:El; [|done].
  destruct (h !! l) as [[xs|]|] eqn:Hl; [|done..]. intros [= <-] Hne.
  unfold elems. destruct (array s') as [l'|]; [|done].
  rewrite lookup_insert_ne; [done|congruence].
Qed.

(** After [Clone], a store into a list of [b] leaves the lists of the clone
    as they are, and a store into a list of the clone those of [b]. *)
Lemma Clone_lists_independent (h : Heap) b h' c s i x h'' :
  Forall (valid h) (lists b) →
  Clone h b = (h', c) →
  store h' s i x = Some h'' →
  (s ∈ lists b → Forall (λ s', elems h'' s' = elems h' s') (lists c))
  ∧ (s ∈ lists c → Forall (λ s', elems h'' s' = elems h' s') (lists b)).
Proof.
  intros Hv H Hst.
  destruct (Clone_copies_the_top_level h b h' c Hv H)
    as (_ & _ & Hsub & _ & Hfresh & _).
  rewrite Forall_forall in Hv, Hfresh.
  split; intros Hs; apply Forall_forall; intros s' Hs';
    apply (store_elems_ne _ _ _ _ _ _ Hst).
  - destruct (Hfresh s' Hs') as (l' & El' & Hl'). rewrite El'.
    specialize (Hv s Hs). unfold valid in Hv.
    destruct (array s) as [l|]; [|done].
    destruct Hv as (xs & Hl & _). congruence.
  - destruct (Hfresh s Hs) as (l & El & Hl). rewrite El.
    specialize (Hv s' Hs'). unfold valid in Hv.
    destruct (array s') as [l'|]; [|done].
    destruct Hv as (xs & Hl' & _). congruence.
Qed.


Lemma sample_builder_valid : Forall (valid sample.heap) (lists sample.builder).
Proof.
  repeat (apply Forall_cons; split;
          [eexists; split; [by vm_compute|cbn; lia]|]).
  apply Forall_nil_2.
Qed.

(** C8. [Clone] copies the six lists of a builder and nothing below them:
    the clauses of the clone view the arrays of [Values] and [Nested] that
    the clauses of [b] view. For [b] with [WhereIn("id", {1, 2, 3})] and a
    group [(a = 1)], the clone compiles with the arguments [1, 2, 3, 1];
    after [b.GetWheres()[0].Values[0] = 99] the clone compiles with
    [99, 2, 3, 1], and after [b.GetWheres()[1].Nested[0].Value = 5] with
    [1, 2, 3, 5]. *)
Theorem Clone_shares_the_arrays_inside_a_clause :
  index sample.heap (wheres sample.builder) 0
  = Some (EWhere sample.whereIn)
  ∧ index sample.heap (wheres sample.builder) 1
    = Some (EWhere sample.whereNested)
  ∧ sample.clonedSQL sample.cloned.1
    = ("SELECT * FROM `users` WHERE `id` IN (?, ?, ?) AND (`a` = ?)",
       Some [AnyInt 1; AnyInt 2; AnyInt 3; AnyInt 1], None)
  ∧ sample.clonedSQL
    <$> store sample.cloned.1 (mValues sample.whereIn) 0 (EAny (AnyInt 99))
    = Some ("SELECT * FROM `users` WHERE `id` IN (?, ?, ?) AND (`a` = ?)",
            Some [AnyInt 99; AnyInt 2; AnyInt 3; AnyInt 1], None)
  ∧ sample.clonedSQL
    <$> store sample.cloned.1 (mNested sample.whereNested) 0
          (EWhere (sample.child (AnyInt 5)))
    = Some ("SELECT * FROM `users` WHERE `id` IN (?, ?, ?) AND (`a` = ?)",
            Some [AnyInt 1; AnyInt 2; AnyInt 3; AnyInt 5], None).
Proof. repeat split; by vm_compute. Qed.

End clone.

(** ** Column references (SplitTableColumn) *)

Section column_references.

Lemma length_append (s t : string) :
  String.length (s +:+ t) = String.length s + String.length t.
Proof. induction s as [|c s IH]; [done|]. rewrite append_cons. simpl. by rewrite IH. Qed.

Lemma Split_nonempty s sep : Split s sep ≠ [].
Proof.
  destruct s as [|c r]; simpl; [done|].
  destruct (Ascii.eqb c sep); [done|]. by destruct (Split r sep).
Qed.

Lemma Join_cons_head c x xs sep :
  Join (String c x :: xs) sep = String c (Join (x :: xs) sep).
Proof. by destruct xs. Qed.

(** Joining the pieces of a split with the separator gives the string
    back. *)
Lemma Join_Split s sep : Join (Split s sep) (String sep "") = s.
Proof.
  induction s as [|c r IH]; [done|]. simpl.
  destruct (Ascii.eqb_spec c sep) as [->|Hne].
  - destruct (Split r sep) as [|y ys] eqn:E; [by apply Split_nonempty in E|].
    change (Join ("" :: y :: ys) (String sep ""))
      with ("" +:+ String sep "" +:+ Join (y :: ys) (String sep "")).
    by rewrite IH.
  - destruct (Split r sep) as [|y ys] eqn:E; [by apply Split_nonempty in E|].
    by rewrite Join_cons_head, IH.
Qed.

Lemma Split_no_sep s sep : ContainsByte s sep = false → Split s sep = [s].
Proof.
  induction s as [|c r IH]; [done|]. simpl.
  intros [Hc Hr]%orb_false_elim. rewrite Hc. by rewrite IH.
Qed.

Lemma Split_app_sep a b sep :
  ContainsByte a sep = false →
  Split (a +:+ String sep b) sep = a :: Split b sep.
Proof.
  induction a as [|c r IH]; simpl.
  - intros _. rewrite ?append_nil_l. simpl. by rewrite Ascii.eqb_refl.
  - intros [Hc Hr]%orb_false_elim. rewrite ?append_cons. simpl.
    rewrite Hc. by rewrite IH.
Qed.

(** No piece of a split holds the separator. *)
Lemma Split_pieces s sep :
  Forall (λ part, ContainsByte part sep = false) (Split s sep).
Proof.
  induction s as [|c r IH]; simpl; [by repeat constructor|].
  destruct (Ascii.eqb c sep) eqn:Hc; [by constructor|].
  destruct (Split r sep) as [|y ys];
    [constructor; [simpl; by rewrite Hc|constructor]|].
  apply Forall_cons in IH as [Hy Hys]. constructor; [|done].
  simpl. by rewrite Hc, Hy.
Qed.

Lemma ident_char_no_dot s :
  all_bytes ident_char s = true → ContainsByte s "." = false.
Proof.
  induction s as [|c r IH]; [done|]. simpl.
  intros [Hc Hr]%andb_prop. rewrite (IH Hr), orb_false_r.
  destruct (Ascii.eqb_spec c "."); [by subst|done].
Qed.

Lemma skip_ident_chars_all s :
  all_bytes ident_char s = true → skip_ident_chars s = "".
Proof.
  induction s as [|c r IH]; [done|]. simpl.
  intros [Hc Hr]%andb_prop. by rewrite Hc, IH.
Qed.

Lemma skip_ident_chars_app s t :
  all_bytes ident_char s = true →
  skip_ident_chars (s +:+ t) = skip_ident_chars t.
Proof.
  induction s as [|c r IH]; [done|]. simpl.
  intros [Hc Hr]%andb_prop. rewrite ?append_cons. simpl. by rewrite Hc, IH.
Qed.

Lemma skip_ident_chars_head s c r :
  skip_ident_chars s = String c r → ident_char c = false.
Proof.
  induction s as [|b s IH]; [done|]. simpl.
  destruct (ident_char b) eqn:Hb; [done|]. by intros [= -> _].
Qed.

(** The shape of a name without a dot. *)
Lemma plain_ident_inv s :
  plain_ident s = true →
  ∃ c r, s = String c r ∧ ident_start c = true
         ∧ all_bytes ident_char r = true ∧ String.length s ≤ 128.
Proof.
  destruct s as [|c r]; [done|]. unfold plain_ident.
  intros [[Hc Hr]%andb_prop Hl%bool_decide_eq_true]%andb_prop.
  by exists c, r.
Qed.

Lemma plain_ident_all s :
  plain_ident s = true → all_bytes ident_char s = true.
Proof.
  intros (c & r & -> & Hc & Hr & _)%plain_ident_inv. simpl.
  by rewrite (ident_start_char c Hc), Hr.
Qed.

(** A name without a dot is a valid identifier. *)
Lemma plain_ident_valid s : plain_ident s = true → ValidateIdentifier s = None.
Proof.
  intros (c & r & -> & Hc & Hr & Hl)%plain_ident_inv.
  unfold ValidateIdentifier.
  destruct (decide (String c r = "")); [done|].
  destruct (decide (128 < String.length (String c r))); [lia|].
  unfold identifierRegex_MatchString, skip_ident. rewrite Hc.
  by rewrite (skip_ident_chars_all r Hr).
Qed.

(** A valid identifier is one name without a dot, or two joined by a
    dot. *)
Lemma ValidateIdentifier_inv s :
  ValidateIdentifier s = None →
  plain_ident s = true
  ∨ ∃ a b, s = a +:+ String "." b ∧ plain_ident a = true
           ∧ plain_ident b = true.
Proof.
  unfold ValidateIdentifier.
  destruct (decide (s = "")); [done|].
  destruct (decide (128 < String.length s)) as [|Hl]; [done|].
  destruct (identifierRegex_MatchString s) eqn:Hm; [|done]. intros _.
  unfold identifierRegex_MatchString, skip_ident in Hm.
  destruct s as [|c r]; [done|].
  destruct (ident_start c) eqn:Hc; [|done].
  destruct (skip_ident_chars_split r) as (pre & Hr & Hpre).
  destruct (skip_ident_chars r) as [|d t] eqn:Hrest.
  - left. rewrite append_nil_r in Hr. subst pre. unfold plain_ident.
    rewrite Hc, Hpre. simpl. apply bool_decide_eq_true. simpl in Hl. lia.
  - apply andb_prop in Hm as [Hd Ht]. apply Ascii.eqb_eq in Hd. subst d.
    destruct t as [|c2 r2]; [done|].
    destruct (ident_start c2) eqn:Hc2; [|done].
    destruct (skip_ident_chars r2) eqn:Hr2; [|done].
    destruct (skip_ident_chars_split r2) as (pre2 & Hr2' & Hpre2).
    rewrite Hr2, append_nil_r in Hr2'. subst pre2.
    right. exists (String c pre), (String c2 r2).
    assert (String.length (String c r)
            = String.length (String c pre) + 1
              + String.length (String c2 r2)) as Hlen.
    { rewrite Hr. simpl. rewrite length_append. simpl. lia. }
    split; [by rewrite append_cons, <- Hr|].
    unfold plain_ident. rewrite Hc, Hpre, Hc2, Hpre2. simpl.
    split; apply bool_decide_eq_true; simpl in *; lia.
Qed.

Lemma plain_ident_no_dot s :
  plain_ident s = true → ContainsByte s "." = false.
Proof. intros H%plain_ident_all. by apply ident_char_no_dot. Qed.

(** A valid identifier without a dot is a plain name. *)
Lemma ValidateIdentifier_plain s :
  ValidateIdentifier s = None → ContainsByte s "." = false →
  plain_ident s = true.
Proof.
  intros [H|(a & b & -> & _ & _)]%ValidateIdentifier_inv Hd; [done|].
  exfalso. revert Hd. clear. induction a as [|c a IH]; simpl.
  - by rewrite ?append_nil_l.
  - rewrite ?append_cons. simpl. intros [_ H]%orb_false_elim. by apply IH.
Qed.


(** X1. [SplitTableColumn] takes a column reference apart and loses nothing:
    what it returns joins back to the reference, the column is a name
    without a dot and so is the table unless it is empty; it accepts one
    name, two names joined by a dot, and so every reference
    [ValidateColumn] accepts. *)
Theorem SplitTableColumn_round_trip :
  (∀ ref t c,
     SplitTableColumn ref = (t, c, None) →
     ref = (if decide (t = "") then c else t +:+ "." +:+ c)
     ∧ plain_ident c = true
     ∧ (t = "" ∨ plain_ident t = true))
  ∧ (∀ c, plain_ident c = true → SplitTableColumn c = ("", c, None))
  ∧ (∀ t c,
       plain_ident t = true → plain_ident c = true →
       SplitTableColumn (t +:+ "." +:+ c) = (t, c, None))
  ∧ (∀ ref, ValidateColumn ref = None → (SplitTableColumn ref).2 = None).
Proof.
  assert (Hone : ∀ c, plain_ident c = true →
                      SplitTableColumn c = ("", c, None)).
  { intros c Hc. unfold SplitTableColumn.
    rewrite (Split_no_sep c "." (plain_ident_no_dot c Hc)).
    by rewrite (plain_ident_valid c Hc). }
  assert (Htwo : ∀ t c, plain_ident t = true → plain_ident c = true →
                        SplitTableColumn (t +:+ "." +:+ c) = (t, c, None)).
  { intros t c Ht Hc. unfold SplitTableColumn.
    change (t +:+ "." +:+ c) with (t +:+ String "." c).
    rewrite (Split_app_sep t c "." (plain_ident_no_dot t Ht)).
    rewrite (Split_no_sep c "." (plain_ident_no_dot c Hc)).
    by rewrite (plain_ident_valid t Ht), (plain_ident_valid c Hc). }
  split; [|split; [done|split; [done|]]].
  - intros ref t c. unfold SplitTableColumn.
    pose proof (Join_Split ref ".") as Hj.
    pose proof (Split_pieces ref ".") as Hp.
    destruct (Split ref ".") as [|p0 [|p1 [|p2 ps]]]; [done| | |done].
    + apply Forall_cons in Hp as [Hp0 _].
      destruct (ValidateIdentifier p0) eqn:H0; [done|]. intros [= <- <-].
      simpl in Hj. subst p0. split; [done|].
      split; [by apply ValidateIdentifier_plain|by left].
    + apply Forall_cons in Hp as [Hp0 Hp]. apply Forall_cons in Hp as [Hp1 _].
      destruct (ValidateIdentifier p0) eqn:H0; [done|].
      destruct (ValidateIdentifier p1) eqn:H1; [done|]. intros [= <- <-].
      pose proof (ValidateIdentifier_plain p0 H0 Hp0) as Hplain0.
      destruct (decide (p0 = "")) as [->|_]; [done|].
      split; [by rewrite <- Hj|].
      split; [by apply ValidateIdentifier_plain|by right].
  - intros ref. unfold ValidateColumn.
    intros [H|(a & b & -> & Ha & Hb)]%ValidateIdentifier_inv.
    + by rewrite (Hone ref H).
    + change (a +:+ String "." b) with (a +:+ "." +:+ b).
      by rewrite (Htwo a b Ha Hb).
Qed.

Lemma SplitTableColumn_round_trip_witness :
  SplitTableColumn "users.name" = ("users", "name", None)
  ∧ "users.name" = "users" +:+ "." +:+ "name"
  ∧ SplitTableColumn "name" = ("", "name", None).
Proof.
  destruct SplitTableColumn_round_trip as (_ & Hone & Htwo & _).
  split; [by apply (Htwo "users" "name")|].
  split; [reflexivity|by apply (Hone "name")].
Defined.

End column_references.

(** ** Quoting names (Wrap, WrapTable) *)

Section quoting.

Lemma unquote_app s t : unquote (s +:+ t) = unquote s +:+ unquote t.
Proof.
  induction s as [|c s IH]; [done|]. rewrite append_cons. simpl.
  destruct (Ascii.eqb c "`"); [done|]. by rewrite append_cons, IH.
Qed.

Lemma unquote_clean s : ContainsByte s "`" = false → unquote s = s.
Proof.
  induction s as [|c s IH]; [done|]. simpl.
  intros [-> Hs]%orb_false_elim. by rewrite IH.
Qed.

Lemma ident_byte_no_quote s :
  all_bytes ident_byte s = true → ContainsByte s "`" = false.
Proof.
  induction s as [|c r IH]; [done|]. simpl.
  intros [Hc Hr]%andb_prop. rewrite (IH Hr), orb_false_r.
  destruct (Ascii.eqb_spec c "`"); [by subst|done].
Qed.

Lemma unquote_quote s :
  ContainsByte s "`" = false → unquote ("`" +:+ s +:+ "`") = s.
Proof.
  intros Hs. rewrite !unquote_app, (unquote_clean s Hs).
  change (unquote "`") with "". by rewrite append_nil_r.
Qed.

Lemma unquote_Join_quote parts :
  Forall (λ part, ContainsByte part "`" = false) parts →
  unquote (Join ((λ part, "`" +:+ part +:+ "`") <$> parts) ".")
  = Join parts ".".
Proof.
  induction 1 as [|p ps Hp Hps IH]; [done|].
  destruct ps as [|q qs]; [by apply unquote_quote|].
  change (Join (p :: q :: qs) ".") with (p +:+ "." +:+ Join (q :: qs) ".").
  rewrite <- IH. cbn [fmap list_fmap].
  change (Join (?x :: ?y :: ?l) ".") with (x +:+ "." +:+ Join (y :: l) ".").
  rewrite (unquote_app (_ +:+ _ +:+ _)), (unquote_app ".").
  rewrite (unquote_quote p Hp). done.
Qed.

Lemma ContainsByte_Split_pieces s c sep :
  ContainsByte s c = false →
  Forall (λ part, ContainsByte part c = false) (Split s sep).
Proof.
  induction s as [|b r IH]; simpl; [by repeat constructor|].
  intros [Hb Hr]%orb_false_elim. specialize (IH Hr).
  destruct (Ascii.eqb b sep); [by constructor|].
  destruct (Split r sep) as [|y ys];
    [constructor; [simpl; by rewrite Hb|constructor]|].
  apply Forall_cons in IH as [Hy Hys]. constructor; [|done].
  simpl. by rewrite Hb, Hy.
Qed.

(** Taking the backquotes away from a wrapped name gives the name back. *)
Lemma Wrap_unquote id w : Wrap id = (w, None) → unquote w = id.
Proof.
  unfold Wrap. case_decide as Hstar; [by intros [= <-]; subst|].
  destruct (ValidateIdentifier id) eqn:Hv; [done|].
  pose proof (ident_byte_no_quote id (ValidateIdentifier_bytes id Hv)) as Hq.
  destruct (Contains id "."); intros [= <-].
  - rewrite unquote_Join_quote by by apply ContainsByte_Split_pieces.
    apply (Join_Split id ".").
  - by apply unquote_quote.
Qed.


Lemma Contains_byte s c : Contains s (String c "") = ContainsByte s c.
Proof.
  induction s as [|b r IH]; [done|]. simpl. rewrite IH.
  rewrite (Ascii.eqb_sym c b). destruct (Ascii.eqb b c); [|done].
  by destruct r.
Qed.

Lemma ContainsByte_app s t c :
  ContainsByte (s +:+ t) c = ContainsByte s c || ContainsByte t c.
Proof.
  induction s as [|b s IH]; [done|]. rewrite append_cons. simpl.
  by rewrite IH, orb_assoc.
Qed.

(** What [Wrap] returns for each shape of identifier. *)
Lemma Wrap_plain id :
  plain_ident id = true → Wrap id = ("`" +:+ id +:+ "`", None).
Proof.
  intros Hp. unfold Wrap.
  destruct (decide (id = "*")) as [->|_]; [done|].
  rewrite (plain_ident_valid id Hp).
  change "." with (String "."%char "").
  by rewrite Contains_byte, (plain_ident_no_dot id Hp).
Qed.

Lemma Wrap_qualified t c :
  plain_ident t = true → plain_ident c = true →
  String.length (t +:+ "." +:+ c) ≤ 128 →
  Wrap (t +:+ "." +:+ c) = ("`" +:+ t +:+ "`.`" +:+ c +:+ "`", None).
Proof.
  intros Ht Hc Hl. unfold Wrap.
  assert (ValidateIdentifier (t +:+ "." +:+ c) = None) as Hv.
  { unfold ValidateIdentifier.
    destruct (plain_ident_inv t Ht) as (a & r & -> & Ha & Hr & _).
    destruct (plain_ident_inv c Hc) as (a2 & r2 & -> & Ha2 & Hr2 & _).
    destruct (decide (_ = "")) as [|_]; [done|].
    destruct (decide (128 < _)); [lia|].
    unfold identifierRegex_MatchString, skip_ident.
    rewrite append_cons, Ha.
    rewrite (skip_ident_chars_app r _ Hr). simpl. rewrite Ha2.
    by rewrite (skip_ident_chars_all r2 Hr2). }
  rewrite Hv.
  destruct (decide (_ = "*")) as [Heq|_].
  { exfalso. destruct t as [|a [|b t]]; by destruct c. }
  replace (Contains (t +:+ "." +:+ c) ".") with true.
  2:{ change "." with (String "."%char "") at 2.
      rewrite Contains_byte, ContainsByte_app. simpl.
      by rewrite orb_true_r. }
  change (t +:+ "." +:+ c) with (t +:+ String "." c).
  rewrite (Split_app_sep t c "." (plain_ident_no_dot t Ht)).
  rewrite (Split_no_sep c "." (plain_ident_no_dot c Hc)).
  cbn [fmap list_fmap Join]. f_equal.
  by rewrite !append_assoc.
Qed.

(** X2. [Wrap] loses nothing and confuses no two identifiers: taking the
    backquotes away from what it returns gives the identifier back, so two
    identifiers wrapped to the same text are the same; and what it returns
    is the star, the name between backquotes, or the two names of a
    qualified name each between backquotes. *)
Theorem Wrap_round_trip (id w : string) :
  Wrap id = (w, None) →
  unquote w = id
  ∧ (∀ id', Wrap id' = (w, None) → id' = id)
  ∧ (id = "*" ∧ w = "*"
     ∨ plain_ident id = true ∧ w = "`" +:+ id +:+ "`"
     ∨ ∃ t c, id = t +:+ "." +:+ c ∧ plain_ident t = true
              ∧ plain_ident c = true
              ∧ w = "`" +:+ t +:+ "`.`" +:+ c +:+ "`").
Proof.
  intros H. pose proof (Wrap_unquote id w H) as Hu.
  split; [done|]. split.
  { intros id' H'. apply Wrap_unquote in H'. congruence. }
  destruct (decide (id = "*")) as [->|Hstar].
  { left. split; [done|]. by injection H as <-. }
  right. assert (ValidateIdentifier id = None) as Hv.
  { unfold Wrap in H. destruct (decide (id = "*")); [done|].
    by destruct (ValidateIdentifier id). }
  destruct (ValidateIdentifier_inv id Hv) as [Hp|(t & c & -> & Ht & Hc)].
  - left. split; [done|]. rewrite (Wrap_plain id Hp) in H. by injection H.
  - right. exists t, c.
    change (t +:+ String "." c) with (t +:+ "." +:+ c) in *.
    split; [done|]. split; [done|]. split; [done|].
    rewrite Wrap_qualified in H; [by injection H|done|done|].
    unfold ValidateIdentifier in Hv.
    destruct (decide (_ = "")); [done|].
    destruct (decide (128 < _)); [done|lia].
Qed.

Lemma Wrap_round_trip_witness :
  unquote "`users`.`name`" = "users.name"
  ∧ (∀ id', Wrap id' = ("`users`.`name`", None) → id' = "users.name").
Proof.
  destruct (Wrap_round_trip "users.name" "`users`.`name`") as (H1 & H2 & _);
    [by vm_compute|].
  by split.
Defined.

End quoting.

(** ** Table references (ValidateTableWithAlias, WrapTable) *)

Section table_references.

Lemma span_ident_chars_i_stop c t :
  stops c → span_ident_chars_i (String c t) = ("", String c t).
Proof.
  intros (Hc & H1 & H2). simpl. rewrite Hc.
  destruct t as [|c2 r2]; [done|]. rewrite H1. simpl.
  destruct r2 as [|c3 r3]; [done|]. by rewrite H2.
Qed.

Lemma span_ident_chars_i_app m t :
  all_bytes ident_char m = true →
  span_ident_chars_i (m +:+ t)
  = ((m +:+ (span_ident_chars_i t).1), (span_ident_chars_i t).2).
Proof.
  induction m as [|c m IH]; intros Hm.
  - rewrite !append_nil_l. by destruct (span_ident_chars_i t).
  - simpl in Hm. apply andb_prop in Hm as [Hc Hm].
    rewrite ?append_cons. simpl. rewrite Hc, (IH Hm).
    by rewrite ?append_cons.
Qed.

Lemma span_ident_chars_i_all m :
  all_bytes ident_char m = true → span_ident_chars_i m = (m, "").
Proof.
  intros Hm. rewrite <- (append_nil_r m) at 1.
  rewrite (span_ident_chars_i_app m "" Hm). simpl. by rewrite append_nil_r.
Qed.

(** The first name of a table reference, up to a byte at which names
    stop. *)
Lemma span_ident_i_name name c t :
  plain_ident name = true → stops c →
  span_ident_i (name +:+ String c t) = Some (name, String c t).
Proof.
  intros (a & r & -> & Ha & Hr & _)%plain_ident_inv Hc.
  rewrite ?append_cons. unfold span_ident_i. rewrite Ha.
  rewrite (span_ident_chars_i_app r _ Hr).
  rewrite (span_ident_chars_i_stop c t Hc). simpl.
  by rewrite append_nil_r.
Qed.

Lemma span_ident_i_all name :
  plain_ident name = true → span_ident_i name = Some (name, "").
Proof.
  intros (a & r & -> & Ha & Hr & _)%plain_ident_inv.
  unfold span_ident_i. rewrite Ha.
  by rewrite (span_ident_chars_i_all r Hr).
Qed.

Lemma ident_i_to_end_plain name :
  plain_ident name = true → ident_i_to_end name = Some name.
Proof.
  intros H. unfold ident_i_to_end. by rewrite (span_ident_i_all name H).
Qed.

Lemma regex_space_stops c : regex_space c = true → stops c.
Proof.
  intros H.
  assert (N_of_ascii c ∈ [9; 10; 12; 13; 32]%N) as Hin.
  { unfold regex_space in H.
    destruct (N_of_ascii c) as [|p]; [done|].
    repeat (destruct p as [p|p|]; try done); set_solver. }
  rewrite <- (ascii_N_embedding c).
  repeat (apply elem_of_cons in Hin as [->|Hin]; [by vm_compute|]).
  by apply elem_of_nil in Hin.
Qed.

Lemma ident_char_not_space c : ident_char c = true → regex_space c = false.
Proof.
  intros H. destruct (regex_space c) eqn:Hs; [|done].
  apply regex_space_stops in Hs as [Hs _]. congruence.
Qed.

Lemma skip_regex_spaces_app ws t :
  all_bytes regex_space ws = true →
  skip_regex_spaces (ws +:+ t) = skip_regex_spaces t.
Proof.
  induction ws as [|c ws IH]; [done|]. simpl.
  intros [Hc Hws]%andb_prop. rewrite ?append_cons. simpl.
  by rewrite Hc, IH.
Qed.

(** White space before a name: what is left after it is the name. *)
Lemma skip_spaces1_blank ws c t :
  blank ws = true → regex_space c = false →
  skip_spaces1 (ws +:+ String c t) = Some (String c t).
Proof.
  destruct ws as [|b ws]; [done|]. unfold blank. simpl.
  intros [Hb Hws]%andb_prop Hc. rewrite ?append_cons. simpl. rewrite Hb.
  rewrite (skip_regex_spaces_app ws _ Hws). simpl. by rewrite Hc.
Qed.

Lemma skip_spaces1_ident t :
  all_bytes ident_char t = true → skip_spaces1 t = None.
Proof.
  destruct t as [|c t]; [done|]. simpl. intros [Hc _]%andb_prop.
  by rewrite (ident_char_not_space c Hc).
Qed.

Lemma blank_head ws :
  blank ws = true → ∃ c t, ws = String c t ∧ regex_space c = true.
Proof.
  destruct ws as [|c t]; [done|]. unfold blank. simpl.
  intros [Hc _]%andb_prop. by exists c, t.
Qed.

(** A name does not start with the optional [as] followed by white
    space. *)
Lemma skip_as_i_plain alias :
  all_bytes ident_char alias = true →
  match skip_as_i alias with
  | Some t => skip_spaces1 t = None
  | None => True
  end.
Proof.
  intros Ha. unfold skip_as_i.
  destruct alias as [|a [|b r]]; [done..|].
  simpl in Ha. apply andb_prop in Ha as [Ha Hr].
  apply andb_prop in Hr as [Hb Hr].
  destruct (Ascii.eqb a "a" || Ascii.eqb a "A"); [|done].
  destruct (Ascii.eqb b "s" || Ascii.eqb b "S").
  - by apply skip_spaces1_ident.
  - destruct r as [|b2 r']; [done|].
    destruct (Ascii.eqb b "197" && Ascii.eqb b2 "191") eqn:E; [|done].
    apply andb_prop in E as [E _]. apply Ascii.eqb_eq in E. by subst b.
Qed.

(** The white space of the pattern and then a name. *)
Lemma aliasRegex_two_names name ws alias :
  plain_ident name = true → blank ws = true → plain_ident alias = true →
  aliasRegex_FindStringSubmatch (name +:+ ws +:+ alias) = Some (name, alias).
Proof.
  intros Hn Hws Ha. unfold aliasRegex_FindStringSubmatch.
  destruct (blank_head ws Hws) as (c & t & -> & Hc).
  rewrite ?append_cons.
  rewrite (span_ident_i_name name c _ Hn (regex_space_stops c Hc)).
  rewrite <- append_cons.
  destruct (plain_ident_inv alias Ha) as (a & r & Ealias & Hstart & Hr & _).
  rewrite Ealias at 1.
  rewrite skip_spaces1_blank;
    [|done|by apply ident_char_not_space, ident_start_char].
  rewrite <- Ealias.
  pose proof (skip_as_i_plain alias (plain_ident_all alias Ha)) as Has.
  destruct (skip_as_i alias) as [t3|]; [rewrite Has|];
    by rewrite (ident_i_to_end_plain alias Ha).
Qed.

(** A name, white space, [as] in either case, white space, a name. *)
Lemma aliasRegex_as name ws kw ws' alias :
  plain_ident name = true → blank ws = true →
  kw ∈ ["as"; "AS"; "As"; "aS"] →
  blank ws' = true → plain_ident alias = true →
  aliasRegex_FindStringSubmatch (name +:+ ws +:+ kw +:+ ws' +:+ alias)
  = Some (name, alias).
Proof.
  intros Hn Hws Hkw Hws' Ha. unfold aliasRegex_FindStringSubmatch.
  destruct (blank_head ws Hws) as (c & t & -> & Hc).
  rewrite ?append_cons.
  rewrite (span_ident_i_name name c _ Hn (regex_space_stops c Hc)).
  rewrite <- append_cons.
  destruct (plain_ident_inv alias Ha) as (a & r & Ealias & Hstart & Hr & _).
  assert (skip_spaces1 (ws' +:+ alias) = Some alias) as Hsp.
  { rewrite Ealias.
    by apply skip_spaces1_blank;
      [|apply ident_char_not_space, ident_start_char]. }
  assert (∀ a b,
            (Ascii.eqb a "a" || Ascii.eqb a "A") = true →
            (Ascii.eqb b "s" || Ascii.eqb b "S") = true →
            match skip_spaces1 (String c t +:+ String a (String b (ws' +:+ alias))) with
            | None => None
            | Some t2 =>
                match
                  match skip_as_i t2 with
                  | None => None
                  | Some t3 =>
                      match skip_spaces1 t3 with
                      | None => None
                      | Some t4 => ident_i_to_end t4
                      end
                  end
                with
                | Some alias0 => Some (name, alias0)
                | None =>
                    match ident_i_to_end t2 with
                    | Some alias0 => Some (name, alias0)
                    | None => None
                    end
                end
            end = Some (name, alias)) as Hgo.
  { intros a0 b0 Ha0 Hb0.
    rewrite skip_spaces1_blank; [|done|].
    2:{ apply orb_prop in Ha0 as [->%Ascii.eqb_eq| ->%Ascii.eqb_eq]; done. }
    unfold skip_as_i. rewrite Ha0, Hb0.
    by rewrite Hsp, (ident_i_to_end_plain alias Ha). }
  repeat (apply elem_of_cons in Hkw as [->|Hkw]);
    [..|by apply elem_of_nil in Hkw]; by apply Hgo.
Qed.


Lemma plain_ident_nonempty s : plain_ident s = true → s ≠ "".
Proof. by destruct s. Qed.

Lemma append_nonempty_l (s t : string) : s ≠ "" → s +:+ t ≠ "".
Proof. by destruct s. Qed.

Lemma WrapTable_of s name alias :
  ValidateTableWithAlias s = (name, alias, None) → alias ≠ "" →
  WrapTable s = ("`" +:+ name +:+ "` AS `" +:+ alias +:+ "`", None).
Proof.
  intros H Ha. unfold WrapTable. rewrite H.
  destruct (decide (alias ≠ "")); [|done]. by rewrite !append_assoc.
Qed.

Lemma ValidateTableWithAlias_of s name alias :
  s ≠ "" → aliasRegex_FindStringSubmatch s = Some (name, alias) →
  plain_ident name = true → plain_ident alias = true →
  ValidateTableWithAlias s = (name, alias, None).
Proof.
  intros Hs Hm Hn Ha. unfold ValidateTableWithAlias.
  destruct (decide (s = "")); [done|]. rewrite Hm.
  by rewrite (plain_ident_valid name Hn), (plain_ident_valid alias Ha).
Qed.

(** X3. The three ways to write a table with an alias are one: a name,
    white space and a name, with or without [as] (in either case) and white
    space between them, are validated to the same pair and wrapped to the
    same text. *)
Theorem table_alias_forms (name ws kw ws' alias : string) :
  plain_ident name = true →
  plain_ident alias = true →
  blank ws = true →
  blank ws' = true →
  kw ∈ ["as"; "AS"; "As"; "aS"] →
  ValidateTableWithAlias (name +:+ ws +:+ alias) = (name, alias, None)
  ∧ ValidateTableWithAlias (name +:+ ws +:+ kw +:+ ws' +:+ alias)
    = (name, alias, None)
  ∧ WrapTable (name +:+ ws +:+ alias)
    = ("`" +:+ name +:+ "` AS `" +:+ alias +:+ "`", None)
  ∧ WrapTable (name +:+ ws +:+ kw +:+ ws' +:+ alias)
    = ("`" +:+ name +:+ "` AS `" +:+ alias +:+ "`", None).
Proof.
  intros Hn Ha Hws Hws' Hkw.
  assert (ValidateTableWithAlias (name +:+ ws +:+ alias)
          = (name, alias, None)) as H1.
  { apply ValidateTableWithAlias_of; [|by apply aliasRegex_two_names|done..].
    by apply append_nonempty_l, plain_ident_nonempty. }
  assert (ValidateTableWithAlias (name +:+ ws +:+ kw +:+ ws' +:+ alias)
          = (name, alias, None)) as H2.
  { apply ValidateTableWithAlias_of; [|by apply aliasRegex_as|done..].
    by apply append_nonempty_l, plain_ident_nonempty. }
  split; [done|]. split; [done|].
  split; apply WrapTable_of; try done; by apply plain_ident_nonempty.
Qed.

Lemma table_alias_forms_witness :
  WrapTable "users u" = ("`users` AS `u`", None)
  ∧ WrapTable "users  AS u" = ("`users` AS `u`", None).
Proof.
  destruct (table_alias_forms "users" "  " "AS" " " "u")
    as (_ & _ & _ & HAS); [done..|set_solver|].
  destruct (table_alias_forms "users" " " "as" " " "u")
    as (_ & _ & Hplain & _); [done..|set_solver|].
  split; [exact Hplain|exact HAS].
Defined.

(** The alias pattern matches no valid identifier. *)
Lemma aliasRegex_identifier id :
  ValidateIdentifier id = None → aliasRegex_FindStringSubmatch id = None.
Proof.
  intros [Hp|(a & b & -> & Ha & Hb)]%ValidateIdentifier_inv;
    unfold aliasRegex_FindStringSubmatch.
  - by rewrite (span_ident_i_all id Hp).
  - by rewrite (span_ident_i_name a "." b Ha).
Qed.

Lemma Count_quote s :
  all_bytes ident_byte s = true → Count ("`" +:+ s +:+ "`") "`" = 2.
Proof.
  intros Hs. rewrite !Count_app.
  by rewrite (Count_all_bytes ident_byte s "`" Hs).
Qed.

Lemma blank_not_ident ws t :
  blank ws = true → all_bytes ident_byte (ws +:+ t) = false.
Proof.
  intros (c & r & -> & Hc)%blank_head. rewrite append_cons. simpl.
  replace (ident_byte c) with false; [done|].
  symmetry. unfold ident_byte.
  destruct (regex_space_stops c Hc) as (-> & _). simpl.
  destruct (Ascii.eqb_spec c "."); [by subst|done].
Qed.

(** X4. [WrapTable] does not take a qualified name apart: every valid
    identifier goes between one pair of backquotes, the dot of
    [schema.table] included, where [Wrap] quotes the two names one by one;
    and a qualified name followed by an alias is no table reference. *)
Theorem WrapTable_keeps_a_qualified_name_whole (id : string) :
  ValidateIdentifier id = None →
  ValidateTableWithAlias id = (id, "", None)
  ∧ WrapTable id = ("`" +:+ id +:+ "`", None)
  ∧ (ContainsByte id "." = true →
     (Wrap id).1 ≠ (WrapTable id).1
     ∧ ∀ ws alias, blank ws = true →
         ∃ e, WrapTable (id +:+ ws +:+ alias) = ("", Some e)).
Proof.
  intros Hv.
  assert (id ≠ "") as Hne.
  { intros ->. by vm_compute in Hv. }
  assert (ValidateTableWithAlias id = (id, "", None)) as Ht.
  { unfold ValidateTableWithAlias. destruct (decide (id = "")); [done|].
    by rewrite (aliasRegex_identifier id Hv), Hv. }
  split; [done|].
  assert (WrapTable id = ("`" +:+ id +:+ "`", None)) as Hw.
  { unfold WrapTable. rewrite Ht. by destruct (decide ("" ≠ "")). }
  split; [done|]. intros Hdot. rewrite Hw. split.
  - destruct (ValidateIdentifier_inv id Hv) as [Hp|(a & b & -> & Ha & Hb)].
    { by rewrite (plain_ident_no_dot id Hp) in Hdot. }
    change (a +:+ String "." b) with (a +:+ "." +:+ b) in *.
    rewrite Wrap_qualified; [|done|done|].
    2:{ unfold ValidateIdentifier in Hv.
        destruct (decide (_ = "")); [done|].
        destruct (decide (128 < _)); [done|lia]. }
    simpl. intros Heq. apply (f_equal (λ s, Count s "`")) in Heq.
    rewrite (Count_quote _ (ValidateIdentifier_bytes _ Hv)) in Heq.
    rewrite !Count_app in Heq.
    pose proof (plain_ident_all a Ha) as Ha'.
    pose proof (plain_ident_all b Hb) as Hb'.
    rewrite (Count_all_bytes ident_char a "`" Ha') in Heq by done.
    rewrite (Count_all_bytes ident_char b "`" Hb') in Heq by done.
    by vm_compute in Heq.
  - intros ws alias Hws.
    destruct (WrapTable (id +:+ ws +:+ alias)) as [w [e|]] eqn:E.
    { exists e. by rewrite (WrapTable_error _ _ _ E). }
    exfalso. unfold WrapTable in E.
    destruct (ValidateTableWithAlias (id +:+ ws +:+ alias))
      as [[name al] [e|]] eqn:Ev; [done|]. clear E.
    unfold ValidateTableWithAlias in Ev.
    destruct (decide (_ = "")); [done|].
    destruct (ValidateIdentifier_inv id Hv) as [Hp|(a & b & -> & Ha & Hb)].
    { by rewrite (plain_ident_no_dot id Hp) in Hdot. }
    rewrite (append_assoc a (String "." b)), (append_cons "." b) in Ev.
    unfold aliasRegex_FindStringSubmatch in Ev.
    rewrite (span_ident_i_name a "." _ Ha) in Ev by done.
    cbn [skip_spaces1 regex_space] in Ev. simpl in Ev.
    destruct (ValidateIdentifier _) eqn:Hbad in Ev; [done|].
    apply ValidateIdentifier_bytes in Hbad.
    rewrite all_bytes_app in Hbad. apply andb_prop in Hbad as [_ Hbad].
    simpl in Hbad. rewrite all_bytes_app in Hbad.
    apply andb_prop in Hbad as [_ Hbad].
    by rewrite (blank_not_ident ws alias Hws) in Hbad.
Qed.

Lemma WrapTable_keeps_a_qualified_name_whole_witness :
  WrapTable "shop.users" = ("`shop.users`", None)
  ∧ Wrap "shop.users" = ("`shop`.`users`", None)
  ∧ ∃ e, WrapTable "shop.users u" = ("", Some e).
Proof.
  destruct (WrapTable_keeps_a_qualified_name_whole "shop.users")
    as (_ & Hw & Hdot); [by vm_compute|].
  destruct (Hdot eq_refl) as [_ Halias].
  split; [exact Hw|]. split; [by vm_compute|].
  by apply (Halias " " "u").
Defined.

End table_references.

(** ** Operators (NormalizeOperator, the classifiers, AllowedOperators) *)

Section operators.









End operators.

(** ** Which predicates compile, and with which errors *)

Section well_formed_predicates.














End well_formed_predicates.

(** ** What the statements bind, share and ignore *)

Section statements.

Lemma wheresBlock_args kw ws sql args sql' args' :
  wheresBlock kw ws sql args = (sql', args', None) →
  args' = args ++ flat_map bound_values ws.
Proof.
  unfold wheresBlock. case_decide as Hl.
  - destruct (compileWheres ws) as [[s a] [e|]] eqn:E; [done|].
    intros [= _ <-]. by rewrite (compileWheres_args ws s a E).
  - intros [= _ <-]. destruct ws; [|simpl in Hl; lia].
    by rewrite app_nil_r.
Qed.

(** X9. The arguments of a SELECT are the values its WHERE list binds, in
    the order of the list, and then those its HAVING list binds. *)
Theorem select_binds_where_then_having
    (b : QueryBuilder) (sql : string) (args : list any) :
  CompileSelect b = (sql, Some args, None) →
  args = flat_map bound_values (GetWheres b)
         ++ flat_map bound_values (GetHaving b).
Proof.
  intros H. unfold CompileSelect in H. each_return H. simplify_eq.
  repeat match goal with
  | E : wheresBlock _ _ _ _ = (_, _, None) |- _ =>
      apply wheresBlock_args in E
  end.
  by subst.
Qed.

Lemma select_binds_where_then_having_witness :
  [AnyInt 1; AnyInt 18]
  = flat_map bound_values (GetWheres (sample.query "users"
        [sample.basic WhereBooleanAnd "a" (AnyInt 1);
         sample.raw "age > ?" [AnyInt 18]]))
    ++ flat_map bound_values (GetHaving (sample.query "users"
        [sample.basic WhereBooleanAnd "a" (AnyInt 1);
         sample.raw "age > ?" [AnyInt 18]])).
Proof.
  apply (select_binds_where_then_having _
           "SELECT * FROM `users` WHERE `a` = ? AND age > ?").
  by vm_compute.
Defined.

Lemma updateSet_ok (data : gmap string any) (keys : list string) :
  ∀ i args parts args',
    updateSet data i keys args = (parts, args', None) →
    parts = (λ key, (Wrap key).1 +:+ " = ?") <$> keys
    ∧ args' = args ++ (map_get data <$> keys).
Proof.
  induction keys as [|key keys IH]; intros i args parts args'; simpl.
  - intros [= <- <-]. by rewrite app_nil_r.
  - destruct (Wrap key) as [w [e|]]; [done|].
    destruct (updateSet data (S i) keys _) as [[ps a] [e|]] eqn:E; [done|].
    intros [= <- <-]. apply IH in E as [-> ->].
    by rewrite <- app_assoc.
Qed.

(** X10. An UPDATE does not depend on the order in which the map is visited:
    its SET list names the keys in increasing order, each with one
    placeholder, and its arguments are the values of those keys in that
    order, followed by the values the WHERE list binds. *)
Theorem update_sets_sorted_keys_then_where
    (ranged ranged' : list string) (b : QueryBuilder)
    (data : gmap string any) :
  ranged ≡ₚ map_keys data →
  ranged' ≡ₚ map_keys data →
  let keys := sort.Strings (map_keys data) in
  CompileUpdate ranged' b data = CompileUpdate ranged b data
  ∧ ∀ sql args,
      CompileUpdate ranged b data = (sql, Some args, None) →
      args = (map_get data <$> keys) ++ flat_map bound_values (GetWheres b)
      ∧ ∃ whereSQL,
          sql = "UPDATE " +:+ (WrapTable (GetTable b)).1 +:+ " SET "
                +:+ Join ((λ key, (Wrap key).1 +:+ " = ?") <$> keys) ", "
                +:+ whereSQL
          ∧ wheresBlock " WHERE " (GetWheres b) "" []
            = (whereSQL, flat_map bound_values (GetWheres b), None).
Proof.
  intros Hr Hr' keys. split.
  { unfold CompileUpdate.
    by rewrite (sort_Strings_perm ranged' ranged) by (by rewrite Hr, Hr'). }
  intros sql args H. unfold CompileUpdate in H.
  rewrite (sort_Strings_perm ranged (map_keys data) Hr) in H. fold keys in H.
  each_return H. simplify_eq.
  match goal with
  | E : updateSet _ _ _ _ = _ |- _ => apply updateSet_ok in E as [-> ->]
  end.
  match goal with
  | E : wheresBlock _ _ _ _ = _ |- _ =>
      pose proof (wheresBlock_args _ _ _ _ _ _ E) as ->; rename E into Ew
  end.
  split; [done|]. cbn [fst].
  unfold wheresBlock in *. case_decide.
  - destruct (compileWheres (GetWheres b)) as [[ws' a] [e|]] eqn:Ec; [done|].
    injection Ew as <-. exists (" WHERE " +:+ ws').
    split; [by rewrite ?append_assoc|].
    by rewrite (compileWheres_args _ _ _ Ec).
  - injection Ew as <-. exists "".
    split; [by rewrite append_nil_r, ?append_assoc|].
    destruct (GetWheres b); [done|]. simpl in *. lia.
Qed.

Lemma update_sets_sorted_keys_then_where_witness :
  CompileUpdate ["email"; "name"]
    (sample.query "users" [sample.basic WhereBooleanAnd "id" (AnyInt 7)])
    sample.john
  = CompileUpdate ["name"; "email"]
      (sample.query "users" [sample.basic WhereBooleanAnd "id" (AnyInt 7)])
      sample.john
  ∧ [AnyString "j@x.com"; AnyString "John"; AnyInt 7]
    = (map_get sample.john <$> sort.Strings (map_keys sample.john))
      ++ flat_map bound_values
           [sample.basic WhereBooleanAnd "id" (AnyInt 7)].
Proof.
  assert (["name"; "email"] ≡ₚ map_keys sample.john) as Hp.
  { vm_compute. apply perm_swap. }
  destruct (update_sets_sorted_keys_then_where
              ["name"; "email"] ["email"; "name"]
              (sample.query "users"
                 [sample.basic WhereBooleanAnd "id" (AnyInt 7)])
              sample.john Hp (reflexivity _)) as [Hsame Hform].
  split; [exact Hsame|].
  destruct (Hform "UPDATE `users` SET `email` = ?, `name` = ? WHERE `id` = ?"
              [AnyString "j@x.com"; AnyString "John"; AnyInt 7])
    as [Hargs _]; [by vm_compute|exact Hargs].
Defined.


Lemma forEach_upsertPart cols parts :
  forEach upsertPart cols = (parts, None) →
  Forall wraps cols
  ∧ parts = (λ col, (Wrap col).1 +:+ " = VALUES(" +:+ (Wrap col).1 +:+ ")")
            <$> cols.
Proof.
  intros [-> H]%forEach_inv. split.
  - eapply Forall_impl; [done|]. intros col. unfold upsertPart, wraps.
    by destruct (Wrap col) as [w [e|]].
  - apply Forall_fmap_ext. eapply Forall_impl; [done|].
    intros col. unfold upsertPart. by destruct (Wrap col) as [w [e|]].
Qed.

(** X11. An upsert is the INSERT with a suffix: it fails when the INSERT
    fails, binds the arguments of the INSERT and no other, and appends
    [col = VALUES(col)] for each column to update; with no column given it
    updates every key of the data, in increasing order. *)
Theorem upsert_extends_insert
    (ranged ranged' : list string) (b : QueryBuilder)
    (data : gmap string any) (cols : list string) :
  ranged' ≡ₚ map_keys data →
  CompileUpsert ranged ranged' b data []
  = CompileUpsert ranged ranged' b data (sort.Strings (map_keys data))
  ∧ ((CompileInsert ranged b data).2 ≠ None →
     CompileUpsert ranged ranged' b data cols = CompileInsert ranged b data)
  ∧ ∀ sql args,
      CompileUpsert ranged ranged' b data cols = (sql, args, None) →
      let updated :=
        if decide (cols = []) then sort.Strings (map_keys data) else cols in
      Forall wraps updated
      ∧ ∃ insertSQL,
          CompileInsert ranged b data = (insertSQL, args, None)
          ∧ sql = insertSQL +:+ " ON DUPLICATE KEY UPDATE "
                  +:+ Join ((λ col, (Wrap col).1 +:+ " = VALUES("
                                    +:+ (Wrap col).1 +:+ ")") <$> updated)
                        ", ".
Proof.
  intros Hr. split; [|split].
  - unfold CompileUpsert.
    destruct (CompileInsert ranged b data) as [[s a] [e|]]; [done|].
    rewrite (sort_Strings_perm ranged' (map_keys data) Hr).
    by repeat case_decide.
  - intros Hfail. unfold CompileUpsert.
    destruct (CompileInsert ranged b data) as [[s a] [e|]] eqn:E; [|done].
    by destruct (compile_error_empty (StmtInsert ranged b data) s a e E)
      as [-> ->].
  - intros sql args H updated. unfold CompileUpsert in H.
    destruct (CompileInsert ranged b data) as [[s a] [e|]]; [done|].
    rewrite (sort_Strings_perm ranged' (map_keys data) Hr) in H.
    assert ((if decide (length cols = 0)
             then sort.Strings (map_keys data) else cols) = updated) as Hu.
    { unfold updated. destruct cols; by repeat case_decide. }
    rewrite Hu in H.
    destruct (forEach upsertPart updated) as [parts [e|]] eqn:E; [done|].
    injection H as <- <-.
    apply forEach_upsertPart in E as [Hw ->].
    split; [done|]. exists s. split; [done|]. by rewrite ?append_assoc.
Qed.

Lemma upsert_extends_insert_witness :
  CompileUpsert ["name"; "email"] ["email"; "name"]
    (sample.query "users" []) sample.john []
  = CompileUpsert ["name"; "email"] ["email"; "name"]
      (sample.query "users" []) sample.john ["email"; "name"]
  ∧ CompileUpsert ["name"; "email"] ["email"; "name"]
      (sample.query "users" []) sample.john []
    = ("INSERT INTO `users` (`email`, `name`) VALUES (?, ?) ON DUPLICATE KEY UPDATE `email` = VALUES(`email`), `name` = VALUES(`name`)",
       Some [AnyString "j@x.com"; AnyString "John"], None).
Proof.
  assert (["email"; "name"] ≡ₚ map_keys sample.john) as Hp by by vm_compute.
  destruct (upsert_extends_insert ["name"; "email"] ["email"; "name"]
              (sample.query "users" []) sample.john [] Hp) as [Hsame _].
  split; [|by vm_compute]. rewrite Hsame. by vm_compute.
Defined.

Lemma wheresBlock_acc kw ws sql args :
  wheresBlock kw ws sql args
  = match wheresBlock kw ws "" [] with
    | (_, Some e) => ("", [], Some e)
    | (s, a, None) => (sql +:+ s, args ++ a, None)
    end.
Proof.
  unfold wheresBlock. case_decide.
  - by destruct (compileWheres ws) as [[s a] [e|]].
  - by rewrite append_nil_r, app_nil_r.
Qed.

(** X12. DELETE, EXISTS and COUNT(star) go to the rows that SELECT star goes
    to over the table and the WHERE list of the builder: they take the text
    after FROM and the arguments of that SELECT as they are, and fail when
    it fails, with its error. Nothing else of the builder (columns, joins,
    grouping, orders, limit, offset) is read. *)
Theorem delete_exists_count_follow_select (b : QueryBuilder) :
  match CompileSelect (table_and_wheres b) with
  | (sql, args, None) =>
      ∃ rest,
        sql = "SELECT * FROM " +:+ rest
        ∧ CompileDelete b = ("DELETE FROM " +:+ rest, args, None)
        ∧ CompileExists b
          = ("SELECT EXISTS(SELECT 1 FROM " +:+ rest +:+ " LIMIT 1)",
             args, None)
        ∧ CompileCount b "" = ("SELECT COUNT(*) FROM " +:+ rest, args, None)
  | (_, _, Some e) =>
      CompileDelete b = ("", None, Some e)
      ∧ CompileExists b = ("", None, Some e)
      ∧ CompileCount b "" = ("", None, Some e)
  end.
Proof.
  unfold CompileSelect, CompileDelete, CompileExists, CompileCount,
    table_and_wheres, countExpr.
  cbn [GetTable GetColumns IsDistinct GetWheres GetOrders GetJoins
       GetGroupBy GetHaving GetLimit GetOffset].
  destruct (decide (GetTable b = "")); [done|].
  destruct (decide ("" ≠ "")); [done|].
  cbn [columnsBlock joinsLoop groupByBlock ordersBlock limitBlock length
       decide]. cbv beta iota zeta.
  change (columnsBlock [] "SELECT ") with ("SELECT " +:+ "*", @None error).
  cbv beta iota zeta.
  destruct (WrapTable (GetTable b)) as [t [e|]]; [done|].
  cbv beta iota zeta.
  rewrite (wheresBlock_acc " WHERE " (GetWheres b)
             (("SELECT " +:+ "*") +:+ " FROM " +:+ t) []).
  rewrite (wheresBlock_acc " WHERE " (GetWheres b) ("DELETE FROM " +:+ t) []).
  rewrite (wheresBlock_acc " WHERE " (GetWheres b)
             ("SELECT EXISTS(SELECT 1 FROM " +:+ t) []).
  rewrite (wheresBlock_acc " WHERE " (GetWheres b)
             ("SELECT " +:+ "COUNT(*)" +:+ " FROM " +:+ t) []).
  destruct (wheresBlock " WHERE " (GetWheres b) "" []) as [[s a] [e|]];
    [done|].
  cbv beta iota zeta. unfold wheresBlock, groupByBlock, ordersBlock.
  cbn [length decide]. cbv beta iota zeta.
  exists (t +:+ s).
  split; [by rewrite ?append_assoc|].
  split; [by rewrite ?append_assoc|].
  split; by rewrite ?append_assoc.
Qed.


Lemma joinsLoop_alias (joinAlias : JoinClause → string) joins : ∀ sql,
  joinsLoop ((λ j, mkJoinClause (JoinType_ j) (Table j) (joinAlias j)
                     (First j) (JoinOperator j) (Second j)) <$> joins) sql
  = joinsLoop joins sql.
Proof.
  induction joins as [|j joins IH]; intros sql; [done|].
  cbn [fmap list_fmap joinsLoop].
  change (compileJoin (mkJoinClause _ _ _ _ _ _)) with (compileJoin j).
  destruct (compileJoin j) as [x [e|]]; [done|]. apply IH.
Qed.

(** X13. No statement reads the alias of the builder ([TableAs]) or the alias
    of a join: whatever they are, every compile method returns the same
    triple. The only alias that reaches the SQL is one written inside the
    table name. *)
Theorem aliases_are_never_emitted
    (stmt : Statement) (tableAlias : string)
    (joinAlias : JoinClause → string) :
  compile (map_builder (with_aliases tableAlias joinAlias) stmt)
  = compile stmt.
Proof.
  destruct stmt; try reflexivity.
  cbn [map_builder compile]. unfold CompileSelect, with_aliases.
  cbn [GetTable GetColumns IsDistinct GetWheres GetOrders GetJoins
       GetGroupBy GetHaving GetLimit GetOffset].
  destruct (decide (GetTable b = "")); [done|].
  destruct (columnsBlock _ _) as [sql [e|]]; [done|].
  destruct (WrapTable _) as [t [e|]]; [done|].
  cbv beta iota zeta. by rewrite joinsLoop_alias.
Qed.

Lemma forEach_error {A} (g : A → string * option error) (f : A → A) xs :
  (∀ x, (g (f x)).2 = (g x).2) →
  (forEach g (f <$> xs)).2 = (forEach g xs).2.
Proof.
  intros Hg. induction xs as [|x xs IH]; [done|].
  cbn [fmap list_fmap forEach]. specialize (Hg x).
  change (list_fmap A A f xs) with (f <$> xs).
  destruct (g (f x)) as [y [e|]], (g x) as [y' [e'|]]; simpl in Hg;
    simplify_eq; [done|]. cbv beta iota.
  destruct (forEach g (f <$> xs)) as [ys [e|]],
    (forEach g xs) as [ys' [e'|]]; simpl in IH; by simplify_eq.
Qed.

Lemma orderPart_direction direction o :
  (orderPart (mkOrderClause (OrderColumn o) (direction o) (OrderRaw o))).2
  = (orderPart o).2.
Proof.
  unfold orderPart. cbn [OrderRaw OrderColumn Direction].
  case_decide; [done|]. by destruct (Wrap (OrderColumn o)) as [w [e|]].
Qed.

Lemma ordersBlock_direction direction orders sql :
  (ordersBlock ((λ o, mkOrderClause (OrderColumn o) (direction o)
                        (OrderRaw o)) <$> orders) sql).2
  = (ordersBlock orders sql).2.
Proof.
  unfold ordersBlock. rewrite length_fmap. case_decide; [|done].
  pose proof (forEach_error orderPart
                (λ o, mkOrderClause (OrderColumn o) (direction o)
                        (OrderRaw o)) orders
                (orderPart_direction direction)) as Hd.
  by destruct (forEach orderPart (_ <$> orders)) as [ys [e|]],
    (forEach orderPart orders) as [ys' [e'|]].
Qed.

(** X14. The direction of an order is never checked: whatever the directions
    are, valid ([OrderDirection.IsValid]) or not, a SELECT fails or succeeds
    as before, with the same error; an order without raw text compiles to
    its wrapped column, a space and the direction as it is. *)
Theorem order_direction_is_never_checked
    (b : QueryBuilder) (direction : OrderClause → OrderDirection)
    (o : OrderClause) :
  OrderRaw o = "" →
  wraps (OrderColumn o) →
  (CompileSelect (with_directions direction b)).2 = (CompileSelect b).2
  ∧ orderPart o = ((Wrap (OrderColumn o)).1 +:+ " " +:+ Direction o, None).
Proof.
  intros Hraw Hcol. split.
  - unfold CompileSelect, with_directions.
    cbn [GetTable GetColumns IsDistinct GetWheres GetOrders GetJoins
         GetGroupBy GetHaving GetLimit GetOffset].
    destruct (decide (GetTable b = "")); [done|].
    destruct (columnsBlock _ _) as [sql [e|]]; [done|].
    destruct (WrapTable _) as [t [e|]]; [done|]. cbv beta iota zeta.
    destruct (joinsLoop _ _) as [sql1 [e|]]; [done|].
    destruct (wheresBlock _ _ _ _) as [[sql2 a2] [e|]]; [done|].
    destruct (groupByBlock _ _) as [sql3 [e|]]; [done|].
    destruct (wheresBlock _ _ _ _) as [[sql4 a4] [e|]]; [done|].
    pose proof (ordersBlock_direction direction (GetOrders b) sql4) as H.
    by destruct (ordersBlock (_ <$> GetOrders b) sql4) as [x [e|]],
      (ordersBlock (GetOrders b) sql4) as [x' [e'|]].
  - unfold orderPart. rewrite Hraw. destruct (decide ("" ≠ "")); [done|].
    unfold wraps in Hcol. by destruct (Wrap (OrderColumn o)) as [w [e|]].
Qed.

Lemma order_direction_is_never_checked_witness :
  OrderDirection_IsValid "ASC, (SELECT 1)" = false
  ∧ orderPart (mkOrderClause "name" "ASC, (SELECT 1)" "")
    = ("`name` ASC, (SELECT 1)", None).
Proof.
  split; [reflexivity|].
  destruct (order_direction_is_never_checked
              (sample.query "users" []) (λ _, "ASC")
              (mkOrderClause "name" "ASC, (SELECT 1)" ""))
    as [_ H]; [reflexivity|by vm_compute|].
  rewrite H. by vm_compute.
Defined.

End statements.

(** ** A batch of one row *)

Section single_row_batch.

Lemma insertColumns_forEach (data : gmap string any) keys : ∀ args,
  insertColumns data keys args
  = match forEach Wrap keys with
    | (_, Some e) => ([], [], Some e)
    | (wrapped, None) => (wrapped, args ++ (map_get data <$> keys), None)
    end.
Proof.
  induction keys as [|key keys IH]; intros args; simpl.
  - by rewrite app_nil_r.
  - destruct (Wrap key) as [w [e|]]; [done|]. rewrite IH.
    destruct (forEach Wrap keys) as [ws [e|]]; [done|].
    by rewrite <- app_assoc.
Qed.

(** X15. A batch of one row is the INSERT of that row: the same SQL string,
    the same arguments, and on a bad table, an empty row or a bad column
    name the same error. *)
Theorem batch_of_one_row_is_insert
    (ranged : list string) (b : QueryBuilder) (row : gmap string any) :
  ranged ≡ₚ map_keys row →
  CompileInsertBatch ranged b [row] = CompileInsert ranged b row.
Proof.
  intros Hr. unfold CompileInsertBatch, CompileInsert.
  destruct (decide (GetTable b = "")); [done|].
  destruct (decide (size row = 0)); [done|].
  destruct (WrapTable (GetTable b)) as [t [e|]]; [done|].
  cbv beta iota zeta. rewrite insertColumns_forEach.
  destruct (forEach Wrap (sort.Strings ranged)) as [ws [e|]]; [done|].
  cbv beta iota zeta.
  assert (consistent (sort.Strings ranged) row) as Hc.
  { split.
    - by rewrite sort_Strings_Permutation, Hr, length_map_keys.
    - apply Forall_forall. intros k Hk.
      rewrite sort_Strings_Permutation, Hr in Hk.
      by apply elem_of_map_keys. }
  rewrite (batchRows_ok (sort.Strings ranged) [row]) by by constructor.
  cbv beta iota zeta. rewrite placeholders_const.
  cbn [fmap list_fmap Join concat]. unfold tuple.
  by rewrite app_nil_r, ?append_assoc.
Qed.

Lemma batch_of_one_row_is_insert_witness :
  CompileInsertBatch ["name"; "email"] (sample.query "users" []) [sample.john]
  = ("INSERT INTO `users` (`email`, `name`) VALUES (?, ?)",
     Some [AnyString "j@x.com"; AnyString "John"], None).
Proof.
  rewrite (batch_of_one_row_is_insert ["name"; "email"]).
  - by vm_compute.
  - vm_compute. apply perm_swap.
Defined.

End single_row_batch.

(** ** Fluent chains: what the methods of the builder write *)

Section fluent_chains.
Import fluentsql.

Variable grow : nat → nat → nat.

Lemma call_nested_ind (P : call → Prop) :
  (∀ c, (∀ fn, match c with
               | CallWhereNested fn' | CallOrWhereNested fn'
               | CallWhen _ fn' | CallUnless _ fn' => fn = fn'
               | _ => False
               end → Forall P fn) → P c) →
  ∀ c, P c.
Proof.
  intros Hstep. fix IH 1. intros c. apply Hstep. intros fn Hfn.
  destruct c; try done; subst fn;
    match goal with
    | |- Forall P ?l => induction l; constructor; [apply IH|assumption]
    end.
Qed.

Lemma fresh_not_in (h : Heap) : fresh (dom h) ∉ dom h.
Proof. apply is_fresh. Qed.

(** *** Frames *)

Lemma frames_refl h b : frames h b h b.
Proof. split; [done|]. split; [done|]. intros l Hl. by left. Qed.

Lemma frames_trans h b h1 b1 h2 b2 :
  frames h b h1 b1 → frames h1 b1 h2 b2 → frames h b h2 b2.
Proof.
  intros (D1 & K1 & T1) (D2 & K2 & T2). split; [by etrans|]. split.
  - intros l Hl Ht. rewrite <- (K1 l Hl Ht). apply K2.
    + by apply D1.
    + intros Hin. by destruct (T1 l Hin).
  - intros l Hl. destruct (T2 l Hl) as [Hin|Hout].
    + by apply T1.
    + right. intros Hin. apply Hout. by apply D1.
Qed.

(** A step that changes nothing of the store and none of the lists. *)
Lemma frames_same_lists h b b' : lists b' = lists b → frames h b h b'.
Proof.
  intros Hl. split; [done|]. split; [done|].
  intros l Hin. left. unfold top in *. by rewrite <- Hl.
Qed.

Lemma elem_of_top l b :
  l ∈ top b ↔ Some l ∈ array <$> lists b.
Proof.
  unfold top. rewrite elem_of_list_to_set, list_elem_of_omap.
  rewrite list_elem_of_fmap. split.
  - intros (s & Hs & Ha). by exists s.
  - intros (s & Ha & Hs). by exists s.
Qed.

(** What [append] does to the store. *)
Lemma append_store zero (h : Heap) s xs :
  let h' := (append grow zero h s xs).1 in
  let s' := (append grow zero h s xs).2 in
  dom h ⊆ dom h'
  ∧ (∀ l, l ∈ dom h → array s ≠ Some l → h' !! l = h !! l)
  ∧ (array s' = array s ∨ ∃ l, array s' = Some l ∧ l ∉ dom h).
Proof.
  unfold append. case_decide.
  - destruct (array s) as [l|] eqn:Ea; [|by split; [|split; [|left]]].
    destruct (h !! l) as [[arr|n]|] eqn:El;
      [|by split; [|split; [|left]]..].
    cbn [fst snd array]. split; [|split; [|by left]].
    + rewrite dom_insert. apply union_subseteq_r.
    + intros l' _ Hne. apply lookup_insert_ne. congruence.
  - cbn [fst snd array]. split; [|split].
    + rewrite dom_insert. apply union_subseteq_r.
    + intros l' Hl' _. apply lookup_insert_ne. intros <-.
      by apply (fresh_not_in h).
    + right. eexists. split; [done|]. apply fresh_not_in.
Qed.


(** A step that only adds locations to the store. *)
Lemma frames_extend (h h' : Heap) b b' :
  h ⊆ h' → (∀ l, l ∈ top b' → l ∈ top b ∨ l ∉ dom h) → frames h b h' b'.
Proof.
  intros Hsub Ht. split; [by apply subseteq_dom|]. split; [|done].
  intros l [x Hx]%elem_of_dom _. rewrite Hx. by eapply lookup_weaken.
Qed.

Lemma insert_fresh_subseteq (h : Heap) x : h ⊆ <[fresh (dom h) := x]> h.
Proof. apply insert_subseteq, not_elem_of_dom, fresh_not_in. Qed.

(** Closes a goal on the members of the lists of a builder. *)
Ltac in_lists :=
  unfold lists;
  cbn [columns wheres orders joins groupBy having with_table with_distinct
       with_columns with_wheres with_orders with_joins with_groupBy
       with_having with_limit with_offset];
  rewrite ?elem_of_cons, ?elem_of_nil; tauto.

(** Appending to one of the lists of a builder. *)
Lemma frames_append zero (h : Heap) b b' s xs :
  s ∈ lists b →
  (∀ s0, s0 ∈ lists b' → s0 = (append grow zero h s xs).2 ∨ s0 ∈ lists b) →
  frames h b (append grow zero h s xs).1 b'.
Proof.
  intros Hs Hb'. destruct (append_store zero h s xs) as (D & K & T).
  split; [done|]. split.
  - intros l Hl Ht. apply K; [done|]. intros Ha. apply Ht.
    apply elem_of_top, list_elem_of_fmap. by exists s.
  - intros l (s0 & Ha & Hs0)%elem_of_top%list_elem_of_fmap.
    destruct (Hb' s0 Hs0) as [->|Hin].
    + destruct T as [T|(l' & T & Hl')].
      * left. apply elem_of_top, list_elem_of_fmap. exists s.
        split; [congruence|done].
      * right. rewrite T in Ha. by injection Ha as ->.
    + left. apply elem_of_top, list_elem_of_fmap. by exists s0.
Qed.

Lemma frames_appendWhere h b w :
  frames h b (appendWhere grow h b w).1 (appendWhere grow h b w).2.
Proof.
  unfold appendWhere.
  destruct (append grow zeroWhere h (wheres b) [EWhere w]) as [h' s'] eqn:E.
  pose proof (frames_append zeroWhere h b (with_wheres b s') (wheres b)
                [EWhere w]) as H.
  rewrite E in H. apply H; [in_lists|]. intros s0. in_lists.
Qed.

Lemma frames_appendHaving h b w :
  frames h b (appendHaving grow h b w).1 (appendHaving grow h b w).2.
Proof.
  unfold appendHaving.
  destruct (append grow zeroWhere h (having b) [EWhere w]) as [h' s'] eqn:E.
  pose proof (frames_append zeroWhere h b (with_having b s') (having b)
                [EWhere w]) as H.
  rewrite E in H. apply H; [in_lists|]. intros s0. in_lists.
Qed.

Lemma frames_appendJoin h b j :
  frames h b (appendJoin grow h b j).1 (appendJoin grow h b j).2.
Proof.
  unfold appendJoin.
  destruct (append grow zeroJoin h (joins b) [EJoin j]) as [h' s'] eqn:E.
  pose proof (frames_append zeroJoin h b (with_joins b s') (joins b)
                [EJoin j]) as H.
  rewrite E in H. apply H; [in_lists|]. intros s0. in_lists.
Qed.

Lemma frames_appendOrder h b o :
  frames h b (appendOrder grow h b o).1 (appendOrder grow h b o).2.
Proof.
  unfold appendOrder.
  destruct (append grow zeroOrder h (orders b) [EOrder o]) as [h' s'] eqn:E.
  pose proof (frames_append zeroOrder h b (with_orders b s') (orders b)
                [EOrder o]) as H.
  rewrite E in H. apply H; [in_lists|]. intros s0. in_lists.
Qed.

Lemma frames_columns h b xs :
  let r := append grow (EString "") h (columns b) xs in
  frames h b r.1 (with_columns b r.2).
Proof.
  intros r. apply frames_append; [in_lists|]. intros s0. in_lists.
Qed.

Lemma frames_groupBy h b xs :
  let r := append grow (EString "") h (groupBy b) xs in
  frames h b r.1 (with_groupBy b r.2).
Proof.
  intros r. apply frames_append; [in_lists|]. intros s0. in_lists.
Qed.

(** A literal and then an append to the WHERE list. *)
Lemma frames_literal_where h b xs w :
  frames h b (appendWhere grow (literal h xs).1 b w).1
    (appendWhere grow (literal h xs).1 b w).2.
Proof.
  eapply frames_trans; [|apply frames_appendWhere].
  apply frames_extend; [apply insert_fresh_subseteq|]. intros l Hl. by left.
Qed.

Lemma frames_Limit h b n : frames h b (Limit h b n).1 (Limit h b n).2.
Proof.
  unfold Limit, addressOf. cbn [fst snd].
  apply frames_extend; [apply insert_fresh_subseteq|]. intros l Hl. by left.
Qed.

Lemma frames_Offset h b n : frames h b (Offset h b n).1 (Offset h b n).2.
Proof.
  unfold Offset, addressOf. cbn [fst snd].
  apply frames_extend; [apply insert_fresh_subseteq|]. intros l Hl. by left.
Qed.

(** Six new arrays: what [NewBuilder] and [Reset] allocate. *)
Lemma six_arrays (h : Heap) :
  let '(h1, s1) := make h (EString "") 0 in
  let '(h2, s2) := make h1 zeroWhere 0 in
  let '(h3, s3) := make h2 zeroOrder 0 in
  let '(h4, s4) := make h3 zeroJoin 0 in
  let '(h5, s5) := make h4 (EString "") 0 in
  let '(h6, s6) := make h5 zeroWhere 0 in
  h ⊆ h6
  ∧ Forall (λ s, ∃ l, array s = Some l ∧ l ∉ dom h) [s1; s2; s3; s4; s5; s6].
Proof.
  unfold make.
  set (h1 := <[fresh (dom h) := _]> h).
  set (h2 := <[fresh (dom h1) := _]> h1).
  set (h3 := <[fresh (dom h2) := _]> h2).
  set (h4 := <[fresh (dom h3) := _]> h3).
  set (h5 := <[fresh (dom h4) := _]> h4).
  set (h6 := <[fresh (dom h5) := _]> h5).
  assert (h ⊆ h1) as S1 by apply insert_fresh_subseteq.
  assert (h ⊆ h2) as S2 by (etrans; [done|apply insert_fresh_subseteq]).
  assert (h ⊆ h3) as S3 by (etrans; [done|apply insert_fresh_subseteq]).
  assert (h ⊆ h4) as S4 by (etrans; [done|apply insert_fresh_subseteq]).
  assert (h ⊆ h5) as S5 by (etrans; [done|apply insert_fresh_subseteq]).
  assert (h ⊆ h6) as S6 by (etrans; [done|apply insert_fresh_subseteq]).
  split; [done|].
  repeat (apply Forall_cons; split;
          [eexists; split; [reflexivity|]; cbn [array];
           first [apply fresh_not_in
                 |intros Hin;
                  eapply fresh_not_in, subseteq_dom; [|exact Hin]; done]|]).
  apply Forall_nil_2.
Qed.


(** What [NewBuilder] and [Reset] return: the lists of the builder are six
    new arrays. *)
Lemma NewBuilder_store (h : Heap) e g sc :
  h ⊆ (NewBuilder h e g sc).1
  ∧ ∀ l, l ∈ top (NewBuilder h e g sc).2 → l ∉ dom h.
Proof.
  pose proof (six_arrays h) as H. unfold NewBuilder.
  destruct (make h (EString "") 0) as [h1 s1].
  destruct (make h1 zeroWhere 0) as [h2 s2].
  destruct (make h2 zeroOrder 0) as [h3 s3].
  destruct (make h3 zeroJoin 0) as [h4 s4].
  destruct (make h4 (EString "") 0) as [h5 s5].
  destruct (make h5 zeroWhere 0) as [h6 s6].
  destruct H as [Hsub Hf]. split; [done|].
  intros l (s & Ha & Hs)%elem_of_top%list_elem_of_fmap.
  rewrite Forall_forall in Hf. destruct (Hf s Hs) as (l' & El' & Hl').
  congruence.
Qed.

Lemma frames_Reset h b : frames h b (Reset h b).1 (Reset h b).2.
Proof.
  destruct (NewBuilder_store h (executor b) (grammar b) (scanner b))
    as [Hsub Hf].
  apply frames_extend; [done|]. intros l Hl. right. by apply Hf.
Qed.

(** A callback on a new builder, and then a call on [b]. *)
Lemma frames_callback h b h1 nb h2 nb' h3 b3 :
  h ⊆ h1 → (∀ l, l ∈ top nb → l ∉ dom h) →
  frames h1 nb h2 nb' → frames h2 b h3 b3 → frames h b h3 b3.
Proof.
  intros Hsub Hnb (D1 & K1 & T1) (D2 & K2 & T2).
  pose proof (subseteq_dom _ _ Hsub) as D0.
  split; [by do 2 (etrans; [|done])|]. split.
  - intros l Hl Ht.
    rewrite K2; [|by apply D1, D0|done].
    rewrite K1; [|by apply D0|by intros ?%Hnb].
    apply elem_of_dom in Hl as [x Hx]. rewrite Hx.
    by eapply lookup_weaken.
  - intros l Hl. destruct (T2 l Hl) as [Hin|Hout]; [by left|].
    right. intros Hin. by apply Hout, D1, D0.
Qed.

Lemma frames_WhereNested h b fn boolean :
  (∀ h0 b0, frames h0 b0 (fn h0 b0).1 (fn h0 b0).2) →
  let '(h1, nested) := NewBuilder h (executor b) (grammar b) (scanner b) in
  let '(h2, nested') := fn h1 nested in
  let w := mkWhereClauseM WhereTypeNested boolean "" "" AnyNil nil_slice
             (wheres nested') "" nil_slice in
  frames h b (appendWhere grow h2 b w).1 (appendWhere grow h2 b w).2.
Proof.
  intros Hfn.
  destruct (NewBuilder_store h (executor b) (grammar b) (scanner b))
    as [Hsub Hf].
  destruct (NewBuilder h (executor b) (grammar b) (scanner b))
    as [h1 nested].
  specialize (Hfn h1 nested). destruct (fn h1 nested) as [h2 nested'].
  intros w. eapply frames_callback; [exact Hsub|exact Hf|exact Hfn|].
  apply frames_appendWhere.
Qed.

Lemma frames_run_with fn :
  Forall (λ c, ∀ h b, frames h b (run_call grow c h b).1
                        (run_call grow c h b).2) fn →
  ∀ h b, frames h b (run_with (run_call grow) fn h b).1
           (run_with (run_call grow) fn h b).2.
Proof.
  induction 1 as [|c fn Hc _ IH]; intros h b; [apply frames_refl|].
  cbn [run_with]. specialize (Hc h b).
  destruct (run_call grow c h b) as [h1 b1].
  eapply frames_trans; [exact Hc|apply IH].
Qed.

Lemma frames_run_call c h b :
  frames h b (run_call grow c h b).1 (run_call grow c h b).2.
Proof.
  revert h b. induction c as [c IH] using call_nested_ind. intros h b.
  destruct c; cbn [run_call];
    unfold Where, OrWhere, WhereIn, WhereNotIn, OrWhereIn, OrWhereNotIn,
      WhereNull, WhereNotNull, OrWhereNull, OrWhereNotNull, WhereLike,
      WhereNotLike, WhereRaw, OrWhereRaw, WhereDate, WhereYear, WhereMonth,
      WhereDay, Having, HavingRaw, Latest, Oldest, OrderByAsc, OrderByDesc,
      OrderBy, OrderByRaw, Join, LeftJoin, RightJoin, CrossJoin, Take, Skip,
      From, Table, TableAs, Distinct;
    try first [apply frames_appendWhere | apply frames_appendHaving
              |apply frames_appendJoin | apply frames_appendOrder
              |apply frames_Limit | apply frames_Offset | apply frames_Reset
              |by apply frames_same_lists].
  - unfold Select.
    pose proof (frames_columns h b (EString <$> columns0)) as H.
    cbv zeta in H. by destruct (append _ _ _ _ _).
  - unfold SelectRaw.
    pose proof (frames_columns h b [EString expr]) as H.
    cbv zeta in H. by destruct (append _ _ _ _ _).
  - unfold WhereBetween.
    pose proof (frames_literal_where h b [EAny min; EAny max]) as H.
    destruct (literal _ _). apply H.
  - unfold WhereNotBetween.
    pose proof (frames_literal_where h b [EAny min; EAny max]) as H.
    destruct (literal _ _). apply H.
  - unfold WhereNested.
    pose proof (frames_WhereNested h b (run_with (run_call grow) fn)
                  WhereBooleanAnd) as H.
    destruct (NewBuilder _ _ _ _). destruct (run_with _ _ _ _).
    apply H. apply frames_run_with, IH. done.
  - unfold OrWhereNested.
    pose proof (frames_WhereNested h b (run_with (run_call grow) fn)
                  WhereBooleanOr) as H.
    destruct (NewBuilder _ _ _ _). destruct (run_with _ _ _ _).
    apply H. apply frames_run_with, IH. done.
  - unfold GroupBy.
    pose proof (frames_groupBy h b (EString <$> columns0)) as H.
    cbv zeta in H. by destruct (append _ _ _ _ _).
  - unfold ForPage. cbv zeta.
    pose proof (frames_Limit h b perPage) as H.
    destruct (Limit h b perPage) as [h1 b1].
    eapply frames_trans; [exact H|apply frames_Offset].
  - unfold When. destruct condition; [|apply frames_refl].
    apply frames_run_with, IH. done.
  - unfold Unless, When. destruct condition; [apply frames_refl|].
    apply frames_run_with, IH. done.
Qed.


(** *** Well-formed builders *)

Lemma valid_dom (h : Heap) s l : valid h s → array s = Some l → l ∈ dom h.
Proof.
  unfold valid. intros Hv Ha. rewrite Ha in Hv.
  destruct Hv as (xs & Hl & _). apply elem_of_dom. by eexists.
Qed.

(** A slice is what it was where its array is. *)
Lemma valid_agree (h h' : Heap) s :
  (∀ l, array s = Some l → h' !! l = h !! l) →
  valid h s → valid h' s ∧ elems h' s = elems h s.
Proof.
  unfold valid, elems. destruct (array s) as [l|]; [|done].
  intros Heq Hv. by rewrite (Heq l eq_refl).
Qed.

(** [append] on a slice of the store: the elements, and then the new
    ones. *)
Lemma append_elems zero (h : Heap) s xs :
  valid h s →
  valid (append grow zero h s xs).1 (append grow zero h s xs).2
  ∧ elems (append grow zero h s xs).1 (append grow zero h s xs).2
    = elems h s ++ xs.
Proof.
  unfold append, valid, elems, cap. destruct (array s) as [l|] eqn:Ea.
  - intros (arr & Hl & Hlen). rewrite Hl. case_decide as Hn.
    + cbn [fst snd array len]. rewrite lookup_insert_eq. split.
      * eexists. split; [done|].
        rewrite !length_app, length_take, length_drop. lia.
      * rewrite app_assoc. apply take_app_length'.
        rewrite length_app, length_take. lia.
    + cbn [fst snd array len]. rewrite lookup_insert_eq. split.
      * eexists. split; [done|].
        rewrite !length_app, length_take, length_replicate. lia.
      * rewrite app_assoc. apply take_app_length'.
        rewrite length_app, length_take. lia.
  - intros Hlen. case_decide as Hn.
    + cbn [fst snd]. rewrite Ea. split; [done|].
      destruct xs; [done|]. cbn [length] in Hn. lia.
    + cbn [fst snd array len]. rewrite lookup_insert_eq. split.
      * eexists. split; [done|].
        rewrite !length_app, length_replicate. cbn [length]. lia.
      * cbn [app]. apply take_app_length'. lia.
Qed.

(** [append] on a slice leaves the slices of other arrays as they are. *)
Lemma append_other zero (h : Heap) s xs s0 :
  valid h s0 → (∀ l, array s0 = Some l → array s ≠ Some l) →
  valid (append grow zero h s xs).1 s0
  ∧ elems (append grow zero h s xs).1 s0 = elems h s0.
Proof.
  intros Hv Hne. destruct (append_store zero h s xs) as (_ & K & _).
  apply valid_agree; [|done]. intros l Hl.
  apply K; [by eapply valid_dom|by apply Hne].
Qed.

Lemma omap_array_cons s (ls : list slice) :
  omap array (s :: ls)
  = match array s with Some l => l :: omap array ls | None => omap array ls end.
Proof. done. Qed.

(** [append] on one of the lists of a well-formed builder. *)
Lemma append_lists zero (h : Heap) s xs pre post :
  Forall (valid h) (pre ++ s :: post) →
  NoDup (omap array (pre ++ s :: post)) →
  Forall (valid (append grow zero h s xs).1)
    (pre ++ (append grow zero h s xs).2 :: post)
  ∧ NoDup (omap array (pre ++ (append grow zero h s xs).2 :: post))
  ∧ elems (append grow zero h s xs).1
    <$> (pre ++ (append grow zero h s xs).2 :: post)
    = (elems h <$> pre) ++ (elems h s ++ xs) :: (elems h <$> post).
Proof.
  rewrite Forall_app, Forall_cons. intros (Hpre & Hs & Hpost) Hnd.
  rewrite omap_app, omap_array_cons in Hnd.
  apply NoDup_app in Hnd as (Hnd1 & Hdis & Hnd2).
  assert (∀ s0, s0 ∈ pre ∨ s0 ∈ post →
            ∀ l, array s0 = Some l → array s ≠ Some l) as Hne.
  { intros s0 Hin l Ha Hb. rewrite Hb in Hdis, Hnd2.
    apply NoDup_cons in Hnd2 as [Hl _]. destruct Hin as [Hin|Hin].
    - apply (Hdis l); [|apply list_elem_of_here].
      apply list_elem_of_omap. by exists s0.
    - apply Hl, list_elem_of_omap. by exists s0. }
  assert (NoDup (omap array post)) as Hnd3.
  { destruct (array s); [by apply NoDup_cons in Hnd2 as [_ ?]|done]. }
  assert (∀ l, l ∈ omap array pre → l ∉ omap array post) as Hdis'.
  { intros l Hl Hl'. apply (Hdis l Hl).
    destruct (array s); [by apply list_elem_of_further|done]. }
  destruct (append_elems zero h s xs Hs) as [Hs' Es'].
  destruct (append_store zero h s xs) as (_ & _ & T).
  rewrite Forall_forall in Hpre, Hpost.
  split; [|split].
  - rewrite Forall_app, Forall_cons. split; [|split; [done|]].
    + apply Forall_forall. intros s0 Hs0.
      apply append_other; [by apply Hpre|]. apply Hne. by left.
    + apply Forall_forall. intros s0 Hs0.
      apply append_other; [by apply Hpost|]. apply Hne. by right.
  - rewrite omap_app, omap_array_cons.
    destruct T as [->|(l & -> & Hl)].
    { apply NoDup_app. done. }
    assert (∀ ls : list slice,
              (∀ s0, s0 ∈ ls → valid h s0) → l ∉ omap array ls) as Hf.
    { intros ls Hls (s0 & Hs0 & Ha)%list_elem_of_omap.
      apply Hl. eapply valid_dom; [by apply Hls|done]. }
    apply NoDup_app. split; [done|]. split.
    + intros l' Hl' [->|Hin]%elem_of_cons.
      * by apply (Hf pre).
      * by apply (Hdis' l').
    + apply NoDup_cons. split; [by apply Hf|done].
  - rewrite fmap_app, fmap_cons, Es'. f_equal; [|f_equal].
    + apply Forall_fmap_ext, Forall_forall. intros s0 Hs0.
      apply append_other; [by apply Hpre|]. apply Hne. by left.
    + apply Forall_fmap_ext, Forall_forall. intros s0 Hs0.
      apply append_other; [by apply Hpost|]. apply Hne. by right.
Qed.


(** Closes a goal [h ⊆ h'] from the steps between the two stores. *)
Ltac one_step := etrans; [eassumption|].
Ltac by_steps := repeat first [reflexivity | eassumption | one_step].

Lemma make_store (h : Heap) zero n :
  h ⊆ (make h zero n).1
  ∧ (∃ l, array (make h zero n).2 = Some l ∧ (l ∉ dom h)
          ∧ (make h zero n).1 !! l = Some (Array (replicate n zero)))
  ∧ len (make h zero n).2 = n.
Proof.
  unfold make. cbn [fst snd array len].
  split; [apply insert_fresh_subseteq|]. split; [|done].
  eexists. split; [done|]. split; [apply fresh_not_in|].
  apply lookup_insert_eq.
Qed.

(** [NewBuilder] returns a well-formed builder, of empty lists. *)
Lemma NewBuilder_well_formed (h : Heap) e g sc :
  well_formed (NewBuilder h e g sc).1 (NewBuilder h e g sc).2
  ∧ elems (NewBuilder h e g sc).1 <$> lists (NewBuilder h e g sc).2
    = [[]; []; []; []; []; []].
Proof.
  unfold NewBuilder.
  destruct (make_store h (EString "") 0) as (S1 & (l1 & A1 & F1 & L1) & N1).
  destruct (make h (EString "") 0) as [h1 s1]. cbn [fst snd] in *.
  destruct (make_store h1 zeroWhere 0) as (S2 & (l2 & A2 & F2 & L2) & N2).
  destruct (make h1 zeroWhere 0) as [h2 s2]. cbn [fst snd] in *.
  destruct (make_store h2 zeroOrder 0) as (S3 & (l3 & A3 & F3 & L3) & N3).
  destruct (make h2 zeroOrder 0) as [h3 s3]. cbn [fst snd] in *.
  destruct (make_store h3 zeroJoin 0) as (S4 & (l4 & A4 & F4 & L4) & N4).
  destruct (make h3 zeroJoin 0) as [h4 s4]. cbn [fst snd] in *.
  destruct (make_store h4 (EString "") 0) as (S5 & (l5 & A5 & F5 & L5) & N5).
  destruct (make h4 (EString "") 0) as [h5 s5]. cbn [fst snd] in *.
  destruct (make_store h5 zeroWhere 0) as (S6 & (l6 & A6 & F6 & L6) & N6).
  destruct (make h5 zeroWhere 0) as [h6 s6]. cbn [fst snd] in *.
  assert (∀ (hi : Heap) li x, hi !! li = Some x → hi ⊆ h6 →
            h6 !! li = Some x) as Hup.
  { intros hi li x Hl Hs. by eapply lookup_weaken. }
  assert (∀ (hi hj : Heap) li lj x, hi !! li = Some x → hi ⊆ hj →
            lj ∉ dom hj → li ≠ lj) as Hne.
  { intros hi hj li lj x Hl Hs Hf ->. apply Hf, elem_of_dom. exists x.
    by eapply lookup_weaken. }
  unfold well_formed, lists.
  cbn [columns wheres orders joins groupBy having].
  split; [split|].
  - repeat (apply Forall_cons; split;
            [unfold valid;
             match goal with
             | |- context [array ?s] =>
                 match goal with
                 | A : array s = Some _, N : len s = 0 |- _ =>
                     rewrite A, N
                 end
             end;
             eexists; split; [eapply Hup; [eassumption|by_steps]|lia]|]).
    apply Forall_nil_2.
  - rewrite !omap_array_cons, A1, A2, A3, A4, A5, A6. cbn [omap].
    repeat (apply NoDup_cons; split;
            [rewrite ?not_elem_of_cons; repeat split;
             first [apply not_elem_of_nil
                   |eapply Hne; [eassumption| |eassumption]; by_steps]|]).
    apply NoDup_nil_2.
  - cbn [fmap list_fmap]. unfold elems.
    rewrite A1, A2, A3, A4, A5, A6, N1, N2, N3, N4, N5, N6.
    rewrite (Hup _ _ _ L1), (Hup _ _ _ L2), (Hup _ _ _ L3), (Hup _ _ _ L4),
      (Hup _ _ _ L5), (Hup _ _ _ L6) by by_steps.
    done.
Qed.

(** *** What a chain does to the lists *)

Lemma prefix_alter (ls : list (list elem)) i xs :
  Forall2 prefix ls (alter (λ l, l ++ xs) i ls).
Proof.
  revert i. induction ls as [|l ls IH]; intros [|i]; cbn;
    constructor; try done;
    first [by apply prefix_app_r
          |apply Forall_Forall2_diag, Forall_forall; by intros].
Qed.

Lemma prefix_lists_trans (l1 l2 l3 : list (list elem)) :
  Forall2 prefix l1 l2 → Forall2 prefix l2 l3 → Forall2 prefix l1 l3.
Proof. apply Forall2_trans. intros x y z Hxy Hyz. by etrans. Qed.

(** A step that leaves the elements of the lists as they are. *)
Lemma step_same (h h' : Heap) b b' (r : bool) :
  well_formed h' b' →
  elems h' <$> lists b' = elems h <$> lists b →
  well_formed h' b'
  ∧ (r = false →
     Forall2 prefix (elems h <$> lists b) (elems h' <$> lists b')).
Proof.
  intros Hwf Heq. split; [done|]. intros _. rewrite Heq.
  apply Forall_Forall2_diag, Forall_forall. by intros.
Qed.

(** A step that appends to one list. *)
Lemma step_alter (h h' : Heap) b b' (r : bool) i xs :
  well_formed h' b'
  ∧ elems h' <$> lists b' = alter (λ l, l ++ xs) i (elems h <$> lists b) →
  well_formed h' b'
  ∧ (r = false →
     Forall2 prefix (elems h <$> lists b) (elems h' <$> lists b')).
Proof.
  intros [Hwf Heq]. split; [done|]. intros _. rewrite Heq.
  apply prefix_alter.
Qed.

(** The store has grown, and the lists are those of [b]. *)
Lemma extend_lists (h h' : Heap) b b' :
  h ⊆ h' → lists b' = lists b → well_formed h b →
  well_formed h' b' ∧ elems h' <$> lists b' = elems h <$> lists b.
Proof.
  intros Hsub Hl [Hv Hnd]. unfold well_formed. rewrite Hl.
  split; [split; [|done]|].
  - eapply Forall_impl; [exact Hv|]. intros s. by apply valid_weaken.
  - apply Forall_fmap_ext. eapply Forall_impl; [exact Hv|].
    intros s. by apply elems_weaken.
Qed.

(** A callback on a new builder leaves the lists of [b] as they are. *)
Lemma callback_lists (h h1 h2 : Heap) b nb nb' :
  h ⊆ h1 → (∀ l, l ∈ top nb → l ∉ dom h) → frames h1 nb h2 nb' →
  well_formed h b →
  well_formed h2 b ∧ elems h2 <$> lists b = elems h <$> lists b.
Proof.
  intros Hsub Hnb (_ & K & _) [Hv Hnd].
  assert (Forall (λ s, valid h2 s ∧ elems h2 s = elems h s) (lists b)) as H.
  { eapply Forall_impl; [exact Hv|]. intros s Hs.
    apply valid_agree; [|done]. intros l Hl.
    pose proof (valid_dom h s l Hs Hl) as Hd.
    rewrite K; [|by apply (subseteq_dom _ _ Hsub)|by intros ?%Hnb].
    apply elem_of_dom in Hd as [x Hx]. rewrite Hx.
    by eapply lookup_weaken. }
  split; [split; [|done]|].
  - eapply Forall_impl; [exact H|]. by intros s [? _].
  - apply Forall_fmap_ext. eapply Forall_impl; [exact H|]. by intros s [_ ?].
Qed.

Lemma appendWhere_lists h b w :
  well_formed h b →
  well_formed (appendWhere grow h b w).1 (appendWhere grow h b w).2
  ∧ elems (appendWhere grow h b w).1 <$> lists (appendWhere grow h b w).2
    = alter (λ l, l ++ [EWhere w]) 1 (elems h <$> lists b).
Proof.
  intros [Hv Hnd]. unfold appendWhere.
  pose proof (append_lists zeroWhere h (wheres b) [EWhere w] [columns b]
                [orders b; joins b; groupBy b; having b] Hv Hnd) as H.
  destruct (append grow zeroWhere h (wheres b) [EWhere w]) as [h' s'].
  destruct H as (H1 & H2 & H3). by split; [split|].
Qed.

Lemma appendHaving_lists h b w :
  well_formed h b →
  well_formed (appendHaving grow h b w).1 (appendHaving grow h b w).2
  ∧ elems (appendHaving grow h b w).1 <$> lists (appendHaving grow h b w).2
    = alter (λ l, l ++ [EWhere w]) 5 (elems h <$> lists b).
Proof.
  intros [Hv Hnd]. unfold appendHaving.
  pose proof (append_lists zeroWhere h (having b) [EWhere w]
                [columns b; wheres b; orders b; joins b; groupBy b] []
                Hv Hnd) as H.
  destruct (append grow zeroWhere h (having b) [EWhere w]) as [h' s'].
  destruct H as (H1 & H2 & H3). by split; [split|].
Qed.

Lemma appendJoin_lists h b j :
  well_formed h b →
  well_formed (appendJoin grow h b j).1 (appendJoin grow h b j).2
  ∧ elems (appendJoin grow h b j).1 <$> lists (appendJoin grow h b j).2
    = alter (λ l, l ++ [EJoin j]) 3 (elems h <$> lists b).
Proof.
  intros [Hv Hnd]. unfold appendJoin.
  pose proof (append_lists zeroJoin h (joins b) [EJoin j]
                [columns b; wheres b; orders b] [groupBy b; having b]
                Hv Hnd) as H.
  destruct (append grow zeroJoin h (joins b) [EJoin j]) as [h' s'].
  destruct H as (H1 & H2 & H3). by split; [split|].
Qed.

Lemma appendOrder_lists h b o :
  well_formed h b →
  well_formed (appendOrder grow h b o).1 (appendOrder grow h b o).2
  ∧ elems (appendOrder grow h b o).1 <$> lists (appendOrder grow h b o).2
    = alter (λ l, l ++ [EOrder o]) 2 (elems h <$> lists b).
Proof.
  intros [Hv Hnd]. unfold appendOrder.
  pose proof (append_lists zeroOrder h (orders b) [EOrder o]
                [columns b; wheres b] [joins b; groupBy b; having b]
                Hv Hnd) as H.
  destruct (append grow zeroOrder h (orders b) [EOrder o]) as [h' s'].
  destruct H as (H1 & H2 & H3). by split; [split|].
Qed.

Lemma columns_lists h b xs :
  well_formed h b →
  let r := append grow (EString "") h (columns b) xs in
  well_formed r.1 (with_columns b r.2)
  ∧ elems r.1 <$> lists (with_columns b r.2)
    = alter (λ l, l ++ xs) 0 (elems h <$> lists b).
Proof.
  intros [Hv Hnd] r.
  pose proof (append_lists (EString "") h (columns b) xs []
                [wheres b; orders b; joins b; groupBy b; having b]
                Hv Hnd) as H.
  destruct H as (H1 & H2 & H3). by split; [split|].
Qed.

Lemma groupBy_lists h b xs :
  well_formed h b →
  let r := append grow (EString "") h (groupBy b) xs in
  well_formed r.1 (with_groupBy b r.2)
  ∧ elems r.1 <$> lists (with_groupBy b r.2)
    = alter (λ l, l ++ xs) 4 (elems h <$> lists b).
Proof.
  intros [Hv Hnd] r.
  pose proof (append_lists (EString "") h (groupBy b) xs
                [columns b; wheres b; orders b; joins b] [having b]
                Hv Hnd) as H.
  destruct H as (H1 & H2 & H3). by split; [split|].
Qed.


Lemma Limit_lists h b n :
  well_formed h b →
  well_formed (Limit h b n).1 (Limit h b n).2
  ∧ elems (Limit h b n).1 <$> lists (Limit h b n).2 = elems h <$> lists b.
Proof.
  intros Hwf. unfold Limit, addressOf. cbn [fst snd].
  by apply extend_lists; [apply insert_fresh_subseteq| |].
Qed.

Lemma Offset_lists h b n :
  well_formed h b →
  well_formed (Offset h b n).1 (Offset h b n).2
  ∧ elems (Offset h b n).1 <$> lists (Offset h b n).2 = elems h <$> lists b.
Proof.
  intros Hwf. unfold Offset, addressOf. cbn [fst snd].
  by apply extend_lists; [apply insert_fresh_subseteq| |].
Qed.

Lemma literal_where_lists h b xs w :
  well_formed h b →
  well_formed (appendWhere grow (literal h xs).1 b w).1
    (appendWhere grow (literal h xs).1 b w).2
  ∧ elems (appendWhere grow (literal h xs).1 b w).1
    <$> lists (appendWhere grow (literal h xs).1 b w).2
    = alter (λ l, l ++ [EWhere w]) 1 (elems h <$> lists b).
Proof.
  intros Hwf.
  destruct (extend_lists h (literal h xs).1 b b) as [Hwf1 E1];
    [apply insert_fresh_subseteq|done|done|].
  destruct (appendWhere_lists (literal h xs).1 b w Hwf1) as [Hwf2 E2].
  split; [done|]. by rewrite E2, E1.
Qed.

Lemma nested_where_lists h b fn boolean :
  (∀ h0 b0, frames h0 b0 (fn h0 b0).1 (fn h0 b0).2) →
  well_formed h b →
  let '(h1, nested) := NewBuilder h (executor b) (grammar b) (scanner b) in
  let '(h2, nested') := fn h1 nested in
  let w := mkWhereClauseM WhereTypeNested boolean "" "" AnyNil nil_slice
             (wheres nested') "" nil_slice in
  well_formed (appendWhere grow h2 b w).1 (appendWhere grow h2 b w).2
  ∧ elems (appendWhere grow h2 b w).1 <$> lists (appendWhere grow h2 b w).2
    = alter (λ l, l ++ [EWhere w]) 1 (elems h <$> lists b).
Proof.
  intros Hfn Hwf.
  destruct (NewBuilder_store h (executor b) (grammar b) (scanner b))
    as [Hsub Hf].
  destruct (NewBuilder h (executor b) (grammar b) (scanner b))
    as [h1 nested].
  specialize (Hfn h1 nested). destruct (fn h1 nested) as [h2 nested'].
  intros w.
  destruct (callback_lists h h1 h2 b nested nested' Hsub Hf Hfn Hwf)
    as [Hwf2 E2].
  destruct (appendWhere_lists h2 b w Hwf2) as [Hwf3 E3].
  split; [done|]. by rewrite E3, E2.
Qed.

Lemma lists_run_with fn :
  Forall (λ c, ∀ h b,
            well_formed h b →
            well_formed (run_call grow c h b).1 (run_call grow c h b).2
            ∧ (resets c = false →
               Forall2 prefix (elems h <$> lists b)
                 (elems (run_call grow c h b).1
                  <$> lists (run_call grow c h b).2))) fn →
  ∀ h b,
    well_formed h b →
    well_formed (run_with (run_call grow) fn h b).1
      (run_with (run_call grow) fn h b).2
    ∧ (existsb resets fn = false →
       Forall2 prefix (elems h <$> lists b)
         (elems (run_with (run_call grow) fn h b).1
          <$> lists (run_with (run_call grow) fn h b).2)).
Proof.
  induction 1 as [|c fn Hc _ IH]; intros h b Hwf; cbn [run_with existsb].
  { by apply step_same. }
  destruct (Hc h b Hwf) as [Hwf1 Hk1].
  destruct (run_call grow c h b) as [h1 b1]. cbn [fst snd] in *.
  destruct (IH h1 b1 Hwf1) as [Hwf2 Hk2]. split; [done|].
  intros [Hr1 Hr2]%orb_false_iff.
  eapply prefix_lists_trans; [by apply Hk1|by apply Hk2].
Qed.

Lemma lists_run_call c h b :
  well_formed h b →
  well_formed (run_call grow c h b).1 (run_call grow c h b).2
  ∧ (resets c = false →
     Forall2 prefix (elems h <$> lists b)
       (elems (run_call grow c h b).1 <$> lists (run_call grow c h b).2)).
Proof.
  revert h b. induction c as [c IH] using call_nested_ind. intros h b Hwf.
  destruct c; cbn [run_call resets];
    unfold Where, OrWhere, WhereIn, WhereNotIn, OrWhereIn, OrWhereNotIn,
      WhereNull, WhereNotNull, OrWhereNull, OrWhereNotNull, WhereLike,
      WhereNotLike, WhereRaw, OrWhereRaw, WhereDate, WhereYear, WhereMonth,
      WhereDay, Having, HavingRaw, Latest, Oldest, OrderByAsc, OrderByDesc,
      OrderBy, OrderByRaw, Join, LeftJoin, RightJoin, CrossJoin, Take, Skip,
      From, Table, TableAs, Distinct;
    try first [by eapply step_alter, appendWhere_lists
              |by eapply step_alter, appendHaving_lists
              |by eapply step_alter, appendJoin_lists
              |by eapply step_alter, appendOrder_lists
              |by apply step_same; apply Limit_lists
              |by apply step_same; apply Offset_lists
              |by apply step_same; [exact Hwf|reflexivity]].
  - unfold Select.
    pose proof (columns_lists h b (EString <$> columns0) Hwf) as H.
    cbv zeta in H. destruct (append _ _ _ _ _). by eapply step_alter.
  - unfold SelectRaw.
    pose proof (columns_lists h b [EString expr] Hwf) as H.
    cbv zeta in H. destruct (append _ _ _ _ _). by eapply step_alter.
  - unfold WhereBetween.
    pose proof (literal_where_lists h b [EAny min; EAny max]) as H.
    destruct (literal _ _). eapply step_alter. by apply H.
  - unfold WhereNotBetween.
    pose proof (literal_where_lists h b [EAny min; EAny max]) as H.
    destruct (literal _ _). eapply step_alter. by apply H.
  - unfold WhereNested.
    pose proof (nested_where_lists h b (run_with (run_call grow) fn)
                  WhereBooleanAnd) as H.
    destruct (NewBuilder _ _ _ _). destruct (run_with _ _ _ _).
    eapply step_alter. apply H; [|done].
    intros hn bn. apply frames_run_with, Forall_forall.
    intros c _. apply frames_run_call.
  - unfold OrWhereNested.
    pose proof (nested_where_lists h b (run_with (run_call grow) fn)
                  WhereBooleanOr) as H.
    destruct (NewBuilder _ _ _ _). destruct (run_with _ _ _ _).
    eapply step_alter. apply H; [|done].
    intros hn bn. apply frames_run_with, Forall_forall.
    intros c _. apply frames_run_call.
  - unfold GroupBy.
    pose proof (groupBy_lists h b (EString <$> columns0) Hwf) as H.
    cbv zeta in H. destruct (append _ _ _ _ _). by eapply step_alter.
  - unfold ForPage. cbv zeta.
    destruct (Limit_lists h b perPage Hwf) as [Hwf1 E1].
    destruct (Limit h b perPage) as [h1 b1]. cbn [fst snd] in *.
    destruct (Offset_lists h1 b1 (int (int ((if decide (page < 1)%Z
                                              then 1%Z else page) - 1)
                                       * perPage)) Hwf1) as [Hwf2 E2].
    apply step_same; [done|]. by rewrite E2, E1.
  - destruct (NewBuilder_well_formed h (executor b) (grammar b) (scanner b))
      as [Hn _].
    split; [exact Hn|done].
  - unfold When. destruct condition; [|by apply step_same].
    apply lists_run_with; [|done]. by apply IH.
  - unfold Unless, When. destruct condition; [by apply step_same|].
    apply lists_run_with; [|done]. by apply IH.
Qed.


(** *** What the fields of a builder are after a chain *)

Lemma fields_run_with fn :
  Forall (λ c, ∀ h b,
            let b' := (run_call grow c h b).2 in
            executor b' = executor b ∧ grammar b' = grammar b
            ∧ scanner b' = scanner b
            ∧ (err b' = err b ∨ err b' = None)) fn →
  ∀ h b,
    let b' := (run_with (run_call grow) fn h b).2 in
    executor b' = executor b ∧ grammar b' = grammar b
    ∧ scanner b' = scanner b
    ∧ (err b' = err b ∨ err b' = None).
Proof.
  induction 1 as [|c fn Hc _ IH]; intros h b; cbn [run_with].
  { cbn. tauto. }
  specialize (Hc h b). cbv zeta in *.
  destruct (run_call grow c h b) as [h1 b1]. cbn [fst snd] in *.
  specialize (IH h1 b1).
  destruct Hc as (E1 & E2 & E3 & He), IH as (E1' & E2' & E3' & He').
  rewrite E1', E2', E3', E1, E2, E3. repeat split.
  destruct He' as [Hb|Hb]; rewrite Hb; auto.
Qed.

Lemma fields_run_call c h b :
  let b' := (run_call grow c h b).2 in
  executor b' = executor b ∧ grammar b' = grammar b
  ∧ scanner b' = scanner b
  ∧ (err b' = err b ∨ err b' = None).
Proof.
  revert h b. induction c as [c IH] using call_nested_ind. intros h b.
  destruct c; cbn [run_call];
    unfold Where, OrWhere, WhereIn, WhereNotIn, OrWhereIn, OrWhereNotIn,
      WhereNull, WhereNotNull, OrWhereNull, OrWhereNotNull, WhereLike,
      WhereNotLike, WhereRaw, OrWhereRaw, WhereDate, WhereYear, WhereMonth,
      WhereDay, Having, HavingRaw, Latest, Oldest, OrderByAsc, OrderByDesc,
      OrderBy, OrderByRaw, Join, LeftJoin, RightJoin, CrossJoin, Take, Skip,
      From, Table, TableAs, Distinct, WhereBetween, WhereNotBetween,
      WhereNested, OrWhereNested, Select, SelectRaw, GroupBy, ForPage,
      Limit, Offset, Reset, NewBuilder, appendWhere, appendHaving, appendJoin,
      appendOrder, literal, addressOf, make;
    cbv zeta;
    repeat match goal with
    | |- context [run_with ?f ?fn ?h ?b] =>
        lazymatch goal with
        | |- context [When] => fail
        | |- context [Unless] => fail
        | _ => destruct (run_with f fn h b)
        end
    end;
    repeat match goal with
    | |- context [append ?g ?z ?h ?s ?xs] => destruct (append g z h s xs)
    end;
    cbn [fst snd executor grammar scanner err with_table with_distinct
         with_columns with_wheres with_orders with_joins with_groupBy
         with_having with_limit with_offset];
    try tauto.
  - unfold When. destruct condition; [|cbn; tauto].
    apply fields_run_with, IH. done.
  - unfold Unless, When. destruct condition; [cbn; tauto|].
    apply fields_run_with, IH. done.
Qed.


(** *** Chains *)

Lemma frames_run calls h b :
  frames h b (run grow calls h b).1 (run grow calls h b).2.
Proof.
  apply frames_run_with, Forall_forall. intros c _ h0 b0.
  apply frames_run_call.
Qed.

Lemma lists_run calls h b :
  well_formed h b →
  well_formed (run grow calls h b).1 (run grow calls h b).2
  ∧ (existsb resets calls = false →
     Forall2 prefix (elems h <$> lists b)
       (elems (run grow calls h b).1 <$> lists (run grow calls h b).2)).
Proof.
  apply lists_run_with, Forall_forall. intros c _ h0 b0.
  apply lists_run_call.
Qed.

(** The clone of a builder over a well-formed store is well formed, in a
    store where the builder is what it was. *)
Lemma Clone_well_formed (h : Heap) b h1 c :
  Forall (valid h) (lists b) →
  Clone h b = (h1, c) →
  h ⊆ h1
  ∧ Forall (valid h1) (lists c)
  ∧ NoDup (omap array (lists c))
  ∧ ∀ l, l ∈ top c → l ∉ dom h.
Proof.
  intros Hv H.
  destruct (Clone_spec h b Hv) as (l1 & l2 & l3 & l4 & l5 & l6 & Hnd & Hf & E).
  rewrite E in H. injection H as <- <-. clear E.
  pose proof Hnd as Hnd'.
  repeat (apply NoDup_cons in Hnd as [? Hnd]).
  repeat match goal with
  | H : _ ∉ _ :: _ |- _ => apply not_elem_of_cons in H as [? H]
  end.
  rewrite !Forall_cons in Hf. destruct Hf as (F1 & F2 & F3 & F4 & F5 & F6 & _).
  unfold lists in *. rewrite !Forall_cons in Hv.
  destruct Hv as (Hc & Hw & Ho & Hj & Hg & Hh & _).
  cbn [columns wheres orders joins groupBy having].
  split; [|split; [|split]].
  - by repeat (apply insert_subseteq_r; [done|]).
  - repeat (apply Forall_cons; split;
            [unfold valid; cbn [array len];
             rewrite ?lookup_insert_ne by congruence;
             rewrite lookup_insert_eq; eexists; split; [done|];
             by rewrite length_elems|]).
    apply Forall_nil_2.
  - exact Hnd'.
  - intros l Hl%elem_of_top. unfold lists in Hl.
    cbn [fmap list_fmap array columns wheres orders joins groupBy having]
      in Hl.
    rewrite !elem_of_cons, elem_of_nil in Hl. apply not_elem_of_dom.
    destruct Hl as [Hl|[Hl|[Hl|[Hl|[Hl|[Hl|[]]]]]]];
      injection Hl as ->; done.
Qed.

(** X16. A chain of fluent calls, callbacks included, writes to no location
    of the store but the arrays of the six lists of the builder it is made
    on: the store keeps its locations; every other location keeps its
    content, so that a slice of the store that is not one of those arrays
    (the values a caller passed to [WhereIn], the bindings of a raw clause,
    a list of another builder) holds what it held; and the lists of the
    builder afterwards lie in arrays it had or in new ones. *)
Theorem fluent_calls_write_only_the_lists_of_the_builder
    (calls : list call) (h : Heap) (b : Builder) :
  let h' := (run grow calls h b).1 in
  let b' := (run grow calls h b).2 in
  dom h ⊆ dom h'
  ∧ (∀ l, l ∈ dom h → l ∉ top b → h' !! l = h !! l)
  ∧ (∀ l, l ∈ top b' → l ∈ top b ∨ l ∉ dom h)
  ∧ (∀ s, valid h s → (∀ l, array s = Some l → l ∉ top b) →
          valid h' s ∧ elems h' s = elems h s).
Proof.
  intros h' b'. destruct (frames_run calls h b) as (D & K & T).
  split; [done|]. split; [done|]. split; [done|].
  intros s Hs Hne. apply valid_agree; [|done]. intros l Hl.
  apply K; [by eapply valid_dom|by apply Hne].
Qed.

(** X17. After [Clone], a chain of fluent calls on the builder leaves the six
    lists of the clone as they are, and a chain on the clone those of the
    builder. *)
Theorem chains_after_Clone_are_independent
    (calls : list call) (h : Heap) (b : Builder) (h1 : Heap) (c : Builder) :
  Forall (valid h) (lists b) →
  Clone h b = (h1, c) →
  Forall (λ s, elems (run grow calls h1 b).1 s = elems h1 s) (lists c)
  ∧ Forall (λ s, elems (run grow calls h1 c).1 s = elems h1 s) (lists b).
Proof.
  intros Hv H.
  destruct (Clone_well_formed h b h1 c Hv H) as (Hsub & Hvc & _ & Hfresh).
  rewrite Forall_forall in Hv, Hvc.
  split; apply Forall_forall; intros s Hs.
  - destruct (frames_run calls h1 b) as (_ & K & _).
    apply valid_agree; [|by apply Hvc]. intros l Hl.
    apply K; [by eapply valid_dom; [apply Hvc|]|].
    intros (s0 & Ha & Hs0)%elem_of_top%list_elem_of_fmap.
    apply (Hfresh l).
    + apply elem_of_top, list_elem_of_fmap. by exists s.
    + eapply valid_dom; [by apply Hv|done].
  - destruct (frames_run calls h1 c) as (_ & K & _).
    apply valid_agree; [|by eapply valid_weaken; [|apply Hv]].
    intros l Hl. pose proof (valid_dom h s l (Hv s Hs) Hl) as Hd.
    apply K; [by apply (subseteq_dom _ _ Hsub)|].
    intros Hin. by apply (Hfresh l).
Qed.

(** X18. A builder stays well formed: the lists of a builder from
    [NewBuilder] are slices of the store over six arrays, each list in an
    array of its own; [Clone] gives such a builder and leaves the one it
    copies such a builder; and so does every chain of fluent calls. *)
Theorem builders_stay_well_formed :
  (∀ h e g sc,
     well_formed (NewBuilder h e g sc).1 (NewBuilder h e g sc).2
     ∧ elems (NewBuilder h e g sc).1 <$> lists (NewBuilder h e g sc).2
       = [[]; []; []; []; []; []])
  ∧ (∀ h b,
       well_formed h b →
       well_formed (Clone h b).1 b ∧ well_formed (Clone h b).1 (Clone h b).2)
  ∧ (∀ calls h b,
       well_formed h b →
       well_formed (run grow calls h b).1 (run grow calls h b).2).
Proof.
  split; [apply NewBuilder_well_formed|]. split.
  - intros h b [Hv Hnd].
    destruct (Clone h b) as [h1 c] eqn:E. cbn [fst snd].
    destruct (Clone_well_formed h b h1 c Hv E) as (Hsub & Hvc & Hndc & _).
    split; [split; [|done]|by split].
    eapply Forall_impl; [exact Hv|]. intros s. by apply valid_weaken.
  - intros calls h b Hwf. by apply lists_run.
Qed.

(** X19. Fluent calls only append: after a chain in which [Reset] is not
    called on the builder, each of its six lists starts with the elements
    it had before the chain, in the same order. *)
Theorem fluent_calls_only_append
    (calls : list call) (h : Heap) (b : Builder) :
  well_formed h b →
  existsb resets calls = false →
  Forall2 (λ s s', elems h s `prefix_of` elems (run grow calls h b).1 s')
    (lists b) (lists (run grow calls h b).2).
Proof.
  intros Hwf Hr. apply Forall2_fmap. by apply lists_run.
Qed.

(** X20. [Select], [Where], [OrderBy], [Join], [GroupBy] and [Having] add
    what they are given at the end of their own list (columns, wheres,
    orders, joins, groupBy, having: the lists 0 to 5 of the builder) and
    leave the elements of the other five lists as they are. *)
Theorem each_call_appends_to_its_list (h : Heap) (b : Builder) :
  well_formed h b →
  let after (r : Heap * Builder) := elems r.1 <$> lists r.2 in
  let before := elems h <$> lists b in
  (∀ cols,
     after (Select grow h b cols)
     = alter (λ l, l ++ (EString <$> cols)) 0 before)
  ∧ (∀ column operator value,
       after (Where grow h b column operator value)
       = alter (λ l, l ++ [EWhere (mkWhereClauseM WhereTypeBasic
                                     WhereBooleanAnd column operator value
                                     nil_slice nil_slice "" nil_slice)])
           1 before)
  ∧ (∀ column direction,
       after (OrderBy grow h b column direction)
       = alter (λ l, l ++ [EOrder (mkOrderClause column direction "")])
           2 before)
  ∧ (∀ table first operator second,
       after (Join grow h b table first operator second)
       = alter (λ l, l ++ [EJoin (mkJoinClause JoinInner table "" first
                                    operator second)])
           3 before)
  ∧ (∀ cols,
       after (GroupBy grow h b cols)
       = alter (λ l, l ++ (EString <$> cols)) 4 before)
  ∧ (∀ column operator value,
       after (Having grow h b column operator value)
       = alter (λ l, l ++ [EWhere (mkWhereClauseM WhereTypeBasic
                                     WhereBooleanAnd column operator value
                                     nil_slice nil_slice "" nil_slice)])
           5 before).
Proof.
  intros Hwf after before. subst after before. cbv beta.
  split; [|split; [|split; [|split; [|split]]]].
  - intros cols. unfold Select.
    pose proof (columns_lists h b (EString <$> cols) Hwf) as H.
    cbv zeta in H. destruct (append _ _ _ _ _). apply H.
  - intros column operator value. by apply appendWhere_lists.
  - intros column direction. by apply appendOrder_lists.
  - intros table first operator second. by apply appendJoin_lists.
  - intros cols. unfold GroupBy.
    pose proof (groupBy_lists h b (EString <$> cols) Hwf) as H.
    cbv zeta in H. destruct (append _ _ _ _ _). apply H.
  - intros column operator value. by apply appendHaving_lists.
Qed.

(** X21. No fluent call records an error: a chain leaves the executor, the
    grammar and the scanner of the builder as they are, and its error as it
    is or cleared (by [Reset]). So the SQL entry points of a builder from
    [NewBuilder] with a grammar never answer with an accumulated error:
    whatever the chain, the grammar is called. *)
Theorem fluent_calls_never_set_the_error
    (calls : list call) (h : Heap) (b : Builder) :
  let b' := (run grow calls h b).2 in
  (executor b' = executor b ∧ grammar b' = grammar b
   ∧ scanner b' = scanner b ∧ (err b' = err b ∨ err b' = None))
  ∧ ∀ e g sc,
      let r := run grow calls (NewBuilder h e (Some g) sc).1
                 (NewBuilder h e (Some g) sc).2 in
      Err r.2 = None
      ∧ ToSelectSQL r.1 r.2
        = (g_CompileSelect g (asQueryBuilder r.1 r.2),
           [CallCompileSelect (asQueryBuilder r.1 r.2)])
      ∧ ToDeleteSQL r.1 r.2
        = (g_CompileDelete g (asQueryBuilder r.1 r.2),
           [CallCompileDelete (asQueryBuilder r.1 r.2)]).
Proof.
  intros b'. split.
  { apply fields_run_with, Forall_forall. intros c _ h0 b0.
    apply fields_run_call. }
  intros e g sc r.
  assert (grammar r.2 = Some g ∧ err r.2 = None) as [Hg He].
  { pose proof (fields_run_with calls) as H. subst r. unfold run.
    destruct (H (proj2 (Forall_forall _ _)
                   (λ c _ h0 b0, fields_run_call c h0 b0))
                (NewBuilder h e (Some g) sc).1
                (NewBuilder h e (Some g) sc).2) as (_ & Hg & _ & He).
    split; [by rewrite Hg|]. by destruct He as [He|He]; rewrite He. }
  unfold Err, ToSelectSQL, ToDeleteSQL. by rewrite He, Hg.
Qed.


Lemma int_small (z : Z) : (- 2 ^ 63 ≤ z < 2 ^ 63)%Z → int z = z.
Proof. intros Hz. unfold int. rewrite Z.mod_small; lia. Qed.

(** X22. [ForPage(page, perPage)] sets the limit to [perPage] and the offset
    to [(page - 1) * perPage], a page below 1 counting as page 1. Neither
    number is checked (a negative [perPage] is the limit then), the product
    wraps around as an [int] does, and the lists of the builder and the
    store before the call are left as they are. *)
Theorem ForPage_sets_limit_and_offset
    (h : Heap) (b : Builder) (page perPage : Z) :
  (- 2 ^ 63 ≤ page < 2 ^ 63)%Z →
  (- 2 ^ 63 ≤ perPage < 2 ^ 63)%Z →
  let r := ForPage h b page perPage in
  let first := (Z.max page 1 - 1)%Z in
  read_int r.1 (limit r.2) = Some perPage
  ∧ read_int r.1 (offset r.2) = Some (int (first * perPage))
  ∧ ((- 2 ^ 63 ≤ first * perPage < 2 ^ 63)%Z →
     read_int r.1 (offset r.2) = Some (first * perPage)%Z)
  ∧ lists r.2 = lists b
  ∧ h ⊆ r.1
  ∧ ((page < 1)%Z → r = ForPage h b 1 perPage).
Proof.
  intros Hpage Hper r first.
  assert (r = ForPage h b (Z.max page 1) perPage) as Hr.
  { subst r. unfold ForPage.
    destruct (decide (page < 1)%Z), (decide (Z.max page 1 < 1)%Z);
      try lia; by rewrite ?Z.max_l, ?Z.max_r by lia. }
  assert (read_int r.1 (limit r.2) = Some perPage
          ∧ read_int r.1 (offset r.2) = Some (int (first * perPage))
          ∧ lists r.2 = lists b ∧ h ⊆ r.1) as (Hl & Ho & Hls & Hsub).
  { rewrite Hr. unfold ForPage, Limit, Offset, addressOf.
    destruct (decide (Z.max page 1 < 1)%Z); [lia|].
    cbn [fst snd limit offset with_limit with_offset read_int].
    rewrite (int_small (Z.max page 1 - 1)) by lia.
    set (l1 := fresh (dom h)).
    set (h1 := <[l1 := Int perPage]> h).
    assert (l1 ≠ fresh (dom h1)) as Hne.
    { intros E. apply (fresh_not_in h1). rewrite <- E.
      apply elem_of_dom. exists (Int perPage). apply lookup_insert_eq. }
    rewrite lookup_insert_ne by done. subst h1.
    rewrite !lookup_insert_eq. repeat split.
    etrans; apply insert_fresh_subseteq. }
  split; [done|]. split; [done|]. split; [|split; [done|split; [done|]]].
  - intros Hp. by rewrite Ho, int_small.
  - intros Hp. rewrite Hr. by rewrite Z.max_r by lia.
Qed.

End fluent_chains.

(** *** The chain of the sample builder *)

Lemma sample_builder_well_formed : well_formed sample.heap sample.builder.
Proof.
  split; [apply sample_builder_valid|].
  cbn. repeat (apply NoDup_cons; split;
               [rewrite ?not_elem_of_cons; repeat split;
                (discriminate || apply not_elem_of_nil)|]).
  apply NoDup_nil_2.
Qed.

Lemma sample_vals_valid : valid sample.heap sample.vals.
Proof. eexists. split; [by vm_compute|cbn; lia]. Qed.

Lemma sample_vals_apart l :
  fluentsql.array sample.vals = Some l → l ∉ top sample.builder.
Proof.
  intros [= <-]. unfold top, lists. cbn.
  rewrite !not_elem_of_union, !not_elem_of_singleton.
  repeat split; (discriminate || apply not_elem_of_empty).
Qed.

Lemma fluent_calls_write_only_the_lists_of_the_builder_witness :
  valid sample.heap sample.vals
  ∧ (∀ l, fluentsql.array sample.vals = Some l → l ∉ top sample.builder)
  ∧ fluentsql.elems
      (run sample.doubling sample.chain sample.heap sample.builder).1
      sample.vals
    = fluentsql.elems sample.heap sample.vals.
Proof.
  split; [apply sample_vals_valid|]. split; [apply sample_vals_apart|].
  apply (fluent_calls_write_only_the_lists_of_the_builder sample.doubling
           sample.chain sample.heap sample.builder).
  - apply sample_vals_valid.
  - apply sample_vals_apart.
Defined.

Lemma chains_after_Clone_are_independent_witness :
  Forall (valid sample.heap) (lists sample.builder)
  ∧ fluentsql.Clone sample.heap sample.builder
    = (sample.cloned.1, sample.cloned.2)
  ∧ Forall (λ s, fluentsql.elems
                   (run sample.doubling sample.chain sample.cloned.1
                      sample.builder).1 s
                 = fluentsql.elems sample.cloned.1 s)
      (lists sample.cloned.2).
Proof.
  split; [apply sample_builder_valid|].
  split; [apply surjective_pairing|].
  apply (chains_after_Clone_are_independent sample.doubling sample.chain
           sample.heap sample.builder sample.cloned.1 sample.cloned.2).
  - apply sample_builder_valid.
  - apply surjective_pairing.
Defined.

Lemma builders_stay_well_formed_witness :
  well_formed sample.heap sample.builder
  ∧ well_formed
      (run sample.doubling sample.chain sample.heap sample.builder).1
      (run sample.doubling sample.chain sample.heap sample.builder).2.
Proof.
  split; [apply sample_builder_well_formed|].
  apply (builders_stay_well_formed sample.doubling).
  apply sample_builder_well_formed.
Defined.

Lemma fluent_calls_only_append_witness :
  well_formed sample.heap sample.builder
  ∧ existsb resets sample.chain = false
  ∧ Forall2
      (λ s s',
         fluentsql.elems sample.heap s
         `prefix_of`
         fluentsql.elems
           (run sample.doubling sample.chain sample.heap sample.builder).1 s')
      (lists sample.builder)
      (lists (run sample.doubling sample.chain sample.heap sample.builder).2).
Proof.
  split; [apply sample_builder_well_formed|]. split; [reflexivity|].
  apply (fluent_calls_only_append sample.doubling sample.chain sample.heap
           sample.builder).
  - apply sample_builder_well_formed.
  - reflexivity.
Defined.

Lemma each_call_appends_to_its_list_witness :
  well_formed sample.heap sample.builder
  ∧ fluentsql.elems
      (fluentsql.Select sample.doubling sample.heap sample.builder
         ["id"; "name"]).1
    <$> lists (fluentsql.Select sample.doubling sample.heap sample.builder
                 ["id"; "name"]).2
    = [[fluentsql.EString "id"; fluentsql.EString "name"];
       [fluentsql.EWhere sample.whereIn; fluentsql.EWhere sample.whereNested];
       []; []; []; []].
Proof.
  split; [apply sample_builder_well_formed|].
  destruct (each_call_appends_to_its_list sample.doubling sample.heap
              sample.builder sample_builder_well_formed) as (H & _).
  rewrite (H ["id"; "name"]). by vm_compute.
Defined.

Lemma ForPage_sets_limit_and_offset_witness :
  (- 2 ^ 63 ≤ 3 < 2 ^ 63)%Z
  ∧ (- 2 ^ 63 ≤ 10 < 2 ^ 63)%Z
  ∧ fluentsql.read_int
      (fluentsql.ForPage sample.heap sample.builder 3 10).1
      (fluentsql.limit (fluentsql.ForPage sample.heap sample.builder 3 10).2)
    = Some 10%Z
  ∧ fluentsql.read_int
      (fluentsql.ForPage sample.heap sample.builder 3 10).1
      (fluentsql.offset (fluentsql.ForPage sample.heap sample.builder 3 10).2)
    = Some 20%Z.
Proof.
  split; [lia|]. split; [lia|].
  destruct (ForPage_sets_limit_and_offset sample.heap sample.builder 3 10)
    as (Hl & _ & Ho & _); [lia|lia|].
  split; [exact Hl|]. apply Ho. cbn. lia.
Defined.

(** ** The parts of a SELECT, and the other statements *)

Section select_parts.



















(** X25. Empty inputs are met before any name is checked: a statement over
    the empty table name fails with [ErrNoTable], whatever else it holds;
    over another table, an INSERT, an UPDATE or an upsert of the empty map,
    a batch whose first row is empty and an aggregate of the empty column
    fail with [ErrNoColumns], and the empty batch with [ErrEmptyBatch],
    valid or not the table. *)
Theorem empty_inputs_fail_first (stmt : Statement) :
  (GetTable (builder_of stmt) = "" →
   compile stmt = ("", None, Some ErrNoTable))
  ∧ (GetTable (builder_of stmt) ≠ "" →
     match stmt with
     | StmtInsert _ _ data | StmtUpdate _ _ data | StmtUpsert _ _ _ data _ =>
         data = ∅ → compile stmt = ("", None, Some ErrNoColumns)
     | StmtInsertBatch _ _ [] =>
         compile stmt = ("", None, Some ErrEmptyBatch)
     | StmtInsertBatch _ _ (first :: _) =>
         first = ∅ → compile stmt = ("", None, Some ErrNoColumns)
     | StmtAggregate _ _ column =>
         column = "" → compile stmt = ("", None, Some ErrNoColumns)
     | _ => True
     end).
Proof.
  split.
  - intros Ht. destruct stmt; cbn [builder_of] in Ht; cbn [compile];
      unfold CompileSelect, CompileInsert, CompileInsertBatch, CompileUpdate,
        CompileDelete, CompileExists, CompileCount, CompileAggregate,
        CompileUpsert, CompileTruncate, CompileInsert;
      by destruct (decide (GetTable b = "")).
  - intros Ht. destruct stmt; cbn [builder_of] in Ht; try done; cbn [compile].
    + intros ->. unfold CompileInsert.
      destruct (decide (GetTable b = "")); [done|].
      by rewrite map_size_empty.
    + destruct data as [|first rest].
      * unfold CompileInsertBatch.
        by destruct (decide (GetTable b = "")).
      * intros ->. unfold CompileInsertBatch.
        destruct (decide (GetTable b = "")); [done|].
        cbn [length]. by rewrite ?map_size_empty.
    + intros ->. unfold CompileUpdate.
      destruct (decide (GetTable b = "")); [done|].
      by rewrite map_size_empty.
    + intros ->. unfold CompileAggregate.
      by destruct (decide (GetTable b = "")).
    + intros ->. unfold CompileUpsert, CompileInsert.
      destruct (decide (GetTable b = "")); [done|].
      by rewrite map_size_empty.
Qed.

Lemma empty_inputs_fail_first_witness :
  compile (StmtInsert [] (sample.query "" []) ∅)
  = ("", None, Some ErrNoTable)
  ∧ compile (StmtInsert [] (sample.query "users;DROP" []) ∅)
    = ("", None, Some ErrNoColumns).
Proof.
  split.
  - by apply (empty_inputs_fail_first (StmtInsert [] (sample.query "" []) ∅)).
  - by apply (empty_inputs_fail_first
                (StmtInsert [] (sample.query "users;DROP" []) ∅)).
Defined.

End select_parts.

(** ** The record of a chain: what the grammar reads after the calls *)

Section chain_record.
Import fluentsql.

Variable grow : nat → nat → nat.

Lemma read_wheres_S d (h : Heap) s :
  read_wheres (S d) h s = omap (read_clause d h) (elems h s).
Proof. reflexivity. Qed.

Lemma elems_agree (h h' : Heap) s :
  (∀ l, array s = Some l → h' !! l = h !! l) → elems h' s = elems h s.
Proof.
  unfold elems. destruct (array s) as [l|]; [|done].
  intros Heq. by rewrite (Heq l eq_refl).
Qed.

Lemma read_anys_agree (h h' : Heap) s :
  (∀ l, array s = Some l → h' !! l = h !! l) → read_anys h' s = read_anys h s.
Proof. intros H. unfold read_anys. by rewrite (elems_agree h h' s H). Qed.

Lemma read_int_agree (h h' : Heap) p :
  (∀ l, p = Some l → h' !! l = h !! l) → read_int h' p = read_int h p.
Proof.
  unfold read_int. destruct p as [l|]; [|done].
  intros Heq. by rewrite (Heq l eq_refl).
Qed.

(** *** Settled elements *)

Lemma settled_nil A k (h : Heap) : settled A k h [] [].
Proof. by intros h' d _ _. Qed.

Lemma settled_app A k (h : Heap) es ws es' ws' :
  settled A k h es ws → settled A k h es' ws' →
  settled A k h (es ++ es') (ws ++ ws').
Proof.
  intros H H' h' d Ha Hd. rewrite omap_app.
  by rewrite (H h' d Ha Hd), (H' h' d Ha Hd).
Qed.

Lemma settled_mono (A A' : gset loc) k k' (h h' : Heap) es ws :
  settled A k h es ws →
  A ⊆ A' → k ≤ k' → (∀ l, l ∈ A → h' !! l = h !! l) →
  settled A' k' h' es ws.
Proof.
  intros H HA Hk Hh h'' d Ha Hd. apply H; [|lia].
  intros l Hl. rewrite <- (Hh l Hl). apply Ha. by apply HA.
Qed.

(** A clause without children, its slices in [A]. *)
Lemma settled_flat (A : gset loc) k (h : Heap) t bo c o v vs r bs :
  (∀ l, array vs = Some l → l ∈ A) →
  (∀ l, array bs = Some l → l ∈ A) →
  settled A k h
    [EWhere (mkWhereClauseM t bo c o v vs nil_slice r bs)]
    [flat t bo c o v (read_anys h vs) r (read_anys h bs)].
Proof.
  intros Hvs Hbs h' d Ha _. cbn [omap list_omap read_clause mValues mNested
    mBindings mType mBoolean mColumn mOperator mValue mRaw].
  rewrite (read_anys_agree h h' vs), (read_anys_agree h h' bs).
  - by destruct d.
  - intros l Hl. by apply Ha, Hbs.
  - intros l Hl. by apply Ha, Hvs.
Qed.

(** A group, its children in a slice of [A]. *)
Lemma settled_group (A : gset loc) k (h : Heap) bo sn ws :
  (∀ l, array sn = Some l → l ∈ A) →
  settled A k h (elems h sn) ws →
  settled A (S k) h
    [EWhere (mkWhereClauseM WhereTypeNested bo "" "" AnyNil nil_slice sn ""
               nil_slice)]
    [group bo ws].
Proof.
  intros Hsn Hws h' d Ha Hd. destruct d as [|d]; [lia|].
  cbn [omap list_omap read_clause mValues mNested mBindings mType mBoolean
       mColumn mOperator mValue mRaw].
  rewrite read_wheres_S, (elems_agree h h' sn).
  - rewrite (Hws h' d Ha); [done|lia].
  - intros l Hl. by apply Ha, Hsn.
Qed.


(** *** Builders that stand for a record *)

Lemma frames_size (h h' : Heap) b b' : frames h b h' b' → size h ≤ size h'.
Proof.
  intros (D & _ & _). rewrite <- !size_dom. by apply subseteq_size.
Qed.

(** The locations of [A] keep their content in a step on the builder. *)
Lemma represents_agree h0 A n (h : Heap) b q h' b' :
  represents h0 A n h b q → frames h b h' b' →
  ∀ l, l ∈ A → h' !! l = h !! l.
Proof.
  intros (_ & (_ & _ & HA & Htop) & _) (_ & K & _) l Hl.
  apply K; [by apply HA|]. intros Hin. by apply (Htop l).
Qed.

(** The arrays of the lists after a step are not in [A]. *)
Lemma represents_apart h0 A n (h : Heap) b q h' b' :
  represents h0 A n h b q → frames h b h' b' →
  ∀ l, l ∈ top b' → l ∉ A.
Proof.
  intros (_ & (_ & _ & HA & Htop) & _) (_ & _ & T) l Hl Hin.
  destruct (T l Hl) as [Ht|Hf]; [by apply (Htop l)|]. by apply Hf, HA.
Qed.

Lemma holds_mono (A A' : gset loc) k k' (h h' : Heap) ls q :
  holds A k h ls q →
  A ⊆ A' → k ≤ k' → (∀ l, l ∈ A → h' !! l = h !! l) →
  holds A' k' h' ls q.
Proof.
  destruct ls as [|ec [|ew [|eo [|ej [|eg [|eh [|]]]]]]]; try done.
  intros (Hc & Hw & Ho & Hj & Hg & Hh) HA Hk Hag.
  repeat split; try done; by eapply settled_mono.
Qed.

Lemma points_mono (A A' : gset loc) (h h' : Heap) p z :
  points A h p z → A ⊆ A' → (∀ l, l ∈ A → h' !! l = h !! l) →
  points A' h' p z.
Proof.
  intros [Hr Hp] HA Hag. split.
  - rewrite <- Hr. apply read_int_agree. intros l Hl. by apply Hag, Hp.
  - intros l Hl. by apply HA, Hp.
Qed.

(** A step of a builder that stands for a record. *)
Lemma rep_step h0 (A A' : gset loc) n k' (h h' : Heap) b b' q q' :
  represents h0 A n h b q →
  frames h b h' b' →
  well_formed h' b' →
  A ⊆ A' → A' ⊆ dom h' →
  (∀ l, l ∈ top b' → l ∉ A') →
  table b' = GetTable q' ∧ tableAlias b' = GetTableAlias q'
  ∧ distinct b' = IsDistinct q' →
  n + k' ≤ size h' →
  holds A' k' h' (elems h' <$> lists b') q' →
  points A' h' (limit b') (GetLimit q') →
  points A' h' (offset b') (GetOffset q') →
  represents h0 A' n h' b' q'.
Proof.
  intros Hrep Hfr Hwf HA HA' Htop Hsc Hk Hholds Hlim Hoff.
  pose proof (represents_agree _ _ _ _ _ _ _ _ Hrep Hfr) as Hag.
  destruct Hrep as (_ & (H0 & HA0 & HAd & _) & _).
  split; [done|]. split; [|split; [done|split; [by exists k'|done]]].
  split; [|split; [by etrans|done]].
  apply map_subseteq_spec. intros l x Hl.
  rewrite Hag; [by eapply lookup_weaken|].
  apply HA0, elem_of_dom. by exists x.
Qed.

(** A step that allocates nothing the record depends on. *)
Lemma rep_lists h0 (A : gset loc) n (h h' : Heap) b b' q q' :
  represents h0 A n h b q →
  frames h b h' b' →
  well_formed h' b' →
  (table b = GetTable q → tableAlias b = GetTableAlias q →
   distinct b = IsDistinct q →
   table b' = GetTable q' ∧ tableAlias b' = GetTableAlias q'
   ∧ distinct b' = IsDistinct q') →
  limit b' = limit b ∧ offset b' = offset b →
  GetLimit q' = GetLimit q ∧ GetOffset q' = GetOffset q →
  (∀ k, holds A k h (elems h <$> lists b) q →
        holds A k h (elems h' <$> lists b') q') →
  represents h0 A n h' b' q'.
Proof.
  intros Hrep Hfr Hwf Hsc (E4 & E5) (Q4 & Q5) Hh.
  pose proof (represents_agree _ _ _ _ _ _ _ _ Hrep Hfr) as Hag.
  pose proof (represents_apart _ _ _ _ _ _ _ _ Hrep Hfr) as Hap.
  pose proof (frames_size _ _ _ _ Hfr) as Hsz.
  pose proof Hrep as
    (_ & (_ & _ & HAd & _) & (T1 & T2 & T3) & (k & Hk & Hhold) & Hl & Ho).
  apply (rep_step h0 A A n k h h' b b' q q'); try done.
  - etrans; [done|]. by destruct Hfr as (D & _).
  - by apply Hsc.
  - lia.
  - eapply holds_mono; [by apply Hh|done|done|done].
  - rewrite E4, Q4. by eapply points_mono.
  - rewrite E5, Q5. by eapply points_mono.
Qed.

(** What the grammar reads of a builder that stands for a record. *)
Lemma represents_view h0 A n (h : Heap) b q :
  represents h0 A n h b q → asQueryBuilder h b = q.
Proof.
  intros (_ & _ & (T1 & T2 & T3) & (k & Hk & Hh) & [Hl _] & [Ho _]).
  unfold lists in Hh. cbn [fmap list_fmap holds] in Hh.
  destruct Hh as (Hc & Hw & Hor & Hj & Hg & Hhv).
  unfold asQueryBuilder. rewrite !read_wheres_S.
  rewrite (Hw h (size h)), (Hhv h (size h)) by (done || lia).
  unfold read_strings, read_orders, read_joins.
  rewrite T1, T2, T3, Hc, Hor, Hj, Hg, Hl, Ho. by destruct q.
Qed.


(** *** The lists after an append *)

Lemma omap_EString (cols : list string) :
  omap (λ e, match e with EString x => Some x | _ => None end)
    (EString <$> cols) = cols.
Proof. induction cols as [|c cols IH]; [done|]. cbn. by rewrite IH. Qed.

Lemma holds_columns A k (h : Heap) ls q cols :
  holds A k h ls q →
  holds A k h (alter (λ l, l ++ (EString <$> cols)) 0 ls) (add_columns cols q).
Proof.
  destruct ls as [|ec [|ew [|eo [|ej [|eg [|eh [|]]]]]]]; try done.
  intros (Hc & Hw & Ho & Hj & Hg & Hh). cbn.
  repeat split; try done. by rewrite omap_app, omap_EString, Hc.
Qed.

Lemma holds_where A k (h : Heap) ls q xs w :
  holds A k h ls q → settled A k h xs [w] →
  holds A k h (alter (λ l, l ++ xs) 1 ls) (add_where w q).
Proof.
  destruct ls as [|ec [|ew [|eo [|ej [|eg [|eh [|]]]]]]]; try done.
  intros (Hc & Hw & Ho & Hj & Hg & Hh) Hxs. cbn.
  repeat split; try done. by apply settled_app.
Qed.

Lemma holds_order A k (h : Heap) ls q o :
  holds A k h ls q →
  holds A k h (alter (λ l, l ++ [EOrder o]) 2 ls) (add_order o q).
Proof.
  destruct ls as [|ec [|ew [|eo [|ej [|eg [|eh [|]]]]]]]; try done.
  intros (Hc & Hw & Ho & Hj & Hg & Hh). cbn.
  repeat split; try done. by rewrite omap_app, Ho.
Qed.

Lemma holds_join A k (h : Heap) ls q j :
  holds A k h ls q →
  holds A k h (alter (λ l, l ++ [EJoin j]) 3 ls) (add_join j q).
Proof.
  destruct ls as [|ec [|ew [|eo [|ej [|eg [|eh [|]]]]]]]; try done.
  intros (Hc & Hw & Ho & Hj & Hg & Hh). cbn.
  repeat split; try done. by rewrite omap_app, Hj.
Qed.

Lemma holds_groupBy A k (h : Heap) ls q cols :
  holds A k h ls q →
  holds A k h (alter (λ l, l ++ (EString <$> cols)) 4 ls) (add_groupBy cols q).
Proof.
  destruct ls as [|ec [|ew [|eo [|ej [|eg [|eh [|]]]]]]]; try done.
  intros (Hc & Hw & Ho & Hj & Hg & Hh). cbn.
  repeat split; try done. by rewrite omap_app, omap_EString, Hg.
Qed.

Lemma holds_having A k (h : Heap) ls q xs w :
  holds A k h ls q → settled A k h xs [w] →
  holds A k h (alter (λ l, l ++ xs) 5 ls) (add_having w q).
Proof.
  destruct ls as [|ec [|ew [|eo [|ej [|eg [|eh [|]]]]]]]; try done.
  intros (Hc & Hw & Ho & Hj & Hg & Hh) Hxs. cbn.
  repeat split; try done. by apply settled_app.
Qed.

(** *** The calls, one by one *)

Lemma rep_appendWhere h0 A n (h : Heap) b q w c :
  represents h0 A n h b q →
  (∀ k, settled A k h [EWhere w] [c]) →
  represents h0 A n (appendWhere grow h b w).1
             (appendWhere grow h b w).2 (add_where c q).
Proof.
  intros Hrep Hw. pose proof Hrep as (Hwf & _).
  destruct (appendWhere_lists grow h b w Hwf) as [Hwf' E].
  eapply rep_lists; try done.
  - apply frames_appendWhere.
  - unfold appendWhere. by destruct (append _ _ _ _ _).
  - unfold appendWhere. by destruct (append _ _ _ _ _).
  - intros k Hh. rewrite E. by apply holds_where.
Qed.

Lemma rep_appendHaving h0 A n (h : Heap) b q w c :
  represents h0 A n h b q →
  (∀ k, settled A k h [EWhere w] [c]) →
  represents h0 A n (appendHaving grow h b w).1
             (appendHaving grow h b w).2 (add_having c q).
Proof.
  intros Hrep Hw. pose proof Hrep as (Hwf & _).
  destruct (appendHaving_lists grow h b w Hwf) as [Hwf' E].
  eapply rep_lists; try done.
  - apply frames_appendHaving.
  - unfold appendHaving. by destruct (append _ _ _ _ _).
  - unfold appendHaving. by destruct (append _ _ _ _ _).
  - intros k Hh. rewrite E. by apply holds_having.
Qed.

Lemma rep_appendJoin h0 A n (h : Heap) b q j :
  represents h0 A n h b q →
  represents h0 A n (appendJoin grow h b j).1
             (appendJoin grow h b j).2 (add_join j q).
Proof.
  intros Hrep. pose proof Hrep as (Hwf & _).
  destruct (appendJoin_lists grow h b j Hwf) as [Hwf' E].
  eapply rep_lists; try done.
  - apply frames_appendJoin.
  - unfold appendJoin. by destruct (append _ _ _ _ _).
  - unfold appendJoin. by destruct (append _ _ _ _ _).
  - intros k Hh. rewrite E. by apply holds_join.
Qed.

Lemma rep_appendOrder h0 A n (h : Heap) b q o :
  represents h0 A n h b q →
  represents h0 A n (appendOrder grow h b o).1
             (appendOrder grow h b o).2 (add_order o q).
Proof.
  intros Hrep. pose proof Hrep as (Hwf & _).
  destruct (appendOrder_lists grow h b o Hwf) as [Hwf' E].
  eapply rep_lists; try done.
  - apply frames_appendOrder.
  - unfold appendOrder. by destruct (append _ _ _ _ _).
  - unfold appendOrder. by destruct (append _ _ _ _ _).
  - intros k Hh. rewrite E. by apply holds_order.
Qed.

Lemma rep_columns h0 A n (h : Heap) b q cols :
  represents h0 A n h b q →
  let r := append grow (EString "") h (columns b) (EString <$> cols) in
  represents h0 A n r.1 (with_columns b r.2) (add_columns cols q).
Proof.
  intros Hrep r. pose proof Hrep as (Hwf & _).
  destruct (columns_lists grow h b (EString <$> cols) Hwf) as [Hwf' E].
  eapply rep_lists; try done.
  - apply frames_columns.
  - intros k Hh. subst r. rewrite E. by apply holds_columns.
Qed.

Lemma rep_groupBy h0 A n (h : Heap) b q cols :
  represents h0 A n h b q →
  let r := append grow (EString "") h (groupBy b) (EString <$> cols) in
  represents h0 A n r.1 (with_groupBy b r.2) (add_groupBy cols q).
Proof.
  intros Hrep r. pose proof Hrep as (Hwf & _).
  destruct (groupBy_lists grow h b (EString <$> cols) Hwf) as [Hwf' E].
  eapply rep_lists; try done.
  - apply frames_groupBy.
  - intros k Hh. subst r. rewrite E. by apply holds_groupBy.
Qed.

(** A call that sets a field and leaves the store and the lists. *)
Lemma rep_field h0 A n (h : Heap) b b' q q' :
  represents h0 A n h b q →
  lists b' = lists b →
  limit b' = limit b ∧ offset b' = offset b →
  (table b = GetTable q → tableAlias b = GetTableAlias q →
   distinct b = IsDistinct q →
   table b' = GetTable q' ∧ tableAlias b' = GetTableAlias q'
   ∧ distinct b' = IsDistinct q') →
  GetColumns q' = GetColumns q ∧ GetWheres q' = GetWheres q
  ∧ GetOrders q' = GetOrders q ∧ GetJoins q' = GetJoins q
  ∧ GetGroupBy q' = GetGroupBy q ∧ GetHaving q' = GetHaving q
  ∧ GetLimit q' = GetLimit q ∧ GetOffset q' = GetOffset q →
  represents h0 A n h b' q'.
Proof.
  intros Hrep Hl Hp Hsc (Q1 & Q2 & Q3 & Q4 & Q5 & Q6 & Q7 & Q8).
  pose proof Hrep as ([Hv Hnd] & _).
  eapply rep_lists; try done.
  - by apply frames_same_lists.
  - unfold well_formed. by rewrite Hl.
  - intros k. rewrite Hl. unfold lists. cbn [fmap list_fmap holds].
    by rewrite Q1, Q2, Q3, Q4, Q5, Q6.
Qed.


Lemma top_dom (h : Heap) b l : well_formed h b → l ∈ top b → l ∈ dom h.
Proof.
  intros [Hv _] (s & Ha & Hs)%elem_of_top%list_elem_of_fmap.
  rewrite Forall_forall in Hv. eapply valid_dom; [by apply Hv|done].
Qed.

Lemma top_same b b' : lists b' = lists b → top b' = top b.
Proof. unfold top. by intros ->. Qed.

(** A step that adds a new location to what the record depends on. *)
Lemma rep_alloc h0 (A : gset loc) n (h : Heap) b b' q q' x :
  represents h0 A n h b q →
  let l := fresh (dom h) in
  let h' := <[l := x]> h in
  lists b' = lists b →
  table b' = table b ∧ tableAlias b' = tableAlias b
  ∧ distinct b' = distinct b →
  GetTable q' = GetTable q ∧ GetTableAlias q' = GetTableAlias q
  ∧ IsDistinct q' = IsDistinct q ∧ GetColumns q' = GetColumns q
  ∧ GetWheres q' = GetWheres q ∧ GetOrders q' = GetOrders q
  ∧ GetJoins q' = GetJoins q ∧ GetGroupBy q' = GetGroupBy q
  ∧ GetHaving q' = GetHaving q →
  (points A h (limit b) (GetLimit q) →
   points (A ∪ {[l]}) h' (limit b') (GetLimit q')) →
  (points A h (offset b) (GetOffset q) →
   points (A ∪ {[l]}) h' (offset b') (GetOffset q')) →
  represents h0 (A ∪ {[l]}) n h' b' q'.
Proof.
  intros Hrep l h' Hls (E1 & E2 & E3)
    (Q1 & Q2 & Q3 & Q4 & Q5 & Q6 & Q7 & Q8 & Q9) Hlim Hoff.
  pose proof Hrep as
    (Hwf & (_ & _ & HAd & Htop) & (T1 & T2 & T3) & (k & Hk & Hh) & Hl & Ho).
  assert (l ∉ dom h) as Hfresh by apply fresh_not_in.
  assert (h ⊆ h') as Hsub by apply insert_fresh_subseteq.
  assert (frames h b h' b') as Hfr.
  { apply frames_extend; [done|]. intros l' Hl'. left.
    by rewrite <- (top_same b b'). }
  destruct (extend_lists h h' b b' Hsub Hls Hwf) as [Hwf' E].
  apply (rep_step h0 A (A ∪ {[l]}) n k h h' b b' q q'); try done.
  - apply union_subseteq_l.
  - apply union_subseteq; split.
    + etrans; [done|]. by apply subseteq_dom.
    + apply singleton_subseteq_l, elem_of_dom. eexists.
      apply lookup_insert_eq.
  - intros l' Hl'. rewrite (top_same b b') in Hl' by done.
    intros [Hin|Hin%elem_of_singleton]%elem_of_union.
    + by apply (Htop l').
    + apply Hfresh. rewrite <- Hin. by apply (top_dom h b).
  - by rewrite E1, E2, E3, Q1, Q2, Q3.
  - pose proof (frames_size _ _ _ _ Hfr). lia.
  - rewrite E. eapply holds_mono.
    + revert Hh. unfold lists. cbn [fmap list_fmap holds].
      by rewrite Q4, Q5, Q6, Q7, Q8, Q9.
    + apply union_subseteq_l.
    + done.
    + by apply (represents_agree _ _ _ _ _ _ _ _ Hrep Hfr).
  - by apply Hlim.
  - by apply Hoff.
Qed.

Lemma points_fresh (A : gset loc) (h : Heap) z :
  points (A ∪ {[fresh (dom h)]}) (<[fresh (dom h) := Int z]> h)
    (Some (fresh (dom h))) (Some z).
Proof.
  split.
  - cbn. by rewrite lookup_insert_eq.
  - intros l [= <-]. apply elem_of_union_r. by apply elem_of_singleton.
Qed.

Lemma points_kept (A : gset loc) (h : Heap) p z x :
  A ⊆ dom h →
  points A h p z →
  points (A ∪ {[fresh (dom h)]}) (<[fresh (dom h) := x]> h) p z.
Proof.
  intros HA Hp. eapply points_mono; [done|apply union_subseteq_l|].
  intros l Hl. apply lookup_insert_ne. intros <-.
  by apply (fresh_not_in h), HA.
Qed.

Lemma rep_Limit h0 A n (h : Heap) b q z :
  represents h0 A n h b q →
  represents h0 (A ∪ {[fresh (dom h)]}) n (Limit h b z).1 (Limit h b z).2
             (set_limit z q).
Proof.
  intros Hrep. pose proof Hrep as (_ & (_ & _ & HAd & _) & _).
  unfold Limit, addressOf. cbn [fst snd].
  apply (rep_alloc h0 A n h b (with_limit b (Some (fresh (dom h)))) q
           (set_limit z q) (Int z)); try done.
  - intros _. apply points_fresh.
  - intros Hp. by apply points_kept.
Qed.

Lemma rep_Offset h0 A n (h : Heap) b q z :
  represents h0 A n h b q →
  represents h0 (A ∪ {[fresh (dom h)]}) n (Offset h b z).1 (Offset h b z).2
             (set_offset z q).
Proof.
  intros Hrep. pose proof Hrep as (_ & (_ & _ & HAd & _) & _).
  unfold Offset, addressOf. cbn [fst snd].
  apply (rep_alloc h0 A n h b (with_offset b (Some (fresh (dom h)))) q
           (set_offset z q) (Int z)); try done.
  - intros Hp. by apply points_kept.
  - intros _. apply points_fresh.
Qed.

(** Two steps, one after the other. *)
Lemma rep_trans h0 (A : gset loc) n (h h1 h2 : Heap) b1 b2 q1 q2 :
  dom h ⊆ dom h1 →
  (∃ A1, A ⊆ A1 ∧ (∀ l, l ∈ A1 → l ∈ A ∨ l ∉ dom h)
         ∧ represents h0 A1 n h1 b1 q1) →
  (∀ A1, represents h0 A1 n h1 b1 q1 →
         ∃ A2, A1 ⊆ A2 ∧ (∀ l, l ∈ A2 → l ∈ A1 ∨ l ∉ dom h1)
               ∧ represents h0 A2 n h2 b2 q2) →
  ∃ A2, A ⊆ A2 ∧ (∀ l, l ∈ A2 → l ∈ A ∨ l ∉ dom h)
        ∧ represents h0 A2 n h2 b2 q2.
Proof.
  intros Hd (A1 & HA1 & Hn1 & Hr1) Hstep.
  destruct (Hstep A1 Hr1) as (A2 & HA2 & Hn2 & Hr2).
  exists A2. split; [by etrans|]. split; [|done].
  intros l Hl. destruct (Hn2 l Hl) as [Hin|Hout]; [by apply Hn1|].
  right. intros Hin. by apply Hout, Hd.
Qed.


(** *** New builders *)

Lemma size_make (h : Heap) zero n : size (make h zero n).1 = S (size h).
Proof.
  unfold make. cbn [fst]. apply map_size_insert_None, not_elem_of_dom.
  apply fresh_not_in.
Qed.

Lemma size_NewBuilder (h : Heap) e g sc :
  size (NewBuilder h e g sc).1 = size h + 6.
Proof.
  unfold NewBuilder.
  pose proof (size_make h (EString "") 0) as H1.
  destruct (make h (EString "") 0) as [h1 s1].
  pose proof (size_make h1 zeroWhere 0) as H2.
  destruct (make h1 zeroWhere 0) as [h2 s2].
  pose proof (size_make h2 zeroOrder 0) as H3.
  destruct (make h2 zeroOrder 0) as [h3 s3].
  pose proof (size_make h3 zeroJoin 0) as H4.
  destruct (make h3 zeroJoin 0) as [h4 s4].
  pose proof (size_make h4 (EString "") 0) as H5.
  destruct (make h4 (EString "") 0) as [h5 s5].
  pose proof (size_make h5 zeroWhere 0) as H6.
  destruct (make h5 zeroWhere 0) as [h6 s6].
  cbn [fst] in *. lia.
Qed.

Lemma NewBuilder_fields (h : Heap) e g sc :
  table (NewBuilder h e g sc).2 = ""
  ∧ tableAlias (NewBuilder h e g sc).2 = ""
  ∧ distinct (NewBuilder h e g sc).2 = false
  ∧ limit (NewBuilder h e g sc).2 = None
  ∧ offset (NewBuilder h e g sc).2 = None.
Proof. done. Qed.

(** A new builder stands for the empty record. *)
Lemma rep_new h0 (A : gset loc) n (h : Heap) e g sc :
  h0 ⊆ h → dom h0 ⊆ A → A ⊆ dom h → n ≤ size h + 6 →
  represents h0 A n (NewBuilder h e g sc).1 (NewBuilder h e g sc).2
    empty_query.
Proof.
  intros H0 HA0 HAd Hn.
  destruct (NewBuilder_well_formed h e g sc) as [Hwf E].
  destruct (NewBuilder_store h e g sc) as [Hsub Hfresh].
  destruct (NewBuilder_fields h e g sc) as (F1 & F2 & F3 & F4 & F5).
  split; [done|]. split; [|split; [done|split; [|by rewrite F4, F5]]].
  - split; [by etrans|]. split; [done|]. split.
    + etrans; [done|]. by apply subseteq_dom.
    + intros l Hl Hin. by apply (Hfresh l), HAd.
  - exists 0. split; [rewrite size_NewBuilder; lia|].
    rewrite E. cbn [holds]. repeat split; try done; apply settled_nil.
Qed.

(** *** [WhereBetween]: a literal, and then a clause over it *)

Lemma rep_between h0 A n (h : Heap) b q t bo c min max :
  represents h0 A n h b q →
  let r := literal h [EAny min; EAny max] in
  let w := mkWhereClauseM t bo c "" AnyNil r.2 nil_slice "" nil_slice in
  ∃ A'', A ⊆ A''
         ∧ (∀ l, l ∈ A'' → l ∈ A ∨ l ∉ dom h)
         ∧ represents h0 A'' n (appendWhere grow r.1 b w).1
             (appendWhere grow r.1 b w).2
             (add_where (flat t bo c "" AnyNil [min; max] "" []) q).
Proof.
  intros Hrep r w. pose proof Hrep as (_ & (_ & _ & HAd & _) & _ & _ & Hl & Ho).
  assert (represents h0 (A ∪ {[fresh (dom h)]}) n r.1 b q) as Hrep1.
  { apply (rep_alloc h0 A n h b b q q (Array [EAny min; EAny max]));
      try done; intros Hp; by apply points_kept. }
  exists (A ∪ {[fresh (dom h)]}). split; [apply union_subseteq_l|]. split.
  { intros l [Hin|Hin%elem_of_singleton]%elem_of_union; [by left|].
    right. rewrite Hin. apply fresh_not_in. }
  apply rep_appendWhere; [done|]. intros k.
  assert (read_anys r.1 r.2 = [min; max]) as <-.
  { unfold read_anys, elems. subst r. unfold literal. cbn [fst snd array len].
    by rewrite lookup_insert_eq. }
  apply (settled_flat _ k r.1 t bo c "" AnyNil r.2 "" nil_slice).
  - intros l [= <-]. apply elem_of_union_r. by apply elem_of_singleton.
  - done.
Qed.


(** *** [WhereNested]: a callback on a new builder, and then a group *)

Lemma appendWhere_fields h b w :
  table (appendWhere grow h b w).2 = table b
  ∧ tableAlias (appendWhere grow h b w).2 = tableAlias b
  ∧ distinct (appendWhere grow h b w).2 = distinct b
  ∧ limit (appendWhere grow h b w).2 = limit b
  ∧ offset (appendWhere grow h b w).2 = offset b.
Proof. unfold appendWhere. by destruct (append _ _ _ _ _). Qed.

Lemma rep_nested h0 A n (h : Heap) b q fn boolean qn :
  (∀ h1 nb, frames h1 nb (fn h1 nb).1 (fn h1 nb).2) →
  (∀ A1 n1 h1 nb,
     represents h0 A1 n1 h1 nb empty_query →
     ∃ A2, A1 ⊆ A2 ∧ (∀ l, l ∈ A2 → l ∈ A1 ∨ l ∉ dom h1)
           ∧ represents h0 A2 n1 (fn h1 nb).1 (fn h1 nb).2 qn) →
  represents h0 A n h b q →
  let '(h1, nested) := NewBuilder h (executor b) (grammar b) (scanner b) in
  let '(h2, nested') := fn h1 nested in
  let w := mkWhereClauseM WhereTypeNested boolean "" "" AnyNil nil_slice
             (wheres nested') "" nil_slice in
  ∃ A'', A ⊆ A''
         ∧ (∀ l, l ∈ A'' → l ∈ A ∨ l ∉ dom h)
         ∧ represents h0 A'' n (appendWhere grow h2 b w).1
             (appendWhere grow h2 b w).2
             (add_where (group boolean (GetWheres qn)) q).
Proof.
  intros Hfr Hfn Hrep.
  pose proof Hrep as
    (Hwf & (H0 & HA0 & HAd & Htop) & Hsc & (k & Hk & Hh) & Hl & Ho).
  pose proof (frames_WhereNested grow h b fn boolean Hfr) as Hcfr.
  pose proof (nested_where_lists grow h b fn boolean Hfr Hwf) as Hcls.
  pose proof (rep_new h0 A (size h + 5) h (executor b) (grammar b)
                (scanner b) H0 HA0 HAd ltac:(lia)) as Hnew.
  pose proof (size_NewBuilder h (executor b) (grammar b) (scanner b)) as Hsz1.
  destruct (NewBuilder_store h (executor b) (grammar b) (scanner b))
    as [Hsub Hfresh].
  destruct (NewBuilder h (executor b) (grammar b) (scanner b))
    as [h1 nested].
  cbn [fst snd] in *.
  destruct (Hfn A (size h + 5) h1 nested Hnew) as (A2 & HA2 & Hn2 & Hrep2).
  specialize (Hfr h1 nested).
  destruct (fn h1 nested) as [h2 nested']. cbn [fst snd] in *.
  set (sn := wheres nested').
  set (w := mkWhereClauseM WhereTypeNested boolean "" "" AnyNil nil_slice sn
              "" nil_slice).
  destruct Hcls as [Hwf3 E3]. fold sn in Hwf3, E3, Hcfr. fold w in Hwf3, E3, Hcfr.
  pose proof (frames_appendWhere grow h2 b w) as Hfr3.
  destruct (appendWhere_fields h2 b w) as (F1 & F2 & F3 & F4 & F5).
  pose proof Hrep2 as
    (Hwfn & (_ & _ & HAd2 & Htop2) & _ & (kn & Hkn & Hhn) & _).
  (* the stores, one after the other *)
  pose proof (subseteq_dom _ _ Hsub) as D1.
  destruct Hfr as (D2 & K2 & T2).
  pose proof Hfr3 as (D3 & K3 & T3).
  (* the array of the children *)
  assert (∀ l, array sn = Some l → l ∈ dom h2 ∧ l ∉ dom h) as Hsn.
  { intros l Hl'. destruct Hwfn as [Hv _]. rewrite Forall_forall in Hv.
    assert (sn ∈ lists nested') as Hmem.
    { unfold lists, sn. rewrite !elem_of_cons. tauto. }
    assert (valid h2 sn) as Hvs by by apply Hv.
    split; [by eapply valid_dom|].
    assert (l ∈ top nested') as Ht.
    { apply elem_of_top, list_elem_of_fmap. by exists sn. }
    destruct (T2 l Ht) as [Hold|Hout]; [by apply Hfresh|].
    intros Hd. by apply Hout, D1. }
  (* what [A2] holds is not an array of [b] *)
  assert (∀ l, l ∈ A2 → l ∉ top b) as Hap.
  { intros l Hin Ht. destruct (Hn2 l Hin) as [HinA|Hout].
    - by apply (Htop l).
    - by apply Hout, D1, (top_dom h b). }
  set (A' := A2 ∪ match array sn with Some l => {[l]} | None => ∅ end).
  assert (A2 ⊆ A') as HA2' by apply union_subseteq_l.
  assert (∀ l, array sn = Some l → l ∈ A') as HsnA.
  { intros l Hl'. subst A'. rewrite Hl'. apply elem_of_union_r.
    by apply elem_of_singleton. }
  assert (∀ l, l ∈ A' → l ∈ A2 ∨ array sn = Some l) as HA'inv.
  { intros l [Hin|Hin]%elem_of_union; [by left|]. right.
    destruct (array sn); [|by apply elem_of_empty in Hin].
    apply elem_of_singleton in Hin. by rewrite Hin. }
  assert (∀ l, l ∈ A' → l ∈ dom h2 ∧ l ∉ top b) as HA'2.
  { intros l [Hin|Hin]%HA'inv.
    - split; [by apply HAd2|by apply Hap].
    - destruct (Hsn l Hin) as [? Hout]. split; [done|].
      intros Ht. by apply Hout, (top_dom h b). }
  assert (∀ l, l ∈ A' → (appendWhere grow h2 b w).1 !! l = h2 !! l) as Hag3.
  { intros l Hin. destruct (HA'2 l Hin). by apply K3. }
  exists A'. split; [by etrans|]. split.
  { intros l [Hin|Hin]%HA'inv.
    - destruct (Hn2 l Hin) as [?|Hout]; [by left|]. right.
      intros ?. by apply Hout, D1.
    - right. by apply Hsn. }
  apply (rep_step h0 A A' n (k `max` S kn) h _ b _ q _ Hrep Hcfr Hwf3).
  - by etrans.
  - intros l Hin. destruct (HA'2 l Hin). by apply D3.
  - intros l Ht Hin. destruct (HA'2 l Hin) as [Hd Hnt].
    destruct (T3 l Ht) as [?|?]; done.
  - rewrite F1, F2, F3. done.
  - pose proof (frames_size _ _ _ _ Hfr3).
    assert (size h1 ≤ size h2).
    { rewrite <- !size_dom. by apply subseteq_size. }
    lia.
  - rewrite E3. apply holds_where.
    + eapply holds_mono; [exact Hh|by etrans|lia|].
      by apply (represents_agree _ _ _ _ _ _ _ _ Hrep Hcfr).
    + eapply settled_mono with (h := (appendWhere grow h2 b w).1);
        [|reflexivity|apply Nat.le_max_r|done].
      apply settled_group; [done|].
      rewrite (elems_agree h2 _ sn) by (intros l Hl'; by apply Hag3, HsnA).
      eapply settled_mono; [|exact HA2'|reflexivity|].
      * revert Hhn. unfold lists. cbn [fmap list_fmap holds].
        intros (_ & Hw & _). exact Hw.
      * intros l Hin. by apply Hag3, HA2'.
  - rewrite F4. eapply points_mono; [exact Hl|by etrans|].
    by apply (represents_agree _ _ _ _ _ _ _ _ Hrep Hcfr).
  - rewrite F5. eapply points_mono; [exact Ho|by etrans|].
    by apply (represents_agree _ _ _ _ _ _ _ _ Hrep Hcfr).
Qed.


(** *** Chains *)

Lemma rep_pack h0 (A : gset loc) n (h h' : Heap) b' q' :
  represents h0 A n h' b' q' →
  ∃ A'', A ⊆ A'' ∧ (∀ l, l ∈ A'' → l ∈ A ∨ l ∉ dom h)
         ∧ represents h0 A'' n h' b' q'.
Proof. intros H. exists A. split; [done|]. split; [by left|done]. Qed.

Lemma rep_pack_fresh h0 (A : gset loc) n (h h' : Heap) b' q' :
  represents h0 (A ∪ {[fresh (dom h)]}) n h' b' q' →
  ∃ A'', A ⊆ A'' ∧ (∀ l, l ∈ A'' → l ∈ A ∨ l ∉ dom h)
         ∧ represents h0 A'' n h' b' q'.
Proof.
  intros H. exists (A ∪ {[fresh (dom h)]}).
  split; [apply union_subseteq_l|]. split; [|done].
  intros l [Hin|Hin%elem_of_singleton]%elem_of_union; [by left|].
  right. rewrite Hin. apply fresh_not_in.
Qed.

(** A clause over slices that the caller gave. *)
Lemma settled_arg h0 A n (h : Heap) b q k t bo c o v vs r bs :
  represents h0 A n h b q →
  valid h0 vs → valid h0 bs →
  settled A k h
    [EWhere (mkWhereClauseM t bo c o v vs nil_slice r bs)]
    [flat t bo c o v (read_anys h0 vs) r (read_anys h0 bs)].
Proof.
  intros (_ & (H0 & HA0 & _) & _) Hvs Hbs.
  assert (read_anys h vs = read_anys h0 vs) as <-.
  { unfold read_anys. by rewrite (elems_weaken h0 h). }
  assert (read_anys h bs = read_anys h0 bs) as <-.
  { unfold read_anys. by rewrite (elems_weaken h0 h). }
  apply settled_flat; intros l Hl; apply HA0;
    [by apply (valid_dom h0 vs)|by apply (valid_dom h0 bs)].
Qed.

Lemma valid_nil_slice (h : Heap) : valid h nil_slice.
Proof. done. Qed.

Lemma rep_run_with h0 fn :
  Forall (λ c, ∀ A n h b q,
            represents h0 A n h b q →
            Forall (valid h0) (slices c) →
            ∃ A', A ⊆ A' ∧ (∀ l, l ∈ A' → l ∈ A ∨ l ∉ dom h)
                  ∧ represents h0 A' n (run_call grow c h b).1
                      (run_call grow c h b).2 (record_call h0 c q)) fn →
  ∀ A n h b q,
    represents h0 A n h b q →
    Forall (valid h0) (flat_map slices fn) →
    ∃ A', A ⊆ A' ∧ (∀ l, l ∈ A' → l ∈ A ∨ l ∉ dom h)
          ∧ represents h0 A' n (run_with (run_call grow) fn h b).1
              (run_with (run_call grow) fn h b).2
              (record_with (record_call h0) fn q).
Proof.
  induction 1 as [|c fn Hc _ IH]; intros A n h b q Hrep Hsl;
    cbn [run_with record_with flat_map] in *.
  { by apply rep_pack. }
  apply Forall_app in Hsl as [Hsl1 Hsl2].
  specialize (Hc A n h b q Hrep Hsl1).
  pose proof (frames_run_call grow c h b) as (D & _).
  destruct (run_call grow c h b) as [h1 b1]. cbn [fst snd] in *.
  eapply rep_trans; [exact D|exact Hc|].
  intros A1 Hrep1. by apply IH.
Qed.


(** Closes the case of a call that appends a clause without children. *)
Ltac flat_clause Hrep Hsl :=
  first [apply rep_pack, rep_appendWhere | apply rep_pack, rep_appendHaving];
  [exact Hrep|];
  intros k;
  first [eapply (settled_arg _ _ _ _ _ _ _ _ _ _ _ _ nil_slice _ nil_slice
                   Hrep); apply valid_nil_slice
        |eapply (settled_arg _ _ _ _ _ _ _ _ _ _ _ _ _ _ nil_slice Hrep);
         [by apply Forall_cons in Hsl as [? _]|apply valid_nil_slice]
        |eapply (settled_arg _ _ _ _ _ _ _ _ _ _ _ _ nil_slice _ _ Hrep);
         [apply valid_nil_slice|by apply Forall_cons in Hsl as [? _]]].

Lemma rep_run_call h0 c : ∀ A n h b q,
  represents h0 A n h b q →
  Forall (valid h0) (slices c) →
  ∃ A', A ⊆ A' ∧ (∀ l, l ∈ A' → l ∈ A ∨ l ∉ dom h)
        ∧ represents h0 A' n (run_call grow c h b).1 (run_call grow c h b).2
            (record_call h0 c q).
Proof.
  induction c as [c IH] using call_nested_ind. intros A n h b q Hrep Hsl.
  destruct c; cbn [run_call record_call slices] in *;
    unfold Where, OrWhere, WhereIn, WhereNotIn, OrWhereIn, OrWhereNotIn,
      WhereNull, WhereNotNull, OrWhereNull, OrWhereNotNull, WhereLike,
      WhereNotLike, WhereRaw, OrWhereRaw, WhereDate, WhereYear, WhereMonth,
      WhereDay, Having, HavingRaw, Latest, Oldest, OrderByAsc, OrderByDesc,
      OrderBy, OrderByRaw, Join, LeftJoin, RightJoin, CrossJoin, Take, Skip,
      From, Table, TableAs, Distinct;
    try first [flat_clause Hrep Hsl
              |by apply rep_pack, rep_appendJoin
              |by apply rep_pack, rep_appendOrder
              |by apply rep_pack_fresh, rep_Limit
              |by apply rep_pack_fresh, rep_Offset
              |by apply rep_pack, (rep_field h0 A n h b _ q _ Hrep)].
  - unfold Select. pose proof (rep_columns h0 A n h b q columns0 Hrep) as H.
    cbv zeta in H. destruct (append _ _ _ _ _). by apply rep_pack.
  - unfold SelectRaw. pose proof (rep_columns h0 A n h b q [expr] Hrep) as H.
    cbv zeta in H. cbn [fmap list_fmap] in H.
    destruct (append _ _ _ _ _). by apply rep_pack.
  - unfold WhereBetween.
    pose proof (rep_between h0 A n h b q WhereTypeBetween WhereBooleanAnd
                  column min max Hrep) as H.
    cbv zeta in H. by destruct (literal _ _).
  - unfold WhereNotBetween.
    pose proof (rep_between h0 A n h b q WhereTypeNotBetween WhereBooleanAnd
                  column min max Hrep) as H.
    cbv zeta in H. by destruct (literal _ _).
  - unfold WhereNested.
    pose proof (rep_nested h0 A n h b q (run_with (run_call grow) fn)
                  WhereBooleanAnd
                  (record_with (record_call h0) fn empty_query)) as H.
    destruct (NewBuilder _ _ _ _). destruct (run_with _ _ _ _).
    apply H; [| |done].
    + intros h1 nb. apply frames_run_with, Forall_forall.
      intros c _. apply frames_run_call.
    + intros A1 n1 h1 nb Hnb. apply rep_run_with; [by apply IH|done|done].
  - unfold OrWhereNested.
    pose proof (rep_nested h0 A n h b q (run_with (run_call grow) fn)
                  WhereBooleanOr
                  (record_with (record_call h0) fn empty_query)) as H.
    destruct (NewBuilder _ _ _ _). destruct (run_with _ _ _ _).
    apply H; [| |done].
    + intros h1 nb. apply frames_run_with, Forall_forall.
      intros c _. apply frames_run_call.
    + intros A1 n1 h1 nb Hnb. apply rep_run_with; [by apply IH|done|done].
  - unfold GroupBy. pose proof (rep_groupBy h0 A n h b q columns0 Hrep) as H.
    cbv zeta in H. destruct (append _ _ _ _ _). by apply rep_pack.
  - unfold ForPage. cbv zeta.
    pose proof (rep_Limit h0 A n h b q perPage Hrep) as H1.
    pose proof (frames_Limit h b perPage) as (D & _).
    destruct (Limit h b perPage) as [h1 b1]. cbn [fst snd] in *.
    eapply rep_trans; [exact D|by apply rep_pack_fresh|].
    intros A1 Hrep1. by apply rep_pack_fresh, rep_Offset.
  - apply rep_pack.
    pose proof Hrep as (_ & (H0 & HA0 & HAd & _) & _ & (k & Hk & _) & _).
    apply (rep_new h0 A n h (executor b) (grammar b) (scanner b));
      try done. lia.
  - unfold When. destruct condition; [|by apply rep_pack].
    apply rep_run_with; [by apply IH|done|done].
  - unfold Unless, When. destruct condition; [by apply rep_pack|].
    apply rep_run_with; [by apply IH|done|done].
Qed.

Lemma rep_run h0 calls A n h b q :
  represents h0 A n h b q →
  Forall (valid h0) (flat_map slices calls) →
  ∃ A', represents h0 A' n (run grow calls h b).1 (run grow calls h b).2
          (record h0 calls q).
Proof.
  intros Hrep Hsl.
  destruct (rep_run_with h0 calls
              (proj2 (Forall_forall _ _) (λ c _, rep_run_call h0 c))
              A n h b q Hrep Hsl) as (A' & _ & _ & H).
  by exists A'.
Qed.


(** X26. What the grammar reads of a builder after a chain of fluent calls is
    the record of the chain. For a builder from [NewBuilder] and calls
    whose slice arguments are slices of the store, the getters return the
    table, the alias, the columns, the predicates (a group with the
    predicates of its callback, to any depth of nesting), the orders, the
    joins, the grouping, the limit and the offset that the calls gave, in
    the order of the calls, counted from the last [Reset]; and [ToSQL]
    returns what the grammar compiles of that record. *)
Theorem chain_is_read_as_its_record
    (calls : list call) (h : Heap) (e : option loc) (g : Grammar)
    (sc : option loc) :
  Forall (valid h) (flat_map slices calls) →
  let r := run grow calls (NewBuilder h e (Some g) sc).1
             (NewBuilder h e (Some g) sc).2 in
  asQueryBuilder r.1 r.2 = record h calls empty_query
  ∧ ToSQL r.1 r.2
    = (g_CompileSelect g (record h calls empty_query),
       [CallCompileSelect (record h calls empty_query)]).
Proof.
  intros Hsl r.
  assert (represents h (dom h) 0 (NewBuilder h e (Some g) sc).1
            (NewBuilder h e (Some g) sc).2 empty_query) as Hnew.
  { apply rep_new; try done. lia. }
  destruct (rep_run h calls (dom h) 0 _ _ _ Hnew Hsl) as (A' & Hrep).
  apply represents_view in Hrep. fold r in Hrep.
  split; [done|].
  assert (grammar r.2 = Some g ∧ err r.2 = None) as [Hg He].
  { pose proof (fields_run_with grow calls) as H. subst r. unfold run.
    destruct (H (proj2 (Forall_forall _ _)
                   (λ c _ h0 b0, fields_run_call grow c h0 b0))
                (NewBuilder h e (Some g) sc).1
                (NewBuilder h e (Some g) sc).2) as (_ & Hg & _ & He).
    split; [by rewrite Hg|]. by destruct He as [He|He]; rewrite He. }
  unfold ToSQL, ToSelectSQL. by rewrite He, Hg, Hrep.
Qed.


(** *** Two builders *)

Lemma record_with_app f (calls calls' : list call) q :
  record_with f (calls ++ calls') q = record_with f calls' (record_with f calls q).
Proof.
  revert q. induction calls as [|c calls IH]; intros q; [done|].
  cbn [app record_with]. apply IH.
Qed.

(** A builder stands for its record while another one is called, when
    the arrays of the other one are apart from what it depends on. *)
Lemma rep_frame h0 A n (h h' : Heap) b q c c' :
  represents h0 A n h b q →
  frames h c h' c' →
  (∀ l, l ∈ top c → (l ∉ A) ∧ (l ∉ top b)) →
  represents h0 A n h' b q ∧ (∀ l, l ∈ top c' → (l ∉ A) ∧ (l ∉ top b)).
Proof.
  intros Hrep (D & K & T) Hc.
  pose proof Hrep as
    (Hwf & (H0 & HA0 & HAd & Htop) & Hsc & (k & Hk & Hh) & Hl & Ho).
  assert (∀ l, l ∈ top c' → (l ∉ A) ∧ (l ∉ top b)) as Hc'.
  { intros l Hl'. destruct (T l Hl') as [Hin|Hout]; [by apply Hc|].
    split; intros Hin; apply Hout; [by apply HAd|by apply (top_dom h b)]. }
  split; [|done].
  assert (∀ l, l ∈ A → h' !! l = h !! l) as Hag.
  { intros l Hin. apply K; [by apply HAd|]. intros Ht.
    by destruct (Hc l Ht). }
  assert (∀ l, l ∈ top b → h' !! l = h !! l) as Hagb.
  { intros l Hin. apply K; [by apply (top_dom h b)|]. intros Ht.
    by destruct (Hc l Ht). }
  assert (Forall (λ s, valid h' s ∧ elems h' s = elems h s) (lists b)) as Hls.
  { destruct Hwf as [Hv _]. rewrite Forall_forall in Hv.
    apply Forall_forall. intros s Hs.
    apply valid_agree; [|by apply Hv]. intros l Hl'.
    apply Hagb, elem_of_top, list_elem_of_fmap. by exists s. }
  assert (elems h' <$> lists b = elems h <$> lists b) as E.
  { apply Forall_fmap_ext. eapply Forall_impl; [exact Hls|]. by intros s [_ ?]. }
  split; [|split; [|split; [done|split; [|split]]]].
  - destruct Hwf as [_ Hnd]. split; [|done].
    eapply Forall_impl; [exact Hls|]. by intros s [? _].
  - split; [|split; [done|split; [by etrans|done]]].
    apply map_subseteq_spec. intros l x Hx.
    rewrite Hag; [by eapply lookup_weaken|].
    apply HA0, elem_of_dom. by exists x.
  - exists k. split.
    + assert (size h ≤ size h'); [|lia].
      rewrite <- !size_dom. by apply subseteq_size.
    + rewrite E. by eapply holds_mono.
  - by eapply points_mono.
  - by eapply points_mono.
Qed.

(** [Clone]: the builder and its clone stand for the same record, over
    arrays that are apart. *)
Lemma rep_Clone h0 A n (h : Heap) b q :
  represents h0 A n h b q →
  represents h0 A n (Clone h b).1 b q
  ∧ represents h0 A n (Clone h b).1 (Clone h b).2 q
  ∧ (∀ l, l ∈ top (Clone h b).2 → l ∉ top b).
Proof.
  intros Hrep.
  pose proof Hrep as
    ([Hv Hnd] & (H0 & HA0 & HAd & Htop) & (T1 & T2 & T3) & (k & Hk & Hh)
     & Hl & Ho).
  destruct (Clone h b) as [h1 c] eqn:E. cbn [fst snd].
  destruct (Clone_well_formed h b h1 c Hv E) as (Hsub & Hvc & Hndc & Hfr).
  destruct (Clone_copies_the_top_level h b h1 c Hv E)
    as ((C1 & C2 & C3 & C4 & C5 & _) & _ & _ & Hcopy & _).
  assert (size h ≤ size h1) as Hsz.
  { rewrite <- !size_dom. by apply subseteq_size, subseteq_dom. }
  assert (∀ l, l ∈ A → h1 !! l = h !! l) as Hag.
  { intros l [x Hx]%HAd%elem_of_dom. rewrite Hx. by eapply lookup_weaken. }
  assert (elems h1 <$> lists b = elems h <$> lists b) as Eb.
  { apply Forall_fmap_ext. eapply Forall_impl; [exact Hv|].
    intros s. by apply elems_weaken. }
  assert (elems h1 <$> lists c = elems h <$> lists b) as Ec.
  { symmetry. apply list_eq_Forall2, Forall2_fmap.
    eapply Forall2_impl; [exact Hcopy|]. by intros s s' [_ ->]. }
  split; [|split].
  - split; [|split; [|split; [done|split; [|split]]]].
    + split; [|done]. eapply Forall_impl; [exact Hv|].
      intros s. by apply valid_weaken.
    + split; [by etrans|]. split; [done|]. split; [|done].
      etrans; [done|]. by apply subseteq_dom.
    + exists k. split; [lia|]. rewrite Eb. by eapply holds_mono.
    + by eapply points_mono.
    + by eapply points_mono.
  - split; [|split; [|split; [|split; [|split]]]].
    + by split.
    + split; [by etrans|]. split; [done|]. split.
      * etrans; [done|]. by apply subseteq_dom.
      * intros l Hl' Hin. by apply (Hfr l Hl'), HAd.
    + by rewrite C1, C2, C3.
    + exists k. split; [lia|]. rewrite Ec. by eapply holds_mono.
    + rewrite C4. by eapply points_mono.
    + rewrite C5. by eapply points_mono.
  - intros l Hl' Hin. apply (Hfr l Hl'). by apply (top_dom h b).
Qed.


(** X27. As far as fluent calls go, [Clone] is a copy: after calls on a
    builder from [NewBuilder], a [Clone], further calls on the clone and
    then further calls on the builder, the grammar reads of the clone the
    record of the calls before the [Clone] followed by those on the clone,
    and of the builder the record of the calls before the [Clone] followed
    by those on the builder; neither sees the calls on the other. *)
Theorem Clone_is_a_copy_for_fluent_calls
    (before onClone onBuilder : list call) (h : Heap) (e : option loc)
    (g : Grammar) (sc : option loc) :
  Forall (valid h) (flat_map slices before) →
  Forall (valid h) (flat_map slices onClone) →
  Forall (valid h) (flat_map slices onBuilder) →
  let r1 := run grow before (NewBuilder h e (Some g) sc).1
              (NewBuilder h e (Some g) sc).2 in
  let cl := Clone r1.1 r1.2 in
  let r2 := run grow onClone cl.1 cl.2 in
  let r3 := run grow onBuilder r2.1 r1.2 in
  asQueryBuilder r3.1 r2.2 = record h (before ++ onClone) empty_query
  ∧ asQueryBuilder r3.1 r3.2 = record h (before ++ onBuilder) empty_query.
Proof.
  intros Hsl1 Hsl2 Hsl3 r1 cl r2 r3.
  pose proof (λ calls, rep_run_with h calls
                (proj2 (Forall_forall _ _) (λ c _, rep_run_call h c)))
    as Hrun.
  assert (represents h (dom h) 0 (NewBuilder h e (Some g) sc).1
            (NewBuilder h e (Some g) sc).2 empty_query) as Hnew.
  { apply rep_new; try done. lia. }
  destruct (Hrun before _ _ _ _ _ Hnew Hsl1) as (A1 & _ & _ & Hr1).
  fold (run grow) in Hr1. fold r1 in Hr1.
  destruct (rep_Clone h A1 0 r1.1 r1.2 _ Hr1) as (Hb & Hc & Hap).
  fold cl in Hb, Hc, Hap.
  destruct (Hrun onClone _ _ _ _ _ Hc Hsl2) as (A2 & HA2 & Hn2 & Hr2).
  fold (run grow) in Hr2. fold r2 in Hr2.
  pose proof (frames_run grow onClone cl.1 cl.2) as Hfr2. fold r2 in Hfr2.
  destruct (rep_frame h A1 0 cl.1 r2.1 r1.2 _ cl.2 r2.2 Hb Hfr2)
    as [Hb2 Hap2].
  { intros l Hl. split; [|by apply Hap].
    destruct Hc as (_ & (_ & _ & _ & Htop) & _). by apply Htop. }
  destruct (Hrun onBuilder _ _ _ _ _ Hb2 Hsl3) as (A3 & _ & _ & Hr3).
  fold (run grow) in Hr3. fold r3 in Hr3.
  pose proof (frames_run grow onBuilder r2.1 r1.2) as Hfr3. fold r3 in Hfr3.
  destruct (rep_frame h A2 0 r2.1 r3.1 r2.2 _ r1.2 r3.2 Hr2 Hfr3)
    as [Hc3 _].
  { intros l Hl. split.
    - intros Hin. destruct (Hn2 l Hin) as [HinA|Hout].
      + destruct Hb as (_ & (_ & _ & _ & Htop) & _). by apply (Htop l).
      + destruct Hb as (Hwf & _). by apply Hout, (top_dom cl.1 r1.2).
    - intros Hin. by destruct (Hap2 l Hin). }
  apply represents_view in Hc3, Hr3.
  unfold record. by rewrite !record_with_app.
Qed.

End chain_record.

Lemma chain_is_read_as_its_record_witness :
  Forall (valid sample.heap) (flat_map slices sample.session)
  ∧ (fluentsql.ToSQL
       (run sample.doubling sample.session
          (fluentsql.NewBuilder sample.heap None (Some (MySQL map_keys))
             None).1
          (fluentsql.NewBuilder sample.heap None (Some (MySQL map_keys))
             None).2).1
       (run sample.doubling sample.session
          (fluentsql.NewBuilder sample.heap None (Some (MySQL map_keys))
             None).1
          (fluentsql.NewBuilder sample.heap None (Some (MySQL map_keys))
             None).2).2).1
    = ("SELECT * FROM `users` WHERE `id` IN (?, ?, ?) AND (`a` = ?)",
       Some [AnyInt 1; AnyInt 2; AnyInt 3; AnyInt 1], None).
Proof.
  assert (Forall (valid sample.heap) (flat_map slices sample.session)) as H.
  { repeat constructor. apply sample_vals_valid. }
  split; [exact H|].
  destruct (chain_is_read_as_its_record sample.doubling sample.session
              sample.heap None (MySQL map_keys) None H) as [_ E].
  rewrite E. by vm_compute.
Defined.

Lemma Clone_is_a_copy_for_fluent_calls_witness :
  Forall (valid sample.heap) (flat_map slices sample.session)
  ∧ fluentsql.asQueryBuilder sample.afterBuilder.1 sample.afterClone.2
    = record sample.heap (sample.session ++ sample.chain) empty_query
  ∧ fluentsql.asQueryBuilder sample.afterBuilder.1 sample.afterBuilder.2
    = record sample.heap (sample.session ++ [CallWhereNull "deleted_at"])
        empty_query.
Proof.
  assert (Forall (valid sample.heap) (flat_map slices sample.session)) as H.
  { repeat constructor. apply sample_vals_valid. }
  split; [exact H|].
  apply (Clone_is_a_copy_for_fluent_calls sample.doubling sample.session
           sample.chain [CallWhereNull "deleted_at"] sample.heap None
           (MySQL map_keys) None H); apply Forall_nil_2.
Defined.

(** ** The methods that run a statement *)

Section execution.
Import fluentsql.

Variable grow : nat → nat → nat.
Variables Ctx Dest Rows Row SqlResult Foreign : Type.
Variable is_ErrNoRows : Foreign → bool.
Variable executors : loc → QueryExecutor Ctx Rows Row SqlResult Foreign.
Variable scanners : loc → Scanner Dest Rows Row Foreign.
Variable Scan_int64 : Row → Z * option Foreign.
Variable Scan_bool : Row → bool * option Foreign.

(** The store and the builder after [FirstContext] are those after
    [Limit(1)], however the call ends. *)
Lemma FirstContext_state (h : Heap) b ctx dest :
  (FirstContext executors scanners h b ctx dest).1.1 = Limit h b 1.
Proof.
  unfold FirstContext. destruct (Limit h b 1) as [h' b'].
  destruct (executor b'); [|done].
  destruct (ToSelectSQL h' b').1 as [[sqlStr args] [err|]]; [done|].
  by destruct (scanner b').
Qed.

(** [GetContext] leaves the store and the builder as they are. *)
Lemma GetContext_state (h : Heap) b ctx dest :
  (GetContext executors scanners h b ctx dest).1.1 = (h, b).
Proof.
  unfold GetContext. destruct (executor b); [|done].
  destruct (ToSelectSQL h b).1 as [[sqlStr args] [err|]]; [done|].
  destruct (QueryContext _ _ _ _) as [rows [err|]]; [done|].
  by destruct (scanner b).
Qed.

Lemma Limit_fields (h : Heap) b z :
  executor (Limit h b z).2 = executor b
  ∧ grammar (Limit h b z).2 = grammar b
  ∧ scanner (Limit h b z).2 = scanner b
  ∧ err (Limit h b z).2 = err b.
Proof. done. Qed.

Lemma handed_GetContext (h : Heap) b ctx dest :
  handed (GetContext executors scanners h b ctx dest).2
  = match executor b with
    | Some _ => dispatched SentQuery (ToSelectSQL h b).1
    | None => []
    end.
Proof.
  unfold GetContext. destruct (executor b) as [ex|]; [|done].
  destruct (ToSelectSQL h b).1 as [[sqlStr args] [err|]]; [done|].
  destruct (QueryContext _ _ _ _) as [rows [err|]]; [done|].
  by destruct (scanner b).
Qed.

Lemma handed_FirstContext (h : Heap) b ctx dest :
  handed (FirstContext executors scanners h b ctx dest).2
  = match executor b with
    | Some _ =>
        dispatched SentQueryRow (ToSelectSQL (Limit h b 1).1 (Limit h b 1).2).1
    | None => []
    end.
Proof.
  unfold FirstContext.
  destruct (Limit_fields h b 1) as (He & _).
  destruct (Limit h b 1) as [h' b']. cbn [fst snd] in *. rewrite He.
  destruct (executor b) as [ex|]; [|done].
  destruct (ToSelectSQL h' b').1 as [[sqlStr args] [err|]]; [done|].
  by destruct (scanner b').
Qed.

Lemma handed_exec op compiled (h : Heap) b ctx :
  handed (exec (Dest:=Dest) executors op compiled h b ctx).2
  = match executor b with
    | Some _ => dispatched SentExec compiled
    | None => []
    end.
Proof.
  unfold exec. destruct (executor b) as [ex|]; [|done].
  destruct compiled as [[sqlStr args] [err|]]; [done|].
  by destruct (ExecContext _ _ _ _) as [result [err|]].
Qed.

(** X28. [First] is not a read of the builder: it leaves LIMIT 1 on it. For
    a builder from [NewBuilder] after a chain of fluent calls, the grammar
    reads of the builder after [FirstContext] the record of the chain with
    the limit 1, whatever limit the chain gave and however the call ends;
    [FirstContext] hands to the executor what the grammar compiles of that
    record, and so does a [GetContext] on the builder afterwards, which
    itself leaves the store and the builder as they are. *)
Theorem First_leaves_its_limit_on_the_builder
    (calls : list call) (h : Heap) (e : option loc) (g : Grammar)
    (sc : option loc) (ctx ctx' : Ctx) (dest dest' : Dest) :
  Forall (valid h) (flat_map slices calls) →
  let r := run grow calls (NewBuilder h e (Some g) sc).1
             (NewBuilder h e (Some g) sc).2 in
  let q := set_limit 1 (record h calls empty_query) in
  let first := FirstContext executors scanners r.1 r.2 ctx dest in
  let get :=
    GetContext executors scanners first.1.1.1 first.1.1.2 ctx' dest' in
  asQueryBuilder first.1.1.1 first.1.1.2 = q
  ∧ handed first.2
    = match e with
      | Some _ => dispatched SentQueryRow (g_CompileSelect g q)
      | None => []
      end
  ∧ handed get.2
    = match e with
      | Some _ => dispatched SentQuery (g_CompileSelect g q)
      | None => []
      end
  ∧ get.1.1 = first.1.1.
Proof.
  intros Hsl r q first get.
  assert (represents h (dom h) 0 (NewBuilder h e (Some g) sc).1
            (NewBuilder h e (Some g) sc).2 empty_query) as Hnew.
  { apply rep_new; try done. lia. }
  destruct (rep_run grow h calls (dom h) 0 _ _ _ Hnew Hsl) as (A' & Hrep).
  fold r in Hrep. apply (rep_Limit _ _ _ _ _ _ 1%Z) in Hrep.
  apply represents_view in Hrep. fold q in Hrep.
  assert (executor r.2 = e ∧ grammar r.2 = Some g ∧ err r.2 = None)
    as (Hex & Hg & He).
  { pose proof (fields_run_with grow calls) as H. subst r. unfold run.
    destruct (H (proj2 (Forall_forall _ _)
                   (λ c _ h0 b0, fields_run_call grow c h0 b0))
                (NewBuilder h e (Some g) sc).1
                (NewBuilder h e (Some g) sc).2) as (Hex & Hg & _ & He).
    split; [by rewrite Hex|]. split; [by rewrite Hg|].
    by destruct He as [He|He]; rewrite He. }
  destruct (Limit_fields r.1 r.2 1) as (Hex' & Hg' & _ & He').
  rewrite Hex in Hex'. rewrite Hg in Hg'. rewrite He in He'.
  assert (first.1.1 = Limit r.1 r.2 1) as Hst
    by apply FirstContext_state.
  assert ((ToSelectSQL (Limit r.1 r.2 1).1 (Limit r.1 r.2 1).2).1
          = g_CompileSelect g q) as Hc.
  { unfold ToSelectSQL. by rewrite He', Hg', Hrep. }
  split; [by rewrite Hst|]. split; [|split].
  - subst first. by rewrite handed_FirstContext, Hex, Hc.
  - subst get. by rewrite handed_GetContext, Hst, Hex', Hc.
  - subst get. rewrite GetContext_state. by destruct first.1.1.
Qed.

(** X29. [DoesntExist] says true whenever it returns an error: without an
    executor, when the statement does not compile, and when the scan of
    the row fails, it returns true beside the error, since [Exists] returns
    false beside it; the calls made outside are those of [Exists]. *)
Theorem DoesntExist_is_true_beside_every_error
    (h : Heap) (b : Builder) (ctx : Ctx) (v : bool)
    (err : failure Foreign) :
  (DoesntExistContext (Dest:=Dest) executors Scan_bool h b ctx).1.2
  = Return (v, Some err) →
  v = true
  ∧ (ExistsContext (Dest:=Dest) executors Scan_bool h b ctx).1.2
    = Return (false, Some err)
  ∧ (DoesntExistContext (Dest:=Dest) executors Scan_bool h b ctx).2
    = (ExistsContext (Dest:=Dest) executors Scan_bool h b ctx).2.
Proof.
  unfold DoesntExistContext.
  assert (∀ x e', (ExistsContext (Dest:=Dest) executors Scan_bool h b ctx).1.2
                  = Return (x, Some e') → x = false) as Hf.
  { unfold ExistsContext. intros x e'.
    destruct (executor b); [|by intros [= <- _]].
    destruct (grammar b) as [g|]; [|done].
    destruct (g_CompileExists _ _) as [[sqlStr args] [ce|]];
      [by intros [= <- _]|].
    by destruct (Scan_bool _) as [ex [se|]]; intros [= <- ?]. }
  destruct (ExistsContext _ _ _ _ _) as [[[h' b'] [[x e']|]] calls];
    cbn [fst snd] in *; [|done].
  intros [= <- ->]. rewrite (Hf x err eq_refl). done.
Qed.

(** X30. Only a compiled statement reaches the executor, and it reaches it
    once. Of the calls a method makes outside the core, those on the
    executor are: none without an executor and none when the statement does
    not compile; else one call, with the text and the arguments that were
    compiled, of [QueryContext] for [Get], of [QueryRowContext] for
    [First] (compiled after its [Limit(1)]), [Count] and [Exists], and of
    [ExecContext] for [Insert], [Update] and [Delete]. [Count] and [Exists]
    compile with the grammar itself, whatever error the builder holds. *)
Theorem only_a_compiled_statement_reaches_the_executor
    (h : Heap) (b : Builder) (ctx : Ctx) (dest : Dest)
    (data : gmap string any) :
  let ready (compiled : result) method :=
    match executor b with
    | Some _ => dispatched (Dest:=Dest) method compiled
    | None => []
    end in
  handed (GetContext executors scanners h b ctx dest).2
  = ready (ToSelectSQL h b).1 SentQuery
  ∧ handed (FirstContext executors scanners h b ctx dest).2
    = ready (ToSelectSQL (Limit h b 1).1 (Limit h b 1).2).1 SentQueryRow
  ∧ handed (InsertContext (Dest:=Dest) executors h b ctx data).2
    = ready (ToInsertSQL h b data).1 SentExec
  ∧ handed (UpdateContext (Dest:=Dest) executors h b ctx data).2
    = ready (ToUpdateSQL h b data).1 SentExec
  ∧ handed (DeleteContext (Dest:=Dest) executors h b ctx).2
    = ready (ToDeleteSQL h b).1 SentExec
  ∧ handed (CountContext (Dest:=Dest) is_ErrNoRows executors Scan_int64
              h b ctx).2
    = match grammar b with
      | Some g => ready (g_CompileCount g (asQueryBuilder h b) "") SentQueryRow
      | None => []
      end
  ∧ handed (ExistsContext (Dest:=Dest) executors Scan_bool h b ctx).2
    = match grammar b with
      | Some g => ready (g_CompileExists g (asQueryBuilder h b)) SentQueryRow
      | None => []
      end.
Proof.
  intros ready. subst ready. cbv beta.
  split; [apply handed_GetContext|].
  split; [apply handed_FirstContext|].
  split; [apply handed_exec|].
  split; [apply handed_exec|].
  split; [apply handed_exec|].
  unfold CountContext, ExistsContext.
  destruct (executor b) as [ex|]; [|by destruct (grammar b)].
  destruct (grammar b) as [g|]; [|done]. split.
  - destruct (g_CompileCount _ _ _) as [[sqlStr args] [ce|]]; [done|].
    cbv zeta. destruct (Scan_int64 _) as [count [se|]]; [|done].
    by destruct (is_ErrNoRows se).
  - destruct (g_CompileExists _ _) as [[sqlStr args] [ce|]]; [done|].
    cbv zeta. by destruct (Scan_bool _) as [ex' [se|]].
Qed.

End execution.

Lemma First_leaves_its_limit_on_the_builder_witness :
  Forall (valid sample.heap) (flat_map slices sample.session)
  ∧ handed
      (fluentsql.GetContext sample.database sample.scanning
         sample.afterFirst.1.1.1 sample.afterFirst.1.1.2 tt tt).2
    = [fluentsql.SentQuery
         "SELECT * FROM `users` WHERE `id` IN (?, ?, ?) AND (`a` = ?) LIMIT 1"
         [AnyInt 1; AnyInt 2; AnyInt 3; AnyInt 1]].
Proof.
  assert (Forall (valid sample.heap) (flat_map slices sample.session)) as H.
  { repeat constructor. apply sample_vals_valid. }
  split; [exact H|].
  destruct (First_leaves_its_limit_on_the_builder sample.doubling unit unit
              unit unit unit unit sample.database sample.scanning
              sample.session sample.heap (Some 1%positive) (MySQL map_keys)
              (Some 2%positive) tt tt tt tt H) as (_ & _ & E & _).
  etrans; [exact E|]. by vm_compute.
Defined.

Lemma DoesntExist_is_true_beside_every_error_witness :
  (fluentsql.DoesntExistContext (Dest:=unit) sample.database
     sample.failingScan sample.connected.1 sample.connected.2 tt).1.2
  = fluentsql.Return
      (true,
       Some (fluentsql.QueryError "exists" "users"
               "SELECT EXISTS(SELECT 1 FROM `users` LIMIT 1)" tt))
  ∧ (fluentsql.ExistsContext (Dest:=unit) sample.database
       sample.failingScan sample.connected.1 sample.connected.2 tt).1.2
    = fluentsql.Return
        (false,
         Some (fluentsql.QueryError "exists" "users"
                 "SELECT EXISTS(SELECT 1 FROM `users` LIMIT 1)" tt)).
Proof.
  assert ((fluentsql.DoesntExistContext (Dest:=unit) sample.database
             sample.failingScan sample.connected.1 sample.connected.2 tt).1.2
          = fluentsql.Return
              (true,
               Some (fluentsql.QueryError "exists" "users"
                       "SELECT EXISTS(SELECT 1 FROM `users` LIMIT 1)" tt)))
    as H by (by vm_compute).
  split; [exact H|].
  exact (proj1 (proj2 (DoesntExist_is_true_beside_every_error unit unit unit
                         unit unit unit sample.database sample.failingScan
                         sample.connected.1 sample.connected.2 tt true _ H))).
Defined.
